(** * MultiPCM (Yamaha YMW-258-F) sound core: register interface, envelope
      generator and per-voice render step of [src/devices/sound/multipcm.cpp].

    The device is embedded as pure state-passing functions over records.
    Machine integers are [Z] with their wrap-around written out.  An array
    access whose index the code does not bound returns [None] when the index
    leaves the array, so that every out-of-bounds access is visible in the
    result type.

    The helpers of the Windows front end that the same source file holds
    ([MyStrStrI], [ConvertToWindowsNewlines], the driver cache word,
    [CenterWindow]) and [GetGameHistory] are embedded after the device. *)

From Stdlib Require Import ZArith Lia Bool List.
From Stdlib Require Import Floats.SpecFloat.
From stdpp Require Import base option list.
Import ListNotations.
Local Open Scope Z_scope.

(** ** Machine integers *)

Definition u8 (x : Z) : Z := x mod 2 ^ 8.
Definition u32 (x : Z) : Z := x mod 2 ^ 32.
Definition s16 (x : Z) : Z := (x + 2 ^ 15) mod 2 ^ 16 - 2 ^ 15.
Definition s32 (x : Z) : Z := (x + 2 ^ 31) mod 2 ^ 32 - 2 ^ 31.

(** [a[i]] for a C array held as a list: defined only inside the array. *)
Definition idx {A : Type} (a : list A) (i : Z) : option A :=
  if 0 <=? i then a !! Z.to_nat i else None.

(** [a[i] = v] under the same convention. *)
Definition upd {A : Type} (a : list A) (i : Z) (v : A) : option (list A) :=
  if (0 <=? i) && (i <? Z.of_nat (length a))
  then Some (<[Z.to_nat i := v]> a) else None.

(** The numbers [0 .. n-1], the range of a counting [for] loop. *)
Definition upto (n : nat) : list Z := map Z.of_nat (seq 0 n).

(** Reading a register of the 8-byte register image at a constant index. *)
Definition reg (regs : list Z) (i : nat) : Z := default 0 (regs !! i).

(** ** Floating point

    Single-precision arithmetic is the IEEE 754 binary32 instance of the
    Standard Library's specification of floating-point operations
    (precision 24, [emax] 128, round to nearest even), double precision the
    binary64 instance (precision 53, [emax] 1024). *)

Definition f32_mul : spec_float -> spec_float -> spec_float := SFmul 24 128.
Definition f32_div : spec_float -> spec_float -> spec_float := SFdiv 24 128.
Definition f32_add : spec_float -> spec_float -> spec_float := SFadd 24 128.
Definition f32_sub : spec_float -> spec_float -> spec_float := SFsub 24 128.
Definition f64_mul : spec_float -> spec_float -> spec_float := SFmul 53 1024.
Definition f64_div : spec_float -> spec_float -> spec_float := SFdiv 53 1024.

(** Conversion of an integer, which also gives the literals [1.0], [4.0f],
    [-24.0f] and so on, all of them integers. *)
Definition f32_of_int (n : Z) : spec_float := binary_normalize 24 128 n 0 false.

Definition f32_zero : spec_float := S754_zero false.
Definition f32_one : spec_float := f32_of_int 1.

(** [uint32_t(f)]: truncation towards zero, defined when the truncated
    value is a [uint32_t]. *)
Definition f32_to_u32 (f : spec_float) : option Z :=
  match f with
  | S754_zero _ => Some 0
  | S754_finite s m e =>
      let t := Z.shiftl (Zpos m) e in
      let v := if s then - t else t in
      if (0 <=? v) && (v <? 2 ^ 32) then Some v else None
  | _ => None
  end.

(** [int32_t(f)], likewise. *)
Definition f32_to_s32 (f : spec_float) : option Z :=
  match f with
  | S754_zero _ => Some 0
  | S754_finite s m e =>
      let t := Z.shiftl (Zpos m) e in
      let v := if s then - t else t in
      if (- 2 ^ 31 <=? v) && (v <? 2 ^ 31) then Some v else None
  | _ => None
  end.

(** An integer as a double, and [(float)d] for a double [d]. *)
Definition f64_of_int (n : Z) : spec_float := binary_normalize 53 1024 n 0 false.

Definition f32_of_f64 (d : spec_float) : spec_float :=
  match d with
  | S754_finite s m e =>
      binary_normalize 24 128 (if s then Zneg m else Zpos m) e s
  | _ => d
  end.

(** A decimal literal [n / 10 ^ k] is the correctly rounded quotient of two
    integers that are exact in the format. *)
Definition f32_decimal (n k : Z) : spec_float :=
  f32_div (f32_of_int n) (f32_of_int (10 ^ k)).
Definition f64_decimal (n k : Z) : spec_float :=
  f64_div (f64_of_int n) (f64_of_int (10 ^ k)).

(** ** Data model

    The structure declarations live in the header [multipcm.h], which is not
    among the sources.  The records below list the members the code names;
    integer members are held as [Z], and every store wraps to the width of
    the C++ expression being stored where the source shows it. *)

Module Sample.
Record t := mk {
  m_start : Z;
  m_loop : Z;
  m_end : Z;
  m_attack_reg : Z;
  m_decay1_reg : Z;
  m_decay2_reg : Z;
  m_decay_level : Z;
  m_release_reg : Z;
  m_key_rate_scale : Z;
  m_lfo_vibrato_reg : Z;
  m_lfo_amplitude_reg : Z;
  m_format : Z
}.
End Sample.

(** The four states named by the code; [OTHER] stands for any other value of
    the enumeration, which the [default:] branch of
    [envelope_generator_update] covers. *)
Inductive state_t := ATTACK | DECAY1 | DECAY2 | RELEASE | OTHER.

Module EnvGen.
Record t := mk {
  m_volume : Z;
  m_state : state_t;
  step : Z;
  m_attack_rate : Z;
  m_decay1_rate : Z;
  m_decay2_rate : Z;
  m_release_rate : Z;
  m_decay_level : Z
}.
End EnvGen.

Module Lfo.
(** [m_table] and [m_scale] are pointers to chip-wide tables that never
    change after start-up; they are held by value.  The null pointer of a
    never-configured LFO is the empty list. *)
Record t := mk {
  m_phase : Z;
  m_phase_step : Z;
  m_table : list Z;
  m_scale : list Z
}.
End Lfo.

Module Slot.
Record t := mk {
  m_regs : list Z;
  m_playing : bool;
  m_base : Z;
  m_offset : Z;
  m_step : Z;
  m_pan : Z;
  m_total_level : Z;
  m_dest_total_level : Z;
  m_total_level_step : Z;
  m_prev_sample : Z;
  m_sample : Sample.t;
  m_envelope_gen : EnvGen.t;
  m_pitch_lfo : Lfo.t;
  m_amplitude_lfo : Lfo.t;
  m_format : Z
}.

Definition set_regs (s : t) (v : list Z) : t :=
  mk v (m_playing s) (m_base s) (m_offset s) (m_step s) (m_pan s)
     (m_total_level s) (m_dest_total_level s) (m_total_level_step s)
     (m_prev_sample s) (m_sample s) (m_envelope_gen s) (m_pitch_lfo s)
     (m_amplitude_lfo s) (m_format s).
Definition set_playing (s : t) (v : bool) : t :=
  mk (m_regs s) v (m_base s) (m_offset s) (m_step s) (m_pan s)
     (m_total_level s) (m_dest_total_level s) (m_total_level_step s)
     (m_prev_sample s) (m_sample s) (m_envelope_gen s) (m_pitch_lfo s)
     (m_amplitude_lfo s) (m_format s).
Definition set_base (s : t) (v : Z) : t :=
  mk (m_regs s) (m_playing s) v (m_offset s) (m_step s) (m_pan s)
     (m_total_level s) (m_dest_total_level s) (m_total_level_step s)
     (m_prev_sample s) (m_sample s) (m_envelope_gen s) (m_pitch_lfo s)
     (m_amplitude_lfo s) (m_format s).
Definition set_offset (s : t) (v : Z) : t :=
  mk (m_regs s) (m_playing s) (m_base s) v (m_step s) (m_pan s)
     (m_total_level s) (m_dest_total_level s) (m_total_level_step s)
     (m_prev_sample s) (m_sample s) (m_envelope_gen s) (m_pitch_lfo s)
     (m_amplitude_lfo s) (m_format s).
Definition set_step (s : t) (v : Z) : t :=
  mk (m_regs s) (m_playing s) (m_base s) (m_offset s) v (m_pan s)
     (m_total_level s) (m_dest_total_level s) (m_total_level_step s)
     (m_prev_sample s) (m_sample s) (m_envelope_gen s) (m_pitch_lfo s)
     (m_amplitude_lfo s) (m_format s).
Definition set_pan (s : t) (v : Z) : t :=
  mk (m_regs s) (m_playing s) (m_base s) (m_offset s) (m_step s) v
     (m_total_level s) (m_dest_total_level s) (m_total_level_step s)
     (m_prev_sample s) (m_sample s) (m_envelope_gen s) (m_pitch_lfo s)
     (m_amplitude_lfo s) (m_format s).
Definition set_total_level (s : t) (v : Z) : t :=
  mk (m_regs s) (m_playing s) (m_base s) (m_offset s) (m_step s) (m_pan s)
     v (m_dest_total_level s) (m_total_level_step s)
     (m_prev_sample s) (m_sample s) (m_envelope_gen s) (m_pitch_lfo s)
     (m_amplitude_lfo s) (m_format s).
Definition set_dest_total_level (s : t) (v : Z) : t :=
  mk (m_regs s) (m_playing s) (m_base s) (m_offset s) (m_step s) (m_pan s)
     (m_total_level s) v (m_total_level_step s)
     (m_prev_sample s) (m_sample s) (m_envelope_gen s) (m_pitch_lfo s)
     (m_amplitude_lfo s) (m_format s).
Definition set_total_level_step (s : t) (v : Z) : t :=
  mk (m_regs s) (m_playing s) (m_base s) (m_offset s) (m_step s) (m_pan s)
     (m_total_level s) (m_dest_total_level s) v
     (m_prev_sample s) (m_sample s) (m_envelope_gen s) (m_pitch_lfo s)
     (m_amplitude_lfo s) (m_format s).
Definition set_prev_sample (s : t) (v : Z) : t :=
  mk (m_regs s) (m_playing s) (m_base s) (m_offset s) (m_step s) (m_pan s)
     (m_total_level s) (m_dest_total_level s) (m_total_level_step s)
     v (m_sample s) (m_envelope_gen s) (m_pitch_lfo s)
     (m_amplitude_lfo s) (m_format s).
Definition set_sample (s : t) (v : Sample.t) : t :=
  mk (m_regs s) (m_playing s) (m_base s) (m_offset s) (m_step s) (m_pan s)
     (m_total_level s) (m_dest_total_level s) (m_total_level_step s)
     (m_prev_sample s) v (m_envelope_gen s) (m_pitch_lfo s)
     (m_amplitude_lfo s) (m_format s).
Definition set_envelope_gen (s : t) (v : EnvGen.t) : t :=
  mk (m_regs s) (m_playing s) (m_base s) (m_offset s) (m_step s) (m_pan s)
     (m_total_level s) (m_dest_total_level s) (m_total_level_step s)
     (m_prev_sample s) (m_sample s) v (m_pitch_lfo s)
     (m_amplitude_lfo s) (m_format s).
Definition set_pitch_lfo (s : t) (v : Lfo.t) : t :=
  mk (m_regs s) (m_playing s) (m_base s) (m_offset s) (m_step s) (m_pan s)
     (m_total_level s) (m_dest_total_level s) (m_total_level_step s)
     (m_prev_sample s) (m_sample s) (m_envelope_gen s) v
     (m_amplitude_lfo s) (m_format s).
Definition set_amplitude_lfo (s : t) (v : Lfo.t) : t :=
  mk (m_regs s) (m_playing s) (m_base s) (m_offset s) (m_step s) (m_pan s)
     (m_total_level s) (m_dest_total_level s) (m_total_level_step s)
     (m_prev_sample s) (m_sample s) (m_envelope_gen s) (m_pitch_lfo s)
     v (m_format s).
Definition set_format (s : t) (v : Z) : t :=
  mk (m_regs s) (m_playing s) (m_base s) (m_offset s) (m_step s) (m_pan s)
     (m_total_level s) (m_dest_total_level s) (m_total_level_step s)
     (m_prev_sample s) (m_sample s) (m_envelope_gen s) (m_pitch_lfo s)
     (m_amplitude_lfo s) v.
End Slot.

(** The envelope members a step of the generator writes. *)
Definition set_volume (g : EnvGen.t) (v : Z) : EnvGen.t :=
  EnvGen.mk v (EnvGen.m_state g) (EnvGen.step g) (EnvGen.m_attack_rate g)
    (EnvGen.m_decay1_rate g) (EnvGen.m_decay2_rate g)
    (EnvGen.m_release_rate g) (EnvGen.m_decay_level g).
Definition set_state (g : EnvGen.t) (v : state_t) : EnvGen.t :=
  EnvGen.mk (EnvGen.m_volume g) v (EnvGen.step g) (EnvGen.m_attack_rate g)
    (EnvGen.m_decay1_rate g) (EnvGen.m_decay2_rate g)
    (EnvGen.m_release_rate g) (EnvGen.m_decay_level g).

(** Chip-wide tables, filled once by [device_start] and [lfo_init] and
    read-only afterwards.  Most of them come out of single-precision
    [powf] and division, so the register and render code is embedded over an
    arbitrary table contents.

    The declaration of [m_rate], the output sample rate, is in the header
    [multipcm.h], which is not among the sources.  [device_start] and
    [device_clock_changed] assign it the [float] quotient
    [(float)clock() / clock_divider], so it is held as a single-precision
    number.  The last member, [lfo_phase_step f], stands for the phase step
    that [lfo_compute_step] derives from [LFO_FREQ[f]] and the rate. *)
Record tables := {
  m_attack_step : list Z;
  m_decay_release_step : list Z;
  m_freq_step_table : list Z;
  m_left_pan_table : list Z;
  m_right_pan_table : list Z;
  m_linear_to_exp_volume : list Z;
  m_total_level_steps : list Z;
  m_pitch_table : list Z;
  m_amplitude_table : list Z;
  m_pitch_scale_tables : list (list Z);
  m_amplitude_scale_tables : list (list Z);
  m_rate : spec_float;
  lfo_phase_step : Z -> Z
}.

Record device := {
  m_slots : list Slot.t;
  m_cur_slot : Z;
  m_address : Z
}.

Definition VALUE_TO_CHANNEL : list Z :=
  [ 0;  1;  2;  3;  4;  5;  6; -1;
    7;  8;  9; 10; 11; 12; 13; -1;
   14; 15; 16; 17; 18; 19; 20; -1;
   21; 22; 23; 24; 25; 26; 27; -1].


(** ** The device code *)

Section Device.

(** Fixed-point shift constants of the missing header. *)
Variables TL_SHIFT EG_SHIFT LFO_SHIFT : Z.

(** Contents of the sample ROM; [read_byte] returns a [uint8_t]. *)
Variable rom : Z -> Z.

(** The tables of the running device. *)
Variable T : tables.

Definition read_byte (address : Z) : Z := u8 (rom address).

Definition init_sample (index : Z) : Sample.t :=
  let address := u32 (index * 12) in
  let rb k := read_byte (u32 (address + k)) in
  let start := Z.lor (Z.lor (Z.shiftl (rb 0) 16) (Z.shiftl (rb 1) 8)) (rb 2) in
  {| Sample.m_start := Z.land start 0x3fffff;
     Sample.m_format := Z.land (Z.shiftr start 20) 0xfe;
     Sample.m_loop := Z.lor (Z.shiftl (rb 3) 8) (rb 4);
     Sample.m_end := 0xffff - Z.lor (Z.shiftl (rb 5) 8) (rb 6);
     Sample.m_attack_reg := Z.land (Z.shiftr (rb 8) 4) 0xf;
     Sample.m_decay1_reg := Z.land (rb 8) 0xf;
     Sample.m_decay2_reg := Z.land (rb 9) 0xf;
     Sample.m_decay_level := Z.land (Z.shiftr (rb 9) 4) 0xf;
     Sample.m_release_reg := Z.land (rb 10) 0xf;
     Sample.m_key_rate_scale := Z.land (Z.shiftr (rb 10) 4) 0xf;
     Sample.m_lfo_vibrato_reg := rb 7;
     Sample.m_lfo_amplitude_reg := Z.land (rb 11) 0xf |}.

(** [get_rate(steps, rate, val)]: [rate] arrives as a [uint32_t], the sum is
    formed in 32 unsigned bits and stored in the [int32_t r]. *)
Definition get_rate_index (rate val : Z) : Z :=
  let r := s32 (u32 (4 * val + rate)) in
  if val =? 0 then 0
  else if val =? 0xf then 0x3f
  else if r >? 0x3f then 0x3f else r.

Definition get_rate (steps : list Z) (rate val : Z) : option Z :=
  idx steps (get_rate_index rate val).

(** The two locals of [envelope_generator_calc]. *)
Definition calc_octave (regs3 : Z) : Z :=
  let octave := Z.land (Z.shiftr regs3 4 - 1) 0xf in
  if Z.land octave 8 =? 0 then octave else octave - 16.

Definition calc_rate (slot : Slot.t) : Z :=
  let regs3 := reg (Slot.m_regs slot) 3 in
  let krs := Sample.m_key_rate_scale (Slot.m_sample slot) in
  if krs =? 0xf then 0
  else (calc_octave regs3 + krs) * 2 + Z.land (Z.shiftr regs3 3) 1.

Definition envelope_generator_calc (slot : Slot.t) : option Slot.t :=
  let rate := u32 (calc_rate slot) in
  let smp := Slot.m_sample slot in
  let g := Slot.m_envelope_gen slot in
  ar ← get_rate (m_attack_step T) rate (Sample.m_attack_reg smp);
  d1r ← get_rate (m_decay_release_step T) rate (Sample.m_decay1_reg smp);
  d2r ← get_rate (m_decay_release_step T) rate (Sample.m_decay2_reg smp);
  rr ← get_rate (m_decay_release_step T) rate (Sample.m_release_reg smp);
  Some (Slot.set_envelope_gen slot
          (EnvGen.mk (EnvGen.m_volume g) (EnvGen.m_state g) (EnvGen.step g)
             ar d1r d2r rr (0xf - Sample.m_decay_level smp))).

Definition retrigger_sample (slot : Slot.t) : option Slot.t :=
  let slot := Slot.set_offset slot 0 in
  let slot := Slot.set_prev_sample slot 0 in
  let slot := Slot.set_total_level slot
                (u32 (Z.shiftl (Slot.m_dest_total_level slot) TL_SHIFT)) in
  slot ← envelope_generator_calc slot;
  let g := set_state (Slot.m_envelope_gen slot) ATTACK in
  Some (Slot.set_envelope_gen slot (set_volume g 0)).

Definition store_volume (slot : Slot.t) (v : Z) : Slot.t :=
  Slot.set_envelope_gen slot (set_volume (Slot.m_envelope_gen slot) v).

Definition store_state (slot : Slot.t) (st : state_t) : Slot.t :=
  Slot.set_envelope_gen slot (set_state (Slot.m_envelope_gen slot) st).

(** Returns the slot after the step together with the gain. *)
Definition envelope_generator_update (slot : Slot.t) : option (Slot.t * Z) :=
  let g := Slot.m_envelope_gen slot in
  let out (slot : Slot.t) :=
    v ← idx (m_linear_to_exp_volume T)
            (Z.shiftr (EnvGen.m_volume (Slot.m_envelope_gen slot)) EG_SHIFT);
    Some (slot, v) in
  match EnvGen.m_state g with
  | ATTACK =>
      let slot := store_volume slot
                    (s32 (EnvGen.m_volume g + EnvGen.m_attack_rate g)) in
      out (if EnvGen.m_volume (Slot.m_envelope_gen slot)
                >=? Z.shiftl 0x3ff EG_SHIFT
           then
             let slot := store_state slot DECAY1 in
             let slot :=
               if EnvGen.m_decay1_rate g >=? Z.shiftl 0x400 EG_SHIFT
               then store_state slot DECAY2 else slot in
             store_volume slot (Z.shiftl 0x3ff EG_SHIFT)
           else slot)
  | DECAY1 =>
      let slot := store_volume slot
                    (s32 (EnvGen.m_volume g - EnvGen.m_decay1_rate g)) in
      let slot := if EnvGen.m_volume (Slot.m_envelope_gen slot) <=? 0
                  then store_volume slot 0 else slot in
      out (if Z.shiftr (EnvGen.m_volume (Slot.m_envelope_gen slot)) EG_SHIFT
                <=? Z.shiftl (EnvGen.m_decay_level g) 6
           then store_state slot DECAY2 else slot)
  | DECAY2 =>
      let slot := store_volume slot
                    (s32 (EnvGen.m_volume g - EnvGen.m_decay2_rate g)) in
      out (if EnvGen.m_volume (Slot.m_envelope_gen slot) <=? 0
           then store_volume slot 0 else slot)
  | RELEASE =>
      let slot := store_volume slot
                    (s32 (EnvGen.m_volume g - EnvGen.m_release_rate g)) in
      out (if EnvGen.m_volume (Slot.m_envelope_gen slot) <=? 0
           then Slot.set_playing (store_volume slot 0) false else slot)
  | OTHER => Some (slot, Z.shiftl 1 TL_SHIFT)
  end.

(** [lfo_compute_step]; the scale index is a 3-bit field at both call sites
    and each scale array holds 8 tables. *)
Definition lfo_compute_step (lfo : Lfo.t) (lfo_frequency lfo_scale : Z)
    (amplitude_lfo : bool) : Lfo.t :=
  let step := lfo_phase_step T lfo_frequency in
  if amplitude_lfo
  then Lfo.mk (Lfo.m_phase lfo) step (m_amplitude_table T)
         (default [] (m_amplitude_scale_tables T !! Z.to_nat lfo_scale))
  else Lfo.mk (Lfo.m_phase lfo) step (m_pitch_table T)
         (default [] (m_pitch_scale_tables T !! Z.to_nat lfo_scale)).

(** Cases 6 and 7 of [write_slot], which share one body.  They are also what
    the two nested [write_slot] calls of case 1 execute. *)
Definition write_slot_lfo (slot : Slot.t) (r : Z) (data : Z) : option Slot.t :=
  regs ← upd (Slot.m_regs slot) r data;
  let slot := Slot.set_regs slot regs in
  if data =? 0 then Some slot
  else
    let f := Z.land (Z.shiftr (reg regs 6) 3) 7 in
    let slot := Slot.set_pitch_lfo slot
                  (lfo_compute_step (Slot.m_pitch_lfo slot) f
                     (Z.land (reg regs 6) 7) false) in
    Some (Slot.set_amplitude_lfo slot
            (lfo_compute_step (Slot.m_amplitude_lfo slot) f
               (Z.land (reg regs 7) 7) true)).

(** The shift of cases 2 and 3: [oct] is the [uint32_t] local. *)
Definition pitch_shift (oct pitch : Z) : Z :=
  if Z.land oct 8 =? 0 then u32 (Z.shiftl pitch oct)
  else Z.shiftr pitch (16 - oct).

(** [pitch / m_rate], the value cases 2 and 3 store in [slot.m_step]: the
    [uint32_t] pitch is converted to [float], divided by the rate in single
    precision, and the quotient is converted to the [uint32_t] step. *)
Definition pitch_by_rate (pitch : Z) : option Z :=
  f32_to_u32 (f32_div (f32_of_int pitch) (m_rate T)).

Definition write_slot (slot : Slot.t) (r : Z) (data : Z) : option Slot.t :=
  match r with
  | 6 | 7 => write_slot_lfo slot r data
  | _ =>
    regs ← upd (Slot.m_regs slot) r data;
    let slot := Slot.set_regs slot regs in
    match r with
    | 0 => Some (Slot.set_pan slot (Z.land (Z.shiftr data 4) 0xf))
    | 1 =>
        let smp := init_sample
                     (Z.lor (reg regs 1) (Z.shiftl (Z.land (reg regs 2) 1) 8)) in
        let slot := Slot.set_sample slot smp in
        slot ← write_slot_lfo slot 6 (Sample.m_lfo_vibrato_reg smp);
        slot ← write_slot_lfo slot 7 (Sample.m_lfo_amplitude_reg smp);
        let slot := Slot.set_base slot (Sample.m_start smp) in
        let slot := Slot.set_format slot (Sample.m_format smp) in
        if Slot.m_playing slot then retrigger_sample slot else Some slot
    | 2 | 3 =>
        let oct := u32 (Z.land (Z.shiftr (reg regs 3) 4 - 1) 0xf) in
        let pitch := Z.lor (Z.shiftl (Z.land (reg regs 3) 0xf) 6)
                           (Z.shiftr (reg regs 2) 2) in
        pitch ← idx (m_freq_step_table T) pitch;
        step ← pitch_by_rate (pitch_shift oct pitch);
        Some (Slot.set_step slot step)
    | 4 =>
        if Z.land data 0x80 =? 0
        then
          if Slot.m_playing slot
          then
            if Sample.m_release_reg (Slot.m_sample slot) =? 0xf
            then Some (Slot.set_playing slot false)
            else Some (store_state slot RELEASE)
          else Some slot
        else retrigger_sample (Slot.set_playing slot true)
    | 5 =>
        let slot := Slot.set_dest_total_level slot
                      (Z.land (Z.shiftr data 1) 0x7f) in
        if Z.land data 1 =? 0
        then
          if Z.shiftr (Slot.m_total_level slot) TL_SHIFT
               >? Slot.m_dest_total_level slot
          then st ← idx (m_total_level_steps T) 0;
               Some (Slot.set_total_level_step slot st)
          else st ← idx (m_total_level_steps T) 1;
               Some (Slot.set_total_level_step slot st)
        else Some (Slot.set_total_level slot
                     (u32 (Z.shiftl (Slot.m_dest_total_level slot) TL_SHIFT)))
    | _ => Some slot
    end
  end.

(** [read()] returns the constant and has no assignment in its body. *)
Definition read (d : device) : Z * device := (0, d).

(** [write(offset, data)]: there is no [default:] branch. *)
Definition write (d : device) (offset data : Z) : option device :=
  match offset with
  | 0 =>
      slot ← idx (m_slots d) (m_cur_slot d);
      slot ← write_slot slot (m_address d) data;
      slots ← upd (m_slots d) (m_cur_slot d) slot;
      Some {| m_slots := slots; m_cur_slot := m_cur_slot d;
              m_address := m_address d |}
  | 1 =>
      c ← idx VALUE_TO_CHANNEL (Z.land data 0x1f);
      Some {| m_slots := m_slots d; m_cur_slot := c;
              m_address := m_address d |}
  | 2 =>
      Some {| m_slots := m_slots d; m_cur_slot := m_cur_slot d;
              m_address := if data >? 7 then 7 else data |}
  | _ => Some d
  end.

(** ** Rendering *)

(** [pitch_lfo_step] and [amplitude_lfo_step] have the same body.  The phase
    accumulator is wrapped like the 32-bit step that is added to it. *)
Definition lfo_step (lfo : Lfo.t) : option (Lfo.t * Z) :=
  let phase := u32 (Lfo.m_phase lfo + Lfo.m_phase_step lfo) in
  let lfo := Lfo.mk phase (Lfo.m_phase_step lfo) (Lfo.m_table lfo)
               (Lfo.m_scale lfo) in
  p ← idx (Lfo.m_table lfo) (Z.land (Z.shiftr phase LFO_SHIFT) 0xff);
  p ← idx (Lfo.m_scale lfo) p;
  Some (lfo, s32 (Z.shiftl p (TL_SHIFT - LFO_SHIFT))).

Definition pitch_lfo_step := lfo_step.
Definition amplitude_lfo_step := lfo_step.

(** The sample at position [spos], in the format of the slot. *)
Definition decode_sample (slot : Slot.t) (spos : Z) : Z :=
  let rb a := read_byte (u32 a) in
  if Z.land (Slot.m_format slot) 8 =? 0
  then s16 (Z.shiftl (rb (Slot.m_base slot + spos)) 8)
  else
    let adr := u32 (Slot.m_base slot + Z.shiftr spos 2 * 6) in
    match Z.land spos 3 with
    | 0 => s16 (Z.lor (Z.shiftl (rb adr) 8)
                      (Z.shiftl (Z.land (rb (adr + 1)) 0xf) 4))
    | 1 => s16 (Z.lor (Z.shiftl (rb (adr + 2)) 8) (Z.land (rb (adr + 1)) 0xf0))
    | 2 => s16 (Z.lor (Z.shiftl (rb (adr + 3)) 8)
                      (Z.shiftl (Z.land (rb (adr + 4)) 0xf) 4))
    | 3 => s16 (Z.lor (Z.shiftl (rb (adr + 5)) 8) (Z.land (rb (adr + 4)) 0xf0))
    | _ => 0
    end.

(** [slot.m_offset += step] followed by the loop test. *)
Definition advance_offset (slot : Slot.t) (step : Z) : Slot.t :=
  let slot := Slot.set_offset slot (u32 (Slot.m_offset slot + step)) in
  if Slot.m_offset slot
       >=? u32 (Z.shiftl (Sample.m_end (Slot.m_sample slot)) TL_SHIFT)
  then Slot.set_offset slot
         (u32 (Z.shiftl (Sample.m_loop (Slot.m_sample slot)) TL_SHIFT))
  else slot.

(** The total-level ramp of one output sample. *)
Definition ramp_total_level (slot : Slot.t) : Slot.t :=
  if Z.shiftr (Slot.m_total_level slot) TL_SHIFT
       =? Slot.m_dest_total_level slot
  then slot
  else Slot.set_total_level slot
         (u32 (Slot.m_total_level slot + Slot.m_total_level_step slot)).

(** The body of the voice loop of [sound_stream_update] for a playing slot:
    the slot afterwards and what it adds to [smpl] and [smpr]. *)
Definition update_slot (slot : Slot.t) : option (Slot.t * (Z * Z)) :=
  let vol := Z.lor (Z.shiftr (Slot.m_total_level slot) TL_SHIFT)
                   (u32 (Z.shiftl (Slot.m_pan slot) 7)) in
  let spos := Z.shiftr (Slot.m_offset slot) TL_SHIFT in
  let step := Slot.m_step slot in
  let fpart := Z.land (Slot.m_offset slot) (Z.shiftl 1 TL_SHIFT - 1) in
  let csample := decode_sample slot spos in
  let sample :=
    Z.shiftr (s32 (csample * fpart
                   + Slot.m_prev_sample slot * (Z.shiftl 1 TL_SHIFT - fpart)))
             TL_SHIFT in
  '(slot, step) ←
    (if Z.land (reg (Slot.m_regs slot) 6) 7 =? 0 then Some (slot, step)
     else
       '(lfo, v) ← pitch_lfo_step (Slot.m_pitch_lfo slot);
       Some (Slot.set_pitch_lfo slot lfo,
             Z.shiftr (u32 (step * v)) TL_SHIFT));
  let slot := advance_offset slot step in
  let slot :=
    if spos =? Z.shiftr (Slot.m_offset slot) TL_SHIFT then slot
    else Slot.set_prev_sample slot csample in
  let slot := ramp_total_level slot in
  '(slot, sample) ←
    (if Z.land (reg (Slot.m_regs slot) 7) 7 =? 0 then Some (slot, sample)
     else
       '(lfo, v) ← amplitude_lfo_step (Slot.m_amplitude_lfo slot);
       Some (Slot.set_amplitude_lfo slot lfo,
             Z.shiftr (s32 (sample * v)) TL_SHIFT));
  '(slot, gain) ← envelope_generator_update slot;
  let sample := Z.shiftr (s32 (sample * gain)) 10 in
  l ← idx (m_left_pan_table T) vol;
  r ← idx (m_right_pan_table T) vol;
  Some (slot, (Z.shiftr (s32 (l * sample)) TL_SHIFT,
               Z.shiftr (s32 (r * sample)) TL_SHIFT)).

(** The voice loop for one output sample; voices that are not playing are
    skipped. *)
Fixpoint update_slots (slots : list Slot.t) (smpl smpr : Z)
    : option (list Slot.t * (Z * Z)) :=
  match slots with
  | [] => Some ([], (smpl, smpr))
  | slot :: rest =>
      '(slot, (l, r)) ←
        (if Slot.m_playing slot then update_slot slot
         else Some (slot, (0, 0)));
      '(rest, out) ← update_slots rest (s32 (smpl + l)) (s32 (smpr + r));
      Some (slot :: rest, out)
  end.

(** Modelled from the spec: [put_int_clamp] belongs to the stream framework,
    which is outside the sources; section 6 has the output "clamped to a
    signed 16-bit range". *)
Definition put_int_clamp (x : Z) : Z := Z.max (-32768) (Z.min 32767 x).

(** [sound_stream_update] for [n] output samples: the device afterwards and
    the stereo pairs written. *)
Fixpoint sound_stream_update (n : nat) (d : device)
    : option (device * list (Z * Z)) :=
  match n with
  | O => Some (d, [])
  | S n =>
      '(slots, (l, r)) ← update_slots (m_slots d) 0 0;
      let d := {| m_slots := slots; m_cur_slot := m_cur_slot d;
                  m_address := m_address d |} in
      '(d, out) ← sound_stream_update n d;
      Some (d, (put_int_clamp l, put_int_clamp r) :: out)
  end.

End Device.

(** ** Start-up: the tables of [device_start]

    The two C library calls [powf(10.0f, x)] and [pow(10.0f, x)] are
    parameters. *)

Definition value_to_fixed (bits : Z) (value : spec_float) : option Z :=
  f32_to_u32 (f32_mul (f32_of_int (Z.shiftl 1 bits)) value).

(** [BASE_TIMES], in hundredths. *)
Definition BASE_TIMES_x100 : list Z :=
  [     0;      0;      0;      0;
   622295; 497837; 414866; 355601;
   311147; 248921; 207433; 177800;
   155574; 124463; 103719;  88902;
    77787;  62231;  51859;  44454;
    38893;  31116;  25932;  22227;
    19447;  15560;  12966;  11116;
     9723;   7782;   6485;   5560;
     4862;   3891;   3243;   2780;
     2431;   1946;   1624;   1392;
     1215;    975;    812;    698;
      608;    490;    408;    349;
      304;    249;    213;    190;
      172;    141;    118;    104;
       91;     73;     59;     50;
       45;     45;     45;     45].

Definition BASE_TIMES (i : Z) : option spec_float :=
  n ← idx BASE_TIMES_x100 i; Some (f64_decimal n 2).

Section StepTables.

Variables TL_SHIFT EG_SHIFT : Z.

(** The value the loop body stores in [m_attack_step[i]]. *)
Definition attack_step_of (i : Z) : option Z :=
  t ← BASE_TIMES i;
  f32_to_u32
    (f32_div (f32_of_int (Z.shiftl 0x400 EG_SHIFT))
       (f32_of_f64 (f64_div (f64_mul t (f64_of_int 44100))
                            (f64_of_int 1000)))).

(** The value the loop body stores in [m_decay_release_step[i]]. *)
Definition decay_release_step_of (i : Z) : option Z :=
  let attack_rate_to_decay_rate := f64_decimal 1432833 5 in
  t ← BASE_TIMES i;
  f32_to_u32
    (f32_div (f32_of_int (Z.shiftl 0x400 EG_SHIFT))
       (f32_of_f64
          (f64_div (f64_mul (f64_mul t attack_rate_to_decay_rate)
                            (f64_of_int 44100))
                   (f64_of_int 1000)))).

(** The envelope-step part of [device_start]: the loop runs from 4, the
    entries below 4 stay (and are again set to) 0, and the last attack step
    is overwritten. *)
Definition envelope_steps_init : option (list Z * list Z) :=
  a ← mapM (fun i => if i <? 4 then Some 0 else attack_step_of i)
           (upto 0x40);
  d ← mapM (fun i => if i <? 4 then Some 0 else decay_release_step_of i)
           (upto 0x40);
  a ← upd a 0x3f (u32 (Z.shiftl 0x400 EG_SHIFT));
  Some (a, d).

(** The two total-level interpolation steps, lower and raise. *)
Definition total_level_steps_init : option (list Z) :=
  let top := f32_of_int (Z.shiftl 0x80 TL_SHIFT) in
  let f78_2 := f32_decimal 782 1 in
  lower ← f32_to_s32
            (f32_div (SFopp top)
               (f32_div (f32_mul f78_2 (f32_of_int 44100))
                        (f32_of_int 1000)));
  raise ← f32_to_s32
            (f32_div top
               (f32_div (f32_mul (f32_mul f78_2 (f32_of_int 2))
                                 (f32_of_int 44100))
                        (f32_of_int 1000)));
  Some [lower; raise].

End StepTables.

(** The sample rate [device_start] and [device_clock_changed] derive from
    the clock: [(float)clock() / clock_divider] with the divider 224. *)
Definition rate_of_clock (clock : Z) : spec_float :=
  f32_div (f32_of_int clock) (f32_of_int 224).

(** The pitch-step loop of the two functions: the value stored in
    [m_freq_step_table[i]], and the table. *)
Definition freq_step_of (TL_SHIFT : Z) (rate : spec_float) (i : Z)
    : option Z :=
  let fcent := f32_div
                 (f32_mul rate (f32_add (f32_of_int 1024) (f32_of_int i)))
                 (f32_of_int 1024) in
  value_to_fixed TL_SHIFT fcent.

Definition freq_step_table_init (TL_SHIFT : Z) (rate : spec_float)
    : option (list Z) :=
  mapM (freq_step_of TL_SHIFT rate) (upto 0x400).

(** [for (i = 0; i < n; ++i) body], threading the state [a]. *)
Definition for_range {A : Type} (n : nat) (body : Z -> A -> option A) (a : A)
    : option A :=
  fold_left (fun acc i => a ← acc; body i a) (upto n) (Some a).

Section PanTable.

Variable TL_SHIFT : Z.
Variables powf10 pow10 : spec_float -> spec_float.

(** [total_level] of the outer loop. *)
Definition total_level_of (level : Z) : spec_float :=
  let vol_db := f32_div (f32_mul (f32_of_int level) (f32_of_int (-24)))
                        (f32_of_int 64) in
  f32_div (powf10 (f32_div vol_db (f32_of_int 20))) (f32_of_int 4).

(** The gain of a channel at deflection [d] from the other side. *)
Definition pan_gain (d : Z) : spec_float :=
  let pan_vol_db := f32_div (f32_mul (f32_of_int d) (f32_of_int (-12)))
                            (f32_of_int 4) in
  pow10 (f32_div pan_vol_db (f32_of_int 20)).

(** ([pan_left], [pan_right]) of the inner loop. *)
Definition pan_gains (pan : Z) : spec_float * spec_float :=
  if pan =? 0x8 then (f32_zero, f32_zero)
  else if pan =? 0x0 then (f32_one, f32_one)
  else if negb (Z.land pan 0x8 =? 0) then
    let inverted_pan := 0x10 - pan in
    let pan_right := pan_gain inverted_pan in
    (f32_one, if Z.land inverted_pan 0x7 =? 7 then f32_zero else pan_right)
  else
    let pan_left := pan_gain pan in
    (if Z.land pan 0x7 =? 7 then f32_zero else pan_left, f32_one).

(** The two stores that end the inner loop; the tables hold [int32_t]. *)
Definition pan_store (total_level : spec_float) (level pan : Z)
    (tabs : list Z * list Z) : option (list Z * list Z) :=
  let '(pan_left, pan_right) := pan_gains pan in
  l ← value_to_fixed TL_SHIFT (f32_mul pan_left total_level);
  lt ← upd (fst tabs) (Z.lor (Z.shiftl pan 7) level) (s32 l);
  r ← value_to_fixed TL_SHIFT (f32_mul pan_right total_level);
  rt ← upd (snd tabs) (Z.lor (Z.shiftl pan 7) level) (s32 r);
  Some (lt, rt).

(** The volume and pan loop of [device_start] over the two cleared
    0x800-entry arrays. *)
Definition pan_tables_init : option (list Z * list Z) :=
  for_range 0x80
    (fun level tabs =>
       let total_level := total_level_of level in
       for_range 0x10 (pan_store total_level level) tabs)
    (repeat 0 0x800, repeat 0 0x800).

(** The linear to exponential ramp. *)
Definition exp_volume_of (i : Z) : option Z :=
  let f96 := f32_of_int 96 in
  let db := SFopp (f32_sub f96 (f32_div (f32_mul f96 (f32_of_int i))
                                        (f32_of_int 0x400))) in
  let exp_volume := powf10 (f32_div db (f32_of_int 20)) in
  s32 <$> value_to_fixed TL_SHIFT exp_volume.

Definition linear_to_exp_volume_init : option (list Z) :=
  mapM exp_volume_of (upto 0x400).

End PanTable.

(** The table entry for a pan index and a level. *)
Definition pan_entry (table : list Z) (pan level : Z) : Z :=
  default 0 (table !! Z.to_nat (Z.lor (Z.shiftl pan 7) level)).

(** *** The value of a single-precision number

    For the bounds and the order of table entries a non-negative finite
    number is measured in units of 2^-149, the smallest positive binary32
    number, which makes its value an integer; an exact product of two such
    numbers is an integer in units of 2^-298. *)

(** Round to nearest, ties to even, of [m / 2 ^ k] for [k > 0]. *)
Definition rne_shr (m k : Z) : Z :=
  let q := m / 2 ^ k in
  let rem := m mod 2 ^ k in
  let half := 2 ^ (k - 1) in
  if rem <? half then q
  else if half <? rem then q + 1
  else if Z.even q then q else q + 1.


(** Finite, not negative, exponent at least -149. *)
Definition f32_ok (f : spec_float) : bool :=
  match f with
  | S754_zero _ => true
  | S754_finite false _ e => -149 <=? e
  | _ => false
  end.

(** The value in units of 2^-149. *)
Definition f32_units (f : spec_float) : Z :=
  match f with
  | S754_finite false m e => Zpos m * 2 ^ (e + 149)
  | _ => 0
  end.

(** Rounding to binary32 of a value [x] given in units of 2^-298; the
    result is in units of 2^-149. *)
Definition round_units (x : Z) : Z :=
  let k := Z.max (Z.log2 x - 23) 149 in
  rne_shr x k * 2 ^ (k - 149).


(** A gain: a finite number between 0 and 1. *)
Definition f32_gain (f : spec_float) : Prop :=
  f32_ok f = true /\ f32_units f <= 2 ^ 149.

(** The fixed-point value of gain [g] at level gain [t], in terms of the
    values of the two numbers. *)
Definition fixed_gain (TL_SHIFT : Z) (g t : spec_float) : Z :=
  round_units (2 ^ (TL_SHIFT + 149)
               * round_units (f32_units g * f32_units t)) / 2 ^ 149.


(** The entries stored so far, given which (level, pan) pairs are done. *)
Definition stored (left right : Z -> Z -> Z) (done : Z -> Z -> Prop)
    (tabs : list Z * list Z) : Prop :=
  length (fst tabs) = 0x800%nat /\ length (snd tabs) = 0x800%nat
  /\ forall level pan,
       0 <= level < 128 -> 0 <= pan < 16 -> done level pan ->
       pan_entry (fst tabs) pan level = s32 (left level pan)
       /\ pan_entry (snd tabs) pan level = s32 (right level pan).


(** ** A reference power of ten *)

(** A stand-in for the C library's single-precision power of ten, used to
    run the table loop: 10^x to 64 fractional bits, rounded to binary32.
    [pow10_roots] holds 10^(1/2), 10^(1/4), ... in fixed point (from the
    65th on they are 1 to 64 bits); the fractional bits of [x] select the
    roots that are multiplied together. *)
Definition POW_FRAC : Z := 64.

Fixpoint sqrt_ladder (n : nat) (root : Z) : list Z :=
  match n with
  | O => []
  | S n => let r := Z.sqrt (root * 2 ^ POW_FRAC) in r :: sqrt_ladder n r
  end.

Definition pow10_roots : list Z :=
  Eval vm_compute in sqrt_ladder 80 (10 * 2 ^ POW_FRAC).

Fixpoint pow10_frac (roots : list Z) (m e pos acc : Z) : Z :=
  match roots with
  | [] => acc
  | root :: roots =>
      let pos := pos - 1 in
      let acc := if Z.testbit m (pos - e)
                 then acc * root / 2 ^ POW_FRAC else acc in
      pow10_frac roots m e pos acc
  end.

Definition pow10_ref (x : spec_float) : spec_float :=
  match x with
  | S754_zero _ => f32_one
  | S754_infinity s => if s then f32_zero else x
  | S754_nan => S754_nan
  | S754_finite s m e =>
      if 8 <? Z.log2 (Zpos m) + e
      then (if s then f32_zero else S754_infinity false)
      else
        let n := Z.shiftl (Zpos m) e in
        let v := pow10_frac pow10_roots (Zpos m) e 0 (10 ^ n * 2 ^ POW_FRAC) in
        let v := if s then 2 ^ (2 * POW_FRAC) / v else v in
        binary_normalize 24 128 v (- POW_FRAC) false
  end.

(** The two tables the loop produces with it for [TL_SHIFT = 12]. *)
Definition pan_tables_ref : option (list Z * list Z) :=
  Eval vm_compute in pan_tables_init 12 pow10_ref pow10_ref.
Definition pan_left_ref : list Z :=
  Eval vm_compute in default [] (fst <$> pan_tables_ref).
Definition pan_right_ref : list Z :=
  Eval vm_compute in default [] (snd <$> pan_tables_ref).

(** The ramp it gives. *)
Definition linear_to_exp_volume_ref : list Z :=
  Eval vm_compute in default [] (linear_to_exp_volume_init 12 pow10_ref).


(** *** Power functions near the reference

    The tables are compared across power functions through intervals: a
    result of the library's function is taken to lie within 256 units in the
    last place of the reference result, which leaves room for the rounding
    of either. *)

(** The unit in the last place of a finite number, in units of 2^-149. *)
Definition ulp_units (f : spec_float) : Z :=
  match f with
  | S754_finite _ _ e => 2 ^ (e + 149)
  | _ => 0
  end.

(** The two ends of the interval around [ref], in units of 2^-149. *)
Definition near_lo (ref : spec_float) : Z :=
  f32_units ref - 256 * ulp_units ref.

Definition near_hi (ref : spec_float) : Z :=
  f32_units ref + 256 * ulp_units ref.

(** [x] is finite, not negative, and within 256 units in the last place of
    [ref]. *)
Definition f32_near (x ref : spec_float) : Prop :=
  f32_ok x = true /\ near_lo ref <= f32_units x <= near_hi ref.

(** [fixed_gain] on the values of the two numbers. *)
Definition fixed_units (TL_SHIFT a b : Z) : Z :=
  round_units (2 ^ (TL_SHIFT + 149) * round_units (a * b)) / 2 ^ 149.

(** The same two roundings with shifts for the powers of two, which
    evaluate faster. *)
Definition round_units_fast (x : Z) : Z :=
  let k := Z.max (Z.log2 x - 23) 149 in
  let q := Z.shiftr x k in
  let rem := x - Z.shiftl q k in
  let half := Z.shiftl 1 (k - 1) in
  Z.shiftl (if rem <? half then q
            else if half <? rem then q + 1
            else if Z.even q then q else q + 1) (k - 149).

Definition fixed_units_fast (TL_SHIFT a b : Z) : Z :=
  Z.shiftr (round_units_fast
              (Z.shiftl (round_units_fast (a * b)) (TL_SHIFT + 149))) 149.

(** The gain [pan_gains] gives the channel opposite to a deflection of [d]
    steps: 1.0 for pan 0, 0.0 at the extreme (pans 7 and 9), [pan_gain]
    between; and the interval for its value around the reference. *)
Definition deflection_gain (pow10 : spec_float -> spec_float) (d : Z)
    : spec_float :=
  if d =? 0 then f32_one else if d =? 7 then f32_zero else pan_gain pow10 d.

Definition deflection_lo (d : Z) : Z :=
  if (d =? 0) || (d =? 7) then f32_units (deflection_gain pow10_ref d)
  else near_lo (pan_gain pow10_ref d).

Definition deflection_hi (d : Z) : Z :=
  if (d =? 0) || (d =? 7) then f32_units (deflection_gain pow10_ref d)
  else near_hi (pan_gain pow10_ref d).

(** The intervals of the deflections 0 to 7, evaluated. *)
Definition deflection_bounds : list (Z * Z) :=
  Eval vm_compute in
    map (fun d => (deflection_lo d, deflection_hi d)) (upto 8).

Definition bound_lo (d : Z) : Z :=
  fst (default (0, 0) (deflection_bounds !! Z.to_nat d)).

Definition bound_hi (d : Z) : Z :=
  snd (default (0, 0) (deflection_bounds !! Z.to_nat d)).


(** ** A concrete device

    The state [device_start] leaves behind: 28 zero-initialised slots that
    are not playing.  The envelope steps, the total-level steps, the pan
    tables and the volume ramp are the values of the start-up code for
    [EG_SHIFT = 16] and [TL_SHIFT = 12], with the reference power of ten;
    the sample rate and the frequency steps are those of the start-up code
    for a clock of 8 MHz; the two waveform tables are those of [lfo_init].
    The scale tables of [lfo_init] and the LFO phase steps are stand-ins of
    the right shape. *)

Definition sample_init : Sample.t := Sample.mk 0 0 0 0 0 0 0 0 0 0 0 0.
Definition envelope_init : EnvGen.t := EnvGen.mk 0 ATTACK 0 0 0 0 0 0.
Definition lfo_init_state : Lfo.t := Lfo.mk 0 0 [] [].
Definition slot_init : Slot.t :=
  Slot.mk (repeat 0 8) false 0 0 0 0 0 0 0 0 sample_init envelope_init
    lfo_init_state lfo_init_state 0.
Definition device_init : device :=
  {| m_slots := repeat slot_init 28; m_cur_slot := 0; m_address := 0 |}.

(** The two waveform tables of [lfo_init], which are integer formulas. *)
Definition pitch_table_init : list Z :=
  map (fun i => if i <? 64 then i * 2 + 128
                else if i <? 128 then 383 - i * 2
                else if i <? 192 then 384 - i * 2
                else i * 2 - 383) (upto 256).

Definition amplitude_table_init : list Z :=
  map (fun i => if i <? 128 then 255 - i * 2 else i * 2 - 256) (upto 256).

Definition example_attack_step : list Z :=
  [0; 0; 0; 0; 244; 305; 366; 427; 489; 611; 733; 855; 978; 1222; 1467; 1711;
   1956; 2445; 2934; 3423; 3912; 4890; 5868; 6846; 7825; 9779; 11736; 13689;
   15650; 19554; 23465; 27369; 31298; 39109; 46923; 54738; 62597; 78198;
   93703; 109320; 125246; 156076; 187406; 218014; 250286; 310559; 372976;
   436029; 500573; 611141; 714433; 800917; 884734; 1079250; 1289612;
   1463214; 1672245; 2084579; 2579225; 3043486; 3381651; 3381651; 3381651;
   67108864].

Definition example_decay_release_step : list Z :=
  [0; 0; 0; 0; 17; 21; 25; 29; 34; 42; 51; 59; 68; 85; 102; 119; 136; 170;
   204; 238; 273; 341; 409; 477; 546; 682; 819; 955; 1092; 1364; 1637; 1910;
   2184; 2729; 3274; 3820; 4368; 5457; 6539; 7629; 8741; 10892; 13079; 15215;
   17467; 21674; 26030; 30431; 34935; 42652; 49861; 55897; 61747; 75322;
   90004; 102120; 116709; 145486; 180008; 212410; 236011; 236011; 236011;
   236011].

(** The sample rate of a chip clocked at 8 MHz, and the frequency steps the
    start-up code computes for it. *)
Definition example_rate : spec_float := rate_of_clock 8000000.

Definition example_freq_step_table : list Z :=
  Eval vm_compute in default [] (freq_step_table_init 12 example_rate).

Definition example_tables : tables :=
  {| m_attack_step := example_attack_step;
     m_decay_release_step := example_decay_release_step;
     m_freq_step_table := example_freq_step_table;
     m_left_pan_table := pan_left_ref;
     m_right_pan_table := pan_right_ref;
     m_linear_to_exp_volume := linear_to_exp_volume_ref;
     m_total_level_steps := [-152; 76];
     m_pitch_table := pitch_table_init;
     m_amplitude_table := amplitude_table_init;
     m_pitch_scale_tables := repeat (repeat 256 256) 8;
     m_amplitude_scale_tables := repeat (repeat 256 256) 8;
     m_rate := example_rate;
     lfo_phase_step := fun f => 100 * (f + 1) |}.

(** A ROM of zero bytes, and one whose first sample descriptor has attack
    register 1 (byte 8 of the descriptor is 0x10). *)
Definition rom_zero : Z -> Z := fun _ => 0.
Definition rom_attack_1 : Z -> Z := fun a => if a =? 8 then 0x10 else 0.

(** A sequence of chip-level writes, as (register address, data) pairs. *)
Fixpoint write_all (TL_SHIFT : Z) (rom : Z -> Z) (T : tables) (d : device)
    (ws : list (Z * Z)) : option device :=
  match ws with
  | [] => Some d
  | (offset, data) :: ws =>
      d ← write TL_SHIFT rom T d offset data;
      write_all TL_SHIFT rom T d ws
  end.

(** A playing voice, and one whose sample has release register 0xF. *)
Definition slot_playing : Slot.t := Slot.set_playing slot_init true.
Definition slot_sustained : Slot.t :=
  Slot.set_sample slot_playing (Sample.mk 0 0 100 0 0 0 0 0xf 0 0 0 0).

(** A playing voice one sample before the end of a sample of 100 samples
    that loops at sample 10, its envelope close to the end of the attack. *)
Definition slot_near_end : Slot.t :=
  Slot.mk (repeat 0 8) true 0 (99 * 4096) 4096 0 0 0 0 0
    (Sample.mk 0 10 100 0 0 0 0 0 0 0 0 0)
    (EnvGen.mk 0x3fe0000 ATTACK 0 3381651 17 17 17 15)
    lfo_init_state lfo_init_state 0.

(** ** Conditions under which the code stays inside its arrays *)

(** The four rate lookups of [envelope_generator_calc] have an index that is
    not negative (the upper bound is clamped by [get_rate] itself). *)
Definition rates_in_table (slot : Slot.t) : Prop :=
  let rate := u32 (calc_rate slot) in
  let smp := Slot.m_sample slot in
  0 <= get_rate_index rate (Sample.m_attack_reg smp)
  /\ 0 <= get_rate_index rate (Sample.m_decay1_reg smp)
  /\ 0 <= get_rate_index rate (Sample.m_decay2_reg smp)
  /\ 0 <= get_rate_index rate (Sample.m_release_reg smp).

(** The table sizes [device_start] allocates. *)
Definition tables_wf (T : tables) : Prop :=
  length (m_attack_step T) = 0x40%nat
  /\ length (m_decay_release_step T) = 0x40%nat
  /\ length (m_freq_step_table T) = 0x400%nat
  /\ length (m_left_pan_table T) = 0x800%nat
  /\ length (m_right_pan_table T) = 0x800%nat
  /\ length (m_linear_to_exp_volume T) = 0x400%nat
  /\ length (m_total_level_steps T) = 2%nat.

(** The two total-level steps: a fall and a rise of at most one level. *)
Definition total_level_steps_ok (TL_SHIFT : Z) (T : tables)
    (down up : Z) : Prop :=
  m_total_level_steps T = [down; up]
  /\ - 2 ^ TL_SHIFT <= down < 0
  /\ 0 < up <= 2 ^ TL_SHIFT.

(** A configured LFO: a 256-entry waveform whose values index the 256-entry
    scale table, as [lfo_init] builds them. *)
Definition lfo_wf (lfo : Lfo.t) : Prop :=
  length (Lfo.m_table lfo) = 256%nat
  /\ Forall (fun p => 0 <= p < 256) (Lfo.m_table lfo)
  /\ length (Lfo.m_scale lfo) = 256%nat.

(** The envelope volume lies between zero and the maximum, and the rates are
    non-negative 31-bit values. *)
Definition envelope_wf (EG_SHIFT : Z) (g : EnvGen.t) : Prop :=
  0 <= EnvGen.m_volume g <= Z.shiftl 0x3ff EG_SHIFT
  /\ 0 <= EnvGen.m_attack_rate g <= 2 ^ 30
  /\ 0 <= EnvGen.m_decay1_rate g <= 2 ^ 30
  /\ 0 <= EnvGen.m_decay2_rate g <= 2 ^ 30
  /\ 0 <= EnvGen.m_release_rate g <= 2 ^ 30.

(** The total level is at most one level away from its 7-bit range's top,
    and when it differs from its destination the stored step points towards
    the destination. *)
Definition ramp_wf (TL_SHIFT : Z) (down up : Z) (slot : Slot.t) : Prop :=
  let level := Z.shiftr (Slot.m_total_level slot) TL_SHIFT in
  let dest := Slot.m_dest_total_level slot in
  0 <= Slot.m_total_level slot < 0x80 * 2 ^ TL_SHIFT
  /\ 0 <= dest < 0x80
  /\ (level = dest
      \/ (dest < level /\ Slot.m_total_level_step slot = down)
      \/ (level < dest /\ Slot.m_total_level_step slot = up)).

Definition slot_wf (TL_SHIFT EG_SHIFT : Z) (slot : Slot.t) : Prop :=
  length (Slot.m_regs slot) = 8%nat
  /\ 0 <= Slot.m_pan slot < 0x10
  /\ 0 <= Slot.m_total_level slot < 0x80 * 2 ^ TL_SHIFT
  /\ envelope_wf EG_SHIFT (Slot.m_envelope_gen slot)
  /\ (Z.land (reg (Slot.m_regs slot) 6) 7 <> 0 -> lfo_wf (Slot.m_pitch_lfo slot))
  /\ (Z.land (reg (Slot.m_regs slot) 7) 7 <> 0
      -> lfo_wf (Slot.m_amplitude_lfo slot)).

(** One output sample for one voice, and [n] of them. *)
Definition tick (TL_SHIFT EG_SHIFT LFO_SHIFT : Z) (rom : Z -> Z) (T : tables)
    (slot : Slot.t) : option Slot.t :=
  if Slot.m_playing slot
  then fst <$> update_slot TL_SHIFT EG_SHIFT LFO_SHIFT rom T slot
  else Some slot.

Fixpoint ticks (TL_SHIFT EG_SHIFT LFO_SHIFT : Z) (rom : Z -> Z) (T : tables)
    (n : nat) (slot : Slot.t) : option Slot.t :=
  match n with
  | O => Some slot
  | S n =>
      slot ← tick TL_SHIFT EG_SHIFT LFO_SHIFT rom T slot;
      ticks TL_SHIFT EG_SHIFT LFO_SHIFT rom T n slot
  end.

(** ** The whole device *)

(** The sample rates for which every 32-bit pitch divides to a 32-bit step:
    the normal numbers from 4 up to 2^33.  ([device_start] computes the
    clock divided by 224.) *)
Definition rate_ok (rate : spec_float) : bool :=
  match rate with
  | S754_finite false m e =>
      (2 ^ 23 <=? Zpos m) && (Zpos m <? 2 ^ 24) && (-21 <=? e) && (e <=? 9)
  | _ => false
  end.

(** The tables as [device_start] and [lfo_init] leave them: the sizes,
    envelope steps that are non-negative and at most 2^30, waveforms whose
    values index a scale table, eight 256-entry scale tables for either LFO,
    such a sample rate and 32-bit frequency steps. *)
Definition tables_ready (T : tables) : Prop :=
  tables_wf T
  /\ Forall (fun x => 0 <= x <= 2 ^ 30) (m_attack_step T)
  /\ Forall (fun x => 0 <= x <= 2 ^ 30) (m_decay_release_step T)
  /\ length (m_pitch_table T) = 256%nat
  /\ Forall (fun p => 0 <= p < 256) (m_pitch_table T)
  /\ length (m_amplitude_table T) = 256%nat
  /\ Forall (fun p => 0 <= p < 256) (m_amplitude_table T)
  /\ length (m_pitch_scale_tables T) = 8%nat
  /\ Forall (fun t => length t = 256%nat) (m_pitch_scale_tables T)
  /\ length (m_amplitude_scale_tables T) = 8%nat
  /\ Forall (fun t => length t = 256%nat) (m_amplitude_scale_tables T)
  /\ rate_ok (m_rate T) = true
  /\ Forall (fun x => 0 <= x < 2 ^ 32) (m_freq_step_table T).

(** A voice as the register interface and the renderer keep it: well formed,
    its register image made of bytes, its total level on the way to the
    destination. *)
Definition voice_ok (TL_SHIFT EG_SHIFT down up : Z) (slot : Slot.t) : Prop :=
  slot_wf TL_SHIFT EG_SHIFT slot
  /\ ramp_wf TL_SHIFT down up slot
  /\ Forall (fun b => 0 <= b < 256) (Slot.m_regs slot).

(** The device: 28 such voices, a current slot that is a voice or the
    sentinel -1, and a sub-register address from 0 to 7. *)
Definition device_ok (TL_SHIFT EG_SHIFT down up : Z) (d : device) : Prop :=
  length (m_slots d) = 28%nat
  /\ Forall (voice_ok TL_SHIFT EG_SHIFT down up) (m_slots d)
  /\ -1 <= m_cur_slot d < 28
  /\ 0 <= m_address d <= 7.

(** The order in which the envelope passes through its states. *)
Definition state_rank (st : state_t) : Z :=
  match st with
  | ATTACK => 0
  | DECAY1 => 1
  | DECAY2 => 2
  | RELEASE => 3
  | OTHER => 4
  end.

(** The volume, the state and the playing flag that one step of
    [envelope_generator_update] leaves, in closed form. *)
Definition envelope_after (EG_SHIFT : Z) (g : EnvGen.t) (playing : bool)
    : Z * state_t * bool :=
  let vol := EnvGen.m_volume g in
  let vmax := Z.shiftl 0x3ff EG_SHIFT in
  match EnvGen.m_state g with
  | ATTACK =>
      if vmax <=? vol + EnvGen.m_attack_rate g
      then (vmax,
            if Z.shiftl 0x400 EG_SHIFT <=? EnvGen.m_decay1_rate g
            then DECAY2 else DECAY1, playing)
      else (vol + EnvGen.m_attack_rate g, ATTACK, playing)
  | DECAY1 =>
      let v := Z.max 0 (vol - EnvGen.m_decay1_rate g) in
      (v, if Z.shiftr v EG_SHIFT <=? Z.shiftl (EnvGen.m_decay_level g) 6
          then DECAY2 else DECAY1, playing)
  | DECAY2 => (Z.max 0 (vol - EnvGen.m_decay2_rate g), DECAY2, playing)
  | RELEASE =>
      (Z.max 0 (vol - EnvGen.m_release_rate g), RELEASE,
       if vol - EnvGen.m_release_rate g <=? 0 then false else playing)
  | OTHER => (vol, OTHER, playing)
  end.

(** A list of integers that never falls. *)
Fixpoint nondecreasing (l : list Z) : bool :=
  match l with
  | x :: (y :: _) as rest => (x <=? y) && nondecreasing rest
  | _ => true
  end.

(** ** Further voices and devices *)

(** Voices in the later envelope states: one in its second decay, one
    released with a release rate, one released with release rate 0. *)
Definition slot_decaying : Slot.t :=
  Slot.set_envelope_gen slot_playing (EnvGen.mk 100 DECAY2 0 0 0 17 0 0).
Definition slot_released : Slot.t :=
  Slot.set_envelope_gen slot_playing (EnvGen.mk 100 RELEASE 0 0 0 0 17 0).
Definition slot_held : Slot.t :=
  Slot.set_envelope_gen slot_playing (EnvGen.mk 100 RELEASE 0 0 0 0 0 0).

(** A voice with octave code 9 and a sample with attack register 1, and the
    device that has it selected with the key-on register addressed. *)
Definition slot_low_octave : Slot.t :=
  Slot.set_sample (Slot.set_regs slot_init [0; 0; 0; 0x90; 0; 0; 0; 0])
    (Sample.mk 0 0 0 1 0 0 0 0 0 0 0 0).
Definition device_low_octave : device :=
  {| m_slots := slot_low_octave :: repeat slot_init 27;
     m_cur_slot := 0; m_address := 4 |}.

(** A device whose voice 0 plays. *)
Definition device_playing : device :=
  {| m_slots := slot_playing :: repeat slot_init 27;
     m_cur_slot := 0; m_address := 0 |}.

(** A voice with a 12-bit sample. *)
Definition slot_12bit : Slot.t :=
  Slot.mk (repeat 0 8) false 0 0 0 0 0 0 0 0 sample_init envelope_init
    lfo_init_state lfo_init_state 8.

(** ** Front-end utilities

    The second half of [multipcm.cpp] holds helpers of the Windows front
    end, and [GetGameHistory] of [history.cpp] uses one of them.  A C string
    is held as the list of its characters, the terminating NUL being the end
    of the list; a pointer into a string is an offset, and the null pointer
    is [None].  A store through a pointer that has left its buffer gives
    [None]. *)

(** The size of the [static char buf[2048 * 2048]] of
    [ConvertToWindowsNewlines] and of the two buffers of [GetGameHistory]. *)
Definition BUF_SIZE : Z := 2048 * 2048.

(** [*dest++ = c] into the buffer whose written part is [buf]. *)
Definition store_char (buf : list Z) (c : Z) : option (list Z) :=
  if Z.of_nat (length buf) <? BUF_SIZE then Some (buf ++ [c]) else None.

(** The loop of [ConvertToWindowsNewlines] and the final [*dest = 0]; the
    result is the string left in the cleared buffer. *)
Fixpoint ConvertToWindowsNewlines_from (source buf : list Z)
    : option (list Z) :=
  match source with
  | [] => _ ← store_char buf 0; Some buf
  | c :: source =>
      if c =? 10
      then buf ← store_char buf 13;
           buf ← store_char buf 10;
           ConvertToWindowsNewlines_from source buf
      else buf ← store_char buf c;
           ConvertToWindowsNewlines_from source buf
  end.

Definition ConvertToWindowsNewlines (source : list Z) : option (list Z) :=
  ConvertToWindowsNewlines_from source [].

(** [strcat(dataBuf, buffer)]: the text and its NUL have to fit. *)
Definition strcat_buf (dataBuf text : list Z) : option (list Z) :=
  if Z.of_nat (length dataBuf + length text) <? BUF_SIZE
  then Some (dataBuf ++ text) else None.

(** One [if (load_driver_...(..., buffer, ...) == 0) strcat(dataBuf, buffer);]
    of [GetGameHistory]: [load] is the status the loader returned and the
    text it left in [buffer]. *)
Definition load_into (dataBuf : list Z) (load : Z * list Z)
    : option (list Z) :=
  if fst load =? 0 then strcat_buf dataBuf (snd load) else Some dataBuf.

(** [GetGameHistory], given what the five loaders return, in the order of
    the calls. *)
Definition GetGameHistory
    (history initinfo mameinfo driverinfo scoreinfo : Z * list Z)
    : option (list Z) :=
  dataBuf ← load_into [] history;
  dataBuf ← load_into dataBuf initinfo;
  dataBuf ← load_into dataBuf mameinfo;
  dataBuf ← load_into dataBuf driverinfo;
  dataBuf ← load_into dataBuf scoreinfo;
  ConvertToWindowsNewlines dataBuf.

(** Any number of such loads, one after the other. *)
Fixpoint load_all (dataBuf : list Z) (loads : list (Z * list Z))
    : option (list Z) :=
  match loads with
  | [] => Some dataBuf
  | load :: loads => dataBuf ← load_into dataBuf load; load_all dataBuf loads
  end.

Section StrStr.

(** [!core_strnicmp(s1, s2, 1)] on two characters that are not NUL;
    [core_strnicmp] is outside the sources. *)
Variable same_char : Z -> Z -> bool.

(** The inner loop of [MyStrStrI] followed by the test [!*s2]. *)
Fixpoint match_here (s1 s2 : list Z) {struct s2} : bool :=
  match s2 with
  | [] => true
  | c2 :: s2 =>
      match s1 with
      | [] => false
      | c1 :: s1 => if same_char c1 c2 then match_here s1 s2 else false
      end
  end.

(** The outer loop from the position [pos] on, [cp] being the rest of
    [pFirst] there. *)
Fixpoint MyStrStrI_from (cp : list Z) (pos : nat) (pSrch : list Z)
    : option nat :=
  match cp with
  | [] => None
  | _ :: rest =>
      if match_here cp pSrch then Some pos
      else MyStrStrI_from rest (S pos) pSrch
  end.

Definition MyStrStrI (pFirst pSrch : list Z) : option nat :=
  MyStrStrI_from pFirst 0 pSrch.

End StrStr.

(** The driver cache word of [SetDriversInfo] and [InitDriversCache]. *)
Definition DRIVER_CACHE_SCREEN : Z := 0x000F.
Definition DRIVER_CACHE_ROMS : Z := 0x0010.
Definition DRIVER_CACHE_CLONE : Z := 0x0020.
Definition DRIVER_CACHE_BIOS : Z := 0x0040.
Definition DRIVER_CACHE_HARDDISK : Z := 0x0080.
Definition DRIVER_CACHE_SAMPLES : Z := 0x0100.
Definition DRIVER_CACHE_VECTOR : Z := 0x0200.
Definition DRIVER_CACHE_LIGHTGUN : Z := 0x0400.
Definition DRIVER_CACHE_TRACKBALL : Z := 0x0800.

Module DriversInfo.
Record t := mk {
  screenCount : Z;
  isClone : bool;
  isBroken : bool;
  isHarddisk : bool;
  hasOptionalBIOS : bool;
  isVector : bool;
  usesRoms : bool;
  usesSamples : bool;
  usesTrackball : bool;
  usesLightGun : bool;
  supportsSaveState : bool;
  isVertical : bool;
  isImperfect : bool;
  isMechanical : bool;
  isBIOS : bool
}.
End DriversInfo.

(** The body of the loop of [SetDriversInfo]: the word handed to
    [SetDriverCache]. *)
Definition SetDriversInfo_cache (gameinfo : DriversInfo.t) : Z :=
  let add (b : bool) (flag : Z) (cache : Z) : Z :=
    if b then s32 (cache + flag) else cache in
  let cache := Z.land (DriversInfo.screenCount gameinfo) DRIVER_CACHE_SCREEN in
  let cache := add (DriversInfo.isClone gameinfo) DRIVER_CACHE_CLONE cache in
  let cache := add (DriversInfo.isHarddisk gameinfo) DRIVER_CACHE_HARDDISK cache in
  let cache := add (DriversInfo.hasOptionalBIOS gameinfo) DRIVER_CACHE_BIOS cache in
  let cache := add (DriversInfo.isVector gameinfo) DRIVER_CACHE_VECTOR cache in
  let cache := add (DriversInfo.usesRoms gameinfo) DRIVER_CACHE_ROMS cache in
  let cache := add (DriversInfo.usesSamples gameinfo) DRIVER_CACHE_SAMPLES cache in
  let cache := add (DriversInfo.usesTrackball gameinfo) DRIVER_CACHE_TRACKBALL cache in
  add (DriversInfo.usesLightGun gameinfo) DRIVER_CACHE_LIGHTGUN cache.

(** The body of the loop of [InitDriversCache] for a cache word read by
    [GetDriverCache]: [None] stands for the branch that rebuilds everything
    with [InitDriversInfo]; the six members that do not come out of the cache
    are computed from the machine configuration, which is outside the
    sources, and are passed in. *)
Definition InitDriversCache_entry (cache : Z)
    (isBroken supportsSaveState isVertical isImperfect isMechanical
       isBIOS : bool) : option DriversInfo.t :=
  if cache =? -1 then None
  else
    let bit (flag : Z) : bool := negb (Z.land cache flag =? 0) in
    Some {| DriversInfo.isBroken := isBroken;
            DriversInfo.supportsSaveState := supportsSaveState;
            DriversInfo.isVertical := isVertical;
            DriversInfo.screenCount := Z.land cache DRIVER_CACHE_SCREEN;
            DriversInfo.isClone := bit DRIVER_CACHE_CLONE;
            DriversInfo.isHarddisk := bit DRIVER_CACHE_HARDDISK;
            DriversInfo.hasOptionalBIOS := bit DRIVER_CACHE_BIOS;
            DriversInfo.isVector := bit DRIVER_CACHE_VECTOR;
            DriversInfo.usesRoms := bit DRIVER_CACHE_ROMS;
            DriversInfo.usesSamples := bit DRIVER_CACHE_SAMPLES;
            DriversInfo.usesTrackball := bit DRIVER_CACHE_TRACKBALL;
            DriversInfo.usesLightGun := bit DRIVER_CACHE_LIGHTGUN;
            DriversInfo.isImperfect := isImperfect;
            DriversInfo.isMechanical := isMechanical;
            DriversInfo.isBIOS := isBIOS |}.

Module RECT.
Record t := mk { left : Z; top : Z; right : Z; bottom : Z }.
End RECT.

(** [CenterWindow]: [rcWnd] is the rectangle [GetWindowRect] gives for the
    window, [parent] the one of its parent if it has one, [cxfull] and
    [cyfull] the two system metrics; the result is the position passed to
    [SetWindowPos].  [int] arithmetic wraps. *)
Definition CenterWindow (rcWnd : RECT.t) (parent : option RECT.t)
    (cxfull cyfull : Z) : Z * Z :=
  let iWndWidth := s32 (RECT.right rcWnd - RECT.left rcWnd) in
  let iWndHeight := s32 (RECT.bottom rcWnd - RECT.top rcWnd) in
  let rcCenter := match parent with
                  | Some rc => rc
                  | None => RECT.mk 0 0 cxfull cyfull
                  end in
  let iScrWidth := s32 (RECT.right rcCenter - RECT.left rcCenter) in
  let iScrHeight := s32 (RECT.bottom rcCenter - RECT.top rcCenter) in
  let xLeft := RECT.left rcCenter in
  let yTop := RECT.top rcCenter in
  let xLeft := if iScrWidth >? iWndWidth
               then s32 (xLeft + Z.quot (s32 (iScrWidth - iWndWidth)) 2)
               else xLeft in
  let yTop := if iScrHeight >? iWndHeight
              then s32 (yTop + Z.quot (s32 (iScrHeight - iWndHeight)) 2)
              else yTop in
  (xLeft, yTop).

(** The text with every line feed replaced by carriage return, line feed. *)
Definition windows_newlines (source : list Z) : list Z :=
  flat_map (fun c => if c =? 10 then [13; 10] else [c]) source.

(** A test that holds for both truth values. *)
Definition both (f : bool -> bool) : bool := f true && f false.

(** ** Basic facts about the array conventions *)

Lemma idx_Some {A : Type} (a : list A) (i : Z) :
  0 <= i < Z.of_nat (length a) -> is_Some (idx a i).
Proof.
  intros [H0 H1]. unfold idx.
  destruct (0 <=? i) eqn:E; [|lia].
  apply lookup_lt_is_Some. lia.
Qed.

Lemma idx_negative {A : Type} (a : list A) (i : Z) : i < 0 -> idx a i = None.
Proof.
  intros H. unfold idx. destruct (0 <=? i) eqn:E; [lia|reflexivity].
Qed.

Lemma idx_inv {A : Type} (a : list A) (i : Z) (x : A) :
  idx a i = Some x -> 0 <= i < Z.of_nat (length a).
Proof.
  unfold idx. destruct (0 <=? i) eqn:E; [|discriminate].
  intros H. apply lookup_lt_Some in H. lia.
Qed.

Lemma upd_Some {A : Type} (a : list A) (i : Z) (v : A) :
  0 <= i < Z.of_nat (length a) ->
  upd a i v = Some (<[Z.to_nat i := v]> a).
Proof.
  intros [H0 H1]. unfold upd.
  destruct (0 <=? i) eqn:E0; [|lia].
  destruct (i <? Z.of_nat (length a)) eqn:E1; [reflexivity|lia].
Qed.

Lemma upd_negative {A : Type} (a : list A) (i : Z) (v : A) :
  i < 0 -> upd a i v = None.
Proof.
  intros H. unfold upd. destruct (0 <=? i) eqn:E; [lia|reflexivity].
Qed.

Lemma reg_insert_eq (regs : list Z) (i : nat) (v : Z) :
  (i < length regs)%nat -> reg (<[i := v]> regs) i = v.
Proof.
  intros H. unfold reg. rewrite list_lookup_insert_eq by exact H. reflexivity.
Qed.

Lemma reg_insert_ne (regs : list Z) (i j : nat) (v : Z) :
  i <> j -> reg (<[i := v]> regs) j = reg regs j.
Proof.
  intros H. unfold reg. rewrite list_lookup_insert_ne by exact H. reflexivity.
Qed.

(** A property checked on every number below [n] holds on the interval. *)
Lemma Z_range_forallb (f : Z -> bool) (n : nat) :
  forallb f (map Z.of_nat (seq 0 n)) = true ->
  forall x, 0 <= x < Z.of_nat n -> f x = true.
Proof.
  intros H x Hx. rewrite forallb_forall in H. apply H.
  apply in_map_iff. exists (Z.to_nat x). split; [lia|].
  apply in_seq. lia.
Qed.

(** [range_check f n H]: evaluate [f] on every number below [n] and record
    the result as [H]. *)
Ltac range_check f n H :=
  let Hall := fresh "Hall" in
  assert (Hall : forallb f (map Z.of_nat (seq 0 n)) = true)
    by (vm_compute; reflexivity);
  pose proof (Z_range_forallb f n Hall) as H; clear Hall; cbv beta in H.

Lemma u32_small (x : Z) : 0 <= x < 2 ^ 32 -> u32 x = x.
Proof. intros H. unfold u32. apply Z.mod_small. exact H. Qed.

Lemma s32_small (x : Z) : - 2 ^ 31 <= x < 2 ^ 31 -> s32 x = x.
Proof. intros H. unfold s32. rewrite Z.mod_small; lia. Qed.

Lemma s32_u32 (x : Z) : s32 (u32 x) = s32 x.
Proof.
  unfold s32, u32.
  rewrite Zplus_mod_idemp_l. reflexivity.
Qed.

Lemma s32_add_u32_r (a b : Z) : s32 (a + u32 b) = s32 (a + b).
Proof.
  unfold s32, u32.
  replace (a + b mod 2 ^ 32 + 2 ^ 31) with (a + 2 ^ 31 + b mod 2 ^ 32) by lia.
  rewrite Zplus_mod_idemp_r. do 2 f_equal. lia.
Qed.

(** ** The chip-level register interface *)

Section Interface.

Variable TL_SHIFT : Z.
Variable rom : Z -> Z.
Variable T : tables.

(** C10: a write to a register address above 2 returns the device as it was
    (slots, current slot and sub-register address alike), and a read returns 0
    together with the unchanged device. *)
Theorem write_above_2_is_noop (d : device) (offset data : Z) :
  2 < offset ->
  write TL_SHIFT rom T d offset data = Some d /\ read d = (0, d).
Proof.
  intros H. split; [|reflexivity].
  destruct offset as [|p|p]; try lia.
  destruct p as [[q|q|]|[q|q|]|]; try lia; reflexivity.
Qed.

(** C5: selecting one of the codes 7, 15, 23, 31 stores the sentinel -1 as
    the current slot, and the next data write then indexes [m_slots] at -1,
    outside the 28 slots: the access is not guarded, so the write is not a
    defined no-op. *)
Theorem write_invalid_voice_out_of_bounds (d : device) (data : Z) :
  Forall (fun code =>
            exists d', write TL_SHIFT rom T d 1 code = Some d'
                       /\ m_cur_slot d' = -1
                       /\ m_slots d' = m_slots d
                       /\ write TL_SHIFT rom T d' 0 data = None)
         [7; 15; 23; 31].
Proof.
  repeat constructor; eexists; (split; [reflexivity|]);
    repeat split; reflexivity.
Qed.

End Interface.

Lemma write_above_2_is_noop_witness :
  2 < 3 /\ write 12 rom_zero example_tables device_init 3 0x55
           = Some device_init
  /\ read device_init = (0, device_init).
Proof.
  split; [lia|].
  apply (write_above_2_is_noop 12 rom_zero example_tables device_init 3 0x55).
  lia.
Defined.

(** ** Envelope rates *)

Lemma get_rate_val_0 (steps : list Z) (rate : Z) :
  get_rate steps rate 0 = idx steps 0.
Proof. reflexivity. Qed.

Lemma get_rate_val_f (steps : list Z) (rate : Z) :
  get_rate steps rate 0xf = idx steps 0x3f.
Proof. reflexivity. Qed.

Lemma get_rate_index_le (rate val : Z) : get_rate_index rate val <= 0x3f.
Proof.
  unfold get_rate_index.
  destruct (val =? 0); [lia|].
  destruct (val =? 15); [lia|].
  destruct (s32 (u32 (4 * val + rate)) >? 63) eqn:E; lia.
Qed.

(** Between the two special values the index is the clamped signed sum. *)
Lemma get_rate_index_mid (rate val : Z) :
  val <> 0 -> val <> 0xf ->
  get_rate_index (u32 rate) val = Z.min 0x3f (s32 (4 * val + rate)).
Proof.
  intros H0 Hf. unfold get_rate_index.
  destruct (Z.eqb_spec val 0) as [|_]; [contradiction|].
  destruct (Z.eqb_spec val 15) as [|_]; [contradiction|].
  replace (s32 (u32 (4 * val + u32 rate))) with (s32 (4 * val + rate)).
  - destruct (s32 (4 * val + rate) >? 63) eqn:E; lia.
  - rewrite s32_u32, s32_add_u32_r. reflexivity.
Qed.

Lemma get_rate_Some (steps : list Z) (rate val : Z) :
  length steps = 64%nat -> 0 <= get_rate_index rate val ->
  is_Some (get_rate steps rate val).
Proof.
  intros Hl H0. apply idx_Some.
  pose proof (get_rate_index_le rate val). lia.
Qed.

(** The octave nibble, decremented and read as a 4-bit two's complement
    number: nibble 1 is octave 0, nibble 8 is octave 7, nibble 9 is octave -8
    and nibble 0 is octave -1. *)
Lemma calc_octave_spec (regs3 : Z) :
  0 <= regs3 < 256 -> calc_octave regs3 = (regs3 / 16 + 7) mod 16 - 8.
Proof.
  intros H.
  range_check (fun x => calc_octave x =? (x / 16 + 7) mod 16 - 8) 256%nat Hc.
  apply Z.eqb_eq, Hc. exact H.
Qed.

Lemma calc_octave_range (regs3 : Z) :
  0 <= regs3 < 256 -> -8 <= calc_octave regs3 <= 7.
Proof.
  intros H. rewrite calc_octave_spec by exact H.
  pose proof (Z.mod_pos_bound (regs3 / 16 + 7) 16). lia.
Qed.

Lemma pitch_sub_bit (regs3 : Z) :
  0 <= regs3 -> Z.land (Z.shiftr regs3 3) 1 = (regs3 / 8) mod 2.
Proof.
  intros H. rewrite Z.shiftr_div_pow2 by lia.
  change 1 with (Z.ones 1). rewrite Z.land_ones by lia. reflexivity.
Qed.

Section EnvelopeRates.

Variable T : tables.

(** C4, as the code has it: the signed octave is the pitch register's high
    nibble minus one, read as a 4-bit two's complement number (nibble 1 maps
    to 0); the rate offset is 0 when the key-rate-scale field is 0xF and
    (octave + key_rate_scale) * 2 + bit 3 of the pitch register otherwise;
    the four rates are looked up with that offset. *)
Theorem envelope_generator_calc_rate (slot : Slot.t) :
  let regs3 := reg (Slot.m_regs slot) 3 in
  let smp := Slot.m_sample slot in
  let krs := Sample.m_key_rate_scale smp in
  let octave := (regs3 / 16 + 7) mod 16 - 8 in
  let rate := if krs =? 0xf then 0
              else (octave + krs) * 2 + (regs3 / 8) mod 2 in
  0 <= regs3 < 256 ->
  calc_octave regs3 = octave
  /\ calc_rate slot = rate
  /\ forall slot', envelope_generator_calc T slot = Some slot' ->
       let g := Slot.m_envelope_gen slot' in
       get_rate (m_attack_step T) (u32 rate) (Sample.m_attack_reg smp)
         = Some (EnvGen.m_attack_rate g)
       /\ get_rate (m_decay_release_step T) (u32 rate)
            (Sample.m_decay1_reg smp) = Some (EnvGen.m_decay1_rate g)
       /\ get_rate (m_decay_release_step T) (u32 rate)
            (Sample.m_decay2_reg smp) = Some (EnvGen.m_decay2_rate g)
       /\ get_rate (m_decay_release_step T) (u32 rate)
            (Sample.m_release_reg smp) = Some (EnvGen.m_release_rate g).
Proof.
  intros regs3 smp krs octave rate H.
  assert (Ho : calc_octave regs3 = octave) by (apply calc_octave_spec; exact H).
  assert (Hr : calc_rate slot = rate).
  { unfold calc_rate. fold regs3. fold smp. fold krs. subst rate.
    destruct (krs =? 15); [reflexivity|].
    rewrite Ho, pitch_sub_bit by lia. reflexivity. }
  split; [exact Ho|]. split; [exact Hr|].
  intros slot'. unfold envelope_generator_calc. rewrite Hr. fold smp.
  destruct (get_rate (m_attack_step T) (u32 rate) (Sample.m_attack_reg smp))
    as [ar|]; [|discriminate].
  destruct (get_rate (m_decay_release_step T) (u32 rate)
              (Sample.m_decay1_reg smp)) as [d1|]; [|discriminate].
  destruct (get_rate (m_decay_release_step T) (u32 rate)
              (Sample.m_decay2_reg smp)) as [d2|]; [|discriminate].
  destruct (get_rate (m_decay_release_step T) (u32 rate)
              (Sample.m_release_reg smp)) as [rr|]; [|discriminate].
  simpl. intros [= <-]. simpl. auto.
Qed.

(** C3: with octave nibble 9 (octave -8), key-rate-scale 0 and attack
    register 1 the rate offset is -16 and the index 4*1 - 16 = -12 reaches
    the table lookup: only the upper bound is clamped. *)
Theorem get_rate_index_below_zero (slot : Slot.t) :
  reg (Slot.m_regs slot) 3 = 0x90 ->
  Sample.m_key_rate_scale (Slot.m_sample slot) = 0 ->
  Sample.m_attack_reg (Slot.m_sample slot) = 1 ->
  calc_rate slot = -16
  /\ get_rate_index (u32 (-16)) 1 = -12
  /\ get_rate (m_attack_step T) (u32 (-16)) 1 = None
  /\ envelope_generator_calc T slot = None.
Proof.
  intros H3 Hk Ha.
  assert (Hr : calc_rate slot = -16).
  { unfold calc_rate. rewrite H3, Hk. reflexivity. }
  assert (Hg : get_rate (m_attack_step T) (u32 (-16)) 1 = None).
  { apply idx_negative. vm_compute. reflexivity. }
  split; [exact Hr|]. split; [reflexivity|]. split; [exact Hg|].
  unfold envelope_generator_calc. rewrite Hr, Ha, Hg. reflexivity.
Qed.

End EnvelopeRates.

(** The claim of C4 that nibble 8 is the centre: it is octave 7. *)
Lemma calc_octave_nibble_8 :
  calc_octave (Z.shiftl 8 4) = 7 /\ calc_octave (Z.shiftl 8 4) <> 0.
Proof. split; [reflexivity|discriminate]. Qed.

(** ** Per-voice register decode *)

(** The 10-bit pitch code of cases 2 and 3. *)
Lemma pitch_code_spec (regs3 regs2 : Z) :
  0 <= regs3 < 256 -> 0 <= regs2 < 256 ->
  Z.lor (Z.shiftl (Z.land regs3 0xf) 6) (Z.shiftr regs2 2)
  = regs3 mod 16 * 64 + regs2 / 4.
Proof.
  intros H3 H2.
  rewrite Z.shiftl_mul_pow2, Z.shiftr_div_pow2 by lia.
  change 15 with (Z.ones 4). rewrite Z.land_ones by lia.
  change (2 ^ 4) with 16. change (2 ^ 6) with 64. change (2 ^ 2) with 4.
  pose proof (Z.mod_pos_bound regs3 16 ltac:(lia)) as Hh.
  assert (Hl : 0 <= regs2 / 4 < 64).
  { split; [apply Z.div_pos; lia|apply Z.div_lt_upper_bound; lia]. }
  set (h := regs3 mod 16) in *. set (l := regs2 / 4) in *.
  range_check (fun c => Z.lor (c / 64 * 64) (c mod 64) =? c) 1024%nat Hc.
  specialize (Hc (h * 64 + l)).
  assert (Hcode : 0 <= h * 64 + l < Z.of_nat 1024)
    by (change (Z.of_nat 1024) with 1024; lia).
  apply Hc, Z.eqb_eq in Hcode. clear Hc. rename Hcode into Hc.
  assert (Hq : (h * 64 + l) / 64 = h)
    by (symmetry; apply Z.div_unique with l; lia).
  assert (Hm : (h * 64 + l) mod 64 = l)
    by (symmetry; apply Z.mod_unique with h; lia).
  rewrite Hq, Hm in Hc. exact Hc.
Qed.

Lemma pitch_code_range (regs3 regs2 : Z) :
  0 <= regs3 < 256 -> 0 <= regs2 < 256 ->
  0 <= regs3 mod 16 * 64 + regs2 / 4 < 0x400.
Proof.
  intros H3 H2.
  pose proof (Z.mod_pos_bound regs3 16 ltac:(lia)) as Hh.
  assert (Hl : 0 <= regs2 / 4 < 64).
  { split; [apply Z.div_pos; lia|apply Z.div_lt_upper_bound; lia]. }
  lia.
Qed.

(** The shift of the base step in terms of the signed octave: to the left
    by the octave when it is not negative, to the right by its magnitude
    when it is. *)
Lemma pitch_shift_spec (regs3 base : Z) :
  0 <= regs3 < 256 ->
  let octave := (regs3 / 16 + 7) mod 16 - 8 in
  pitch_shift (u32 (Z.land (Z.shiftr regs3 4 - 1) 0xf)) base
  = if 0 <=? octave then u32 (base * 2 ^ octave) else base / 2 ^ (- octave).
Proof.
  intros H octave.
  set (oct := u32 (Z.land (Z.shiftr regs3 4 - 1) 0xf)).
  range_check (fun x =>
                 let oct := u32 (Z.land (Z.shiftr x 4 - 1) 0xf) in
                 let octave := (x / 16 + 7) mod 16 - 8 in
                 (0 <=? oct) && (oct <? 16) &&
                 if 0 <=? octave
                 then (Z.land oct 8 =? 0) && (oct =? octave)
                 else negb (Z.land oct 8 =? 0) && (16 - oct =? - octave))
              256%nat Hc.
  specialize (Hc regs3 H). cbv zeta in Hc.
  fold oct in Hc. fold octave in Hc.
  unfold pitch_shift.
  apply andb_true_iff in Hc as [Hr Hc].
  apply andb_true_iff in Hr as [Hr0 Hr1].
  destruct (0 <=? octave).
  - apply andb_true_iff in Hc as [Hc1 Hc2].
    rewrite Hc1. apply Z.eqb_eq in Hc2. rewrite <- Hc2.
    rewrite Z.shiftl_mul_pow2 by lia. reflexivity.
  - apply andb_true_iff in Hc as [Hc1 Hc2].
    apply negb_true_iff in Hc1. rewrite Hc1.
    apply Z.eqb_eq in Hc2. rewrite <- Hc2.
    rewrite Z.shiftr_div_pow2 by lia. reflexivity.
Qed.

Section RegisterDecode.

Variable TL_SHIFT : Z.
Variable rom : Z -> Z.
Variable T : tables.

Lemma key_on_bit (data : Z) :
  0 <= data < 256 -> (Z.land data 0x80 =? 0) = negb (Z.testbit data 7).
Proof.
  intros H.
  range_check (fun x => Bool.eqb (Z.land x 0x80 =? 0) (negb (Z.testbit x 7)))
              256%nat Hc.
  apply Bool.eqb_prop, Hc. exact H.
Qed.

Lemma envelope_generator_calc_Some (slot : Slot.t) :
  length (m_attack_step T) = 64%nat ->
  length (m_decay_release_step T) = 64%nat ->
  rates_in_table slot ->
  exists ar d1r d2r rr,
    let rate := u32 (calc_rate slot) in
    let smp := Slot.m_sample slot in
    let g := Slot.m_envelope_gen slot in
    get_rate (m_attack_step T) rate (Sample.m_attack_reg smp) = Some ar
    /\ get_rate (m_decay_release_step T) rate (Sample.m_decay1_reg smp)
       = Some d1r
    /\ get_rate (m_decay_release_step T) rate (Sample.m_decay2_reg smp)
       = Some d2r
    /\ get_rate (m_decay_release_step T) rate (Sample.m_release_reg smp)
       = Some rr
    /\ envelope_generator_calc T slot
       = Some (Slot.set_envelope_gen slot
                 (EnvGen.mk (EnvGen.m_volume g) (EnvGen.m_state g)
                    (EnvGen.step g) ar d1r d2r rr
                    (0xf - Sample.m_decay_level smp))).
Proof.
  intros Ha Hd (H1 & H2 & H3 & H4).
  destruct (get_rate_Some _ _ _ Ha H1) as [ar Har].
  destruct (get_rate_Some _ _ _ Hd H2) as [d1r Hd1r].
  destruct (get_rate_Some _ _ _ Hd H3) as [d2r Hd2r].
  destruct (get_rate_Some _ _ _ Hd H4) as [rr Hrr].
  exists ar, d1r, d2r, rr. simpl.
  unfold envelope_generator_calc. rewrite Har, Hd1r, Hd2r, Hrr.
  repeat split; reflexivity.
Qed.

(** A write to sub-register 4.  With the top bit set, a voice whose four
    rate lookups stay inside their tables is marked playing and retriggered:
    offset 0, previous sample 0, total level at its destination, the four
    envelope rates looked up afresh, envelope state ATTACK with volume 0.
    With the top bit clear on a playing voice the envelope goes to RELEASE
    when the sample's release register is not 0xF, and otherwise the voice
    is marked not playing at once, its envelope state left as it was. *)
Lemma write_slot_key_on_off (slot : Slot.t) (data : Z) :
  length (Slot.m_regs slot) = 8%nat ->
  0 <= data < 256 ->
  length (m_attack_step T) = 64%nat ->
  length (m_decay_release_step T) = 64%nat ->
  let keyed := Slot.set_regs slot (<[4%nat := data]> (Slot.m_regs slot)) in
  let rate := u32 (calc_rate slot) in
  let smp := Slot.m_sample slot in
  (Z.testbit data 7 = true -> rates_in_table slot ->
   exists slot',
     write_slot TL_SHIFT rom T slot 4 data = Some slot'
     /\ Slot.m_playing slot' = true
     /\ Slot.m_offset slot' = 0
     /\ Slot.m_prev_sample slot' = 0
     /\ Slot.m_total_level slot'
        = u32 (Z.shiftl (Slot.m_dest_total_level slot) TL_SHIFT)
     /\ Slot.m_dest_total_level slot' = Slot.m_dest_total_level slot
     /\ (let g := Slot.m_envelope_gen slot' in
         EnvGen.m_state g = ATTACK
         /\ EnvGen.m_volume g = 0
         /\ get_rate (m_attack_step T) rate (Sample.m_attack_reg smp)
            = Some (EnvGen.m_attack_rate g)
         /\ get_rate (m_decay_release_step T) rate (Sample.m_decay1_reg smp)
            = Some (EnvGen.m_decay1_rate g)
         /\ get_rate (m_decay_release_step T) rate (Sample.m_decay2_reg smp)
            = Some (EnvGen.m_decay2_rate g)
         /\ get_rate (m_decay_release_step T) rate (Sample.m_release_reg smp)
            = Some (EnvGen.m_release_rate g)
         /\ EnvGen.m_decay_level g = 0xf - Sample.m_decay_level smp))
  /\ (Z.testbit data 7 = false -> Slot.m_playing slot = true ->
      Sample.m_release_reg smp <> 0xf ->
      write_slot TL_SHIFT rom T slot 4 data = Some (store_state keyed RELEASE)
      /\ Slot.m_playing (store_state keyed RELEASE) = true
      /\ EnvGen.m_state (Slot.m_envelope_gen (store_state keyed RELEASE))
         = RELEASE)
  /\ (Z.testbit data 7 = false -> Slot.m_playing slot = true ->
      Sample.m_release_reg smp = 0xf ->
      write_slot TL_SHIFT rom T slot 4 data
      = Some (Slot.set_playing keyed false)
      /\ Slot.m_playing (Slot.set_playing keyed false) = false
      /\ Slot.m_envelope_gen (Slot.set_playing keyed false)
         = Slot.m_envelope_gen slot).
Proof.
  intros Hlen Hdata Ha Hd keyed rate smp.
  assert (Hupd : upd (Slot.m_regs slot) 4 data
                 = Some (<[4%nat := data]> (Slot.m_regs slot))).
  { apply (upd_Some (Slot.m_regs slot) 4 data). rewrite Hlen. lia. }
  assert (Hw : write_slot TL_SHIFT rom T slot 4 data
               = if Z.land data 0x80 =? 0
                 then if Slot.m_playing slot
                      then if Sample.m_release_reg smp =? 0xf
                           then Some (Slot.set_playing keyed false)
                           else Some (store_state keyed RELEASE)
                      else Some keyed
                 else retrigger_sample TL_SHIFT T
                        (Slot.set_playing keyed true)).
  { unfold write_slot. rewrite Hupd. reflexivity. }
  rewrite Hw, (key_on_bit data Hdata).
  split; [|split].
  - intros Hbit Hrates. rewrite Hbit. simpl negb. cbv iota.
    unfold retrigger_sample.
    set (s1 := Slot.set_total_level _ _).
    assert (Hcalc : calc_rate s1 = calc_rate slot).
    { unfold calc_rate. simpl.
      rewrite reg_insert_ne by discriminate. reflexivity. }
    destruct (envelope_generator_calc_Some s1 Ha Hd)
      as (ar & d1r & d2r & rr & H1 & H2 & H3 & H4 & Hc).
    { unfold rates_in_table. rewrite Hcalc. exact Hrates. }
    rewrite Hcalc in H1, H2, H3, H4.
    rewrite Hc. simpl. eexists. split; [reflexivity|]. simpl.
    repeat split; assumption.
  - intros Hbit Hplay Hrel. rewrite Hbit, Hplay. simpl negb. cbv iota.
    destruct (Z.eqb_spec (Sample.m_release_reg smp) 15) as [E|_];
      [contradiction|].
    repeat split. simpl. exact Hplay.
  - intros Hbit Hplay Hrel. rewrite Hbit, Hplay, Hrel. simpl.
    repeat split.
Qed.

End RegisterDecode.

Lemma envelope_generator_calc_rate_witness :
  0 <= reg (Slot.m_regs slot_sustained) 3 < 256
  /\ calc_octave 0 = -1
  /\ calc_rate slot_sustained = -2.
Proof.
  split; [vm_compute; split; [discriminate|reflexivity]|].
  pose proof (envelope_generator_calc_rate example_tables slot_sustained) as H.
  simpl in H.
  destruct H as (Ho & Hr & _); [vm_compute; split; [discriminate|reflexivity]|].
  split; [exact Ho|exact Hr].
Defined.

(** The state of voice 0 after selecting sample 0 of [rom_attack_1] and
    writing 0x90 to the high pitch register; the key-on that follows has no
    defined result. *)
Lemma get_rate_index_below_zero_witness :
  exists d slot,
    write_all 12 rom_attack_1 example_tables device_init
      [(1, 0); (2, 1); (0, 0); (2, 3); (0, 0x90)] = Some d
    /\ idx (m_slots d) 0 = Some slot
    /\ calc_rate slot = -16
    /\ envelope_generator_calc example_tables slot = None
    /\ write_all 12 rom_attack_1 example_tables d [(2, 4); (0, 0x80)] = None.
Proof.
  eexists. eexists.
  split; [vm_compute; reflexivity|].
  split; [vm_compute; reflexivity|].
  match goal with
  | |- calc_rate ?s = _ /\ _ =>
      pose proof (get_rate_index_below_zero example_tables s
                    eq_refl eq_refl eq_refl) as (Hr & _ & _ & Hc)
  end.
  split; [exact Hr|]. split; [exact Hc|].
  vm_compute. reflexivity.
Defined.

(** Key-on of an idle voice, key-off of a playing voice, and key-off with
    release register 0xF, on the concrete device. *)
Lemma write_slot_key_on_off_example :
  (exists slot',
     write_slot 12 rom_zero example_tables slot_init 4 0x80 = Some slot'
     /\ Slot.m_playing slot' = true
     /\ EnvGen.m_state (Slot.m_envelope_gen slot') = ATTACK
     /\ EnvGen.m_volume (Slot.m_envelope_gen slot') = 0)
  /\ (exists slot',
        write_slot 12 rom_zero example_tables slot_playing 4 0 = Some slot'
        /\ Slot.m_playing slot' = true
        /\ EnvGen.m_state (Slot.m_envelope_gen slot') = RELEASE)
  /\ (exists slot',
        write_slot 12 rom_zero example_tables slot_sustained 4 0 = Some slot'
        /\ Slot.m_playing slot' = false
        /\ EnvGen.m_state (Slot.m_envelope_gen slot') = ATTACK).
Proof.
  split; [|split].
  - destruct (write_slot_key_on_off 12 rom_zero example_tables slot_init 0x80
                eq_refl ltac:(lia) eq_refl eq_refl) as (Hon & _ & _).
    destruct Hon as (slot' & Hw & Hp & _ & _ & _ & _ & Hs & Hv & _).
    + reflexivity.
    + vm_compute. repeat split; discriminate.
    + exists slot'. auto.
  - destruct (write_slot_key_on_off 12 rom_zero example_tables slot_playing 0
                eq_refl ltac:(lia) eq_refl eq_refl) as (_ & Hoff & _).
    destruct Hoff as (Hw & Hp & Hs); [reflexivity|reflexivity|discriminate|].
    eexists. split; [exact Hw|]. split; [exact Hp|exact Hs].
  - destruct (write_slot_key_on_off 12 rom_zero example_tables slot_sustained 0
                eq_refl ltac:(lia) eq_refl eq_refl) as (_ & _ & Hoff).
    destruct Hoff as (Hw & Hp & Hg); [reflexivity|reflexivity|reflexivity|].
    eexists. split; [exact Hw|]. split; [exact Hp|].
    rewrite Hg. reflexivity.
Qed.

(** ** The envelope generator *)

Lemma shiftl_mul (a n : Z) : 0 <= n -> Z.shiftl a n = a * 2 ^ n.
Proof. intros H. apply Z.shiftl_mul_pow2. exact H. Qed.

Lemma shiftr_div (a n : Z) : 0 <= n -> Z.shiftr a n = a / 2 ^ n.
Proof. intros H. apply Z.shiftr_div_pow2. exact H. Qed.

Lemma pow2_le_20 (n : Z) : 0 <= n <= 20 -> 0 < 2 ^ n <= 2 ^ 20.
Proof.
  intros H. split; [apply Z.pow_pos_nonneg; lia|].
  apply Z.pow_le_mono_r; lia.
Qed.

Lemma volume_gain (EG_SHIFT : Z) (T : tables) (v : Z) :
  0 <= EG_SHIFT ->
  length (m_linear_to_exp_volume T) = 0x400%nat ->
  0 <= v <= Z.shiftl 0x3ff EG_SHIFT ->
  is_Some (idx (m_linear_to_exp_volume T) (Z.shiftr v EG_SHIFT)).
Proof.
  intros HEG Hlen Hv. apply idx_Some. rewrite Hlen.
  rewrite shiftl_mul in Hv by lia. rewrite shiftr_div by lia.
  assert (Hp : 0 < 2 ^ EG_SHIFT) by (apply Z.pow_pos_nonneg; lia).
  split; [apply Z.div_pos; lia|].
  apply Z.div_lt_upper_bound; [lia|].
  change (Z.of_nat 1024) with 1024. nia.
Qed.

(** C6: a step of the envelope generator in the ATTACK state adds the attack
    rate to the volume; when the sum reaches the maximum 0x3ff << EG_SHIFT
    the volume is set to that maximum and the state becomes DECAY1, or
    DECAY2 when the decay1 rate is at least 0x400 << EG_SHIFT; below the
    maximum the state stays ATTACK.  The step touches nothing but the
    envelope's volume and state and returns the gain of the new volume. *)
Theorem envelope_attack_step (TL_SHIFT EG_SHIFT : Z) (T : tables)
    (slot : Slot.t) :
  let g := Slot.m_envelope_gen slot in
  let v := EnvGen.m_volume g + EnvGen.m_attack_rate g in
  let vmax := 0x3ff * 2 ^ EG_SHIFT in
  0 <= EG_SHIFT ->
  length (m_linear_to_exp_volume T) = 0x400%nat ->
  EnvGen.m_state g = ATTACK ->
  0 <= EnvGen.m_volume g ->
  0 <= EnvGen.m_attack_rate g ->
  v < 2 ^ 31 ->
  exists vol' st' gain,
    envelope_generator_update TL_SHIFT EG_SHIFT T slot
    = Some (Slot.set_envelope_gen slot (set_volume (set_state g st') vol'),
            gain)
    /\ (v < vmax -> vol' = v /\ st' = ATTACK)
    /\ (vmax <= v ->
        vol' = vmax
        /\ st' = if EnvGen.m_decay1_rate g >=? 0x400 * 2 ^ EG_SHIFT
                 then DECAY2 else DECAY1)
    /\ idx (m_linear_to_exp_volume T) (vol' / 2 ^ EG_SHIFT) = Some gain.
Proof.
  intros g v vmax HEG Hlen Hst Hvol Har Hv.
  destruct slot as [regs pl base off st pan tl dtl tls ps smp g0 pl1 al fmt].
  destruct g0 as [vol state stp ar d1 d2 rr dl].
  simpl in g, v, Hst, Hvol, Har. subst state. subst g. simpl in v.
  unfold envelope_generator_update, store_volume, store_state, set_volume,
    set_state, Slot.set_envelope_gen.
  simpl. rewrite s32_small by (subst v; lia).
  rewrite !shiftl_mul by lia. fold v. fold vmax.
  rewrite Z.geb_leb.
  destruct (Z.leb_spec vmax v) as [E|E]; simpl.
  - destruct (volume_gain EG_SHIFT T vmax HEG Hlen) as [gain Hg].
    { rewrite shiftl_mul by lia. subst vmax. lia. }
    rewrite Hg. simpl. rewrite shiftr_div in Hg by lia.
    destruct (d1 >=? 1024 * 2 ^ EG_SHIFT) eqn:Ed; simpl.
    + exists vmax, DECAY2, gain. repeat split; try lia; assumption.
    + exists vmax, DECAY1, gain. repeat split; try lia; assumption.
  - destruct (volume_gain EG_SHIFT T v HEG Hlen) as [gain Hg].
    { rewrite shiftl_mul by lia. subst v vmax. lia. }
    rewrite Hg. simpl. rewrite shiftr_div in Hg by lia.
    exists v, ATTACK, gain. repeat split; try lia; assumption.
Qed.

Section Envelope.

Variables TL_SHIFT EG_SHIFT : Z.
Variable T : tables.
Hypothesis EG_range : 0 <= EG_SHIFT <= 20.
Hypothesis exp_table : length (m_linear_to_exp_volume T) = 0x400%nat.

Ltac env_done :=
  match goal with
  | |- context [idx _ (Z.shiftr ?v _)] =>
      let gain := fresh "gain" in
      let Hg := fresh "Hg" in
      destruct (volume_gain EG_SHIFT T v ltac:(lia) exp_table) as [gain Hg];
        [lia|];
      rewrite Hg; simpl; do 3 eexists; (split; [reflexivity|]); simpl;
      split; [repeat split; lia
             |first [left; reflexivity | right; split; reflexivity]]
  end.

(** One step of the generator is defined on a well-formed envelope, keeps it
    well formed and writes only the envelope and, at the end of a release,
    the playing flag. *)
Lemma envelope_generator_update_wf (slot : Slot.t) :
  envelope_wf EG_SHIFT (Slot.m_envelope_gen slot) ->
  exists g' p' gain,
    envelope_generator_update TL_SHIFT EG_SHIFT T slot
    = Some (Slot.set_playing (Slot.set_envelope_gen slot g') p', gain)
    /\ envelope_wf EG_SHIFT g'
    /\ (p' = Slot.m_playing slot
        \/ (EnvGen.m_state (Slot.m_envelope_gen slot) = RELEASE
            /\ p' = false)).
Proof using EG_range exp_table.
  intros Hwf.
  destruct slot as [regs pl base off st pan tl dtl tls ps smp g pl1 al fmt].
  destruct g as [vol state stp ar d1 d2 rr dl].
  unfold envelope_wf in *. simpl in Hwf.
  destruct Hwf as (Hv & Har & Hd1 & Hd2 & Hrr).
  pose proof (pow2_le_20 EG_SHIFT EG_range) as Hp.
  assert (HM : 0 <= Z.shiftl 0x3ff EG_SHIFT < 2 ^ 30).
  { rewrite shiftl_mul by lia. change (2 ^ 30) with (1024 * 2 ^ 20). nia. }
  assert (HM0 : 0 <= Z.shiftl 0x3ff EG_SHIFT <= Z.shiftl 0x3ff EG_SHIFT)
    by lia.
  assert (H00 : 0 <= 0 <= Z.shiftl 0x3ff EG_SHIFT) by lia.
  unfold envelope_generator_update, store_volume, store_state, set_volume,
    set_state, Slot.set_envelope_gen, Slot.set_playing.
  simpl. destruct state; simpl.
  - rewrite s32_small by lia. rewrite Z.geb_leb.
    destruct (Z.leb_spec (Z.shiftl 0x3ff EG_SHIFT) (vol + ar)) as [E|E]; simpl;
      [destruct (d1 >=? Z.shiftl 1024 EG_SHIFT); simpl|]; env_done.
  - rewrite s32_small by lia.
    destruct (Z.leb_spec (vol - d1) 0) as [E|E]; simpl;
      match goal with
      | |- context [if ?c then _ else _] => destruct c
      end; simpl; env_done.
  - rewrite s32_small by lia.
    destruct (Z.leb_spec (vol - d2) 0) as [E|E]; simpl; env_done.
  - rewrite s32_small by lia.
    destruct (Z.leb_spec (vol - rr) 0) as [E|E]; simpl; env_done.
  - do 3 eexists; (split; [reflexivity|]); simpl; (split; [|left; reflexivity]);
      repeat split; lia.
Qed.

End Envelope.

(** ** One rendered sample of one voice *)

Lemma advance_offset_eq (TL_SHIFT : Z) (slot : Slot.t) (step : Z) :
  advance_offset TL_SHIFT slot step
  = Slot.set_offset slot
      (let off := u32 (Slot.m_offset slot + step) in
       if off >=? u32 (Z.shiftl (Sample.m_end (Slot.m_sample slot)) TL_SHIFT)
       then u32 (Z.shiftl (Sample.m_loop (Slot.m_sample slot)) TL_SHIFT)
       else off).
Proof.
  unfold advance_offset. simpl.
  destruct (u32 (Slot.m_offset slot + step) >=? _); reflexivity.
Qed.

Lemma ramp_total_level_eq (TL_SHIFT : Z) (slot : Slot.t) :
  ramp_total_level TL_SHIFT slot
  = Slot.set_total_level slot
      (if Z.shiftr (Slot.m_total_level slot) TL_SHIFT
            =? Slot.m_dest_total_level slot
       then Slot.m_total_level slot
       else u32 (Slot.m_total_level slot + Slot.m_total_level_step slot)).
Proof.
  unfold ramp_total_level.
  destruct (Z.shiftr (Slot.m_total_level slot) TL_SHIFT =? _);
    [destruct slot|]; reflexivity.
Qed.

Lemma land_255_range (x : Z) : 0 <= Z.land x 0xff < 256.
Proof.
  change 255 with (Z.ones 8). rewrite Z.land_ones by lia.
  apply Z.mod_pos_bound. lia.
Qed.

Lemma lfo_step_wf (TL_SHIFT LFO_SHIFT : Z) (lfo : Lfo.t) :
  lfo_wf lfo ->
  exists phase v,
    lfo_step TL_SHIFT LFO_SHIFT lfo
    = Some (Lfo.mk phase (Lfo.m_phase_step lfo) (Lfo.m_table lfo)
              (Lfo.m_scale lfo), v).
Proof.
  intros (Ht & Hr & Hs). unfold lfo_step. simpl.
  set (i := Z.land _ 255).
  destruct (idx_Some (Lfo.m_table lfo) i) as [p Hp].
  { rewrite Ht. subst i. pose proof (land_255_range
      (Z.shiftr (u32 (Lfo.m_phase lfo + Lfo.m_phase_step lfo)) LFO_SHIFT)).
    change (Z.of_nat 256) with 256. lia. }
  rewrite Hp. simpl.
  assert (Hpr : 0 <= p < 256).
  { unfold idx in Hp. destruct (0 <=? i); [|discriminate].
    rewrite Forall_lookup in Hr. exact (Hr _ _ Hp). }
  destruct (idx_Some (Lfo.m_scale lfo) p) as [q Hq].
  { rewrite Hs. change (Z.of_nat 256) with 256. lia. }
  rewrite Hq. simpl. eauto.
Qed.

(** The pan/level index stays inside the 0x800-entry pan tables. *)
Lemma pan_index_range (TL_SHIFT : Z) (tl pan : Z) :
  0 <= TL_SHIFT ->
  0 <= tl < 0x80 * 2 ^ TL_SHIFT ->
  0 <= pan < 0x10 ->
  0 <= Z.lor (Z.shiftr tl TL_SHIFT) (u32 (Z.shiftl pan 7)) < 0x800.
Proof.
  intros HTL Htl Hpan.
  rewrite shiftr_div, shiftl_mul by lia.
  assert (Hp : 0 < 2 ^ TL_SHIFT) by (apply Z.pow_pos_nonneg; lia).
  assert (Hl : 0 <= tl / 2 ^ TL_SHIFT < 128).
  { split; [apply Z.div_pos; lia|apply Z.div_lt_upper_bound; lia]. }
  set (l := tl / 2 ^ TL_SHIFT) in *.
  rewrite u32_small by lia.
  range_check (fun c => let r := Z.lor (c mod 128) (c / 128 * 2 ^ 7) in
                        (0 <=? r) && (r <? 0x800)) 2048%nat Hc.
  specialize (Hc (pan * 128 + l)).
  assert (Hr : 0 <= pan * 128 + l < Z.of_nat 2048)
    by (change (Z.of_nat 2048) with 2048; lia).
  apply Hc in Hr. clear Hc. cbv zeta in Hr.
  assert (Hq : (pan * 128 + l) / 128 = pan)
    by (symmetry; apply Z.div_unique with l; lia).
  assert (Hm : (pan * 128 + l) mod 128 = l)
    by (symmetry; apply Z.mod_unique with pan; lia).
  rewrite Hq, Hm in Hr. apply andb_true_iff in Hr as [H0 H1]. lia.
Qed.

Section Render.
Variables TL_SHIFT EG_SHIFT LFO_SHIFT : Z.
Variable rom : Z -> Z.
Variable T : tables.
Hypothesis TL_range : 0 <= TL_SHIFT.
Hypothesis EG_range : 0 <= EG_SHIFT <= 20.
Hypothesis tables_ok : tables_wf T.

Lemma update_slot_spec (slot : Slot.t) :
  slot_wf TL_SHIFT EG_SHIFT slot ->
  exists step phase amp_phase g' p' out,
    update_slot TL_SHIFT EG_SHIFT LFO_SHIFT rom T slot
    = Some (Slot.mk (Slot.m_regs slot) p' (Slot.m_base slot)
              (Slot.m_offset (advance_offset TL_SHIFT slot step))
              (Slot.m_step slot) (Slot.m_pan slot)
              (Slot.m_total_level (ramp_total_level TL_SHIFT slot))
              (Slot.m_dest_total_level slot) (Slot.m_total_level_step slot)
              (if Z.shiftr (Slot.m_offset slot) TL_SHIFT
                    =? Z.shiftr (Slot.m_offset
                                   (advance_offset TL_SHIFT slot step))
                                TL_SHIFT
               then Slot.m_prev_sample slot
               else decode_sample rom slot
                      (Z.shiftr (Slot.m_offset slot) TL_SHIFT))
              (Slot.m_sample slot) g'
              (Lfo.mk phase (Lfo.m_phase_step (Slot.m_pitch_lfo slot))
                 (Lfo.m_table (Slot.m_pitch_lfo slot))
                 (Lfo.m_scale (Slot.m_pitch_lfo slot)))
              (Lfo.mk amp_phase (Lfo.m_phase_step (Slot.m_amplitude_lfo slot))
                 (Lfo.m_table (Slot.m_amplitude_lfo slot))
                 (Lfo.m_scale (Slot.m_amplitude_lfo slot)))
              (Slot.m_format slot), out)
    /\ (if Z.land (reg (Slot.m_regs slot) 6) 7 =? 0
        then step = Slot.m_step slot
        else exists lfo v,
               pitch_lfo_step TL_SHIFT LFO_SHIFT (Slot.m_pitch_lfo slot)
               = Some (lfo, v)
               /\ step = Z.shiftr (u32 (Slot.m_step slot * v)) TL_SHIFT)
    /\ envelope_wf EG_SHIFT g'
    /\ (p' = Slot.m_playing slot
        \/ (EnvGen.m_state (Slot.m_envelope_gen slot) = RELEASE
            /\ p' = false)).
Proof using TL_range EG_range tables_ok.
  intros (Hregs & Hpan & Htl & Henv & Hpl & Hal).
  destruct tables_ok as (_ & _ & _ & Hleft & Hright & Hexp & _).
  unfold update_slot.
  set (csample := decode_sample rom slot _).
  set (sample0 := Z.shiftr (s32 _) TL_SHIFT).
  destruct (idx_Some (m_left_pan_table T)
              (Z.lor (Z.shiftr (Slot.m_total_level slot) TL_SHIFT)
                     (u32 (Z.shiftl (Slot.m_pan slot) 7)))) as [l Hl].
  { rewrite Hleft. apply pan_index_range; assumption. }
  destruct (idx_Some (m_right_pan_table T)
              (Z.lor (Z.shiftr (Slot.m_total_level slot) TL_SHIFT)
                     (u32 (Z.shiftl (Slot.m_pan slot) 7)))) as [r Hr].
  { rewrite Hright. apply pan_index_range; assumption. }
  rewrite Hl, Hr. clear Hl Hr.
  clearbody csample sample0.
  destruct slot as [regs pl base off st pan tl dtl tls ps smp g plfo alfo fmt].
  destruct plfo as [pphase pstep ptable pscale].
  destruct alfo as [aphase astep atable ascale].
  simpl in *.
  (* vibrato *)
  assert (Hvib :
    exists step phase,
      (if Z.land (reg regs 6) 7 =? 0
       then Some (Slot.mk regs pl base off st pan tl dtl tls ps smp g
                    (Lfo.mk pphase pstep ptable pscale)
                    (Lfo.mk aphase astep atable ascale) fmt, st)
       else
         pitch_lfo_step TL_SHIFT LFO_SHIFT (Lfo.mk pphase pstep ptable pscale)
         ≫= λ '(lfo, v),
           Some (Slot.set_pitch_lfo
                   (Slot.mk regs pl base off st pan tl dtl tls ps smp g
                      (Lfo.mk pphase pstep ptable pscale)
                      (Lfo.mk aphase astep atable ascale) fmt) lfo,
                 Z.shiftr (u32 (st * v)) TL_SHIFT))
      = Some (Slot.mk regs pl base off st pan tl dtl tls ps smp g
                (Lfo.mk phase pstep ptable pscale)
                (Lfo.mk aphase astep atable ascale) fmt, step)
      /\ (if Z.land (reg regs 6) 7 =? 0 then step = st
          else exists lfo v,
                 pitch_lfo_step TL_SHIFT LFO_SHIFT
                   (Lfo.mk pphase pstep ptable pscale) = Some (lfo, v)
                 /\ step = Z.shiftr (u32 (st * v)) TL_SHIFT)).
  { destruct (Z.eqb_spec (Z.land (reg regs 6) 7) 0) as [E|E].
    - exists st, pphase. split; reflexivity.
    - destruct (lfo_step_wf TL_SHIFT LFO_SHIFT _ (Hpl E)) as (ph & v & Hs).
      unfold pitch_lfo_step. rewrite Hs. simpl.
      exists (Z.shiftr (u32 (st * v)) TL_SHIFT), ph.
      split; [reflexivity|]. eauto. }
  destruct Hvib as (step & phase & Hvib & Hstep).
  rewrite Hvib. clear Hvib. simpl.
  rewrite !advance_offset_eq. simpl.
  set (off' := if u32 (off + step) >=? _ then _ else _).
  exists step, phase.
  (* previous sample *)
  set (ps' := if Z.shiftr off TL_SHIFT =? Z.shiftr off' TL_SHIFT
              then ps else csample).
  replace (if Z.shiftr off TL_SHIFT =? Z.shiftr off' TL_SHIFT
           then Slot.set_offset _ off'
           else Slot.set_prev_sample (Slot.set_offset _ off') csample)
    with (Slot.mk regs pl base off' st pan tl dtl tls ps' smp g
            (Lfo.mk phase pstep ptable pscale)
            (Lfo.mk aphase astep atable ascale) fmt)
    by (subst ps'; destruct (Z.shiftr off TL_SHIFT =? Z.shiftr off' TL_SHIFT);
        reflexivity).
  rewrite !ramp_total_level_eq. simpl.
  set (tl' := if Z.shiftr tl TL_SHIFT =? dtl then tl else u32 (tl + tls)).
  (* tremolo *)
  assert (Htrem :
    exists sample amp_phase,
      (if Z.land (reg regs 7) 7 =? 0
       then Some (Slot.set_total_level
                    (Slot.mk regs pl base off' st pan tl dtl tls ps' smp g
                       (Lfo.mk phase pstep ptable pscale)
                       (Lfo.mk aphase astep atable ascale) fmt) tl', sample0)
       else
         amplitude_lfo_step TL_SHIFT LFO_SHIFT
           (Lfo.mk aphase astep atable ascale)
         ≫= λ '(lfo, v),
           Some (Slot.set_amplitude_lfo
                   (Slot.set_total_level
                      (Slot.mk regs pl base off' st pan tl dtl tls ps' smp g
                         (Lfo.mk phase pstep ptable pscale)
                         (Lfo.mk aphase astep atable ascale) fmt) tl') lfo,
                 Z.shiftr (s32 (sample0 * v)) TL_SHIFT))
      = Some (Slot.mk regs pl base off' st pan tl' dtl tls ps' smp g
                (Lfo.mk phase pstep ptable pscale)
                (Lfo.mk amp_phase astep atable ascale) fmt, sample)).
  { destruct (Z.eqb_spec (Z.land (reg regs 7) 7) 0) as [E|E].
    - exists sample0, aphase. reflexivity.
    - destruct (lfo_step_wf TL_SHIFT LFO_SHIFT _ (Hal E)) as (ph & v & Hs).
      unfold amplitude_lfo_step. rewrite Hs. simpl.
      exists (Z.shiftr (s32 (sample0 * v)) TL_SHIFT), ph. reflexivity. }
  destruct Htrem as (sample & amp_phase & Htrem).
  rewrite Htrem. clear Htrem. simpl.
  exists amp_phase.
  (* envelope *)
  destruct (envelope_generator_update_wf TL_SHIFT EG_SHIFT T EG_range Hexp
              (Slot.mk regs pl base off' st pan tl' dtl tls ps' smp g
                 (Lfo.mk phase pstep ptable pscale)
                 (Lfo.mk amp_phase astep atable ascale) fmt) Henv)
    as (g' & p' & gain & Hu & Hg' & Hp').
  rewrite Hu. simpl.
  exists g', p'. eexists.
  split; [rewrite ?advance_offset_eq, ?ramp_total_level_eq; reflexivity|].
  split; [exact Hstep|]. split; [exact Hg'|exact Hp'].
Qed.


End Render.

(** ** The stream update, voice by voice *)

Section Stream.

Variables TL_SHIFT EG_SHIFT LFO_SHIFT : Z.
Variable rom : Z -> Z.
Variable T : tables.

Lemma voice_step_tick (s : Slot.t) :
  fst <$> (if Slot.m_playing s
           then update_slot TL_SHIFT EG_SHIFT LFO_SHIFT rom T s
           else Some (s, (0, 0)))
  = tick TL_SHIFT EG_SHIFT LFO_SHIFT rom T s.
Proof. unfold tick. destruct (Slot.m_playing s); reflexivity. Qed.

(** The voice loop succeeds exactly when every voice's sample does, and
    then holds every voice after its sample. *)
Lemma update_slots_tick (slots slots' : list Slot.t) (smpl smpr : Z) :
  (exists out,
     update_slots TL_SHIFT EG_SHIFT LFO_SHIFT rom T slots smpl smpr
     = Some (slots', out))
  <-> Forall2 (fun s s' => tick TL_SHIFT EG_SHIFT LFO_SHIFT rom T s = Some s')
        slots slots'.
Proof.
  revert slots' smpl smpr.
  induction slots as [|s rest IH]; intros slots' smpl smpr; simpl.
  - split.
    + intros [out [= <- _]]. constructor.
    + intros H. inversion H. eauto.
  - pose proof (voice_step_tick s) as Hs.
    destruct (if Slot.m_playing s then _ else _) as [[s1 [l r]]|];
      simpl in Hs |- *.
    + destruct (update_slots _ _ _ _ _ rest _ _) as [[rest' out]|] eqn:E;
        simpl.
      * split.
        -- intros [o [= <- <-]]. constructor; [symmetry; exact Hs|].
           apply (IH rest' (s32 (smpl + l)) (s32 (smpr + r))). eauto.
        -- intros H. inversion H as [|? ? ? ? Hs' Hr]; subst.
           rewrite <- Hs in Hs'. injection Hs' as <-.
           apply (IH _ (s32 (smpl + l)) (s32 (smpr + r))) in Hr as [o Ho].
           rewrite E in Ho. injection Ho as <- <-. eauto.
      * split; [intros [o [=]]|].
        intros H. inversion H as [|? ? ? ? Hs' Hr]; subst.
        apply (IH _ (s32 (smpl + l)) (s32 (smpr + r))) in Hr as [o Ho].
        rewrite E in Ho. discriminate.
    + split; [intros [o [=]]|].
      intros H. inversion H as [|? ? ? ? Hs' Hr]; subst.
      rewrite <- Hs in Hs'. discriminate.
Qed.

(** After [n] output samples every voice has gone through [n] of its own
    samples, and the register-interface latches are untouched. *)
Lemma sound_stream_update_ticks (n : nat) (d d' : device)
    (out : list (Z * Z)) :
  sound_stream_update TL_SHIFT EG_SHIFT LFO_SHIFT rom T n d = Some (d', out) ->
  Forall2 (fun s s' => ticks TL_SHIFT EG_SHIFT LFO_SHIFT rom T n s = Some s') (m_slots d) (m_slots d')
  /\ m_cur_slot d' = m_cur_slot d /\ m_address d' = m_address d
  /\ length out = n.
Proof.
  revert d d' out. induction n as [|n IH]; intros d d' out; simpl.
  - intros [= <- <-]. split; [|auto].
    induction (m_slots d); constructor; auto.
  - destruct (update_slots _ _ _ _ _ (m_slots d) 0 0)
      as [[slots [l r]]|] eqn:E; simpl; [|discriminate].
    destruct (sound_stream_update _ _ _ _ _ n _) as [[d1 out1]|] eqn:E1;
      simpl; [|discriminate].
    intros [= <- <-].
    apply IH in E1 as (Hs & Hc & Ha & Hl). simpl in Hs, Hc, Ha.
    split; [|simpl; auto].
    assert (Ht : Forall2 (fun s s' => tick TL_SHIFT EG_SHIFT LFO_SHIFT rom T s = Some s')
                       (m_slots d) slots).
    { apply (update_slots_tick _ _ 0 0). eauto. }
    clear E. revert Hs. generalize (m_slots d1).
    induction Ht as [|s s1 rest rest1 Hs1 Ht IHt]; intros l' Hs.
    + inversion Hs. constructor.
    + inversion Hs as [|? s2 ? rest2 Hs2 Hr2]; subst.
      constructor; [rewrite Hs1; exact Hs2|]. apply IHt. exact Hr2.
Qed.

End Stream.

(** ** The total-level ramp *)

Lemma dest_total_level_spec (data : Z) :
  0 <= data < 256 ->
  Z.land (Z.shiftr data 1) 0x7f = data / 2
  /\ 0 <= data / 2 < 0x80
  /\ (Z.land data 1 =? 0) = (data mod 2 =? 0).
Proof.
  intros H.
  range_check (fun x => (Z.land (Z.shiftr x 1) 0x7f =? x / 2)
                        && (0 <=? x / 2) && (x / 2 <? 0x80)
                        && Bool.eqb (Z.land x 1 =? 0) (x mod 2 =? 0))
              256%nat Hc.
  specialize (Hc data H).
  apply andb_true_iff in Hc as [Hc H4].
  apply andb_true_iff in Hc as [Hc H3].
  apply andb_true_iff in Hc as [H1 H2].
  apply Z.eqb_eq in H1. apply Bool.eqb_prop in H4. lia.
Qed.

Section Ramp.

Variables TL_SHIFT EG_SHIFT LFO_SHIFT : Z.
Variable rom : Z -> Z.
Variable T : tables.
Variables down up : Z.
Hypothesis TL_range : 0 <= TL_SHIFT <= 24.
Hypothesis EG_range : 0 <= EG_SHIFT <= 20.
Hypothesis tables_ok : tables_wf T.
Hypothesis steps_ok : total_level_steps_ok TL_SHIFT T down up.

Lemma pow2_TL : 0 < 2 ^ TL_SHIFT <= 2 ^ 24.
Proof using TL_range.
  split; [apply Z.pow_pos_nonneg; lia|apply Z.pow_le_mono_r; lia].
Qed.

(** One step of the ramp, in terms of the level [tl / 2 ^ TL_SHIFT]. *)
Lemma ramp_total_level_step (slot : Slot.t) :
  ramp_wf TL_SHIFT down up slot ->
  let tl := Slot.m_total_level slot in
  let tl' := Slot.m_total_level (ramp_total_level TL_SHIFT slot) in
  let dest := Slot.m_dest_total_level slot in
  0 <= tl' < 0x80 * 2 ^ TL_SHIFT
  /\ (tl / 2 ^ TL_SHIFT = dest -> tl' = tl)
  /\ (tl / 2 ^ TL_SHIFT < dest ->
      tl' = tl + up /\ tl' / 2 ^ TL_SHIFT <= dest)
  /\ (dest < tl / 2 ^ TL_SHIFT ->
      tl' = tl + down /\ dest <= tl' / 2 ^ TL_SHIFT).
Proof using TL_range steps_ok.
  intros (Htl & Hdest & Hdir) tl tl' dest.
  destruct steps_ok as (_ & Hdown & Hup).
  pose proof pow2_TL as HP.
  subst tl'. rewrite ramp_total_level_eq. simpl.
  rewrite shiftr_div in * by lia. fold tl dest in Hdir, Htl, Hdest |- *.
  set (P := 2 ^ TL_SHIFT) in *.
  assert (HP32 : 129 * P < 2 ^ 32).
  { change (2 ^ 32) with (256 * 2 ^ 24). lia. }
  destruct (Z.eqb_spec (tl / P) dest) as [E|E].
  - repeat split; try lia.
  - assert (Hlo : P * (tl / P) <= tl) by (apply Z.mul_div_le; lia).
    assert (Hhi : tl < P * (tl / P) + P).
    { pose proof (Z.mod_pos_bound tl P ltac:(lia)).
      pose proof (Z.div_mod tl P ltac:(lia)). lia. }
    destruct Hdir as [Heq | [[Hgt Hs] | [Hlt Hs]]]; [contradiction| |];
      rewrite Hs.
    + (* falling *)
      assert (Hge : dest <= (tl + down) / P).
      { apply Z.div_le_lower_bound; [lia|]. nia. }
      rewrite u32_small by nia.
      repeat split; try lia; nia.
    + (* rising *)
      assert (Hle : (tl + up) / P <= dest).
      { assert ((tl + up) / P < dest + 1); [|lia].
        apply Z.div_lt_upper_bound; [lia|]. nia. }
      assert (Hb : tl + up < 128 * P) by nia.
      rewrite u32_small by nia.
      repeat split; try lia; nia.
Qed.

Lemma ramp_wf_step (slot slot' : Slot.t) :
  ramp_wf TL_SHIFT down up slot ->
  Slot.m_total_level slot'
  = Slot.m_total_level (ramp_total_level TL_SHIFT slot) ->
  Slot.m_dest_total_level slot' = Slot.m_dest_total_level slot ->
  Slot.m_total_level_step slot' = Slot.m_total_level_step slot ->
  ramp_wf TL_SHIFT down up slot'.
Proof using TL_range steps_ok.
  intros Hwf Htl Hd Hs.
  pose proof (ramp_total_level_step slot Hwf) as (Hr & Heq & Hlt & Hgt).
  destruct Hwf as (Hrange & Hdest & Hdir).
  unfold ramp_wf. rewrite Htl, Hd, Hs.
  rewrite shiftr_div in * by lia.
  split; [exact Hr|]. split; [exact Hdest|].
  destruct Hdir as [E | [[E Hst] | [E Hst]]].
  - left. rewrite (Heq E). exact E.
  - destruct (Hgt E) as [_ Hge].
    destruct (Z.eq_dec
                (Slot.m_total_level (ramp_total_level TL_SHIFT slot)
                 / 2 ^ TL_SHIFT) (Slot.m_dest_total_level slot)) as [E'|E'];
      [left; exact E'|right; left; split; [lia|exact Hst]].
  - destruct (Hlt E) as [_ Hle].
    destruct (Z.eq_dec
                (Slot.m_total_level (ramp_total_level TL_SHIFT slot)
                 / 2 ^ TL_SHIFT) (Slot.m_dest_total_level slot)) as [E'|E'];
      [left; exact E'|right; right; split; [lia|exact Hst]].
Qed.

(** A write to sub-register 5 leaves a well-formed slot whose step points
    from the current level to the new destination. *)
Lemma write_slot_total_level (slot : Slot.t) (data : Z) :
  slot_wf TL_SHIFT EG_SHIFT slot ->
  0 <= data < 256 ->
  exists slot1,
    write_slot TL_SHIFT rom T slot 5 data = Some slot1
    /\ slot_wf TL_SHIFT EG_SHIFT slot1
    /\ ramp_wf TL_SHIFT down up slot1
    /\ Slot.m_dest_total_level slot1 = data / 2
    /\ Slot.m_playing slot1 = Slot.m_playing slot
    /\ Slot.m_total_level slot1
       = if data mod 2 =? 0 then Slot.m_total_level slot
         else data / 2 * 2 ^ TL_SHIFT.
Proof using TL_range EG_range steps_ok.
  intros (Hregs & Hpan & Htl & Henv & Hpl & Hal) Hdata.
  destruct steps_ok as (Hsteps & Hdown & Hup).
  pose proof pow2_TL as HP.
  destruct (dest_total_level_spec data Hdata) as (Hd & Hdr & Hbit).
  assert (Hupd : upd (Slot.m_regs slot) 5 data
                 = Some (<[5%nat := data]> (Slot.m_regs slot))).
  { apply (upd_Some (Slot.m_regs slot) 5 data). rewrite Hregs. lia. }
  unfold write_slot. rewrite Hupd. simpl.
  rewrite Hd, Hbit, Hsteps.
  assert (Hsmall : u32 (Z.shiftl (data / 2) TL_SHIFT)
                   = data / 2 * 2 ^ TL_SHIFT).
  { rewrite shiftl_mul by lia. apply u32_small.
    change (2 ^ 32) with (256 * 2 ^ 24). nia. }
  assert (Hlfo : forall tl' st',
    slot_wf TL_SHIFT EG_SHIFT
      (Slot.set_total_level_step
         (Slot.set_total_level
            (Slot.set_dest_total_level
               (Slot.set_regs slot (<[5%nat := data]> (Slot.m_regs slot)))
               (data / 2)) tl') st')
    <-> 0 <= tl' < 0x80 * 2 ^ TL_SHIFT).
  { intros tl' st'. unfold slot_wf. simpl.
    rewrite length_insert, !reg_insert_ne by discriminate. tauto. }
  rewrite shiftr_div by lia.
  destruct (data mod 2 =? 0).
  - rewrite Z.gtb_ltb.
    destruct (Z.ltb_spec (data / 2) (Slot.m_total_level slot / 2 ^ TL_SHIFT))
      as [E|E]; simpl; eexists; (split; [reflexivity|]).
    + split; [apply (Hlfo (Slot.m_total_level slot) down); exact Htl|].
      split; [|auto].
      unfold ramp_wf. simpl. rewrite shiftr_div by lia.
      split; [exact Htl|]. split; [exact Hdr|]. right. left. auto.
    + split; [apply (Hlfo (Slot.m_total_level slot) up); exact Htl|].
      split; [|auto].
      unfold ramp_wf. simpl. rewrite shiftr_div by lia.
      split; [exact Htl|]. split; [exact Hdr|].
      destruct (Z.eq_dec (Slot.m_total_level slot / 2 ^ TL_SHIFT) (data / 2));
        [left; assumption|right; right; split; [lia|reflexivity]].
  - simpl. rewrite Hsmall. eexists. split; [reflexivity|].
    assert (Hr : 0 <= data / 2 * 2 ^ TL_SHIFT < 0x80 * 2 ^ TL_SHIFT) by nia.
    split.
    { apply (Hlfo (data / 2 * 2 ^ TL_SHIFT) (Slot.m_total_level_step slot)) in Hr.
      destruct slot; exact Hr. }
    split; [|auto].
    unfold ramp_wf. simpl. rewrite shiftr_div by lia.
    split; [exact Hr|]. split; [exact Hdr|]. left.
    apply Z.div_mul. lia.
Qed.

(** One output sample keeps a voice well formed and moves its total level
    by [ramp_total_level]; a voice that is not playing is left alone. *)
Lemma tick_wf (slot : Slot.t) :
  slot_wf TL_SHIFT EG_SHIFT slot ->
  ramp_wf TL_SHIFT down up slot ->
  exists slot',
    tick TL_SHIFT EG_SHIFT LFO_SHIFT rom T slot = Some slot'
    /\ slot_wf TL_SHIFT EG_SHIFT slot'
    /\ ramp_wf TL_SHIFT down up slot'
    /\ Slot.m_dest_total_level slot' = Slot.m_dest_total_level slot
    /\ Slot.m_total_level slot'
       = if Slot.m_playing slot
         then Slot.m_total_level (ramp_total_level TL_SHIFT slot)
         else Slot.m_total_level slot.
Proof using TL_range EG_range tables_ok steps_ok.
  intros Hwf Hramp. unfold tick.
  destruct (Slot.m_playing slot) eqn:Hplay.
  - destruct (update_slot_spec TL_SHIFT EG_SHIFT LFO_SHIFT rom T
                ltac:(lia) EG_range tables_ok slot Hwf)
      as (step & phase & amp_phase & g' & p' & out & Hu & _ & Hg' & _).
    rewrite Hu. simpl. eexists. split; [reflexivity|].
    pose proof (ramp_total_level_step slot Hramp) as (Hr & _).
    destruct Hwf as (Hregs & Hpan & Htl & Henv & Hpl & Hal).
    split; [|split; [|split; reflexivity]].
    + unfold slot_wf. simpl.
      split; [exact Hregs|]. split; [exact Hpan|]. split; [exact Hr|].
      split; [exact Hg'|]. split; [exact Hpl|exact Hal].
    + apply (ramp_wf_step slot); [exact Hramp|reflexivity..].
  - exists slot. split; [reflexivity|]. split; [exact Hwf|].
    split; [exact Hramp|]. split; reflexivity.
Qed.

Lemma ticks_wf (n : nat) (slot : Slot.t) :
  slot_wf TL_SHIFT EG_SHIFT slot ->
  ramp_wf TL_SHIFT down up slot ->
  exists slot',
    ticks TL_SHIFT EG_SHIFT LFO_SHIFT rom T n slot = Some slot'
    /\ slot_wf TL_SHIFT EG_SHIFT slot'
    /\ ramp_wf TL_SHIFT down up slot'
    /\ Slot.m_dest_total_level slot' = Slot.m_dest_total_level slot.
Proof using TL_range EG_range tables_ok steps_ok.
  revert slot. induction n as [|n IH]; intros slot Hwf Hramp.
  - exists slot. split; [reflexivity|]. split; [exact Hwf|].
    split; [exact Hramp|reflexivity].
  - destruct (tick_wf slot Hwf Hramp) as (s1 & Ht & Hwf1 & Hr1 & Hd1 & _).
    destruct (IH s1 Hwf1 Hr1) as (s' & Hts & Hwf' & Hr' & Hd').
    exists s'. simpl. rewrite Ht. simpl.
    split; [exact Hts|]. split; [exact Hwf'|]. split; [exact Hr'|].
    congruence.
Qed.

(** C7: after a write of sub-register 5 to a well-formed voice, every
    number [n] of rendered samples leaves the total level inside
    [0, 0x80 << TL_SHIFT), that is its level [tl >> TL_SHIFT] inside
    [0, 0x7f]; the next sample then leaves the total level alone when the
    level equals the destination, and otherwise moves it towards the
    destination, by exactly the rise or fall step when the voice is playing,
    without the level crossing the destination. *)
Theorem total_level_ramp (slot : Slot.t) (data : Z) (n : nat) :
  slot_wf TL_SHIFT EG_SHIFT slot ->
  0 <= data < 256 ->
  exists slot1 sn sn',
    write_slot TL_SHIFT rom T slot 5 data = Some slot1
    /\ ticks TL_SHIFT EG_SHIFT LFO_SHIFT rom T n slot1 = Some sn
    /\ tick TL_SHIFT EG_SHIFT LFO_SHIFT rom T sn = Some sn'
    /\ (let dest := data / 2 in
        let tl := Slot.m_total_level sn in
        let tl' := Slot.m_total_level sn' in
        let level := Z.shiftr tl TL_SHIFT in
        let level' := Z.shiftr tl' TL_SHIFT in
        Slot.m_dest_total_level sn = dest
        /\ Slot.m_dest_total_level sn' = dest
        /\ 0 <= level <= 0x7f
        /\ 0 <= level' <= 0x7f
        /\ (level = dest -> tl' = tl)
        /\ (level < dest ->
            tl <= tl' /\ level' <= dest
            /\ (Slot.m_playing sn = true -> tl' = tl + up))
        /\ (dest < level ->
            tl' <= tl /\ dest <= level'
            /\ (Slot.m_playing sn = true -> tl' = tl + down))).
Proof using TL_range EG_range tables_ok steps_ok.
  intros Hwf Hdata.
  destruct (write_slot_total_level slot data Hwf Hdata)
    as (slot1 & Hw & Hwf1 & Hr1 & Hd1 & _).
  destruct (ticks_wf n slot1 Hwf1 Hr1) as (sn & Hn & Hwfn & Hrn & Hdn).
  destruct (tick_wf sn Hwfn Hrn) as (sn' & Ht & Hwf' & Hr' & Hd' & Htl').
  exists slot1, sn, sn'. split; [exact Hw|]. split; [exact Hn|].
  split; [exact Ht|]. cbv zeta.
  pose proof pow2_TL as HP.
  destruct steps_ok as (_ & Hdown & Hup).
  pose proof (ramp_total_level_step sn Hrn) as (Hr & Heq & Hlt & Hgt).
  rewrite Hdn, Hd1 in Heq, Hlt, Hgt.
  destruct Hrn as (Hrange & _). destruct Hr' as (Hrange' & _).
  rewrite !shiftr_div by lia.
  assert (Hlev : forall x, 0 <= x < 0x80 * 2 ^ TL_SHIFT ->
                           0 <= x / 2 ^ TL_SHIFT <= 0x7f).
  { intros x Hx. split; [apply Z.div_pos; lia|].
    assert (x / 2 ^ TL_SHIFT < 0x80); [|lia].
    apply Z.div_lt_upper_bound; lia. }
  split; [congruence|]. split; [congruence|].
  split; [apply Hlev; exact Hrange|]. split; [apply Hlev; exact Hrange'|].
  rewrite Htl'.
  destruct (Slot.m_playing sn).
  - split; [exact Heq|]. split.
    + intros E. destruct (Hlt E) as [E1 E2]. rewrite E1 in *. lia.
    + intros E. destruct (Hgt E) as [E1 E2]. rewrite E1 in *. lia.
  - split; [reflexivity|]. split; intros E; (split; [lia|]);
      (split; [lia|discriminate]).
Qed.

End Ramp.

(** ** The code on the concrete device *)

Lemma example_tables_wf : tables_wf example_tables.
Proof. repeat split; vm_compute; reflexivity. Qed.


Lemma slot_playing_wf : slot_wf 12 16 slot_playing.
Proof.
  unfold slot_wf, envelope_wf. simpl.
  split; [reflexivity|]. split; [lia|]. split; [lia|].
  split; [vm_compute; intuition congruence|].
  split; intros H; exfalso; apply H; reflexivity.
Qed.

(** X25 ([device_start], the total-level steps): for every [TL_SHIFT] from
    6 to 23 the start-up code computes a fall and a rise of at most one
    level, the condition the ramp needs.  (Below 6 the rise truncates to 0;
    above 23 [0x80 << TL_SHIFT] leaves [int].) *)
Lemma total_level_steps_init_ok (TL_SHIFT : Z) :
  6 <= TL_SHIFT <= 23 ->
  exists down up,
    total_level_steps_init TL_SHIFT = Some [down; up]
    /\ - 2 ^ TL_SHIFT <= down < 0
    /\ 0 < up <= 2 ^ TL_SHIFT.
Proof.
  intros HTL.
  range_check
    (fun i => match total_level_steps_init (i + 6) with
              | Some [down; up] =>
                  (- 2 ^ (i + 6) <=? down) && (down <? 0)
                  && (0 <? up) && (up <=? 2 ^ (i + 6))
              | _ => false
              end) 18%nat H.
  specialize (H (TL_SHIFT - 6) ltac:(lia)).
  replace (TL_SHIFT - 6 + 6) with TL_SHIFT in H by lia.
  destruct (total_level_steps_init TL_SHIFT) as [[|down [|up [|]]]|];
    try discriminate.
  exists down, up. split; [reflexivity|]. lia.
Qed.

Lemma total_level_steps_init_5 :
  total_level_steps_init 5 = Some [-1; 0].
Proof. vm_compute. reflexivity. Qed.

(** The literal step tables are what the start-up code computes. *)
Lemma example_envelope_steps :
  envelope_steps_init 16
  = Some (m_attack_step example_tables, m_decay_release_step example_tables).
Proof. vm_compute. reflexivity. Qed.

Lemma example_total_level_steps :
  total_level_steps_init 12 = Some (m_total_level_steps example_tables).
Proof. vm_compute. reflexivity. Qed.

Lemma example_steps_ok : total_level_steps_ok 12 example_tables (-152) 76.
Proof. unfold total_level_steps_ok. split; [reflexivity|lia]. Qed.

Lemma envelope_attack_step_witness :
  exists vol' st' gain,
    envelope_generator_update 12 16 example_tables slot_near_end
    = Some (Slot.set_envelope_gen slot_near_end
              (set_volume (set_state (Slot.m_envelope_gen slot_near_end) st')
                 vol'), gain)
    /\ vol' = 0x3ff0000 /\ st' = DECAY1.
Proof.
  destruct (envelope_attack_step 12 16 example_tables slot_near_end)
    as (vol' & st' & gain & Hu & _ & Hmax & _);
    [lia|reflexivity|reflexivity|simpl; lia|simpl; lia|simpl; lia|].
  exists vol', st', gain. split; [exact Hu|].
  apply Hmax. simpl. lia.
Defined.


Lemma total_level_ramp_witness :
  exists slot1 sn sn',
    write_slot 12 rom_zero example_tables slot_playing 5 0x50 = Some slot1
    /\ ticks 12 16 8 rom_zero example_tables 5 slot1 = Some sn
    /\ tick 12 16 8 rom_zero example_tables sn = Some sn'
    /\ Slot.m_dest_total_level sn = 40
    /\ Slot.m_total_level sn = 380
    /\ Slot.m_total_level sn' = 456.
Proof.
  destruct (total_level_ramp 12 16 8 rom_zero example_tables (-152) 76
              ltac:(lia) ltac:(lia) example_tables_wf example_steps_ok
              slot_playing 0x50 5 slot_playing_wf ltac:(lia))
    as (slot1 & sn & sn' & Hw & Hn & Ht & Hd & _ & _ & _ & _ & Hlt & _).
  exists slot1, sn, sn'. split; [exact Hw|]. split; [exact Hn|].
  split; [exact Ht|]. split; [exact Hd|].
  assert (Hw' : write_slot 12 rom_zero example_tables slot_playing 5 0x50
                = Some (Slot.set_total_level_step
                          (Slot.set_dest_total_level
                             (Slot.set_regs slot_playing
                                [0; 0; 0; 0; 0; 0x50; 0; 0]) 40) 76))
    by (vm_compute; reflexivity).
  rewrite Hw' in Hw. injection Hw as <-.
  assert (Hn' : Slot.m_total_level
                  <$> ticks 12 16 8 rom_zero example_tables 5
                        (Slot.set_total_level_step
                           (Slot.set_dest_total_level
                              (Slot.set_regs slot_playing
                                 [0; 0; 0; 0; 0; 0x50; 0; 0]) 40) 76)
                = Some 380) by (vm_compute; reflexivity).
  assert (Hp' : Slot.m_playing
                  <$> ticks 12 16 8 rom_zero example_tables 5
                        (Slot.set_total_level_step
                           (Slot.set_dest_total_level
                              (Slot.set_regs slot_playing
                                 [0; 0; 0; 0; 0; 0x50; 0; 0]) 40) 76)
                = Some true) by (vm_compute; reflexivity).
  rewrite Hn in Hn', Hp'. simpl in Hn', Hp'.
  injection Hn' as Hn'. injection Hp' as Hp'.
  split; [exact Hn'|].
  destruct Hlt as (_ & _ & Hup).
  - rewrite Hn'. vm_compute. reflexivity.
  - rewrite (Hup Hp'), Hn'. reflexivity.
Defined.

(** ** Single-precision rounding, arithmetically *)

Lemma iter_pos_nat {A : Type} (f : A -> A) (p : positive) (x : A) :
  SpecFloat.iter_pos f p x = Nat.iter (Pos.to_nat p) f x.
Proof.
  revert x. induction p as [p IH|p IH|]; intros x; cbn [SpecFloat.iter_pos].
  - rewrite !IH, Pos2Nat.inj_xI.
    replace (S (2 * Pos.to_nat p)) with (Pos.to_nat p + Pos.to_nat p + 1)%nat
      by lia.
    rewrite !Nat.iter_add. reflexivity.
  - rewrite !IH, Pos2Nat.inj_xO.
    replace (2 * Pos.to_nat p)%nat with (Pos.to_nat p + Pos.to_nat p)%nat
      by lia.
    rewrite Nat.iter_add. reflexivity.
  - reflexivity.
Qed.

Lemma shr_1_nonneg (m : Z) (r s : bool) :
  0 <= m ->
  shr_1 (Build_shr_record m r s) = Build_shr_record (m / 2) (Z.odd m) (r || s).
Proof.
  intros H. destruct m as [|[p|p|]|p]; try lia; simpl shr_1; f_equal.
  - rewrite Pos2Z.inj_xI. apply Z.div_unique with 1; lia.
  - rewrite Pos2Z.inj_xO. apply Z.div_unique with 0; lia.
Qed.

Lemma digits2_pos_log2 (p : positive) :
  Zpos (digits2_pos p) = Z.log2 (Zpos p) + 1.
Proof.
  induction p as [p IH|p IH|]; simpl digits2_pos.
  - rewrite Pos2Z.inj_succ, IH. simpl Z.log2.
    destruct p; simpl; lia.
  - rewrite Pos2Z.inj_succ, IH. simpl Z.log2.
    destruct p; simpl; lia.
  - reflexivity.
Qed.

Lemma mod_pow2_succ (m : Z) (n : Z) :
  0 <= n ->
  m mod 2 ^ (n + 1) = m mod 2 ^ n + 2 ^ n * ((m / 2 ^ n) mod 2).
Proof.
  intros H. rewrite Z.pow_add_r by lia. change (2 ^ 1) with 2.
  apply Z.rem_mul_r; [|lia].
  apply Z.pow_nonzero; lia.
Qed.

Lemma odd_mod2 (a : Z) : Z.odd a = negb (a mod 2 =? 0).
Proof.
  rewrite Zmod_odd. destruct (Z.odd a); reflexivity.
Qed.

Lemma shr_iter (n : nat) (m : Z) (r s : bool) :
  0 <= m ->
  Nat.iter (S n) shr_1 (Build_shr_record m r s)
  = Build_shr_record (m / 2 ^ (Z.of_nat n + 1)) (Z.odd (m / 2 ^ Z.of_nat n))
      (r || s || negb (m mod 2 ^ Z.of_nat n =? 0)).
Proof.
  intros Hm. induction n as [|n IH].
  - rewrite Nat.iter_succ. unfold Nat.iter at 1. cbn [nat_rect].
    rewrite shr_1_nonneg by exact Hm.
    change (Z.of_nat 0) with 0. change (2 ^ (0 + 1)) with 2.
    change (2 ^ 0) with 1. rewrite Z.div_1_r, Z.mod_1_r.
    rewrite orb_false_r. reflexivity.
  - rewrite Nat.iter_succ, IH.
    assert (Hp : 0 < 2 ^ Z.of_nat n) by (apply Z.pow_pos_nonneg; lia).
    assert (Hq : 0 <= m / 2 ^ (Z.of_nat n + 1))
      by (apply Z.div_pos; [lia|apply Z.pow_pos_nonneg; lia]).
    rewrite shr_1_nonneg by exact Hq.
    replace (Z.of_nat (S n)) with (Z.of_nat n + 1) by lia.
    f_equal.
    + rewrite Z.div_div by (try apply Z.pow_pos_nonneg; lia).
      f_equal. rewrite (Z.pow_add_r 2 (Z.of_nat n + 1) 1) by lia. reflexivity.
    + rewrite (mod_pow2_succ m (Z.of_nat n)) by lia.
      rewrite odd_mod2.
      pose proof (Z.mod_pos_bound (m / 2 ^ Z.of_nat n) 2 ltac:(lia)) as Hb.
      pose proof (Z.mod_pos_bound m (2 ^ Z.of_nat n) Hp) as Hl.
      destruct (Z.eqb_spec ((m / 2 ^ Z.of_nat n) mod 2) 0) as [E|E];
        destruct (Z.eqb_spec (m mod 2 ^ Z.of_nat n) 0) as [F|F];
        destruct (Z.eqb_spec
                    (m mod 2 ^ Z.of_nat n
                     + 2 ^ Z.of_nat n * ((m / 2 ^ Z.of_nat n) mod 2)) 0)
          as [G|G]; try nia; destruct r, s; reflexivity.
Qed.

(** Shifting right by [k] places and rounding on the location bits is
    [rne_shr]. *)
Lemma shr_round (m : Z) (p : positive) :
  0 <= m ->
  let mrs := SpecFloat.iter_pos shr_1 p (Build_shr_record m false false) in
  round_nearest_even (shr_m mrs) (loc_of_shr_record mrs) = rne_shr m (Zpos p).
Proof.
  intros Hm mrs. subst mrs. rewrite iter_pos_nat.
  destruct (Pos.to_nat p) as [|n] eqn:En; [lia|].
  rewrite shr_iter by exact Hm.
  assert (Hk : Zpos p = Z.of_nat n + 1) by lia.
  rewrite Hk. clear Hk En p. set (k := Z.of_nat n). assert (0 <= k) by lia.
  clearbody k. clear n.
  unfold rne_shr. replace (k + 1 - 1) with k by lia.
  rewrite (mod_pow2_succ m k) by lia. rewrite odd_mod2.
  assert (Hp : 0 < 2 ^ k) by (apply Z.pow_pos_nonneg; lia).
  pose proof (Z.mod_pos_bound (m / 2 ^ k) 2 ltac:(lia)) as Hb.
  pose proof (Z.mod_pos_bound m (2 ^ k) Hp) as Hl.
  simpl orb. cbn [shr_m loc_of_shr_record].
  set (q := m / 2 ^ (k + 1)).
  set (lo := m mod 2 ^ k) in *. set (b := (m / 2 ^ k) mod 2) in *.
  destruct (Z.eqb_spec b 0) as [E|E]; destruct (Z.eqb_spec lo 0) as [F|F];
    cbn [negb loc_of_shr_record round_nearest_even];
    destruct (Z.ltb_spec (lo + 2 ^ k * b) (2 ^ k)); try nia;
    destruct (Z.ltb_spec (2 ^ k) (lo + 2 ^ k * b)); try nia; reflexivity.
Qed.

Lemma fexp32 (x : Z) : fexp 24 128 x = Z.max (x - 24) (-149).
Proof. reflexivity. Qed.

Lemma shr_no_shift (mrs : shr_record) (e n : Z) :
  n <= 0 -> shr mrs e n = (mrs, e).
Proof. intros H. destruct n; try lia; reflexivity. Qed.

Lemma shr_shift (m e : Z) (p : positive) :
  shr (Build_shr_record m false false) e (Zpos p)
  = (SpecFloat.iter_pos shr_1 p (Build_shr_record m false false), e + Zpos p).
Proof. reflexivity. Qed.

Lemma log2_bounds (m : positive) :
  2 ^ Z.log2 (Zpos m) <= Zpos m < 2 ^ (Z.log2 (Zpos m) + 1).
Proof.
  pose proof (Z.log2_spec (Zpos m) ltac:(lia)) as H.
  replace (Z.succ (Z.log2 (Zpos m))) with (Z.log2 (Zpos m) + 1) in H by lia.
  exact H.
Qed.

Lemma rne_shr_bounds (m k : Z) :
  0 <= m -> 0 < k -> m / 2 ^ k <= rne_shr m k <= m / 2 ^ k + 1.
Proof.
  intros Hm Hk. unfold rne_shr.
  destruct (_ <? _); [lia|]. destruct (_ <? _); [lia|].
  destruct (Z.even _); lia.
Qed.

Lemma rne_shr_nonneg (m k : Z) : 0 <= m -> 0 < k -> 0 <= rne_shr m k.
Proof.
  intros Hm Hk. pose proof (rne_shr_bounds m k Hm Hk).
  assert (0 <= m / 2 ^ k) by (apply Z.div_pos; [lia|apply Z.pow_pos_nonneg; lia]).
  lia.
Qed.

(** The result of rounding a positive mantissa with an exact location. *)
Lemma binary_round_aux_spec (m : positive) (e : Z) :
  let E := Z.max (Z.log2 (Zpos m) + 1 + e - 24) (-149) in
  binary_round_aux 24 128 false (Zpos m) e loc_Exact
  = if E <=? e
    then (if e <=? 104 then S754_finite false m e else S754_infinity false)
    else
      match rne_shr (Zpos m) (E - e) with
      | Zpos n =>
          if Zpos n =? 2 ^ 24
          then (if E + 1 <=? 104 then S754_finite false (2 ^ 23)%positive (E + 1)
                else S754_infinity false)
          else (if E <=? 104 then S754_finite false n E
                else S754_infinity false)
      | _ => S754_zero false
      end.
Proof.
  intros E.
  unfold binary_round_aux, shr_fexp. cbn [Zdigits2 shr_record_of_loc].
  rewrite digits2_pos_log2, fexp32. fold E.
  destruct (Z.leb_spec E e) as [HE|HE].
  - rewrite shr_no_shift by lia.
    cbn [shr_m loc_of_shr_record round_nearest_even Zdigits2 shr_record_of_loc].
    rewrite digits2_pos_log2, fexp32. fold E.
    rewrite shr_no_shift by lia. cbn [shr_m]. reflexivity.
  - destruct (E - e) as [|p|p] eqn:Ek; try lia.
    rewrite shr_shift.
    pose proof (shr_round (Zpos m) p ltac:(lia)) as Hr. cbv zeta in Hr.
    match goal with
    | |- context [round_nearest_even ?a ?b] =>
        change (round_nearest_even a b) with
          (round_nearest_even
             (shr_m (SpecFloat.iter_pos shr_1 p
                       (Build_shr_record (Zpos m) false false)))
             (loc_of_shr_record
                (SpecFloat.iter_pos shr_1 p
                   (Build_shr_record (Zpos m) false false))))
    end.
    rewrite Hr. clear Hr.
    replace (e + Zpos p) with E by lia.
    pose proof (rne_shr_bounds (Zpos m) (Zpos p) ltac:(lia) ltac:(lia)) as Hb.
    pose proof (log2_bounds m) as Hl.
    assert (HE149 : -149 <= E) by lia.
    assert (Hq : Zpos m / 2 ^ Zpos p < 2 ^ 24).
    { apply Z.div_lt_upper_bound; [apply Z.pow_pos_nonneg; lia|].
      rewrite <- Z.pow_add_r by lia.
      eapply Z.lt_le_trans; [apply Hl|].
      apply Z.pow_le_mono_r; lia. }
    assert (Hq0 : 0 <= Zpos m / 2 ^ Zpos p)
      by (apply Z.div_pos; [lia|apply Z.pow_pos_nonneg; lia]).
    destruct (rne_shr (Zpos m) (Zpos p)) as [|n|n] eqn:En; try lia.
    + cbn [Zdigits2]. rewrite fexp32.
      rewrite shr_no_shift by lia. reflexivity.
    + cbn [Zdigits2]. rewrite digits2_pos_log2, fexp32.
      destruct (Z.eqb_spec (Zpos n) (2 ^ 24)) as [E24|E24].
      * assert (Hn : n = 16777216%positive) by (apply Pos2Z.inj; exact E24).
        subst n. change (Z.log2 (Zpos 16777216)) with 24.
        replace (Z.max (24 + 1 + E - 24) (-149) - E) with 1 by lia.
        reflexivity.
      * assert (Hn : Zpos n < 2 ^ 24) by lia.
        assert (Hlog : Z.log2 (Zpos n) < 24)
          by (apply Z.log2_lt_pow2; lia).
        rewrite shr_no_shift by lia. reflexivity.
Qed.

Lemma pow2_pos (n : Z) : 0 <= n -> 0 < 2 ^ n.
Proof. intros H. apply Z.pow_pos_nonneg; lia. Qed.

Lemma pow2_le_inv (a b : Z) : 0 <= a -> 2 ^ a <= 2 ^ b -> a <= b.
Proof.
  intros Ha H. destruct (Z.le_gt_cases a b) as [|Hgt]; [assumption|].
  assert (0 <= b \/ b < 0) as [Hb|Hb] by lia.
  - pose proof (Z.pow_lt_mono_r 2 b a ltac:(lia) ltac:(lia) Hgt). lia.
  - rewrite (Z.pow_neg_r 2 b Hb) in H. pose proof (pow2_pos a Ha). lia.
Qed.

Lemma rne_shr_exact (q k : Z) : 0 < k -> rne_shr (q * 2 ^ k) k = q.
Proof.
  intros Hk. unfold rne_shr.
  pose proof (pow2_pos k ltac:(lia)) as Hp.
  pose proof (pow2_pos (k - 1) ltac:(lia)) as Hh.
  rewrite Z.mod_mul, Z.div_mul by lia.
  destruct (Z.ltb_spec 0 (2 ^ (k - 1))); [reflexivity|lia].
Qed.

Lemma rne_shr_scale (m j k : Z) :
  0 <= j -> 0 < k -> rne_shr (m * 2 ^ j) (k + j) = rne_shr m k.
Proof.
  intros Hj Hk. unfold rne_shr.
  pose proof (pow2_pos j Hj) as Hpj.
  pose proof (pow2_pos k ltac:(lia)) as Hpk.
  pose proof (pow2_pos (k - 1) ltac:(lia)) as Hph.
  rewrite (Z.pow_add_r 2 k j) by lia.
  rewrite Z.div_mul_cancel_r by lia.
  rewrite Z.mul_mod_distr_r by lia.
  replace (k + j - 1) with (k - 1 + j) by lia.
  rewrite (Z.pow_add_r 2 (k - 1) j) by lia.
  set (rem := m mod 2 ^ k). set (half := 2 ^ (k - 1)).
  destruct (Z.ltb_spec rem half); destruct (Z.ltb_spec (rem * 2 ^ j) (half * 2 ^ j));
    try nia; try reflexivity.
  destruct (Z.ltb_spec half rem);
    destruct (Z.ltb_spec (half * 2 ^ j) (rem * 2 ^ j)); try nia; reflexivity.
Qed.

Lemma rne_shr_mono (m1 m2 k : Z) :
  m1 <= m2 -> 0 < k -> rne_shr m1 k <= rne_shr m2 k.
Proof.
  intros Hm Hk.
  pose proof (pow2_pos k ltac:(lia)) as Hp.
  assert (Hhalf : 2 ^ k = 2 * 2 ^ (k - 1)).
  { replace k with (k - 1 + 1) at 1 by lia.
    rewrite Z.pow_add_r by lia. change (2 ^ 1) with 2. lia. }
  pose proof (Z.div_mod m1 (2 ^ k) ltac:(lia)) as D1.
  pose proof (Z.div_mod m2 (2 ^ k) ltac:(lia)) as D2.
  pose proof (Z.mod_pos_bound m1 (2 ^ k) Hp) as B1.
  pose proof (Z.mod_pos_bound m2 (2 ^ k) Hp) as B2.
  pose proof (Z.div_le_mono m1 m2 (2 ^ k) Hp Hm) as Hq.
  unfold rne_shr.
  set (q1 := m1 / 2 ^ k) in *. set (q2 := m2 / 2 ^ k) in *.
  set (r1 := m1 mod 2 ^ k) in *. set (r2 := m2 mod 2 ^ k) in *.
  set (h := 2 ^ (k - 1)) in *.
  assert (q1 = q2 \/ q1 + 1 <= q2) as [Eq|Hlt] by lia.
  - rewrite <- Eq in *.
    destruct (Z.ltb_spec r1 h); destruct (Z.ltb_spec r2 h); try lia;
      destruct (Z.ltb_spec h r1); destruct (Z.ltb_spec h r2); try lia;
      destruct (Z.even q1); lia.
  - destruct (Z.ltb_spec r1 h); destruct (Z.ltb_spec r2 h); try lia;
      destruct (Z.ltb_spec h r1); destruct (Z.ltb_spec h r2); try lia;
      destruct (Z.even q1); destruct (Z.even q2); lia.
Qed.

(** Rounding a positive product: the result is a non-negative finite number
    whose value, in units of 2^-149, is [round_units] of the exact value in
    units of 2^-298. *)
Lemma binary_round_aux_units (m : positive) (e : Z) :
  -298 <= e ->
  Zpos m * 2 ^ (e + 298) <= 2 ^ 402 ->
  let f := binary_round_aux 24 128 false (Zpos m) e loc_Exact in
  f32_ok f = true /\ f32_units f = round_units (Zpos m * 2 ^ (e + 298)).
Proof.
  intros He Hb f. subst f. rewrite binary_round_aux_spec.
  pose proof (log2_bounds m) as Hl.
  set (a := Z.log2 (Zpos m)) in *.
  assert (Ha : 0 <= a) by apply Z.log2_nonneg.
  pose proof (pow2_pos (e + 298) ltac:(lia)) as Hp.
  assert (Hae : a + e <= 104).
  { assert (2 ^ (a + (e + 298)) <= 2 ^ 402).
    { rewrite Z.pow_add_r by lia. nia. }
    apply pow2_le_inv in H; lia. }
  unfold round_units.
  rewrite (Z.log2_mul_pow2 (Zpos m) (e + 298)) by lia. fold a.
  set (E := Z.max (a + 1 + e - 24) (-149)).
  replace (Z.max (e + 298 + a - 23) 149) with (E + 298) by lia.
  replace (E + 298 - 149) with (E + 149) by lia.
  destruct (Z.leb_spec E e) as [HE|HE].
  - destruct (Z.leb_spec e 104) as [_|]; [|lia].
    cbn [f32_ok f32_units]. split; [apply Z.leb_le; lia|].
    replace (Zpos m * 2 ^ (e + 298))
      with (Zpos m * 2 ^ (e - E) * 2 ^ (E + 298)).
    + rewrite rne_shr_exact by lia.
      rewrite <- Z.mul_assoc, <- Z.pow_add_r by lia.
      do 2 f_equal. lia.
    + rewrite <- Z.mul_assoc, <- Z.pow_add_r by lia.
      do 2 f_equal. lia.
  - replace (E + 298) with (E - e + (e + 298)) by lia.
    rewrite rne_shr_scale by lia.
    pose proof (rne_shr_nonneg (Zpos m) (E - e) ltac:(lia) ltac:(lia)) as Hn.
    destruct (rne_shr (Zpos m) (E - e)) as [|n|n]; try lia.
    + split; reflexivity.
    + destruct (Z.eqb_spec (Zpos n) (2 ^ 24)) as [E24|E24].
      * destruct (Z.leb_spec (E + 1) 104) as [_|]; [|lia].
        cbn [f32_ok f32_units]. split; [apply Z.leb_le; lia|].
        rewrite E24. replace (E + 1 + 149) with (1 + (E + 149)) by lia.
        rewrite (Z.pow_add_r 2 1 (E + 149)) by lia.
        change (Zpos (2 ^ 23)) with (2 ^ 23). change (2 ^ 1) with 2. lia.
      * destruct (Z.leb_spec E 104) as [_|]; [|lia].
        cbn [f32_ok f32_units]. split; [apply Z.leb_le; lia|reflexivity].
Qed.

Lemma rne_shr_pow2 (b k : Z) : 0 < k <= b -> rne_shr (2 ^ b) k = 2 ^ (b - k).
Proof.
  intros H. replace (2 ^ b) with (2 ^ (b - k) * 2 ^ k).
  - apply rne_shr_exact. lia.
  - rewrite <- Z.pow_add_r by lia. f_equal. lia.
Qed.

Lemma round_units_pow2 (p : Z) : 149 <= p -> round_units (2 ^ p) = 2 ^ (p - 149).
Proof.
  intros H. unfold round_units. rewrite Z.log2_pow2 by lia.
  set (k := Z.max (p - 23) 149).
  rewrite rne_shr_pow2 by lia.
  rewrite <- Z.pow_add_r by lia. f_equal. lia.
Qed.

Lemma round_units_mono (x y : Z) :
  0 <= x <= y -> round_units x <= round_units y.
Proof.
  intros [Hx Hxy]. unfold round_units.
  pose proof (Z.log2_le_mono x y Hxy) as Hlog.
  set (a := Z.log2 x) in *. set (b := Z.log2 y) in *.
  set (kx := Z.max (a - 23) 149). set (ky := Z.max (b - 23) 149).
  assert (kx = ky \/ kx < ky) as [Ek|Hk] by lia.
  - rewrite Ek. apply Z.mul_le_mono_nonneg_r.
    + pose proof (pow2_pos (ky - 149) ltac:(lia)). lia.
    + apply rne_shr_mono; lia.
  - assert (Hb : 172 < b) by lia.
    assert (Hy : 0 < y).
    { destruct (Z.le_gt_cases y 0) as [Hy0|]; [|assumption].
      unfold b in Hb. rewrite (Z.log2_nonpos y Hy0) in Hb. lia. }
    assert (Hyb : 2 ^ b <= y) by (apply Z.log2_spec; exact Hy).
    assert (Hxb : x <= 2 ^ b).
    { assert (x = 0 \/ 0 < x) as [->|Hx0] by lia.
      - pose proof (pow2_pos b ltac:(lia)). lia.
      - pose proof (Z.log2_spec x Hx0) as [_ Hlt]. fold a in Hlt.
        assert (2 ^ Z.succ a <= 2 ^ b) by (apply Z.pow_le_mono_r; lia). lia. }
    apply Z.le_trans with (2 ^ (b - 149)).
    + apply Z.le_trans with (rne_shr (2 ^ b) kx * 2 ^ (kx - 149)).
      * apply Z.mul_le_mono_nonneg_r.
        -- pose proof (pow2_pos (kx - 149) ltac:(lia)). lia.
        -- apply rne_shr_mono; lia.
      * rewrite rne_shr_pow2 by lia.
        rewrite <- Z.pow_add_r by lia.
        apply Z.pow_le_mono_r; lia.
    + apply Z.le_trans with (rne_shr (2 ^ b) ky * 2 ^ (ky - 149)).
      * rewrite rne_shr_pow2 by lia.
        rewrite <- Z.pow_add_r by lia.
        apply Z.pow_le_mono_r; lia.
      * apply Z.mul_le_mono_nonneg_r.
        -- pose proof (pow2_pos (ky - 149) ltac:(lia)). lia.
        -- apply rne_shr_mono; lia.
Qed.

Lemma round_units_0 : round_units 0 = 0.
Proof. reflexivity. Qed.

Lemma round_units_nonneg (x : Z) : 0 <= x -> 0 <= round_units x.
Proof.
  intros H. rewrite <- round_units_0. apply round_units_mono. lia.
Qed.

Lemma f32_units_nonneg (f : spec_float) : f32_ok f = true -> 0 <= f32_units f.
Proof.
  destruct f as [s|s| |[] m e]; cbn [f32_ok f32_units];
    try discriminate; lia.
Qed.

(** The product of two non-negative finite numbers. *)
Lemma f32_mul_units (a b : spec_float) :
  f32_ok a = true -> f32_ok b = true ->
  f32_units a * f32_units b <= 2 ^ 402 ->
  f32_ok (f32_mul a b) = true
  /\ f32_units (f32_mul a b) = round_units (f32_units a * f32_units b).
Proof.
  intros Ha Hb Hle.
  destruct a as [sa|sa| |[] ma ea]; try discriminate Ha;
    destruct b as [sb|sb| |[] mb eb]; try discriminate Hb;
    try (split; [reflexivity|]; cbn [f32_mul SFmul f32_units];
         rewrite ?Z.mul_0_l, ?Z.mul_0_r; reflexivity).
  cbn [f32_ok] in Ha, Hb. apply Z.leb_le in Ha, Hb.
  unfold f32_mul. cbn [SFmul xorb].
  cbn [f32_units] in Hle |- *.
  assert (Hx : Zpos ma * 2 ^ (ea + 149) * (Zpos mb * 2 ^ (eb + 149))
               = Zpos (ma * mb) * 2 ^ (ea + eb + 298)).
  { replace (ea + eb + 298) with (ea + 149 + (eb + 149)) by lia.
    rewrite (Z.pow_add_r 2 (ea + 149) (eb + 149)) by lia. rewrite Pos2Z.inj_mul. ring. }
  rewrite Hx in *.
  apply binary_round_aux_units; [lia|exact Hle].
Qed.

Lemma f32_to_u32_units (f : spec_float) :
  f32_ok f = true -> f32_units f < 2 ^ (32 + 149) ->
  f32_to_u32 f = Some (f32_units f / 2 ^ 149).
Proof.
  destruct f as [s|s| |[] m e]; try discriminate; intros Hok Hlt.
  - reflexivity.
  - cbn [f32_ok] in Hok. apply Z.leb_le in Hok.
    cbn [f32_units f32_to_u32] in *.
    assert (Hv : Z.shiftl (Zpos m) e = Zpos m * 2 ^ (e + 149) / 2 ^ 149).
    { assert (0 <= e \/ e < 0) as [He|He] by lia.
      - rewrite Z.shiftl_mul_pow2 by lia.
        rewrite (Z.pow_add_r 2 e 149) by lia.
        rewrite Z.mul_assoc, Z.div_mul by lia. reflexivity.
      - rewrite Z.shiftl_div_pow2 by lia.
        replace (2 ^ 149) with (2 ^ (- e) * 2 ^ (e + 149))
          by (rewrite <- Z.pow_add_r by lia; f_equal; lia).
        rewrite Z.div_mul_cancel_r;
          [reflexivity|apply Z.pow_nonzero; lia|apply Z.pow_nonzero; lia]. }
    rewrite Hv.
    pose proof (pow2_pos (e + 149) ltac:(lia)) as Hp.
    assert (H0 : 0 <= Zpos m * 2 ^ (e + 149) / 2 ^ 149)
      by (apply Z.div_pos; lia).
    assert (H1 : Zpos m * 2 ^ (e + 149) / 2 ^ 149 < 2 ^ 32).
    { apply Z.div_lt_upper_bound; [lia|].
      rewrite <- Z.pow_add_r by lia. exact Hlt. }
    destruct (Z.leb_spec 0 (Zpos m * 2 ^ (e + 149) / 2 ^ 149)); [|lia].
    destruct (Z.ltb_spec (Zpos m * 2 ^ (e + 149) / 2 ^ 149) (2 ^ 32)); [|lia].
    reflexivity.
Qed.

Lemma f32_one_gain : f32_gain f32_one /\ f32_units f32_one = 2 ^ 149.
Proof. repeat split. vm_compute. discriminate. Qed.

Lemma f32_zero_gain : f32_gain f32_zero /\ f32_units f32_zero = 0.
Proof. repeat split. vm_compute. discriminate. Qed.

Lemma f32_pow2 (n : Z) :
  0 <= n <= 24 ->
  f32_ok (f32_of_int (Z.shiftl 1 n)) = true
  /\ f32_units (f32_of_int (Z.shiftl 1 n)) = 2 ^ (n + 149).
Proof.
  intros H.
  range_check (fun n => f32_ok (f32_of_int (Z.shiftl 1 n))
                        && (f32_units (f32_of_int (Z.shiftl 1 n))
                            =? 2 ^ (n + 149))) 25%nat Hc.
  specialize (Hc n ltac:(lia)).
  apply andb_true_iff in Hc as [H1 H2]. apply Z.eqb_eq in H2. auto.
Qed.

Section FixedGain.

Variable TL_SHIFT : Z.
Hypothesis TL_range : 0 <= TL_SHIFT <= 24.

Lemma round_units_one : round_units (2 ^ 298) = 2 ^ 149.
Proof. apply (round_units_pow2 298). lia. Qed.

Lemma round_units_shift :
  round_units (2 ^ (TL_SHIFT + 298)) = 2 ^ (TL_SHIFT + 149).
Proof using TL_range.
  rewrite round_units_pow2 by lia. f_equal. lia.
Qed.

Lemma fixed_gain_range (g t : spec_float) :
  f32_gain g -> f32_gain t -> 0 <= fixed_gain TL_SHIFT g t <= 2 ^ TL_SHIFT.
Proof using TL_range.
  intros [Hg Hgu] [Ht Htu]. unfold fixed_gain.
  pose proof (f32_units_nonneg g Hg) as Hg0.
  pose proof (f32_units_nonneg t Ht) as Ht0.
  set (x := f32_units g * f32_units t).
  assert (Hx : 0 <= x <= 2 ^ 298).
  { subst x. change (2 ^ 298) with (2 ^ 149 * 2 ^ 149). nia. }
  assert (Hr : 0 <= round_units x <= 2 ^ 149).
  { split; [apply round_units_nonneg; lia|].
    apply Z.le_trans with (round_units (2 ^ 298));
      [apply round_units_mono; lia|rewrite round_units_one; lia]. }
  pose proof (pow2_pos (TL_SHIFT + 149) ltac:(lia)) as Hp.
  set (y := 2 ^ (TL_SHIFT + 149) * round_units x).
  assert (Hy : 0 <= y <= 2 ^ (TL_SHIFT + 298)).
  { subst y. replace (TL_SHIFT + 298) with (TL_SHIFT + 149 + 149) by lia.
    rewrite (Z.pow_add_r 2 (TL_SHIFT + 149) 149) by lia. nia. }
  assert (Hry : 0 <= round_units y <= 2 ^ (TL_SHIFT + 149)).
  { split; [apply round_units_nonneg; lia|].
    apply Z.le_trans with (round_units (2 ^ (TL_SHIFT + 298)));
      [apply round_units_mono; lia|rewrite round_units_shift; lia]. }
  split; [apply Z.div_pos; lia|].
  apply Z.div_le_upper_bound; [lia|].
  rewrite <- Z.pow_add_r by lia.
  replace (149 + TL_SHIFT) with (TL_SHIFT + 149) by lia. lia.
Qed.

Lemma fixed_gain_mono (g1 g2 t : spec_float) :
  f32_ok g1 = true -> f32_ok t = true ->
  f32_units g1 <= f32_units g2 ->
  fixed_gain TL_SHIFT g1 t <= fixed_gain TL_SHIFT g2 t.
Proof using TL_range.
  intros Hg1 Ht Hle. unfold fixed_gain.
  pose proof (f32_units_nonneg g1 Hg1) as Hg0.
  pose proof (f32_units_nonneg t Ht) as Ht0.
  pose proof (pow2_pos (TL_SHIFT + 149) ltac:(lia)) as Hp.
  apply Z.div_le_mono; [lia|].
  apply round_units_mono.
  assert (Hm : round_units (f32_units g1 * f32_units t)
               <= round_units (f32_units g2 * f32_units t))
    by (apply round_units_mono; nia).
  pose proof (round_units_nonneg (f32_units g1 * f32_units t) ltac:(nia)).
  nia.
Qed.

Lemma fixed_gain_zero (g t : spec_float) :
  f32_units g = 0 -> fixed_gain TL_SHIFT g t = 0.
Proof.
  intros H. unfold fixed_gain. rewrite H, Z.mul_0_l, round_units_0.
  rewrite Z.mul_0_r, round_units_0. reflexivity.
Qed.

(** [value_to_fixed(TL_SHIFT, g * t)] for two gains. *)
Lemma value_to_fixed_gain (g t : spec_float) :
  f32_gain g -> f32_gain t ->
  value_to_fixed TL_SHIFT (f32_mul g t) = Some (fixed_gain TL_SHIFT g t).
Proof using TL_range.
  intros Hgg Htg.
  pose proof (fixed_gain_range g t Hgg Htg) as Hrange.
  destruct Hgg as [Hg Hgu], Htg as [Ht Htu].
  pose proof (f32_units_nonneg g Hg) as Hg0.
  pose proof (f32_units_nonneg t Ht) as Ht0.
  assert (Hx : 0 <= f32_units g * f32_units t <= 2 ^ 298).
  { change (2 ^ 298) with (2 ^ 149 * 2 ^ 149). nia. }
  destruct (f32_mul_units g t Hg Ht) as [Hok Hu].
  { apply Z.le_trans with (2 ^ 298); [lia|]. apply Z.pow_le_mono_r; lia. }
  assert (Hr : 0 <= round_units (f32_units g * f32_units t) <= 2 ^ 149).
  { split; [apply round_units_nonneg; lia|].
    apply Z.le_trans with (round_units (2 ^ 298));
      [apply round_units_mono; lia|rewrite round_units_one; lia]. }
  destruct (f32_pow2 TL_SHIFT TL_range) as [Hpok Hpu].
  pose proof (pow2_pos (TL_SHIFT + 149) ltac:(lia)) as Hp.
  assert (Hy : 0 <= 2 ^ (TL_SHIFT + 149)
                    * round_units (f32_units g * f32_units t)
               <= 2 ^ (TL_SHIFT + 298)).
  { replace (TL_SHIFT + 298) with (TL_SHIFT + 149 + 149) by lia.
    rewrite (Z.pow_add_r 2 (TL_SHIFT + 149) 149) by lia. nia. }
  unfold value_to_fixed.
  destruct (f32_mul_units (f32_of_int (Z.shiftl 1 TL_SHIFT)) (f32_mul g t)
              Hpok Hok) as [Hok2 Hu2].
  { rewrite Hpu, Hu.
    apply Z.le_trans with (2 ^ (TL_SHIFT + 298)); [lia|].
    apply Z.pow_le_mono_r; lia. }
  rewrite Hpu, Hu in Hu2.
  assert (Hry : round_units (2 ^ (TL_SHIFT + 149)
                             * round_units (f32_units g * f32_units t))
                <= 2 ^ (TL_SHIFT + 149)).
  { apply Z.le_trans with (round_units (2 ^ (TL_SHIFT + 298)));
      [apply round_units_mono; lia|rewrite round_units_shift; lia]. }
  rewrite f32_to_u32_units; [rewrite Hu2; reflexivity|exact Hok2|].
  rewrite Hu2.
  apply Z.le_lt_trans with (2 ^ (TL_SHIFT + 149)); [exact Hry|].
  apply Z.pow_lt_mono_r; lia.
Qed.

End FixedGain.

(** ** Division by the sample rate *)

Lemma iter_xO (m d : positive) :
  Zpos (Pos.iter xO m d) = Zpos m * 2 ^ Zpos d.
Proof.
  induction d as [|d IH] using Pos.peano_ind.
  - simpl. lia.
  - rewrite Pos.iter_succ, Pos2Z.inj_xO, IH, Pos2Z.inj_succ, Z.pow_succ_r by lia.
    lia.
Qed.

Lemma log2_24 (m : positive) :
  2 ^ 23 <= Zpos m < 2 ^ 24 -> Z.log2 (Zpos m) = 23.
Proof. intros H. apply Z.log2_unique; lia. Qed.

(** A positive integer below 2^32 converts to a normal number. *)
Lemma f32_of_int_normal (p : Z) :
  0 < p < 2 ^ 32 ->
  exists m e,
    f32_of_int p = S754_finite false m e
    /\ 2 ^ 23 <= Zpos m < 2 ^ 24 /\ -23 <= e <= 9.
Proof.
  intros Hp. destruct p as [|p|p]; try lia.
  unfold f32_of_int, binary_normalize, binary_round.
  pose proof (log2_bounds p) as Hl.
  assert (Hlog : 0 <= Z.log2 (Zpos p) < 32).
  { split; [apply Z.log2_nonneg|]. apply Z.log2_lt_pow2; lia. }
  rewrite digits2_pos_log2, fexp32.
  unfold shl_align.
  destruct (Z.max (Z.log2 (Zpos p) + 1 + 0 - 24) (-149) - 0) as [|d|d] eqn:Ed.
  - (* exactly 24 digits *)
    rewrite binary_round_aux_spec. cbv zeta.
    assert (E23 : Z.log2 (Zpos p) = 23) by lia. rewrite E23.
    change (Z.max (23 + 1 + 0 - 24) (-149) <=? 0) with true. cbn [Z.leb].
    change (0 <=? 104) with true. cbv iota.
    exists p, 0. split; [reflexivity|]. rewrite E23 in Hl. lia.
  - (* more than 24 digits: rounded *)
    rewrite binary_round_aux_spec. cbv zeta.
    set (E := Z.max (Z.log2 (Zpos p) + 1 + 0 - 24) (-149)) in *.
    assert (HE : E = Z.log2 (Zpos p) - 23) by lia.
    destruct (Z.leb_spec E 0) as [H0|H0]; [lia|].
    pose proof (rne_shr_bounds (Zpos p) (E - 0) ltac:(lia) ltac:(lia)) as Hb.
    assert (Hq : 2 ^ 23 <= Zpos p / 2 ^ (E - 0) < 2 ^ 24).
    { replace (E - 0) with E by lia. split.
      - apply Z.div_le_lower_bound; [apply Z.pow_pos_nonneg; lia|].
        rewrite <- Z.pow_add_r by lia.
        replace (E + 23) with (Z.log2 (Zpos p)) by lia. lia.
      - apply Z.div_lt_upper_bound; [apply Z.pow_pos_nonneg; lia|].
        rewrite <- Z.pow_add_r by lia.
        replace (E + 24) with (Z.log2 (Zpos p) + 1) by lia. lia. }
    destruct (rne_shr (Zpos p) (E - 0)) as [|n|n] eqn:En; try lia.
    destruct (Z.eqb_spec (Zpos n) (2 ^ 24)) as [E24|E24].
    + destruct (Z.leb_spec (E + 1) 104); [|lia].
      exists (2 ^ 23)%positive, (E + 1). split; [reflexivity|]. lia.
    + destruct (Z.leb_spec E 104); [|lia].
      exists n, E. split; [reflexivity|]. lia.
  - (* fewer than 24 digits: aligned *)
    rewrite binary_round_aux_spec. cbv zeta.
    set (E := Z.max (Z.log2 (Zpos p) + 1 + 0 - 24) (-149)) in *.
    assert (HE : E = Z.log2 (Zpos p) - 23) by lia.
    assert (Hd : Zpos d = 23 - Z.log2 (Zpos p)) by lia.
    assert (Hm : 2 ^ 23 <= Zpos (Pos.iter xO p d) < 2 ^ 24).
    { rewrite iter_xO, Hd.
      replace (2 ^ 23) with (2 ^ Z.log2 (Zpos p) * 2 ^ (23 - Z.log2 (Zpos p)))
        by (rewrite <- Z.pow_add_r by lia; f_equal; lia).
      replace (2 ^ 24)
        with (2 ^ (Z.log2 (Zpos p) + 1) * 2 ^ (23 - Z.log2 (Zpos p)))
        by (rewrite <- Z.pow_add_r by lia; f_equal; lia).
      pose proof (pow2_pos (23 - Z.log2 (Zpos p)) ltac:(lia)). nia. }
    rewrite (log2_24 _ Hm).
    replace (Z.max (23 + 1 + E - 24) (-149)) with E by lia.
    rewrite Z.leb_refl.
    destruct (Z.leb_spec E 104); [|lia].
    exists (Pos.iter xO p d), E. split; [reflexivity|]. lia.
Qed.

(** Rounding a 24- or 25-digit quotient with its location: the result is a
    normal number at most two exponents up. *)
Lemma binary_round_aux_quotient (m : positive) (e : Z) (l : location) :
  2 ^ 23 <= Zpos m < 2 ^ 25 -> -149 <= e <= 100 ->
  exists m' e',
    binary_round_aux 24 128 false (Zpos m) e l = S754_finite false m' e'
    /\ 2 ^ 23 <= Zpos m' < 2 ^ 24 /\ e <= e' <= e + 2.
Proof.
  intros Hm He.
  assert (Hfin : forall r E, 2 ^ 23 <= r <= 2 ^ 24 -> -149 <= E <= 102 ->
            exists m' e',
              (let '(mrs'', e'') := shr_fexp 24 128 r E loc_Exact in
               match shr_m mrs'' with
               | 0 => S754_zero false
               | Zpos m0 => if e'' <=? 128 - 24 then S754_finite false m0 e''
                            else S754_infinity false
               | Zneg _ => S754_nan
               end) = S754_finite false m' e'
              /\ 2 ^ 23 <= Zpos m' < 2 ^ 24 /\ E <= e' <= E + 1).
  { intros r E Hr HE. destruct r as [|r|r]; try lia.
    unfold shr_fexp. cbn [Zdigits2 shr_record_of_loc].
    rewrite digits2_pos_log2, fexp32.
    destruct (Z.eq_dec (Zpos r) (2 ^ 24)) as [E24|E24].
    - assert (Hr' : r = 16777216%positive) by (apply Pos2Z.inj; exact E24).
      subst r. change (Z.log2 (Zpos 16777216)) with 24.
      replace (Z.max (24 + 1 + E - 24) (-149) - E) with 1 by lia.
      cbn [shr SpecFloat.iter_pos shr_1 shr_m].
      destruct (Z.leb_spec (E + 1) (128 - 24)); [|lia].
      exists (2 ^ 23)%positive, (E + 1). split; [reflexivity|]. lia.
    - rewrite (log2_24 r) by lia.
      rewrite shr_no_shift by lia. cbn [shr_m].
      destruct (Z.leb_spec E (128 - 24)); [|lia].
      exists r, E. split; [reflexivity|]. lia. }
  unfold binary_round_aux, shr_fexp at 1. cbn [Zdigits2].
  rewrite digits2_pos_log2, fexp32.
  destruct (Z.lt_ge_cases (Zpos m) (2 ^ 24)) as [H24|H25].
  - rewrite (log2_24 m) by lia.
    rewrite shr_no_shift by lia.
    assert (Hr : 2 ^ 23 <= round_nearest_even
                             (shr_m (shr_record_of_loc (Zpos m) l))
                             (loc_of_shr_record (shr_record_of_loc (Zpos m) l))
                 <= 2 ^ 24).
    { destruct l as [|[| |]]; cbn [shr_record_of_loc shr_m loc_of_shr_record
                                    round_nearest_even]; try lia.
      destruct (Z.even (Zpos m)); lia. }
    destruct (Hfin _ e Hr ltac:(lia)) as (m' & e' & E' & Hm' & He').
    exists m', e'. split; [exact E'|]. split; [exact Hm'|lia].
  - assert (Hlog : Z.log2 (Zpos m) = 24) by (apply Z.log2_unique; lia).
    rewrite Hlog.
    replace (Z.max (24 + 1 + e - 24) (-149) - e) with 1 by lia.
    assert (Hhalf : 2 ^ 23 <= Zpos m / 2 < 2 ^ 24).
    { split; [apply Z.div_le_lower_bound; lia
             |apply Z.div_lt_upper_bound; lia]. }
    assert (Hr : 2 ^ 23 <= round_nearest_even
                             (shr_m (fst (shr (shr_record_of_loc (Zpos m) l) e 1)))
                             (loc_of_shr_record
                                (fst (shr (shr_record_of_loc (Zpos m) l) e 1)))
                 <= 2 ^ 24).
    { cbn [shr SpecFloat.iter_pos fst].
      destruct l as [|[| |]]; cbn [shr_record_of_loc];
        rewrite shr_1_nonneg by lia; cbn [shr_m loc_of_shr_record orb];
        destruct (Z.odd (Zpos m)); cbn [round_nearest_even];
        try destruct (Z.even (Zpos m / 2)); lia. }
    destruct (shr (shr_record_of_loc (Zpos m) l) e 1) as [mrs e1] eqn:Es.
    assert (He1 : e1 = e + 1).
    { cbn [shr] in Es. injection Es as _ <-. reflexivity. }
    cbn [fst] in Hr.
    destruct (Hfin _ e1 Hr ltac:(lia)) as (m' & e' & E' & Hm' & He').
    exists m', e'. split; [exact E'|]. split; [exact Hm'|lia].
Qed.

(** The quotient of a 32-bit integer by a rate from 4 to 2^33 converts to a
    32-bit integer. *)
Lemma pitch_by_rate_defined (p : Z) (rate : spec_float) :
  0 <= p < 2 ^ 32 -> rate_ok rate = true ->
  exists step,
    f32_to_u32 (f32_div (f32_of_int p) rate) = Some step
    /\ 0 <= step < 2 ^ 32.
Proof.
  intros Hp Hrate.
  destruct rate as [| | |[|] my ey]; try discriminate.
  cbn [rate_ok] in Hrate.
  apply andb_true_iff in Hrate as [Hrate He2].
  apply andb_true_iff in Hrate as [Hrate He1].
  apply andb_true_iff in Hrate as [Hm1 Hm2].
  apply Z.leb_le in Hm1, He1, He2. apply Z.ltb_lt in Hm2.
  destruct (Z.eq_dec p 0) as [->|Hp0].
  { exists 0. split; [reflexivity|lia]. }
  destruct (f32_of_int_normal p ltac:(lia)) as (mx & ex & Ex & Hmx & Hex).
  rewrite Ex. unfold f32_div, SFdiv, SFdiv_core_binary. cbn [Zdigits2 xorb].
  rewrite !digits2_pos_log2, fexp32, (log2_24 mx), (log2_24 my) by lia.
  replace (Z.min (Z.max (23 + 1 + ex - (23 + 1 + ey) - 24) (-149)) (ex - ey))
    with (ex - ey - 24) by lia.
  replace (ex - ey - (ex - ey - 24)) with 24 by lia.
  rewrite Z.shiftl_mul_pow2 by lia.
  pose proof (Z_div_mod_eq_full (Zpos mx * 2 ^ 24) (Zpos my)) as Hdm.
  pose proof (Z.mod_pos_bound (Zpos mx * 2 ^ 24) (Zpos my) ltac:(lia)) as Hmod.
  unfold Z.div, Z.modulo in Hdm, Hmod.
  destruct (Z.div_eucl (Zpos mx * 2 ^ 24) (Zpos my)) as [q r].
  assert (Hq : 2 ^ 23 <= q < 2 ^ 25) by nia.
  destruct q as [|q|q]; try lia.
  destruct (binary_round_aux_quotient q (ex - ey - 24)
              (new_location (Zpos my) r) Hq ltac:(lia))
    as (m' & e' & E' & Hm' & He').
  rewrite E'. unfold f32_to_u32.
  assert (Ht : 0 <= Z.shiftl (Zpos m') e' < 2 ^ 32).
  { destruct (Z.le_ge_cases 0 e') as [H0|H0].
    - rewrite Z.shiftl_mul_pow2 by lia.
      assert (2 ^ e' <= 2 ^ 8) by (apply Z.pow_le_mono_r; lia).
      pose proof (pow2_pos e' H0). nia.
    - rewrite <- (Z.opp_involutive e'), Z.shiftl_opp_r.
      rewrite Z.shiftr_div_pow2 by lia.
      pose proof (pow2_pos (- e') ltac:(lia)).
      split; [apply Z.div_pos; lia|].
      apply Z.div_lt_upper_bound; [lia|]. nia. }
  exists (Z.shiftl (Zpos m') e'). split; [|exact Ht].
  destruct (Z.leb_spec 0 (Z.shiftl (Zpos m') e')); [|lia].
  destruct (Z.ltb_spec (Z.shiftl (Zpos m') e') (2 ^ 32)); [|lia].
  reflexivity.
Qed.

Section PitchStep.

Variable TL_SHIFT : Z.
Variable rom : Z -> Z.
Variable T : tables.

(** C1, as the code has it: a write to sub-register 2 or 3 looks the 10-bit
    pitch code up in the frequency-step table, shifts the entry LEFT by the
    signed octave when the octave is not negative (octave nibble 1..8) and
    RIGHT by its magnitude when it is negative (nibble 0 or 9..15), and
    divides the shifted entry by the sample rate [m_rate]: the playback step
    it stores is the single-precision quotient of the two, truncated to an
    integer.  With a sample rate from 4 to 2^33 and a 32-bit table entry the
    quotient is a 32-bit step, so the write has a result. *)
Theorem write_slot_pitch_step (slot : Slot.t) (r data : Z) :
  r = 2 \/ r = 3 ->
  length (Slot.m_regs slot) = 8%nat ->
  Forall (fun b => 0 <= b < 256) (Slot.m_regs slot) ->
  0 <= data < 256 ->
  length (m_freq_step_table T) = 0x400%nat ->
  let regs := <[Z.to_nat r := data]> (Slot.m_regs slot) in
  let code := reg regs 3 mod 16 * 64 + reg regs 2 / 4 in
  let octave := (reg regs 3 / 16 + 7) mod 16 - 8 in
  exists base,
    idx (m_freq_step_table T) code = Some base
    /\ let shifted := if 0 <=? octave then u32 (base * 2 ^ octave)
                      else base / 2 ^ (- octave) in
       write_slot TL_SHIFT rom T slot r data
       = (step ← f32_to_u32 (f32_div (f32_of_int shifted) (m_rate T));
          Some (Slot.set_step (Slot.set_regs slot regs) step))
       /\ (rate_ok (m_rate T) = true -> 0 <= base < 2 ^ 32 ->
           exists step,
             write_slot TL_SHIFT rom T slot r data
             = Some (Slot.set_step (Slot.set_regs slot regs) step)
             /\ 0 <= step < 2 ^ 32).
Proof.
  intros Hr Hlen Hbytes Hdata Htab regs code octave.
  assert (Hregs : Forall (fun b => 0 <= b < 256) regs).
  { apply Forall_insert; assumption. }
  assert (Hreg : forall i, 0 <= reg regs i < 256).
  { intros i. unfold reg. destruct (regs !! i) as [b|] eqn:E; simpl; [|lia].
    rewrite Forall_lookup in Hregs. exact (Hregs i b E). }
  pose proof (Hreg 3%nat) as H3. pose proof (Hreg 2%nat) as H2.
  destruct (idx_Some (m_freq_step_table T) code) as [base Hbase].
  { rewrite Htab. pose proof (pitch_code_range _ _ H3 H2). fold code in H. lia. }
  exists base. split; [exact Hbase|]. intros shifted.
  assert (Hupd : upd (Slot.m_regs slot) r data = Some regs).
  { apply upd_Some. rewrite Hlen. lia. }
  assert (Hbody :
    (regs' ← upd (Slot.m_regs slot) r data;
     let slot := Slot.set_regs slot regs' in
     let oct := u32 (Z.land (Z.shiftr (reg regs' 3) 4 - 1) 0xf) in
     let pitch := Z.lor (Z.shiftl (Z.land (reg regs' 3) 0xf) 6)
                        (Z.shiftr (reg regs' 2) 2) in
     pitch ← idx (m_freq_step_table T) pitch;
     step ← pitch_by_rate T (pitch_shift oct pitch);
     Some (Slot.set_step slot step))
    = (step ← f32_to_u32 (f32_div (f32_of_int shifted) (m_rate T));
       Some (Slot.set_step (Slot.set_regs slot regs) step))).
  { rewrite Hupd. simpl.
    rewrite (pitch_code_spec _ _ H3 H2). fold code. rewrite Hbase. simpl.
    rewrite (pitch_shift_spec _ base H3). reflexivity. }
  assert (Hw : write_slot TL_SHIFT rom T slot r data
               = (step ← f32_to_u32 (f32_div (f32_of_int shifted) (m_rate T));
                  Some (Slot.set_step (Slot.set_regs slot regs) step)))
    by (destruct Hr as [-> | ->]; exact Hbody).
  split; [exact Hw|].
  intros Hrate Hb.
  assert (Hs : 0 <= shifted < 2 ^ 32).
  { subst shifted. destruct (Z.leb_spec 0 octave).
    - unfold u32. apply Z.mod_pos_bound. lia.
    - assert (Ho : 0 < 2 ^ (- octave)) by (apply Z.pow_pos_nonneg; lia).
      split; [apply Z.div_pos; lia|].
      apply Z.div_lt_upper_bound; [exact Ho|].
      apply Z.lt_le_trans with (1 * 2 ^ 32); [lia|].
      apply Z.mul_le_mono_nonneg_r; lia. }
  destruct (pitch_by_rate_defined shifted (m_rate T) Hs Hrate)
    as (step & Hstep & Hrange).
  exists step. split; [|exact Hrange].
  rewrite Hw, Hstep. reflexivity.
Qed.

End PitchStep.

Lemma example_rate_ok : rate_ok example_rate = true.
Proof. vm_compute. reflexivity. Qed.

Lemma example_freq_steps :
  freq_step_table_init 12 example_rate = Some example_freq_step_table
  /\ length example_freq_step_table = 0x400%nat.
Proof. split; vm_compute; reflexivity. Qed.

Lemma write_slot_pitch_step_witness :
  exists base,
    idx (m_freq_step_table example_tables) 0 = Some base
    /\ write_slot 12 rom_zero example_tables slot_init 3 0x90
       = (step ← f32_to_u32 (f32_div (f32_of_int (base / 2 ^ 8)) example_rate);
          Some (Slot.set_step
                  (Slot.set_regs slot_init [0; 0; 0; 0x90; 0; 0; 0; 0]) step))
    /\ exists step,
         write_slot 12 rom_zero example_tables slot_init 3 0x90
         = Some (Slot.set_step
                   (Slot.set_regs slot_init [0; 0; 0; 0x90; 0; 0; 0; 0]) step)
         /\ 0 <= step < 2 ^ 32.
Proof.
  destruct (write_slot_pitch_step 12 rom_zero example_tables slot_init 3 0x90)
    as (base & Hbase & Hw & Hdef).
  - right. reflexivity.
  - reflexivity.
  - simpl. repeat constructor; lia.
  - lia.
  - reflexivity.
  - exists base. split; [exact Hbase|]. split; [exact Hw|].
    apply Hdef; [exact example_rate_ok|].
    vm_compute in Hbase. injection Hbase as <-. lia.
Defined.

(** The claim of C1 at octave nibble 9 (which is >= 8): the stored step is
    the table entry shifted right by 8 and divided by the rate, and no left
    shift of the entry gives that step. *)
Lemma write_slot_pitch_nibble_9_shifts_right :
  idx (m_freq_step_table example_tables) 0 = Some 146285712
  /\ Slot.m_step <$> write_slot 12 rom_zero example_tables slot_init 3 0x90
     = pitch_by_rate example_tables (Z.shiftr 146285712 8)
  /\ pitch_by_rate example_tables (Z.shiftr 146285712 8) = Some 15
  /\ forall k, 0 <= k < 32 ->
       Slot.m_step <$> write_slot 12 rom_zero example_tables slot_init 3 0x90
       <> pitch_by_rate example_tables (u32 (Z.shiftl 146285712 k)).
Proof.
  split; [vm_compute; reflexivity|]. split; [vm_compute; reflexivity|].
  split; [vm_compute; reflexivity|].
  intros k Hk.
  range_check (fun k =>
                 match pitch_by_rate example_tables
                         (u32 (Z.shiftl 146285712 k)) with
                 | Some s => negb (s =? 15)
                 | None => true
                 end)
              32%nat H.
  specialize (H k Hk).
  assert (E : Slot.m_step
                <$> write_slot 12 rom_zero example_tables slot_init 3 0x90
              = Some 15) by (vm_compute; reflexivity).
  rewrite E. intros E'. rewrite <- E' in H. discriminate H.
Qed.

(** ** Counting loops *)

Lemma for_range_S {A : Type} (n : nat) (body : Z -> A -> option A) (a : A) :
  for_range (S n) body a
  = for_range n body a ≫= body (Z.of_nat n).
Proof.
  unfold for_range, upto.
  rewrite seq_S, map_app, fold_left_app. reflexivity.
Qed.

(** A loop whose body keeps an invariant is defined and ends in it. *)
Lemma for_range_inv {A : Type} (I : nat -> A -> Prop) (n : nat)
    (body : Z -> A -> option A) (a : A) :
  I O a ->
  (forall i x, (i < n)%nat -> I i x ->
               exists x', body (Z.of_nat i) x = Some x' /\ I (S i) x') ->
  exists x', for_range n body a = Some x' /\ I n x'.
Proof.
  intros H0 Hstep. induction n as [|n IH].
  - exists a. split; [reflexivity|exact H0].
  - destruct IH as (x & Hx & Ix).
    { intros i y Hi. apply Hstep. lia. }
    destruct (Hstep n x ltac:(lia) Ix) as (x' & Hx' & Ix').
    exists x'. rewrite for_range_S, Hx. split; assumption.
Qed.

Lemma pan_index (pan level : Z) :
  0 <= pan < 16 -> 0 <= level < 128 ->
  Z.lor (Z.shiftl pan 7) level = pan * 128 + level.
Proof.
  intros Hp Hl.
  range_check (fun c => Z.lor (Z.shiftl (c / 128) 7) (c mod 128) =? c)
              2048%nat Hc.
  specialize (Hc (pan * 128 + level)).
  assert (Hr : 0 <= pan * 128 + level < Z.of_nat 2048)
    by (change (Z.of_nat 2048) with 2048; lia).
  apply Hc, Z.eqb_eq in Hr.
  assert (Hq : (pan * 128 + level) / 128 = pan)
    by (symmetry; apply Z.div_unique with level; lia).
  assert (Hm : (pan * 128 + level) mod 128 = level)
    by (symmetry; apply Z.mod_unique with pan; lia).
  rewrite Hq, Hm in Hr. exact Hr.
Qed.

Section PanLoop.

Variable TL_SHIFT : Z.
Variables powf10 pow10 : spec_float -> spec_float.

(** What the two stores of the loop body write. *)
Variables left right : Z -> Z -> Z.
Hypothesis left_value : forall level pan,
  0 <= level < 128 -> 0 <= pan < 16 ->
  value_to_fixed TL_SHIFT
    (f32_mul (fst (pan_gains pow10 pan)) (total_level_of powf10 level))
  = Some (left level pan).
Hypothesis right_value : forall level pan,
  0 <= level < 128 -> 0 <= pan < 16 ->
  value_to_fixed TL_SHIFT
    (f32_mul (snd (pan_gains pow10 pan)) (total_level_of powf10 level))
  = Some (right level pan).

Lemma pan_store_stored (done : Z -> Z -> Prop) (level pan : Z)
    (tabs : list Z * list Z) :
  0 <= level < 128 -> 0 <= pan < 16 ->
  stored left right done tabs ->
  exists tabs',
    pan_store TL_SHIFT pow10 (total_level_of powf10 level) level pan tabs
    = Some tabs'
    /\ stored left right (fun l p => done l p \/ (l = level /\ p = pan)) tabs'.
Proof using left_value right_value.
  intros Hl Hp (Hlen1 & Hlen2 & Hdone).
  unfold pan_store.
  pose proof (left_value level pan Hl Hp) as HL.
  pose proof (right_value level pan Hl Hp) as HR.
  destruct (pan_gains pow10 pan) as [pl pr]. cbn [fst snd] in HL, HR.
  rewrite HL. cbn [mbind option_bind].
  rewrite pan_index by assumption.
  rewrite upd_Some by (rewrite Hlen1; lia). cbn [mbind option_bind].
  rewrite HR. cbn [mbind option_bind].
  rewrite upd_Some by (rewrite Hlen2; lia). cbn [mbind option_bind].
  eexists. split; [reflexivity|].
  unfold stored. cbn [fst snd]. rewrite !length_insert.
  split; [exact Hlen1|]. split; [exact Hlen2|].
  intros l p Hl' Hp' [Hd | [-> ->]].
  - unfold pan_entry. rewrite pan_index by assumption.
    destruct (Z.eq_dec (p * 128 + l) (pan * 128 + level)) as [E|E].
    + assert (p = pan /\ l = level) as [-> ->] by lia.
      rewrite !list_lookup_insert_eq by lia. split; reflexivity.
    + rewrite !list_lookup_insert_ne by lia.
      specialize (Hdone l p Hl' Hp' Hd). unfold pan_entry in Hdone.
      rewrite pan_index in Hdone by assumption. exact Hdone.
  - unfold pan_entry. rewrite pan_index by assumption.
    rewrite !list_lookup_insert_eq by lia. split; reflexivity.
Qed.

Lemma stored_weaken (done done' : Z -> Z -> Prop) (tabs : list Z * list Z) :
  (forall l p, 0 <= l < 128 -> 0 <= p < 16 -> done' l p -> done l p) ->
  stored left right done tabs -> stored left right done' tabs.
Proof.
  intros H (H1 & H2 & H3). split; [exact H1|]. split; [exact H2|].
  intros l p Hl Hp Hd. apply H3; auto.
Qed.

(** The loop fills both tables with the values of the two stores. *)
Lemma pan_tables_init_stored :
  exists tabs,
    pan_tables_init TL_SHIFT powf10 pow10 = Some tabs
    /\ stored left right (fun _ _ => True) tabs.
Proof using left_value right_value.
  unfold pan_tables_init.
  destruct (for_range_inv
              (fun n tabs => stored left right (fun l _ => l < Z.of_nat n) tabs)
              0x80
              (fun level tabs =>
                 let total_level := total_level_of powf10 level in
                 for_range 0x10 (pan_store TL_SHIFT pow10 total_level level)
                   tabs)
              (repeat 0 0x800, repeat 0 0x800))
    as (tabs & Ht & Hs).
  - split; [apply repeat_length|]. split; [apply repeat_length|].
    intros l p Hl Hp Hd. simpl in Hd. lia.
  - intros n tabs Hn Hs. cbv zeta.
    destruct (for_range_inv
                (fun k tabs => stored left right (fun l p => l < Z.of_nat n
                                        \/ (l = Z.of_nat n /\ p < Z.of_nat k))
                                 tabs)
                0x10
                (pan_store TL_SHIFT pow10
                   (total_level_of powf10 (Z.of_nat n)) (Z.of_nat n))
                tabs) as (tabs' & Ht' & Hs').
    + eapply stored_weaken; [|exact Hs]. simpl. intros l p Hl Hp H. lia.
    + intros k x Hk Hx.
      destruct (pan_store_stored _ (Z.of_nat n) (Z.of_nat k) x
                  ltac:(lia) ltac:(lia) Hx) as (x' & Hx' & Hs').
      exists x'. split; [exact Hx'|].
      eapply stored_weaken; [|exact Hs']. simpl. intros l p Hl Hp H. lia.
    + exists tabs'. split; [exact Ht'|].
      eapply stored_weaken; [|exact Hs']. simpl. intros l p Hl Hp H. lia.
  - exists tabs. split; [exact Ht|].
    eapply stored_weaken; [|exact Hs]. simpl. intros l p Hl Hp _. lia.
Qed.

End PanLoop.

Section PanLaw.

Variable TL_SHIFT : Z.
Variables powf10 pow10 : spec_float -> spec_float.

(** The pair of gains for each pan index. *)
Lemma pan_gains_cases (pan : Z) :
  0 <= pan < 16 ->
  pan_gains pow10 pan
  = if pan =? 0 then (f32_one, f32_one)
    else if pan <? 7 then (pan_gain pow10 pan, f32_one)
    else if pan =? 7 then (f32_zero, f32_one)
    else if pan =? 8 then (f32_zero, f32_zero)
    else if pan =? 9 then (f32_one, f32_zero)
    else (f32_one, pan_gain pow10 (16 - pan)).
Proof.
  intros H.
  assert (pan = 0 \/ pan = 1 \/ pan = 2 \/ pan = 3 \/ pan = 4 \/ pan = 5
          \/ pan = 6 \/ pan = 7 \/ pan = 8 \/ pan = 9 \/ pan = 10 \/ pan = 11
          \/ pan = 12 \/ pan = 13 \/ pan = 14 \/ pan = 15) as Hc by lia.
  repeat (destruct Hc as [-> | Hc]; [reflexivity|]). subst pan. reflexivity.
Qed.

Hypothesis TL_range : 0 <= TL_SHIFT <= 24.
Hypothesis level_gains : forall level,
  0 <= level < 128 -> f32_gain (total_level_of powf10 level).
Hypothesis pan_gain_gains : forall d,
  1 <= d <= 6 -> f32_gain (pan_gain pow10 d).
Hypothesis pan_gain_falls : forall d,
  1 <= d < 6 ->
  f32_units (pan_gain pow10 (d + 1)) <= f32_units (pan_gain pow10 d).

Lemma pan_gains_gain (pan : Z) :
  0 <= pan < 16 ->
  f32_gain (fst (pan_gains pow10 pan)) /\ f32_gain (snd (pan_gains pow10 pan)).
Proof using pan_gain_gains.
  intros H. rewrite pan_gains_cases by exact H.
  pose proof (proj1 f32_one_gain) as H1. pose proof (proj1 f32_zero_gain) as H0.
  destruct (Z.eqb_spec pan 0); [split; assumption|].
  destruct (Z.ltb_spec pan 7);
    [split; [apply pan_gain_gains; lia|assumption]|].
  destruct (Z.eqb_spec pan 7); [split; assumption|].
  destruct (Z.eqb_spec pan 8); [split; assumption|].
  destruct (Z.eqb_spec pan 9); [split; assumption|].
  split; [assumption|apply pan_gain_gains; lia].
Qed.

(** For any power function whose gains lie between 0 and 1 and do not rise
    with the deflection, and for every level: pan index 0x8 has the entry 0
    in both tables; pan index 0x0 has in both tables the level's full gain
    [value_to_fixed(TL_SHIFT, 1.0 * total_level)], which no entry of the
    level exceeds; for a pan deflected to one side (1..7 or 9..15) the near
    channel keeps the full gain and the opposite channel's entry does not
    increase as the deflection grows, and is 0 at the extreme deflection
    (pan 7, pan 9). *)
Lemma pan_table_bounds :
  exists lt rt,
    pan_tables_init TL_SHIFT powf10 pow10 = Some (lt, rt)
    /\ length lt = 0x800%nat /\ length rt = 0x800%nat
    /\ forall level, 0 <= level < 128 ->
         let L p := pan_entry lt p level in
         let R p := pan_entry rt p level in
         let total_level := total_level_of powf10 level in
         L 8 = 0 /\ R 8 = 0
         /\ value_to_fixed TL_SHIFT (f32_mul f32_one total_level) = Some (L 0)
         /\ R 0 = L 0
         /\ (forall p, 0 <= p < 16 -> 0 <= L p <= L 0 /\ 0 <= R p <= L 0)
         /\ (forall p, 1 <= p <= 7 -> R p = L 0)
         /\ (forall p, 1 <= p < 7 -> L (p + 1) <= L p)
         /\ L 7 = 0
         /\ (forall p, 9 <= p <= 15 -> L p = L 0)
         /\ (forall p, 9 <= p < 15 -> R p <= R (p + 1))
         /\ R 9 = 0.
Proof using TL_range level_gains pan_gain_gains pan_gain_falls.
  set (left := fun level pan =>
                 fixed_gain TL_SHIFT (fst (pan_gains pow10 pan))
                   (total_level_of powf10 level)).
  set (right := fun level pan =>
                  fixed_gain TL_SHIFT (snd (pan_gains pow10 pan))
                    (total_level_of powf10 level)).
  destruct (pan_tables_init_stored TL_SHIFT powf10 pow10 left right)
    as ([lt rt] & Hinit & Hl1 & Hl2 & Hst).
  { intros level pan Hl Hp. apply value_to_fixed_gain;
      [exact TL_range|apply pan_gains_gain; exact Hp|apply level_gains; exact Hl]. }
  { intros level pan Hl Hp. apply value_to_fixed_gain;
      [exact TL_range|apply pan_gains_gain; exact Hp|apply level_gains; exact Hl]. }
  exists lt, rt. split; [exact Hinit|]. split; [exact Hl1|]. split; [exact Hl2|].
  intros level Hlevel L R total_level.
  pose proof (level_gains level Hlevel) as Ht. fold total_level in Ht.
  pose proof (pow2_pos TL_SHIFT ltac:(lia)) as Hp2.
  assert (Hp24 : 2 ^ TL_SHIFT <= 2 ^ 24) by (apply Z.pow_le_mono_r; lia).
  (* every entry is the fixed-point value of its gain *)
  assert (HL : forall p, 0 <= p < 16 ->
                 L p = fixed_gain TL_SHIFT (fst (pan_gains pow10 p)) total_level).
  { intros p Hp. destruct (Hst level p Hlevel Hp I) as [E _].
    cbn [fst] in E. subst L. cbv beta. rewrite E. subst left. cbv beta.
    apply s32_small.
    pose proof (fixed_gain_range TL_SHIFT TL_range _ _
                  (proj1 (pan_gains_gain p Hp)) Ht). fold total_level. lia. }
  assert (HR : forall p, 0 <= p < 16 ->
                 R p = fixed_gain TL_SHIFT (snd (pan_gains pow10 p)) total_level).
  { intros p Hp. destruct (Hst level p Hlevel Hp I) as [_ E].
    cbn [snd] in E. subst R. cbv beta. rewrite E. subst right. cbv beta.
    apply s32_small.
    pose proof (fixed_gain_range TL_SHIFT TL_range _ _
                  (proj2 (pan_gains_gain p Hp)) Ht). fold total_level. lia. }
  assert (Hgl : forall p, 0 <= p < 16 ->
                  pan_gains pow10 p
                  = if p =? 0 then (f32_one, f32_one)
                    else if p <? 7 then (pan_gain pow10 p, f32_one)
                    else if p =? 7 then (f32_zero, f32_one)
                    else if p =? 8 then (f32_zero, f32_zero)
                    else if p =? 9 then (f32_one, f32_zero)
                    else (f32_one, pan_gain pow10 (16 - p)))
    by (intros p Hp; apply pan_gains_cases; exact Hp).
  assert (Hzero : fixed_gain TL_SHIFT f32_zero total_level = 0)
    by (apply fixed_gain_zero; reflexivity).
  assert (Hfull : forall g, f32_gain g ->
                    0 <= fixed_gain TL_SHIFT g total_level
                    <= fixed_gain TL_SHIFT f32_one total_level).
  { intros g Hg. split.
    - apply (fixed_gain_range TL_SHIFT TL_range g total_level Hg Ht).
    - apply fixed_gain_mono; [exact TL_range|apply Hg|apply Ht|].
      rewrite (proj2 f32_one_gain). apply Hg. }
  assert (HL0 : L 0 = fixed_gain TL_SHIFT f32_one total_level)
    by (rewrite HL by lia; reflexivity).
  rewrite HL0.
  split; [rewrite HL, Hgl by lia; exact Hzero|].
  split; [rewrite HR, Hgl by lia; exact Hzero|].
  split; [apply value_to_fixed_gain;
          [exact TL_range|apply f32_one_gain|exact Ht]|].
  split; [rewrite HR by lia; reflexivity|].
  split.
  { intros p Hp. rewrite HL, HR by exact Hp.
    split; apply Hfull; apply pan_gains_gain; exact Hp. }
  split.
  { intros p Hp. rewrite HR, Hgl by lia.
    destruct (Z.eqb_spec p 0); [lia|].
    destruct (Z.ltb_spec p 7); [reflexivity|].
    destruct (Z.eqb_spec p 7); [reflexivity|lia]. }
  split.
  { intros p Hp. rewrite !HL, !Hgl by lia.
    destruct (Z.eqb_spec p 0); [lia|].
    destruct (Z.eqb_spec (p + 1) 0); [lia|].
    destruct (Z.ltb_spec p 7); [|lia].
    destruct (Z.ltb_spec (p + 1) 7).
    - cbn [fst]. apply fixed_gain_mono;
        [exact TL_range|apply pan_gain_gains; lia|apply Ht|].
      apply pan_gain_falls. lia.
    - destruct (Z.eqb_spec (p + 1) 7); [|lia]. cbn [fst].
      rewrite Hzero. apply Hfull. apply pan_gain_gains. lia. }
  split; [rewrite HL, Hgl by lia; exact Hzero|].
  split.
  { intros p Hp. rewrite HL, Hgl by lia.
    destruct (Z.eqb_spec p 0); [lia|]. destruct (Z.ltb_spec p 7); [lia|].
    destruct (Z.eqb_spec p 7); [lia|]. destruct (Z.eqb_spec p 8); [lia|].
    destruct (Z.eqb_spec p 9); reflexivity. }
  split.
  { intros p Hp. rewrite !HR, !Hgl by lia.
    destruct (Z.eqb_spec p 0); [lia|]. destruct (Z.ltb_spec p 7); [lia|].
    destruct (Z.eqb_spec p 7); [lia|]. destruct (Z.eqb_spec p 8); [lia|].
    destruct (Z.eqb_spec (p + 1) 0); [lia|].
    destruct (Z.ltb_spec (p + 1) 7); [lia|].
    destruct (Z.eqb_spec (p + 1) 7); [lia|].
    destruct (Z.eqb_spec (p + 1) 8); [lia|].
    destruct (Z.eqb_spec (p + 1) 9); [lia|].
    destruct (Z.eqb_spec p 9); cbn [snd].
    - rewrite Hzero. apply Hfull. apply pan_gain_gains. lia.
    - apply fixed_gain_mono;
        [exact TL_range|apply pan_gain_gains; lia|apply Ht|].
      replace (16 - p) with (16 - (p + 1) + 1) by lia.
      apply pan_gain_falls. lia. }
  rewrite HR, Hgl by lia. exact Hzero.
Qed.

End PanLaw.

(** The roundings with shifts are the roundings. *)
Lemma round_units_fast_eq (x : Z) : round_units_fast x = round_units x.
Proof.
  unfold round_units_fast, round_units, rne_shr.
  set (k := Z.max (Z.log2 x - 23) 149).
  assert (Hk : 149 <= k) by lia.
  rewrite Z.shiftr_div_pow2 by lia.
  rewrite !Z.shiftl_mul_pow2 by lia.
  rewrite Z.mul_1_l.
  replace (x - x / 2 ^ k * 2 ^ k) with (x mod 2 ^ k)
    by (rewrite Z.mod_eq by (apply Z.pow_nonzero; lia); lia).
  reflexivity.
Qed.

Lemma fixed_units_fast_eq (TL_SHIFT a b : Z) :
  0 <= TL_SHIFT ->
  fixed_units_fast TL_SHIFT a b = fixed_units TL_SHIFT a b.
Proof.
  intros H. unfold fixed_units_fast, fixed_units.
  rewrite Z.shiftr_div_pow2 by lia.
  rewrite Z.shiftl_mul_pow2 by lia.
  rewrite !round_units_fast_eq. rewrite Z.mul_comm. reflexivity.
Qed.

(** The fixed-point value does not fall when either value grows. *)
Lemma fixed_units_mono (TL_SHIFT a a' b b' : Z) :
  0 <= TL_SHIFT -> 0 <= a <= a' -> 0 <= b <= b' ->
  fixed_units TL_SHIFT a b <= fixed_units TL_SHIFT a' b'.
Proof.
  intros HTL Ha Hb. unfold fixed_units.
  pose proof (pow2_pos (TL_SHIFT + 149) ltac:(lia)) as Hp.
  apply Z.div_le_mono; [lia|].
  apply round_units_mono.
  assert (Hm : round_units (a * b) <= round_units (a' * b'))
    by (apply round_units_mono; nia).
  pose proof (round_units_nonneg (a * b) ltac:(nia)).
  nia.
Qed.

Section PanEntries.

Variable TL_SHIFT : Z.
Variables powf10 pow10 : spec_float -> spec_float.
Hypothesis TL_range : 0 <= TL_SHIFT <= 24.
Hypothesis level_gains : forall level,
  0 <= level < 128 -> f32_gain (total_level_of powf10 level).
Hypothesis pan_gain_gains : forall d,
  1 <= d <= 6 -> f32_gain (pan_gain pow10 d).

(** Every entry is the fixed-point value of its gain at the level. *)
Lemma pan_table_entries :
  exists lt rt,
    pan_tables_init TL_SHIFT powf10 pow10 = Some (lt, rt)
    /\ forall level p, 0 <= level < 128 -> 0 <= p < 16 ->
         pan_entry lt p level
         = fixed_gain TL_SHIFT (fst (pan_gains pow10 p))
             (total_level_of powf10 level)
         /\ pan_entry rt p level
            = fixed_gain TL_SHIFT (snd (pan_gains pow10 p))
                (total_level_of powf10 level).
Proof using TL_range level_gains pan_gain_gains.
  set (left := fun level pan =>
                 fixed_gain TL_SHIFT (fst (pan_gains pow10 pan))
                   (total_level_of powf10 level)).
  set (right := fun level pan =>
                  fixed_gain TL_SHIFT (snd (pan_gains pow10 pan))
                    (total_level_of powf10 level)).
  destruct (pan_tables_init_stored TL_SHIFT powf10 pow10 left right)
    as ([lt rt] & Hinit & Hl1 & Hl2 & Hst).
  { intros level pan Hl Hp. apply value_to_fixed_gain;
      [exact TL_range
      |apply (pan_gains_gain pow10 pan_gain_gains); exact Hp
      |apply level_gains; exact Hl]. }
  { intros level pan Hl Hp. apply value_to_fixed_gain;
      [exact TL_range
      |apply (pan_gains_gain pow10 pan_gain_gains); exact Hp
      |apply level_gains; exact Hl]. }
  exists lt, rt. split; [exact Hinit|].
  intros level p Hlevel Hp.
  pose proof (level_gains level Hlevel) as Ht.
  pose proof (pow2_pos TL_SHIFT ltac:(lia)) as Hp2.
  assert (Hp24 : 2 ^ TL_SHIFT <= 2 ^ 24) by (apply Z.pow_le_mono_r; lia).
  destruct (Hst level p Hlevel Hp I) as [EL ER]. cbn [fst snd] in EL, ER.
  rewrite EL, ER. subst left right. cbv beta.
  pose proof (fixed_gain_range TL_SHIFT TL_range _ _
                (proj1 (pan_gains_gain pow10 pan_gain_gains p Hp)) Ht).
  pose proof (fixed_gain_range TL_SHIFT TL_range _ _
                (proj2 (pan_gains_gain pow10 pan_gain_gains p Hp)) Ht).
  split; apply s32_small; lia.
Qed.

End PanEntries.

(** The opposite channel's gain of a pan index is that of its deflection. *)
Lemma deflection_gain_left (pow10 : spec_float -> spec_float) (p : Z) :
  0 <= p <= 7 -> fst (pan_gains pow10 p) = deflection_gain pow10 p.
Proof.
  intros H.
  assert (p = 0 \/ p = 1 \/ p = 2 \/ p = 3 \/ p = 4 \/ p = 5 \/ p = 6
          \/ p = 7) as Hc by lia.
  repeat (destruct Hc as [-> | Hc]; [reflexivity|]). subst p. reflexivity.
Qed.

Lemma deflection_gain_right (pow10 : spec_float -> spec_float) (p : Z) :
  9 <= p <= 15 -> snd (pan_gains pow10 p) = deflection_gain pow10 (16 - p).
Proof.
  intros H.
  assert (p = 9 \/ p = 10 \/ p = 11 \/ p = 12 \/ p = 13 \/ p = 14
          \/ p = 15) as Hc by lia.
  repeat (destruct Hc as [-> | Hc]; [reflexivity|]). subst p. reflexivity.
Qed.

(** ** The pan and volume tables *)

Lemma pan_tables_ref_eq :
  pan_tables_init 12 pow10_ref pow10_ref = Some (pan_left_ref, pan_right_ref).
Proof.
  vm_cast_no_check (@eq_refl (option (list Z * list Z))
                      (Some (pan_left_ref, pan_right_ref))).
Qed.

(** The claim of C8 at level 127: pans 3 and 4 are deflected to the same
    side, pan 4 further than pan 3, and the left (opposite) channel has the
    same entry 1 for both. *)
Lemma pan_table_not_strict :
  exists lt rt,
    pan_tables_init 12 pow10_ref pow10_ref = Some (lt, rt)
    /\ pan_entry lt 3 127 = 1
    /\ pan_entry lt 4 127 = 1
    /\ ~ pan_entry lt 4 127 < pan_entry lt 3 127.
Proof.
  exists pan_left_ref, pan_right_ref.
  split; [exact pan_tables_ref_eq|].
  assert (H3 : pan_entry pan_left_ref 3 127 = 1) by (vm_compute; reflexivity).
  assert (H4 : pan_entry pan_left_ref 4 127 = 1) by (vm_compute; reflexivity).
  rewrite H3, H4. repeat split. lia.
Qed.

(** The reference power of ten gives gains between 0 and 1. *)
Lemma pow10_ref_level_gains (level : Z) :
  0 <= level < 128 -> f32_gain (total_level_of pow10_ref level).
Proof.
  intros H.
  range_check (fun level =>
                 f32_ok (total_level_of pow10_ref level)
                 && (f32_units (total_level_of pow10_ref level) <=? 2 ^ 149))
              128%nat Hc.
  specialize (Hc level H). apply andb_true_iff in Hc as [H1 H2].
  split; [exact H1|apply Z.leb_le; exact H2].
Qed.

Lemma pow10_ref_pan_gains (d : Z) :
  1 <= d <= 6 -> f32_gain (pan_gain pow10_ref d).
Proof.
  intros H.
  range_check (fun d =>
                 f32_ok (pan_gain pow10_ref d)
                 && (f32_units (pan_gain pow10_ref d) <=? 2 ^ 149))
              7%nat Hc.
  specialize (Hc d ltac:(lia)). apply andb_true_iff in Hc as [H1 H2].
  split; [exact H1|apply Z.leb_le; exact H2].
Qed.

Lemma f32_near_refl (x : spec_float) : f32_ok x = true -> f32_near x x.
Proof.
  intros H. split; [exact H|]. unfold near_lo, near_hi.
  assert (0 <= ulp_units x)
    by (destruct x; cbn; try lia; apply Z.pow_nonneg; lia).
  lia.
Qed.

Section PanStrict.

Variables powf10 pow10 : spec_float -> spec_float.
Hypothesis level_near : forall level,
  0 <= level < 128 ->
  f32_near (total_level_of powf10 level) (total_level_of pow10_ref level).
Hypothesis pan_near : forall d,
  1 <= d <= 6 -> f32_near (pan_gain pow10 d) (pan_gain pow10_ref d).

(** Gains near the reference ones lie between 0 and 1 and fall with the
    deflection. *)
Lemma near_level_gains (level : Z) :
  0 <= level < 128 -> f32_gain (total_level_of powf10 level).
Proof using level_near.
  intros H. destruct (level_near level H) as [Hok Hu].
  range_check (fun level =>
                 near_hi (total_level_of pow10_ref level) <=? 2 ^ 149)
              128%nat Hc.
  specialize (Hc level H). apply Z.leb_le in Hc.
  split; [exact Hok|lia].
Qed.

Lemma near_pan_gains (d : Z) : 1 <= d <= 6 -> f32_gain (pan_gain pow10 d).
Proof using pan_near.
  intros H. destruct (pan_near d H) as [Hok Hu].
  range_check (fun d =>
                 (d =? 0) || (near_hi (pan_gain pow10_ref d) <=? 2 ^ 149))
              7%nat Hc.
  specialize (Hc d ltac:(lia)). apply orb_true_iff in Hc as [H0|H1].
  - apply Z.eqb_eq in H0. lia.
  - apply Z.leb_le in H1. split; [exact Hok|lia].
Qed.

Lemma near_pan_gain_falls (d : Z) :
  1 <= d < 6 ->
  f32_units (pan_gain pow10 (d + 1)) <= f32_units (pan_gain pow10 d).
Proof using pan_near.
  intros H.
  destruct (pan_near d ltac:(lia)) as [_ Hd].
  destruct (pan_near (d + 1) ltac:(lia)) as [_ Hd1].
  range_check (fun d =>
                 (d =? 0)
                 || (near_hi (pan_gain pow10_ref (d + 1))
                     <=? near_lo (pan_gain pow10_ref d)))
              6%nat Hc.
  specialize (Hc d ltac:(lia)). apply orb_true_iff in Hc as [H0|H1].
  - apply Z.eqb_eq in H0. lia.
  - apply Z.leb_le in H1. lia.
Qed.

(** The value of a deflection's gain lies in its interval. *)
Lemma deflection_bracket (d : Z) :
  0 <= d <= 7 ->
  0 <= f32_units (deflection_gain pow10 d)
  /\ bound_lo d <= f32_units (deflection_gain pow10 d) <= bound_hi d.
Proof using pan_near.
  intros H.
  range_check (fun d => (bound_lo d =? deflection_lo d)
                        && (bound_hi d =? deflection_hi d))
              8%nat Hb.
  specialize (Hb d ltac:(lia)). apply andb_true_iff in Hb as [Hb1 Hb2].
  apply Z.eqb_eq in Hb1, Hb2. rewrite Hb1, Hb2. clear Hb1 Hb2.
  assert (d = 0 \/ d = 7 \/ 1 <= d <= 6) as [-> | [-> | Hd]] by lia.
  - vm_compute. repeat split; discriminate.
  - vm_compute. repeat split; discriminate.
  - unfold deflection_gain, deflection_lo, deflection_hi.
    replace (d =? 0) with false by (symmetry; apply Z.eqb_neq; lia).
    replace (d =? 7) with false by (symmetry; apply Z.eqb_neq; lia).
    cbn [orb]. destruct (pan_near d Hd) as [Hok Hu].
    split; [apply f32_units_nonneg; exact Hok|exact Hu].
Qed.

(** C8, as the code has it, with 12 fractional bits and a power function
    whose level gains and pan gains are within 256 units in the last place
    of the reference ones: for every level, pan index 0x8 has the entry 0 in
    both tables; pan index 0x0 has in both tables the level's full gain,
    which no entry of the level exceeds; for a pan deflected to one side
    (1..7 or 9..15) the near channel keeps the full gain and the opposite
    channel's entry is 0 at the extreme deflection (pan 7, pan 9).  At every
    level from 0 to 95 and from 97 to 103 the opposite channel's entry
    strictly decreases as the deflection grows, from the full gain at pan 0
    down to the 0 at the extreme.  At level 96 and from level 104 on, where
    the gains truncated to fixed point are small, two neighbouring
    deflections share an entry; there the entry does not increase as the
    deflection grows. *)
Theorem pan_table_law :
  exists lt rt,
    pan_tables_init 12 powf10 pow10 = Some (lt, rt)
    /\ length lt = 0x800%nat /\ length rt = 0x800%nat
    /\ forall level, 0 <= level < 128 ->
         let L p := pan_entry lt p level in
         let R p := pan_entry rt p level in
         let total_level := total_level_of powf10 level in
         let merging := (level =? 96) || (104 <=? level) in
         L 8 = 0 /\ R 8 = 0
         /\ value_to_fixed 12 (f32_mul f32_one total_level) = Some (L 0)
         /\ R 0 = L 0
         /\ (forall p, 0 <= p < 16 -> 0 <= L p <= L 0 /\ 0 <= R p <= L 0)
         /\ (forall p, 1 <= p <= 7 -> R p = L 0)
         /\ (forall p, 1 <= p < 7 -> L (p + 1) <= L p)
         /\ L 7 = 0
         /\ (forall p, 9 <= p <= 15 -> L p = L 0)
         /\ (forall p, 9 <= p < 15 -> R p <= R (p + 1))
         /\ R 9 = 0
         /\ (merging = false ->
             (forall p, 0 <= p < 7 -> L (p + 1) < L p)
             /\ (forall p, 9 <= p < 15 -> R p < R (p + 1))
             /\ R 15 < R 0)
         /\ (merging = true ->
             exists p, 1 <= p < 6
                       /\ L (p + 1) = L p /\ R (15 - p) = R (16 - p)).
Proof using level_near pan_near.
  destruct (pan_table_bounds 12 powf10 pow10 ltac:(lia) near_level_gains
              near_pan_gains near_pan_gain_falls)
    as (lt & rt & Hinit & Hl1 & Hl2 & Hlaw).
  destruct (pan_table_entries 12 powf10 pow10 ltac:(lia) near_level_gains
              near_pan_gains)
    as (lt' & rt' & Hinit' & Hent).
  rewrite Hinit in Hinit'. injection Hinit' as <- <-.
  exists lt, rt.
  split; [exact Hinit|]. split; [exact Hl1|]. split; [exact Hl2|].
  intros level Hlevel L R total_level merging.
  destruct (Hlaw level Hlevel)
    as (H1 & H2 & H3 & H4 & H5 & H6 & H7 & H8 & H9 & H10 & H11).
  repeat (split; [assumption|]).
  set (G := fun d => fixed_units 12 (f32_units (deflection_gain pow10 d))
                       (f32_units total_level)).
  assert (HLG : forall p, 0 <= p <= 7 -> L p = G p).
  { intros p Hp. subst L G. cbv beta.
    rewrite (proj1 (Hent level p Hlevel ltac:(lia))).
    rewrite deflection_gain_left by exact Hp. reflexivity. }
  assert (HRG : forall p, 9 <= p <= 15 -> R p = G (16 - p)).
  { intros p Hp. subst R G. cbv beta.
    rewrite (proj2 (Hent level p Hlevel ltac:(lia))).
    rewrite deflection_gain_right by exact Hp. reflexivity. }
  assert (HR0 : R 0 = G 0)
    by (transitivity (L 0); [exact H4|apply HLG; lia]).
  destruct (level_near level Hlevel) as [Htok Htu]. fold total_level in Htok, Htu.
  pose proof (f32_units_nonneg _ Htok) as Ht0.
  set (tref := total_level_of pow10_ref level) in Htu.
  assert (Hlow : forall d, 0 <= d <= 7 -> 0 <= bound_lo d ->
                   0 <= near_lo tref ->
                   fixed_units_fast 12 (bound_lo d) (near_lo tref) <= G d).
  { intros d Hd Hd0 Hn0. destruct (deflection_bracket d Hd) as [_ Hb].
    rewrite fixed_units_fast_eq by lia. apply fixed_units_mono; lia. }
  assert (Hhigh : forall d, 0 <= d <= 7 ->
                    G d <= fixed_units_fast 12 (bound_hi d) (near_hi tref)).
  { intros d Hd. destruct (deflection_bracket d Hd) as [Hb0 Hb].
    rewrite fixed_units_fast_eq by lia. apply fixed_units_mono; lia. }
  split.
  - intros Hm.
    range_check
      (fun level =>
         let lo := near_lo (total_level_of pow10_ref level) in
         let hi := near_hi (total_level_of pow10_ref level) in
         if (level =? 96) || (104 <=? level) then true
         else (0 <=? lo)
              && forallb
                   (fun d =>
                      (0 <=? bound_lo d)
                      && (fixed_units_fast 12 (bound_hi (d + 1)) hi
                          <? fixed_units_fast 12 (bound_lo d) lo))
                   (map Z.of_nat (seq 0 7)))
      128%nat Hc.
    specialize (Hc level Hlevel). cbv zeta in Hc.
    fold merging tref in Hc. rewrite Hm in Hc.
    apply andb_true_iff in Hc as [Hn0 Hc].
    apply Z.leb_le in Hn0.
    assert (HG : forall d, 0 <= d < 7 -> G (d + 1) < G d).
    { intros d Hd.
      pose proof (Z_range_forallb _ 7 Hc d ltac:(lia)) as Hq. cbv beta in Hq.
      apply andb_true_iff in Hq as [Hd0 Hq].
      apply Z.leb_le in Hd0. apply Z.ltb_lt in Hq.
      pose proof (Hlow d ltac:(lia) Hd0 Hn0).
      pose proof (Hhigh (d + 1) ltac:(lia)). lia. }
    split; [|split].
    + intros p Hp. rewrite !HLG by lia. apply HG. lia.
    + intros p Hp. rewrite !HRG by lia.
      replace (16 - p) with (16 - (p + 1) + 1) by lia. apply HG. lia.
    + rewrite HR0, HRG by lia. apply (HG 0). lia.
  - intros Hm.
    range_check
      (fun level =>
         let lo := near_lo (total_level_of pow10_ref level) in
         let hi := near_hi (total_level_of pow10_ref level) in
         if (level =? 96) || (104 <=? level) then
           (0 <=? lo)
           && existsb
                (fun d =>
                   let a := fixed_units_fast 12 (bound_lo d) lo in
                   (0 <=? bound_lo d) && (0 <=? bound_lo (d + 1))
                   && (a =? fixed_units_fast 12 (bound_hi d) hi)
                   && (a =? fixed_units_fast 12 (bound_lo (d + 1)) lo)
                   && (a =? fixed_units_fast 12 (bound_hi (d + 1)) hi))
                [1; 2; 3; 4; 5]
         else true)
      128%nat Hc.
    specialize (Hc level Hlevel). cbv zeta in Hc.
    fold merging tref in Hc. rewrite Hm in Hc.
    apply andb_true_iff in Hc as [Hn0 Hc].
    apply Z.leb_le in Hn0.
    apply existsb_exists in Hc as (d & Hin & Hc).
    assert (Hd : 1 <= d < 6).
    { cbn in Hin. lia. }
    apply andb_true_iff in Hc as [Hc E3]. apply andb_true_iff in Hc as [Hc E2].
    apply andb_true_iff in Hc as [Hc E1]. apply andb_true_iff in Hc as [Hd0 Hd1].
    apply Z.leb_le in Hd0, Hd1. apply Z.eqb_eq in E1, E2, E3.
    pose proof (Hlow d ltac:(lia) Hd0 Hn0).
    pose proof (Hhigh d ltac:(lia)).
    pose proof (Hlow (d + 1) ltac:(lia) Hd1 Hn0).
    pose proof (Hhigh (d + 1) ltac:(lia)).
    assert (HG : G (d + 1) = G d) by lia.
    exists d. split; [exact Hd|]. split.
    + rewrite !HLG by lia. exact HG.
    + rewrite !HRG by lia.
      replace (16 - (15 - d)) with (d + 1) by lia.
      replace (16 - (16 - d)) with d by lia. exact HG.
Qed.

End PanStrict.

(** The reference power of ten itself: strict at level 0, a shared entry at
    level 127. *)
Lemma pan_table_law_witness :
  (forall level, 0 <= level < 128 ->
     f32_near (total_level_of pow10_ref level) (total_level_of pow10_ref level))
  /\ (forall d, 1 <= d <= 6 ->
        f32_near (pan_gain pow10_ref d) (pan_gain pow10_ref d))
  /\ exists lt rt,
       pan_tables_init 12 pow10_ref pow10_ref = Some (lt, rt)
       /\ (forall p, 0 <= p < 7 -> pan_entry lt (p + 1) 0 < pan_entry lt p 0)
       /\ (exists p, 1 <= p < 6
                     /\ pan_entry lt (p + 1) 127 = pan_entry lt p 127).
Proof.
  assert (Hlevel : forall level, 0 <= level < 128 ->
            f32_near (total_level_of pow10_ref level)
              (total_level_of pow10_ref level))
    by (intros level H; apply f32_near_refl, pow10_ref_level_gains, H).
  assert (Hpan : forall d, 1 <= d <= 6 ->
            f32_near (pan_gain pow10_ref d) (pan_gain pow10_ref d))
    by (intros d H; apply f32_near_refl, pow10_ref_pan_gains, H).
  split; [exact Hlevel|]. split; [exact Hpan|].
  destruct (pan_table_law pow10_ref pow10_ref Hlevel Hpan)
    as (lt & rt & Hinit & _ & _ & Hlaw).
  exists lt, rt. split; [exact Hinit|]. split.
  - destruct (Hlaw 0 ltac:(lia)) as (_ & _ & _ & _ & _ & _ & _ & _ & _ & _ & _ & Hs & _).
    exact (proj1 (Hs eq_refl)).
  - destruct (Hlaw 127 ltac:(lia)) as (_ & _ & _ & _ & _ & _ & _ & _ & _ & _ & _ & _ & Hm).
    destruct (Hm eq_refl) as (p & Hp & E & _).
    exists p. split; [exact Hp|exact E].
Defined.

(** ** The register interface, register by register *)

Lemma retrigger_sample_spec (TL_SHIFT : Z) (T : tables) (slot slot' : Slot.t) :
  retrigger_sample TL_SHIFT T slot = Some slot' ->
  exists ar d1r d2r rr,
    let rate := u32 (calc_rate slot) in
    let smp := Slot.m_sample slot in
    get_rate (m_attack_step T) rate (Sample.m_attack_reg smp) = Some ar
    /\ get_rate (m_decay_release_step T) rate (Sample.m_decay1_reg smp)
       = Some d1r
    /\ get_rate (m_decay_release_step T) rate (Sample.m_decay2_reg smp)
       = Some d2r
    /\ get_rate (m_decay_release_step T) rate (Sample.m_release_reg smp)
       = Some rr
    /\ slot'
       = Slot.mk (Slot.m_regs slot) (Slot.m_playing slot) (Slot.m_base slot) 0
           (Slot.m_step slot) (Slot.m_pan slot)
           (u32 (Z.shiftl (Slot.m_dest_total_level slot) TL_SHIFT))
           (Slot.m_dest_total_level slot) (Slot.m_total_level_step slot) 0
           (Slot.m_sample slot)
           (EnvGen.mk 0 ATTACK (EnvGen.step (Slot.m_envelope_gen slot))
              ar d1r d2r rr (0xf - Sample.m_decay_level smp))
           (Slot.m_pitch_lfo slot) (Slot.m_amplitude_lfo slot)
           (Slot.m_format slot).
Proof.
  unfold retrigger_sample, envelope_generator_calc, calc_rate. simpl.
  destruct (get_rate (m_attack_step T) _ _) as [ar|]; [|discriminate].
  destruct (get_rate (m_decay_release_step T) _
              (Sample.m_decay1_reg _)) as [d1r|]; [|discriminate].
  destruct (get_rate (m_decay_release_step T) _
              (Sample.m_decay2_reg _)) as [d2r|]; [|discriminate].
  destruct (get_rate (m_decay_release_step T) _
              (Sample.m_release_reg _)) as [rr|]; [|discriminate].
  simpl. intros [= <-]. exists ar, d1r, d2r, rr. repeat split; reflexivity.
Qed.

Lemma write_slot_lfo_spec (T : tables) (slot : Slot.t) (r data : Z) :
  length (Slot.m_regs slot) = 8%nat ->
  0 <= r < 8 ->
  let regs := <[Z.to_nat r := data]> (Slot.m_regs slot) in
  write_slot_lfo T slot r data
  = Some (if data =? 0 then Slot.set_regs slot regs
          else
            let f := Z.land (Z.shiftr (reg regs 6) 3) 7 in
            Slot.set_amplitude_lfo
              (Slot.set_pitch_lfo (Slot.set_regs slot regs)
                 (lfo_compute_step T (Slot.m_pitch_lfo slot) f
                    (Z.land (reg regs 6) 7) false))
              (lfo_compute_step T (Slot.m_amplitude_lfo slot) f
                 (Z.land (reg regs 7) 7) true)).
Proof.
  intros Hlen Hr. unfold write_slot_lfo.
  rewrite (upd_Some (Slot.m_regs slot) r data) by (rewrite Hlen; lia).
  simpl. destruct (data =? 0); reflexivity.
Qed.

Section RegisterInterface.

Variable TL_SHIFT : Z.
Variable rom : Z -> Z.
Variable T : tables.

(** X1 ([write], case 1, and [VALUE_TO_CHANNEL]): a write of a byte to
    register 1 always succeeds and changes only the current slot.  With
    [code] the low five bits of the byte, the current slot becomes -1 when
    the low three bits of [code] are all set and voice
    [7 * (code / 8) + code mod 8] otherwise; so each of the 28 voices [v] is
    selected by exactly one code, [8 * (v / 7) + v mod 7]. *)
Theorem write_voice_select (d : device) (data : Z) :
  0 <= data < 256 ->
  let code := data mod 32 in
  let voice := if code mod 8 =? 7 then -1 else 7 * (code / 8) + code mod 8 in
  write TL_SHIFT rom T d 1 data
  = Some {| m_slots := m_slots d; m_cur_slot := voice;
            m_address := m_address d |}
  /\ -1 <= voice < 28
  /\ forall v, 0 <= v < 28 ->
       (voice = v <-> code = 8 * (v / 7) + v mod 7).
Proof.
  intros Hdata code voice.
  assert (Hidx : idx VALUE_TO_CHANNEL (Z.land data 0x1f) = Some voice).
  { range_check
      (fun x => match idx VALUE_TO_CHANNEL (Z.land x 0x1f) with
                | Some c => c =? (if (x mod 32) mod 8 =? 7 then -1
                                  else 7 * (x mod 32 / 8) + (x mod 32) mod 8)
                | None => false
                end) 256%nat Hc.
    specialize (Hc data Hdata).
    destruct (idx VALUE_TO_CHANNEL (Z.land data 0x1f)) as [c|];
      [|discriminate].
    apply Z.eqb_eq in Hc. subst c. reflexivity. }
  split; [unfold write; rewrite Hidx; reflexivity|].
  assert (Hcode : 0 <= code < 32) by (apply Z.mod_pos_bound; lia).
  subst voice. destruct (Z.eqb_spec (code mod 8) 7) as [E|E].
  - split; [lia|]. intros v Hv. split; [lia|]. intros Hc. exfalso.
    rewrite Hc in E.
    rewrite Z.add_comm, Z.mul_comm, Z.mod_add in E by lia.
    pose proof (Z.mod_pos_bound v 7 ltac:(lia)).
    rewrite Z.mod_small in E by lia. lia.
  - pose proof (Z.mod_pos_bound code 8 ltac:(lia)) as Hm.
    pose proof (Z.div_mod code 8 ltac:(lia)) as Hdm.
    assert (Hq : 0 <= code / 8 < 4).
    { split; [apply Z.div_pos; lia|apply Z.div_lt_upper_bound; lia]. }
    split; [lia|]. intros v Hv.
    pose proof (Z.mod_pos_bound v 7 ltac:(lia)) as Hvm.
    pose proof (Z.div_mod v 7 ltac:(lia)) as Hvdm.
    split.
    + intros <-.
      assert (H1 : (7 * (code / 8) + code mod 8) / 7 = code / 8).
      { symmetry. apply (Z.div_unique _ 7 (code / 8) (code mod 8)); lia. }
      assert (H2 : (7 * (code / 8) + code mod 8) mod 7 = code mod 8).
      { symmetry. apply (Z.mod_unique _ 7 (code / 8) (code mod 8)); lia. }
      rewrite H1, H2. lia.
    + intros Hc.
      assert (H1 : code / 8 = v / 7).
      { symmetry. apply (Z.div_unique code 8 (v / 7) (v mod 7)); lia. }
      assert (H2 : code mod 8 = v mod 7).
      { symmetry. apply (Z.mod_unique code 8 (v / 7) (v mod 7)); lia. }
      rewrite H1, H2. lia.
Qed.

(** X2 ([write], case 0): a data write that succeeds is the slot write of
    the current slot at the current sub-register address.  That slot is
    replaced by the result; every other slot, the number of slots, the
    current slot and the address are left as they were. *)
Theorem write_data_frame (d d' : device) (data : Z) :
  write TL_SHIFT rom T d 0 data = Some d' ->
  exists slot slot',
    idx (m_slots d) (m_cur_slot d) = Some slot
    /\ write_slot TL_SHIFT rom T slot (m_address d) data = Some slot'
    /\ idx (m_slots d') (m_cur_slot d) = Some slot'
    /\ (forall i, i <> m_cur_slot d -> idx (m_slots d') i = idx (m_slots d) i)
    /\ length (m_slots d') = length (m_slots d)
    /\ m_cur_slot d' = m_cur_slot d
    /\ m_address d' = m_address d.
Proof.
  unfold write.
  destruct (idx (m_slots d) (m_cur_slot d)) as [slot|] eqn:Hi;
    [|discriminate].
  simpl.
  destruct (write_slot TL_SHIFT rom T slot (m_address d) data)
    as [slot'|] eqn:Hw; [|discriminate].
  simpl. pose proof (idx_inv _ _ _ Hi) as Hr.
  rewrite (upd_Some (m_slots d) (m_cur_slot d) slot' Hr). simpl.
  intros [= <-]. simpl. exists slot, slot'.
  split; [reflexivity|]. split; [exact Hw|].
  split.
  { unfold idx. destruct (Z.leb_spec 0 (m_cur_slot d)); [|lia].
    apply list_lookup_insert_eq. lia. }
  split.
  { intros i Hne. unfold idx. destruct (0 <=? i) eqn:E; [|reflexivity].
    apply list_lookup_insert_ne. apply Z.leb_le in E. lia. }
  split; [apply length_insert|]. split; reflexivity.
Qed.

End RegisterInterface.

Lemma write_slot_outside (TL_SHIFT : Z) (rom : Z -> Z) (T : tables)
    (slot : Slot.t) (r data : Z) :
  length (Slot.m_regs slot) = 8%nat ->
  r < 0 \/ 8 <= r ->
  write_slot TL_SHIFT rom T slot r data = None.
Proof.
  intros Hlen Hr.
  assert (Hupd : upd (Slot.m_regs slot) r data = None).
  { unfold upd. rewrite Hlen.
    destruct (Z.leb_spec 0 r); [|reflexivity].
    destruct (Z.ltb_spec r (Z.of_nat 8)); [lia|reflexivity]. }
  unfold write_slot, write_slot_lfo.
  destruct r as [|p|p]; [lia| |rewrite Hupd; reflexivity].
  destruct p as [[[q|q|]|[q|q|]|]|[[q|q|]|[q|q|]|]|];
    try lia; rewrite Hupd; reflexivity.
Qed.

Section RegisterImage.

Variable TL_SHIFT : Z.
Variable rom : Z -> Z.
Variable T : tables.

(** The sample descriptor a write of [data] to sub-register 1 loads. *)
Let selected (slot : Slot.t) (data : Z) : Sample.t :=
  init_sample rom
    (Z.lor data (Z.shiftl (Z.land (reg (Slot.m_regs slot) 2) 1) 8)).

Lemma write_slot_1_spec (slot : Slot.t) (data : Z) :
  length (Slot.m_regs slot) = 8%nat ->
  let smp := selected slot data in
  let vib := Sample.m_lfo_vibrato_reg smp in
  let amp := Sample.m_lfo_amplitude_reg smp in
  exists loaded,
    Slot.m_regs loaded
    = <[7%nat := amp]> (<[6%nat := vib]> (<[1%nat := data]> (Slot.m_regs slot)))
    /\ Slot.m_sample loaded = smp
    /\ Slot.m_base loaded = Sample.m_start smp
    /\ Slot.m_format loaded = Sample.m_format smp
    /\ Slot.m_playing loaded = Slot.m_playing slot
    /\ Slot.m_offset loaded = Slot.m_offset slot
    /\ Slot.m_step loaded = Slot.m_step slot
    /\ Slot.m_pan loaded = Slot.m_pan slot
    /\ Slot.m_total_level loaded = Slot.m_total_level slot
    /\ Slot.m_dest_total_level loaded = Slot.m_dest_total_level slot
    /\ Slot.m_total_level_step loaded = Slot.m_total_level_step slot
    /\ Slot.m_prev_sample loaded = Slot.m_prev_sample slot
    /\ Slot.m_envelope_gen loaded = Slot.m_envelope_gen slot
    /\ Lfo.m_phase (Slot.m_pitch_lfo loaded)
       = Lfo.m_phase (Slot.m_pitch_lfo slot)
    /\ Lfo.m_phase (Slot.m_amplitude_lfo loaded)
       = Lfo.m_phase (Slot.m_amplitude_lfo slot)
    /\ (vib = 0 -> amp = 0 ->
        Slot.m_pitch_lfo loaded = Slot.m_pitch_lfo slot
        /\ Slot.m_amplitude_lfo loaded = Slot.m_amplitude_lfo slot)
    /\ (vib <> 0 \/ amp <> 0 ->
        exists p f,
          Slot.m_pitch_lfo loaded
          = lfo_compute_step T p f (Z.land vib 7) false)
    /\ (amp <> 0 ->
        exists a f,
          Slot.m_amplitude_lfo loaded
          = lfo_compute_step T a f (Z.land amp 7) true)
    /\ write_slot TL_SHIFT rom T slot 1 data
       = if Slot.m_playing slot
         then retrigger_sample TL_SHIFT T loaded else Some loaded.
Proof.
  intros Hlen. unfold write_slot.
  rewrite (upd_Some (Slot.m_regs slot) 1 data) by (rewrite Hlen; lia).
  cbn [mbind option_bind].
  change (Z.to_nat 1) with 1%nat.
  rewrite (reg_insert_eq _ 1) by (rewrite Hlen; lia).
  rewrite (reg_insert_ne _ 1 2) by discriminate.
  fold (selected slot data). generalize (selected slot data) as smp.
  intros smp.
  rewrite write_slot_lfo_spec
    by (cbn [Slot.m_regs Slot.set_sample Slot.set_regs];
        rewrite ?length_insert; first [exact Hlen|lia]).
  cbn [mbind option_bind].
  rewrite write_slot_lfo_spec;
    [|destruct (Sample.m_lfo_vibrato_reg smp =? 0);
      cbn [Slot.m_regs Slot.set_sample Slot.set_regs Slot.set_pitch_lfo
           Slot.set_amplitude_lfo];
      rewrite ?length_insert; exact Hlen|lia].
  cbn [mbind option_bind].
  change (Z.to_nat 6) with 6%nat. change (Z.to_nat 7) with 7%nat.
  cbv zeta.
  match goal with
  | |- context [if Slot.m_playing ?l then retrigger_sample _ _ ?l
                else Some ?l] => exists l
  end.
  destruct slot as [regs playing base offset step pan tl dest tlstep prev
                      sample g plfo alfo format].
  cbn [Slot.m_regs] in Hlen.
  destruct (Z.eqb_spec (Sample.m_lfo_vibrato_reg smp) 0) as [Ev|Ev];
    destruct (Z.eqb_spec (Sample.m_lfo_amplitude_reg smp) 0) as [Ea|Ea];
    cbn;
    rewrite ?(reg_insert_eq _ 7), ?(reg_insert_ne _ 7 6), ?(reg_insert_eq _ 6)
      by first [discriminate|rewrite ?length_insert, Hlen; lia];
    (repeat (split; [reflexivity|]));
    (split; [intros; first [contradiction|split; reflexivity]|]);
    (split; [first [intros [?|?]; contradiction
                   |intros _; do 2 eexists; reflexivity]|]);
    (split; [first [intros ?; contradiction
                   |intros _; do 2 eexists; reflexivity]|]);
    reflexivity.
Qed.

End RegisterImage.

(** ** Sample descriptors *)

Lemma u8_range (x : Z) : 0 <= u8 x < 256.
Proof. unfold u8. apply Z.mod_pos_bound. lia. Qed.

Lemma read_byte_range (rom : Z -> Z) (a : Z) : 0 <= read_byte rom a < 256.
Proof. apply u8_range. Qed.

Lemma land_15_range (x : Z) : 0 <= Z.land x 0xf < 16.
Proof.
  change 0xf with (Z.ones 4). rewrite Z.land_ones by lia.
  apply Z.mod_pos_bound. lia.
Qed.

Lemma init_sample_lfo_regs (rom : Z -> Z) (index : Z) :
  0 <= Sample.m_lfo_vibrato_reg (init_sample rom index) < 256
  /\ 0 <= Sample.m_lfo_amplitude_reg (init_sample rom index) < 16.
Proof.
  unfold init_sample. cbn [Sample.m_lfo_vibrato_reg Sample.m_lfo_amplitude_reg].
  split; [apply read_byte_range|apply land_15_range].
Qed.

(** ** What the register interface keeps *)

Lemma lfo_compute_step_wf (T : tables) (lfo : Lfo.t) (f s : Z) (b : bool) :
  tables_ready T -> 0 <= s < 8 ->
  lfo_wf (lfo_compute_step T lfo f s b).
Proof.
  intros (_ & _ & _ & Hpl & Hp & Hal & Ha & Hpsl & Hps & Hasl & Has & _) Hs.
  assert (Hlook : forall tabs : list (list Z),
             length tabs = 8%nat ->
             Forall (fun t => length t = 256%nat) tabs ->
             length (default [] (tabs !! Z.to_nat s)) = 256%nat).
  { intros tabs Hl Hall.
    destruct (lookup_lt_is_Some_2 tabs (Z.to_nat s)) as [t Ht]; [lia|].
    rewrite Ht. simpl. exact (proj1 (Forall_lookup _ _) Hall _ _ Ht). }
  unfold lfo_compute_step, lfo_wf. destruct b; simpl.
  - split; [exact Hal|]. split; [exact Ha|]. apply Hlook; assumption.
  - split; [exact Hpl|]. split; [exact Hp|]. apply Hlook; assumption.
Qed.

Lemma land_7_range (x : Z) : 0 <= Z.land x 7 < 8.
Proof.
  change 7 with (Z.ones 3). rewrite Z.land_ones by lia.
  apply Z.mod_pos_bound. lia.
Qed.

Lemma get_rate_bound (steps : list Z) (rate val x : Z) :
  Forall (fun x => 0 <= x <= 2 ^ 30) steps ->
  get_rate steps rate val = Some x -> 0 <= x <= 2 ^ 30.
Proof.
  intros Hall. unfold get_rate, idx.
  destruct (0 <=? get_rate_index rate val); [|discriminate].
  intros Hl. exact (proj1 (Forall_lookup _ _) Hall _ _ Hl).
Qed.

Lemma Forall_insert_byte (regs : list Z) (i : nat) (v : Z) :
  Forall (fun b => 0 <= b < 256) regs -> 0 <= v < 256 ->
  Forall (fun b => 0 <= b < 256) (<[i := v]> regs).
Proof. intros H Hv. apply Forall_insert; assumption. Qed.

Lemma reg_byte (regs : list Z) (i : nat) :
  Forall (fun b => 0 <= b < 256) regs -> 0 <= reg regs i < 256.
Proof.
  intros H. unfold reg. destruct (regs !! i) as [b|] eqn:E; simpl; [|lia].
  exact (proj1 (Forall_lookup _ _) H _ _ E).
Qed.

Section DeviceInvariant.

Variables TL_SHIFT EG_SHIFT LFO_SHIFT : Z.
Variable rom : Z -> Z.
Variable T : tables.
Variables down up : Z.
Hypothesis TL_range : 0 <= TL_SHIFT <= 24.
Hypothesis EG_range : 0 <= EG_SHIFT <= 20.
Hypothesis tables_ok : tables_ready T.
Hypothesis steps_ok : total_level_steps_ok TL_SHIFT T down up.

Lemma level_of_dest (dest : Z) :
  0 <= dest < 0x80 ->
  let tl := u32 (Z.shiftl dest TL_SHIFT) in
  0 <= tl < 0x80 * 2 ^ TL_SHIFT /\ Z.shiftr tl TL_SHIFT = dest.
Proof using TL_range.
  intros Hd tl.
  assert (HP : 0 < 2 ^ TL_SHIFT <= 2 ^ 24).
  { split; [apply Z.pow_pos_nonneg; lia|apply Z.pow_le_mono_r; lia]. }
  assert (Htl : tl = dest * 2 ^ TL_SHIFT).
  { subst tl. rewrite shiftl_mul by lia. apply u32_small.
    change (2 ^ 32) with (256 * 2 ^ 24). nia. }
  rewrite Htl. split; [nia|].
  rewrite shiftr_div by lia. apply Z.div_mul. lia.
Qed.

Lemma retrigger_voice_ok (slot slot' : Slot.t) :
  length (Slot.m_regs slot) = 8%nat ->
  Forall (fun b => 0 <= b < 256) (Slot.m_regs slot) ->
  0 <= Slot.m_pan slot < 0x10 ->
  0 <= Slot.m_dest_total_level slot < 0x80 ->
  (Z.land (reg (Slot.m_regs slot) 6) 7 <> 0 -> lfo_wf (Slot.m_pitch_lfo slot)) ->
  (Z.land (reg (Slot.m_regs slot) 7) 7 <> 0
   -> lfo_wf (Slot.m_amplitude_lfo slot)) ->
  retrigger_sample TL_SHIFT T slot = Some slot' ->
  voice_ok TL_SHIFT EG_SHIFT down up slot'.
Proof using TL_range EG_range tables_ok.
  intros Hlen Hbytes Hpan Hdest Hpl Hal Hr.
  destruct (retrigger_sample_spec _ _ _ _ Hr)
    as (ar & d1r & d2r & rr & Har & Hd1 & Hd2 & Hrr & ->).
  destruct tables_ok as (_ & Hattack & Hdecay & _).
  pose proof (get_rate_bound _ _ _ _ Hattack Har).
  pose proof (get_rate_bound _ _ _ _ Hdecay Hd1).
  pose proof (get_rate_bound _ _ _ _ Hdecay Hd2).
  pose proof (get_rate_bound _ _ _ _ Hdecay Hrr).
  destruct (level_of_dest _ Hdest) as [Htl Hlevel].
  assert (Hmax : 0 <= Z.shiftl 0x3ff EG_SHIFT).
  { rewrite shiftl_mul by lia.
    pose proof (Z.pow_pos_nonneg 2 EG_SHIFT ltac:(lia) ltac:(lia)). lia. }
  unfold voice_ok, slot_wf, ramp_wf, envelope_wf. simpl.
  repeat match goal with |- _ /\ _ => split end;
    try assumption; try lia.
Qed.

Lemma write_slot_in_range (slot slot' : Slot.t) (r data : Z) :
  length (Slot.m_regs slot) = 8%nat ->
  write_slot TL_SHIFT rom T slot r data = Some slot' ->
  r = 0 \/ r = 1 \/ r = 2 \/ r = 3 \/ r = 4 \/ r = 5 \/ r = 6 \/ r = 7.
Proof using Type.
  intros Hlen Hw.
  destruct (Z_lt_ge_dec r 0) as [Hn|Hn];
    [rewrite write_slot_outside in Hw by (auto; lia); discriminate|].
  destruct (Z_lt_ge_dec r 8) as [Hm|Hm];
    [lia|rewrite write_slot_outside in Hw by (auto; lia); discriminate].
Qed.

(** The register image after a write that is not a sample select. *)
Lemma write_slot_regs (slot slot' : Slot.t) (r data : Z) :
  length (Slot.m_regs slot) = 8%nat ->
  write_slot TL_SHIFT rom T slot r data = Some slot' ->
  r <> 1 ->
  Slot.m_regs slot' = <[Z.to_nat r := data]> (Slot.m_regs slot).
Proof using Type.
  intros Hlen Hw Hne.
  destruct (write_slot_in_range _ _ _ _ Hlen Hw)
    as [->|[->|[->|[->|[->|[->|[->| ->]]]]]]]; try lia; clear Hne;
    try (unfold write_slot in Hw;
         rewrite write_slot_lfo_spec in Hw by (first [exact Hlen|lia]);
         injection Hw as <-; destruct (data =? 0); reflexivity);
    unfold write_slot in Hw;
    rewrite upd_Some in Hw by (rewrite Hlen; lia);
    cbn [mbind option_bind] in Hw.
  - injection Hw as <-. reflexivity.
  - destruct (idx (m_freq_step_table T) _); [|discriminate].
    cbn [mbind option_bind] in Hw.
    destruct (pitch_by_rate T _); [|discriminate].
    injection Hw as <-. reflexivity.
  - destruct (idx (m_freq_step_table T) _); [|discriminate].
    cbn [mbind option_bind] in Hw.
    destruct (pitch_by_rate T _); [|discriminate].
    injection Hw as <-. reflexivity.
  - destruct (Z.land data 128 =? 0).
    + cbn [Slot.m_playing Slot.set_regs] in Hw.
      destruct (Slot.m_playing slot);
        [destruct (_ =? 15)|]; injection Hw as <-; reflexivity.
    + destruct (retrigger_sample_spec _ _ _ _ Hw)
        as (ar & d1r & d2r & rr & _ & _ & _ & _ & ->). reflexivity.
  - destruct (Z.land data 1 =? 0).
    + destruct (_ >? _);
        (destruct (idx (m_total_level_steps T) _); [|discriminate]);
        injection Hw as <-; reflexivity.
    + injection Hw as <-. reflexivity.
Qed.

Lemma envelope_wf_state (g : EnvGen.t) (st : state_t) :
  envelope_wf EG_SHIFT g -> envelope_wf EG_SHIFT (set_state g st).
Proof using Type. intros H. exact H. Qed.

Lemma write_slot_voice_ok (slot slot' : Slot.t) (r data : Z) :
  voice_ok TL_SHIFT EG_SHIFT down up slot ->
  0 <= data < 256 ->
  write_slot TL_SHIFT rom T slot r data = Some slot' ->
  voice_ok TL_SHIFT EG_SHIFT down up slot'.
Proof using TL_range EG_range tables_ok steps_ok.
  intros Hok Hdata Hw.
  pose proof Hok as ((Hlen & Hpan & Htl & Henv & Hpl & Hal) & Hramp & Hbytes).
  pose proof Hramp as (_ & Hdest & Hdir).
  destruct (write_slot_in_range _ _ _ _ Hlen Hw)
    as [->|[->|[->|[->|[->|[->|[->| ->]]]]]]].
  - (* pan *)
    unfold write_slot in Hw.
    rewrite upd_Some in Hw by (rewrite Hlen; lia).
    cbn [mbind option_bind] in Hw. injection Hw as <-.
    unfold voice_ok, slot_wf, ramp_wf. simpl.
    rewrite length_insert, !(reg_insert_ne _ 0) by discriminate.
    pose proof (land_15_range (Z.shiftr data 4)).
    repeat match goal with |- _ /\ _ => split end;
      try assumption; try lia.
    apply Forall_insert_byte; assumption.
  - (* sample select *)
    destruct (write_slot_1_spec TL_SHIFT rom T slot data Hlen)
      as (loaded & Hregs & Hsmp & _ & _ & Hplay & _ & _ & Hpan' & Htl' & Hdest'
          & Hstep' & _ & Henv' & _ & _ & Hzero & Hpitch & Hamp & Hres).
    rewrite Hres in Hw. clear Hres.
    cbv zeta in *.
    set (smp := init_sample rom _) in *.
    destruct (init_sample_lfo_regs rom
                (Z.lor data (Z.shiftl (Z.land (reg (Slot.m_regs slot) 2) 1) 8)))
      as [Hvib Hampr].
    fold smp in Hvib, Hampr.
    assert (Hlen' : length (Slot.m_regs loaded) = 8%nat)
      by (rewrite Hregs, !length_insert; exact Hlen).
    assert (Hbytes' : Forall (fun b => 0 <= b < 256) (Slot.m_regs loaded)).
    { rewrite Hregs. repeat apply Forall_insert_byte; try assumption; lia. }
    assert (H6 : reg (Slot.m_regs loaded) 6 = Sample.m_lfo_vibrato_reg smp).
    { rewrite Hregs, (reg_insert_ne _ 7 6) by discriminate.
      apply reg_insert_eq. rewrite length_insert, Hlen. lia. }
    assert (H7 : reg (Slot.m_regs loaded) 7 = Sample.m_lfo_amplitude_reg smp).
    { rewrite Hregs. apply reg_insert_eq. rewrite !length_insert, Hlen. lia. }
    assert (Hpl' : Z.land (reg (Slot.m_regs loaded) 6) 7 <> 0 ->
                   lfo_wf (Slot.m_pitch_lfo loaded)).
    { rewrite H6. intros Hn.
      destruct Hpitch as (p & f & ->).
      { left. intros E. rewrite E in Hn. apply Hn. reflexivity. }
      apply lfo_compute_step_wf; [exact tables_ok|apply land_7_range]. }
    assert (Hal' : Z.land (reg (Slot.m_regs loaded) 7) 7 <> 0 ->
                   lfo_wf (Slot.m_amplitude_lfo loaded)).
    { rewrite H7. intros Hn.
      destruct Hamp as (a & f & ->).
      { intros E. rewrite E in Hn. apply Hn. reflexivity. }
      apply lfo_compute_step_wf; [exact tables_ok|apply land_7_range]. }
    destruct (Slot.m_playing slot).
    + apply (retrigger_voice_ok loaded); try assumption; congruence.
    + injection Hw as <-. unfold voice_ok, slot_wf, ramp_wf.
      rewrite Hpan', Htl', Hdest', Hstep', Henv'.
      repeat match goal with |- _ /\ _ => split end;
        try assumption; try lia.
  - (* pitch *)
    pose proof (write_slot_regs _ _ _ _ Hlen Hw ltac:(lia)) as Hregs.
    unfold write_slot in Hw.
    rewrite upd_Some in Hw by (rewrite Hlen; lia).
    cbn [mbind option_bind] in Hw.
    destruct (idx (m_freq_step_table T) _); [|discriminate].
    cbn [mbind option_bind] in Hw.
    destruct (pitch_by_rate T _); [|discriminate].
    injection Hw as <-.
    unfold voice_ok, slot_wf, ramp_wf. simpl.
    rewrite length_insert, !(reg_insert_ne _ 2) by discriminate.
    repeat match goal with |- _ /\ _ => split end;
      try assumption; try lia.
    apply Forall_insert_byte; assumption.
  - pose proof (write_slot_regs _ _ _ _ Hlen Hw ltac:(lia)) as Hregs.
    unfold write_slot in Hw.
    rewrite upd_Some in Hw by (rewrite Hlen; lia).
    cbn [mbind option_bind] in Hw.
    destruct (idx (m_freq_step_table T) _); [|discriminate].
    cbn [mbind option_bind] in Hw.
    destruct (pitch_by_rate T _); [|discriminate].
    injection Hw as <-.
    unfold voice_ok, slot_wf, ramp_wf. simpl.
    rewrite length_insert, !(reg_insert_ne _ 3) by discriminate.
    repeat match goal with |- _ /\ _ => split end;
      try assumption; try lia.
    apply Forall_insert_byte; assumption.
  - (* key on / key off *)
    unfold write_slot in Hw.
    rewrite upd_Some in Hw by (rewrite Hlen; lia).
    cbn [mbind option_bind] in Hw.
    assert (Hb : Forall (fun b => 0 <= b < 256)
                   (<[Z.to_nat 4 := data]> (Slot.m_regs slot)))
      by (apply Forall_insert_byte; assumption).
    destruct (Z.land data 128 =? 0).
    + cbn [Slot.m_playing Slot.set_regs] in Hw.
      destruct (Slot.m_playing slot);
        [destruct (_ =? 15)|]; injection Hw as <-;
        unfold voice_ok, slot_wf, ramp_wf; simpl;
        rewrite length_insert, !(reg_insert_ne _ 4) by discriminate;
        repeat match goal with |- _ /\ _ => split end;
        try assumption; try lia.
    + apply (retrigger_voice_ok _ _) in Hw; [exact Hw|simpl..];
        rewrite ?length_insert, ?(reg_insert_ne _ 4) by discriminate;
        assumption.
  - (* total level *)
    destruct (write_slot_total_level TL_SHIFT EG_SHIFT rom T down up
                TL_range EG_range steps_ok slot data
                (conj Hlen (conj Hpan (conj Htl (conj Henv (conj Hpl Hal)))))
                Hdata)
      as (slot1 & Hw1 & Hwf1 & Hramp1 & _).
    pose proof (write_slot_regs _ _ _ _ Hlen Hw ltac:(lia)) as Hregs.
    rewrite Hw in Hw1. injection Hw1 as <-.
    split; [exact Hwf1|]. split; [exact Hramp1|].
    rewrite Hregs. apply Forall_insert_byte; assumption.
  - (* LFO frequency and vibrato depth *)
    unfold write_slot in Hw.
    rewrite write_slot_lfo_spec in Hw by (first [exact Hlen|lia]).
    injection Hw as <-.
    pose proof (fun l f x b =>
                  lfo_compute_step_wf T l f (Z.land x 7) b tables_ok
                    (land_7_range x)) as Hlfo.
    destruct (Z.eqb_spec data 0) as [E|E];
      unfold voice_ok, slot_wf, ramp_wf; simpl;
      rewrite length_insert, ?(reg_insert_ne _ 6 7) by discriminate;
      rewrite (reg_insert_eq _ 6) by (rewrite Hlen; lia);
      (repeat match goal with |- _ /\ _ => split end);
      try assumption; try lia;
      try (apply Forall_insert_byte; assumption);
      try (intros _; first [apply (Hlfo _ _ _ false)|apply (Hlfo _ _ _ true)]).
    subst data. intros Hn. exfalso. apply Hn. reflexivity.
  - (* tremolo depth *)
    unfold write_slot in Hw.
    rewrite write_slot_lfo_spec in Hw by (first [exact Hlen|lia]).
    injection Hw as <-.
    pose proof (fun l f x b =>
                  lfo_compute_step_wf T l f (Z.land x 7) b tables_ok
                    (land_7_range x)) as Hlfo.
    destruct (Z.eqb_spec data 0) as [E|E];
      unfold voice_ok, slot_wf, ramp_wf; simpl;
      rewrite length_insert, ?(reg_insert_ne _ 7 6) by discriminate;
      rewrite (reg_insert_eq _ 7) by (rewrite Hlen; lia);
      (repeat match goal with |- _ /\ _ => split end);
      try assumption; try lia;
      try (apply Forall_insert_byte; assumption);
      try (intros _; first [apply (Hlfo _ _ _ false)|apply (Hlfo _ _ _ true)]).
    subst data. intros Hn. exfalso. apply Hn. reflexivity.
Qed.

Lemma tick_voice_ok (slot : Slot.t) :
  voice_ok TL_SHIFT EG_SHIFT down up slot ->
  exists slot',
    tick TL_SHIFT EG_SHIFT LFO_SHIFT rom T slot = Some slot'
    /\ voice_ok TL_SHIFT EG_SHIFT down up slot'.
Proof using TL_range EG_range tables_ok steps_ok.
  intros (Hwf & Hramp & Hbytes).
  destruct tables_ok as (Htabs & _).
  destruct (tick_wf TL_SHIFT EG_SHIFT LFO_SHIFT rom T down up TL_range
              EG_range Htabs steps_ok slot Hwf Hramp)
    as (slot' & Ht & Hwf' & Hramp' & _).
  exists slot'. split; [exact Ht|].
  split; [exact Hwf'|]. split; [exact Hramp'|].
  unfold tick in Ht. destruct (Slot.m_playing slot).
  - destruct (update_slot_spec TL_SHIFT EG_SHIFT LFO_SHIFT rom T
                ltac:(lia) EG_range Htabs slot Hwf)
      as (step & phase & amp_phase & g' & p' & out & Hu & _).
    rewrite Hu in Ht. simpl in Ht. injection Ht as <-. exact Hbytes.
  - injection Ht as <-. exact Hbytes.
Qed.

Lemma ticks_all (slots : list Slot.t) :
  Forall (voice_ok TL_SHIFT EG_SHIFT down up) slots ->
  exists slots',
    Forall2 (fun s s' => tick TL_SHIFT EG_SHIFT LFO_SHIFT rom T s = Some s')
      slots slots'
    /\ Forall (voice_ok TL_SHIFT EG_SHIFT down up) slots'.
Proof using TL_range EG_range tables_ok steps_ok.
  induction 1 as [|s slots Hs _ (slots' & H2 & Hall)].
  - exists []. split; constructor.
  - destruct (tick_voice_ok s Hs) as (s' & Ht & Hs').
    exists (s' :: slots'). split; constructor; assumption.
Qed.

Lemma VALUE_TO_CHANNEL_range (i c : Z) :
  idx VALUE_TO_CHANNEL i = Some c -> -1 <= c < 28.
Proof using Type.
  unfold idx. destruct (0 <=? i); [|discriminate]. intros Hl.
  assert (Hall : Forall (fun c => -1 <= c < 28) VALUE_TO_CHANNEL)
    by (unfold VALUE_TO_CHANNEL; repeat constructor; lia).
  exact (proj1 (Forall_lookup _ _) Hall _ _ Hl).
Qed.

(** X6 ([write], [write_slot]): every write of a byte that succeeds, at any
    offset, keeps the device well formed: 28 voices, each one well formed
    with byte registers and a total level on its way to the destination, a
    current slot from -1 to 27 and an address from 0 to 7. *)
Theorem write_keeps_device_ok (d d' : device) (offset data : Z) :
  device_ok TL_SHIFT EG_SHIFT down up d ->
  0 <= data < 256 ->
  write TL_SHIFT rom T d offset data = Some d' ->
  device_ok TL_SHIFT EG_SHIFT down up d'.
Proof using TL_range EG_range tables_ok steps_ok.
  intros (Hlen & Hall & Hcur & Haddr) Hdata Hw.
  assert (Hcase : offset = 0 \/ offset = 1 \/ offset = 2
                  \/ offset < 0 \/ 2 < offset) by lia.
  destruct Hcase as [->|[->|[->|Hother]]].
  - unfold write in Hw.
    destruct (idx (m_slots d) (m_cur_slot d)) as [slot|] eqn:Hi;
      [|discriminate].
    cbn [mbind option_bind] in Hw.
    destruct (write_slot TL_SHIFT rom T slot (m_address d) data)
      as [slot'|] eqn:Hws; [|discriminate].
    cbn [mbind option_bind] in Hw.
    pose proof (idx_inv _ _ _ Hi) as Hr.
    rewrite (upd_Some (m_slots d) (m_cur_slot d) slot' Hr) in Hw.
    injection Hw as <-.
    assert (Hslot : voice_ok TL_SHIFT EG_SHIFT down up slot).
    { unfold idx in Hi. destruct (0 <=? m_cur_slot d); [|discriminate].
      exact (proj1 (Forall_lookup _ _) Hall _ _ Hi). }
    unfold device_ok. simpl. rewrite length_insert.
    split; [exact Hlen|]. split; [|lia].
    apply Forall_insert; [exact Hall|].
    exact (write_slot_voice_ok _ _ _ _ Hslot Hdata Hws).
  - unfold write in Hw.
    destruct (idx VALUE_TO_CHANNEL (Z.land data 31)) as [c|] eqn:Hc;
      [|discriminate].
    injection Hw as <-. apply VALUE_TO_CHANNEL_range in Hc.
    unfold device_ok. simpl. auto.
  - unfold write in Hw. injection Hw as <-.
    unfold device_ok. simpl.
    split; [exact Hlen|]. split; [exact Hall|]. split; [exact Hcur|].
    destruct (Z.gtb_spec data 7); lia.
  - assert (Hsame : write TL_SHIFT rom T d offset data = Some d).
    { destruct offset as [|p|p]; [lia| |reflexivity].
      destruct p as [[q|q|]|[q|q|]|]; try lia; reflexivity. }
    rewrite Hsame in Hw. injection Hw as <-.
    repeat split; assumption || lia.
Qed.

(** X8 ([sound_stream_update]): on a well-formed device, rendering any
    number [n] of samples succeeds (no table, register image or slot array
    is read outside its bounds), leaves a well-formed device and produces
    [n] output pairs. *)
Theorem sound_stream_update_total (n : nat) (d : device) :
  device_ok TL_SHIFT EG_SHIFT down up d ->
  exists d' out,
    sound_stream_update TL_SHIFT EG_SHIFT LFO_SHIFT rom T n d = Some (d', out)
    /\ device_ok TL_SHIFT EG_SHIFT down up d'
    /\ length out = n.
Proof using TL_range EG_range tables_ok steps_ok.
  revert d. induction n as [|n IH]; intros d Hd.
  - exists d, []. repeat split; try reflexivity; apply Hd.
  - destruct Hd as (Hlen & Hall & Hcur & Haddr).
    destruct (ticks_all _ Hall) as (slots' & H2 & Hall').
    destruct (proj2 (update_slots_tick TL_SHIFT EG_SHIFT LFO_SHIFT rom T
                       (m_slots d) slots' 0 0) H2) as ([l r] & Hu).
    assert (Hd1 : device_ok TL_SHIFT EG_SHIFT down up
                    {| m_slots := slots'; m_cur_slot := m_cur_slot d;
                       m_address := m_address d |}).
    { unfold device_ok. simpl.
      rewrite <- (Forall2_length _ _ _ H2). auto. }
    destruct (IH _ Hd1) as (d' & out & Hs & Hd' & Hout).
    exists d', ((put_int_clamp l, put_int_clamp r) :: out).
    simpl. rewrite Hu. simpl. rewrite Hs. simpl.
    split; [reflexivity|]. split; [exact Hd'|]. rewrite Hout. reflexivity.
Qed.

End DeviceInvariant.

Section RegisterWrites.

Variable TL_SHIFT : Z.
Variable rom : Z -> Z.
Variable T : tables.

(** X3 ([write_slot]): a slot write that succeeds has a sub-register from 0
    to 7 and stores the byte in the register image at that index.  Only a
    write to sub-register 1 changes other entries: it also loads entries 6
    and 7 with the vibrato and tremolo bytes of the sample it selects. *)
Theorem write_slot_register_image (slot slot' : Slot.t) (r data : Z) :
  length (Slot.m_regs slot) = 8%nat ->
  write_slot TL_SHIFT rom T slot r data = Some slot' ->
  0 <= r < 8
  /\ Slot.m_regs slot'
     = if r =? 1
       then <[7%nat := Sample.m_lfo_amplitude_reg (Slot.m_sample slot')]>
              (<[6%nat := Sample.m_lfo_vibrato_reg (Slot.m_sample slot')]>
                 (<[1%nat := data]> (Slot.m_regs slot)))
       else <[Z.to_nat r := data]> (Slot.m_regs slot).
Proof.
  intros Hlen Hw.
  pose proof (write_slot_in_range _ _ _ _ _ _ _ Hlen Hw) as Hr.
  split; [lia|].
  destruct (Z.eqb_spec r 1) as [->|Hne];
    [|exact (write_slot_regs _ _ _ _ _ _ _ Hlen Hw Hne)].
  destruct (write_slot_1_spec TL_SHIFT rom T slot data Hlen)
    as (loaded & Hregs & Hsmp & _ & _ & _ & _ & _ & _ & _ & _ & _ & _ & _ & _
        & _ & _ & _ & _ & Heq).
  rewrite Heq in Hw. destruct (Slot.m_playing slot).
  - destruct (retrigger_sample_spec _ _ _ _ Hw)
      as (ar & d1r & d2r & rr & _ & _ & _ & _ & ->).
    cbn [Slot.m_regs Slot.m_sample]. rewrite Hregs, Hsmp. reflexivity.
  - injection Hw as <-. rewrite Hregs, Hsmp. reflexivity.
Qed.

(** X4 ([write_slot], case 1, with [init_sample] and [retrigger_sample]): a
    write to sub-register 1 loads the sample descriptor whose index is the
    byte with bit 0 of register 2 as its ninth bit, and takes base and
    format from it; the key state, the step, the pan and the destination
    level are kept.  On a voice that is not playing the position, the
    previous sample, the level and the envelope are kept as well; on a
    playing voice the sample is retriggered: position and previous sample
    0, the level at its destination, the envelope in [ATTACK] at volume
    0. *)
Theorem write_slot_sample_select (slot slot' : Slot.t) (data : Z) :
  length (Slot.m_regs slot) = 8%nat ->
  write_slot TL_SHIFT rom T slot 1 data = Some slot' ->
  let smp := init_sample rom
               (Z.lor data (Z.shiftl (Z.land (reg (Slot.m_regs slot) 2) 1) 8)) in
  Slot.m_sample slot' = smp
  /\ Slot.m_base slot' = Sample.m_start smp
  /\ Slot.m_format slot' = Sample.m_format smp
  /\ Slot.m_playing slot' = Slot.m_playing slot
  /\ Slot.m_step slot' = Slot.m_step slot
  /\ Slot.m_pan slot' = Slot.m_pan slot
  /\ Slot.m_dest_total_level slot' = Slot.m_dest_total_level slot
  /\ (Slot.m_playing slot = false ->
      Slot.m_offset slot' = Slot.m_offset slot
      /\ Slot.m_prev_sample slot' = Slot.m_prev_sample slot
      /\ Slot.m_total_level slot' = Slot.m_total_level slot
      /\ Slot.m_envelope_gen slot' = Slot.m_envelope_gen slot)
  /\ (Slot.m_playing slot = true ->
      Slot.m_offset slot' = 0
      /\ Slot.m_prev_sample slot' = 0
      /\ Slot.m_total_level slot'
         = u32 (Z.shiftl (Slot.m_dest_total_level slot) TL_SHIFT)
      /\ EnvGen.m_state (Slot.m_envelope_gen slot') = ATTACK
      /\ EnvGen.m_volume (Slot.m_envelope_gen slot') = 0).
Proof.
  intros Hlen Hw.
  destruct (write_slot_1_spec TL_SHIFT rom T slot data Hlen)
    as (loaded & Hregs & Hsmp & Hbase & Hfmt & Hplay & Hoff & Hstep & Hpan
        & Htl & Hdest & Htls & Hprev & Henv & _ & _ & _ & _ & _ & Heq).
  cbv zeta in *. rewrite Heq in Hw.
  destruct (Slot.m_playing slot) eqn:Hp.
  - destruct (retrigger_sample_spec _ _ _ _ Hw)
      as (ar & d1r & d2r & rr & _ & _ & _ & _ & ->).
    simpl. rewrite Hdest.
    repeat match goal with |- _ /\ _ => split end;
      try assumption; try reflexivity; try (intros; discriminate).
    intros _. repeat split; reflexivity.
  - injection Hw as <-.
    repeat match goal with |- _ /\ _ => split end;
      try assumption; try reflexivity; try (intros; discriminate).
    intros _. auto.
Qed.

(** X5 ([write_slot]): which sub-register can change which field.  The pan
    changes only on 0; sample, base and format only on 1; the step only on
    2 and 3; the key state only on 4; the destination level and its step
    only on 5; position, previous sample and envelope only on 1 and 4; the
    current total level only on 1, 4 and 5; the configuration of the two
    LFOs only on 1, 6 and 7; and no write changes the phase of an LFO. *)
Theorem write_slot_frame (slot slot' : Slot.t) (r data : Z) :
  length (Slot.m_regs slot) = 8%nat ->
  write_slot TL_SHIFT rom T slot r data = Some slot' ->
  (r <> 0 -> Slot.m_pan slot' = Slot.m_pan slot)
  /\ (r <> 1 ->
      Slot.m_sample slot' = Slot.m_sample slot
      /\ Slot.m_base slot' = Slot.m_base slot
      /\ Slot.m_format slot' = Slot.m_format slot)
  /\ (r <> 2 -> r <> 3 -> Slot.m_step slot' = Slot.m_step slot)
  /\ (r <> 4 -> Slot.m_playing slot' = Slot.m_playing slot)
  /\ (r <> 5 ->
      Slot.m_dest_total_level slot' = Slot.m_dest_total_level slot
      /\ Slot.m_total_level_step slot' = Slot.m_total_level_step slot)
  /\ (r <> 1 -> r <> 4 ->
      Slot.m_offset slot' = Slot.m_offset slot
      /\ Slot.m_prev_sample slot' = Slot.m_prev_sample slot
      /\ Slot.m_envelope_gen slot' = Slot.m_envelope_gen slot)
  /\ (r <> 1 -> r <> 4 -> r <> 5 ->
      Slot.m_total_level slot' = Slot.m_total_level slot)
  /\ (r <> 1 -> r <> 6 -> r <> 7 ->
      Slot.m_pitch_lfo slot' = Slot.m_pitch_lfo slot
      /\ Slot.m_amplitude_lfo slot' = Slot.m_amplitude_lfo slot)
  /\ Lfo.m_phase (Slot.m_pitch_lfo slot') = Lfo.m_phase (Slot.m_pitch_lfo slot)
  /\ Lfo.m_phase (Slot.m_amplitude_lfo slot')
     = Lfo.m_phase (Slot.m_amplitude_lfo slot).
Proof.
  intros Hlen Hw.
  destruct (write_slot_in_range _ _ _ _ _ _ _ Hlen Hw)
    as [->|[->|[->|[->|[->|[->|[->| ->]]]]]]];
    try (unfold write_slot in Hw;
         rewrite write_slot_lfo_spec in Hw by (first [exact Hlen|lia]);
         injection Hw as <-; destruct (data =? 0);
         repeat split; intros; reflexivity || lia).
  - unfold write_slot in Hw.
    rewrite upd_Some in Hw by (rewrite Hlen; lia).
    injection Hw as <-. repeat split; intros; reflexivity || lia.
  - destruct (write_slot_1_spec TL_SHIFT rom T slot data Hlen)
      as (loaded & Hregs & Hsmp & Hbase & Hfmt & Hplay & Hoff & Hstep & Hpan
          & Htl & Hdest & Htls & Hprev & Henv & Hpp & Hpa & _ & _ & _ & Heq).
    rewrite Heq in Hw.
    assert (Hfields :
      Slot.m_pan slot' = Slot.m_pan loaded
      /\ Slot.m_step slot' = Slot.m_step loaded
      /\ Slot.m_playing slot' = Slot.m_playing loaded
      /\ Slot.m_dest_total_level slot' = Slot.m_dest_total_level loaded
      /\ Slot.m_total_level_step slot' = Slot.m_total_level_step loaded
      /\ Slot.m_pitch_lfo slot' = Slot.m_pitch_lfo loaded
      /\ Slot.m_amplitude_lfo slot' = Slot.m_amplitude_lfo loaded).
    { destruct (Slot.m_playing slot).
      - destruct (retrigger_sample_spec _ _ _ _ Hw)
          as (ar & d1r & d2r & rr & _ & _ & _ & _ & ->).
        repeat split; reflexivity.
      - injection Hw as <-. repeat split; reflexivity. }
    destruct Hfields as (F1 & F2 & F3 & F4 & F5 & F6 & F7).
    rewrite F1, F2, F3, F4, F5, F6, F7.
    repeat split; intros; try lia; congruence.
  - unfold write_slot in Hw.
    rewrite upd_Some in Hw by (rewrite Hlen; lia).
    cbn [mbind option_bind] in Hw.
    destruct (idx (m_freq_step_table T) _); [|discriminate].
    cbn [mbind option_bind] in Hw.
    destruct (pitch_by_rate T _); [|discriminate].
    injection Hw as <-. repeat split; intros; reflexivity || lia.
  - unfold write_slot in Hw.
    rewrite upd_Some in Hw by (rewrite Hlen; lia).
    cbn [mbind option_bind] in Hw.
    destruct (idx (m_freq_step_table T) _); [|discriminate].
    cbn [mbind option_bind] in Hw.
    destruct (pitch_by_rate T _); [|discriminate].
    injection Hw as <-. repeat split; intros; reflexivity || lia.
  - unfold write_slot in Hw.
    rewrite upd_Some in Hw by (rewrite Hlen; lia).
    cbn [mbind option_bind] in Hw.
    destruct (Z.land data 128 =? 0).
    + cbn [Slot.m_playing Slot.set_regs] in Hw.
      destruct (Slot.m_playing slot);
        [destruct (_ =? 15)|]; injection Hw as <-;
        repeat split; intros; reflexivity || lia.
    + destruct (retrigger_sample_spec _ _ _ _ Hw)
        as (ar & d1r & d2r & rr & _ & _ & _ & _ & ->).
      repeat split; intros; reflexivity || lia.
  - unfold write_slot in Hw.
    rewrite upd_Some in Hw by (rewrite Hlen; lia).
    cbn [mbind option_bind] in Hw.
    destruct (Z.land data 1 =? 0).
    + destruct (_ >? _);
        (destruct (idx (m_total_level_steps T) _); [|discriminate]);
        injection Hw as <-; repeat split; intros; reflexivity || lia.
    + injection Hw as <-. repeat split; intros; reflexivity || lia.
Qed.

End RegisterWrites.

(** ** When a data write is defined *)

Lemma rates_in_table_ext (s1 s2 : Slot.t) :
  reg (Slot.m_regs s1) 3 = reg (Slot.m_regs s2) 3 ->
  Slot.m_sample s1 = Slot.m_sample s2 ->
  rates_in_table s1 <-> rates_in_table s2.
Proof.
  intros Hr Hs. unfold rates_in_table, calc_rate. rewrite Hr, Hs. reflexivity.
Qed.

Lemma retrigger_defined (TL_SHIFT : Z) (T : tables) (slot : Slot.t) :
  length (m_attack_step T) = 64%nat ->
  length (m_decay_release_step T) = 64%nat ->
  retrigger_sample TL_SHIFT T slot = None <-> ~ rates_in_table slot.
Proof.
  intros Ha Hd. split.
  - intros Hnone Hrates.
    destruct (envelope_generator_calc_Some T
                (Slot.set_total_level
                   (Slot.set_prev_sample (Slot.set_offset slot 0) 0)
                   (u32 (Z.shiftl (Slot.m_dest_total_level slot) TL_SHIFT)))
                Ha Hd Hrates)
      as (ar & d1r & d2r & rr & _ & _ & _ & _ & Hc).
    unfold retrigger_sample in Hnone. cbv zeta in Hnone.
    cbn [Slot.m_dest_total_level Slot.set_prev_sample Slot.set_offset]
      in Hnone.
    rewrite Hc in Hnone. discriminate.
  - intros Hn.
    destruct (retrigger_sample TL_SHIFT T slot) as [s'|] eqn:Hr;
      [|reflexivity].
    exfalso. apply Hn.
    destruct (retrigger_sample_spec _ _ _ _ Hr)
      as (ar & d1r & d2r & rr & H1 & H2 & H3 & H4 & _).
    unfold rates_in_table. cbv zeta in *.
    unfold get_rate in H1, H2, H3, H4.
    apply idx_inv in H1, H2, H3, H4. lia.
Qed.

(** C2, where the code departs from it: a key-on, a write to sub-register 4
    with the top bit set, has a defined result exactly when the four rate
    lookups of the voice stay inside their tables.  For a voice one of whose
    rate indices is negative (octave -8, key-rate-scale 0 and attack
    register 1 give the index 4 * 1 - 16 = -12) [retrigger_sample] reads
    before a step table, so the voice is not retriggered with its rates
    recomputed.  This is the defect of C3: [get_rate] clamps the index from
    above only. *)
Theorem write_slot_key_on_defined (TL_SHIFT : Z) (rom : Z -> Z) (T : tables)
    (slot : Slot.t) (data : Z) :
  length (Slot.m_regs slot) = 8%nat ->
  0 <= data < 256 ->
  length (m_attack_step T) = 64%nat ->
  length (m_decay_release_step T) = 64%nat ->
  Z.testbit data 7 = true ->
  write_slot TL_SHIFT rom T slot 4 data = None <-> ~ rates_in_table slot.
Proof.
  intros Hlen Hdata Hattack Hdecay Hbit.
  unfold write_slot. rewrite upd_Some by (rewrite Hlen; lia).
  cbn [mbind option_bind].
  rewrite (key_on_bit data Hdata), Hbit. cbn [negb].
  rewrite (retrigger_defined TL_SHIFT T _ Hattack Hdecay).
  rewrite (rates_in_table_ext _ slot);
    [reflexivity
    |cbn [Slot.m_regs Slot.set_playing Slot.set_regs];
     apply reg_insert_ne; discriminate
    |reflexivity].
Qed.

Lemma write_slot_key_on_defined_witness :
  exists d slot,
    write_all 12 rom_attack_1 example_tables device_init
      [(1, 0); (2, 1); (0, 0); (2, 3); (0, 0x90)] = Some d
    /\ idx (m_slots d) 0 = Some slot
    /\ get_rate_index (u32 (calc_rate slot))
         (Sample.m_attack_reg (Slot.m_sample slot)) = -12
    /\ write_slot 12 rom_attack_1 example_tables slot 4 0x80 = None.
Proof.
  eexists. eexists.
  split; [vm_compute; reflexivity|].
  split; [vm_compute; reflexivity|].
  split; [vm_compute; reflexivity|].
  match goal with
  | |- write_slot _ _ _ ?s _ _ = None =>
      apply (proj2 (write_slot_key_on_defined 12 rom_attack_1 example_tables
                      s 0x80 eq_refl ltac:(lia) eq_refl eq_refl eq_refl))
  end.
  unfold rates_in_table. vm_compute. intros (H & _). apply H. reflexivity.
Defined.

Section DataWrite.

Variables TL_SHIFT EG_SHIFT : Z.
Variable rom : Z -> Z.
Variable T : tables.
Variables down up : Z.
Hypothesis TL_range : 0 <= TL_SHIFT <= 24.
Hypothesis EG_range : 0 <= EG_SHIFT <= 20.
Hypothesis tables_ok : tables_ready T.
Hypothesis steps_ok : total_level_steps_ok TL_SHIFT T down up.

(** X7 ([write], [write_slot], [retrigger_sample], [get_rate]): on a
    well-formed device with a voice selected, a data write reads outside an
    array in exactly two cases: a key-on (sub-register 4 with bit 7 set) of
    a voice one of whose envelope rate indices is negative, and a sample
    select (sub-register 1) on a playing voice one of whose rate indices
    with the new sample is negative.  Every other data write succeeds. *)
Theorem write_data_defined (d : device) (data : Z) (slot : Slot.t) :
  device_ok TL_SHIFT EG_SHIFT down up d ->
  0 <= data < 256 ->
  idx (m_slots d) (m_cur_slot d) = Some slot ->
  let smp := init_sample rom
               (Z.lor data (Z.shiftl (Z.land (reg (Slot.m_regs slot) 2) 1) 8)) in
  write TL_SHIFT rom T d 0 data = None
  <-> (m_address d = 4 /\ Z.land data 0x80 <> 0 /\ ~ rates_in_table slot)
      \/ (m_address d = 1 /\ Slot.m_playing slot = true
          /\ ~ rates_in_table (Slot.set_sample slot smp)).
Proof using TL_range EG_range tables_ok steps_ok.
  intros (Hlen28 & Hall & Hcur & Haddr) Hdata Hi smp.
  assert (Hok : voice_ok TL_SHIFT EG_SHIFT down up slot).
  { unfold idx in Hi. destruct (0 <=? m_cur_slot d); [|discriminate].
    exact (proj1 (Forall_lookup _ _) Hall _ _ Hi). }
  pose proof Hok as ((Hlen & Hpan & Htl & Henv & Hpl & Hal) & Hramp & Hbytes).
  destruct tables_ok
    as ((Hattack & Hdecay & Hfreq & _)
        & _ & _ & _ & _ & _ & _ & _ & _ & _ & _ & Hrate & Hfreq32).
  assert (Hwrite : write TL_SHIFT rom T d 0 data = None
                   <-> write_slot TL_SHIFT rom T slot (m_address d) data = None).
  { unfold write. rewrite Hi. cbn [mbind option_bind].
    destruct (write_slot TL_SHIFT rom T slot (m_address d) data) as [s'|];
      cbn [mbind option_bind]; [|tauto].
    rewrite (upd_Some (m_slots d) (m_cur_slot d) s' (idx_inv _ _ _ Hi)).
    cbn [mbind option_bind]. split; discriminate. }
  rewrite Hwrite. clear Hwrite.
  assert (Hcase : m_address d = 0 \/ m_address d = 1 \/ m_address d = 2
                  \/ m_address d = 3 \/ m_address d = 4 \/ m_address d = 5
                  \/ m_address d = 6 \/ m_address d = 7) by lia.
  assert (Hpitch : forall regs,
            Forall (fun b => 0 <= b < 256) regs ->
            exists p step,
              idx (m_freq_step_table T)
                (Z.lor (Z.shiftl (Z.land (reg regs 3) 15) 6)
                       (Z.shiftr (reg regs 2) 2)) = Some p
              /\ pitch_by_rate T
                   (pitch_shift (u32 (Z.land (Z.shiftr (reg regs 3) 4 - 1) 15))
                      p) = Some step).
  { intros regs Hb.
    pose proof (reg_byte regs 3 Hb) as H3.
    pose proof (reg_byte regs 2 Hb) as H2.
    destruct (idx_Some (m_freq_step_table T)
                (Z.lor (Z.shiftl (Z.land (reg regs 3) 15) 6)
                       (Z.shiftr (reg regs 2) 2))) as [p Hp].
    { rewrite Hfreq, (pitch_code_spec _ _ H3 H2).
      pose proof (pitch_code_range _ _ H3 H2). lia. }
    assert (Hp32 : 0 <= p < 2 ^ 32).
    { unfold idx in Hp. destruct (0 <=? _); [|discriminate].
      exact (proj1 (Forall_lookup _ _) Hfreq32 _ _ Hp). }
    destruct (pitch_by_rate_defined
                (pitch_shift (u32 (Z.land (Z.shiftr (reg regs 3) 4 - 1) 15)) p)
                (m_rate T)) as (step & Hstep & _); [|exact Hrate|].
    { pose proof (land_15_range (Z.shiftr (reg regs 3) 4 - 1)) as Ho.
      rewrite u32_small by lia. unfold pitch_shift.
      destruct (Z.land _ 8 =? 0).
      - unfold u32. apply Z.mod_pos_bound. lia.
      - rewrite Z.shiftr_div_pow2 by lia.
        assert (Hpow : 1 <= 2 ^ (16 - Z.land (Z.shiftr (reg regs 3) 4 - 1) 15))
          by (pose proof (pow2_pos (16 - Z.land (Z.shiftr (reg regs 3) 4 - 1) 15)
                            ltac:(lia)); lia).
        split; [apply Z.div_pos; lia|].
        apply Z.div_lt_upper_bound; [lia|].
        apply Z.lt_le_trans with (1 * 2 ^ 32); [lia|].
        apply Z.mul_le_mono_nonneg_r; lia. }
    exists p, step. split; [exact Hp|exact Hstep]. }
  destruct Hcase as [E|[E|[E|[E|[E|[E|[E|E]]]]]]]; rewrite E.
  - unfold write_slot. rewrite upd_Some by (rewrite Hlen; lia).
    cbn [mbind option_bind]. split; [discriminate|]. intros [H|H]; lia.
  - destruct (write_slot_1_spec TL_SHIFT rom T slot data Hlen)
      as (loaded & Hregs & Hsmp & _ & _ & _ & _ & _ & _ & _ & _ & _ & _ & _
          & _ & _ & _ & _ & _ & Heq).
    rewrite Heq. fold smp in Hsmp.
    assert (Hext : rates_in_table loaded
                   <-> rates_in_table (Slot.set_sample slot smp)).
    { apply rates_in_table_ext; [|exact Hsmp].
      rewrite Hregs, !(reg_insert_ne _ _ 3) by discriminate. reflexivity. }
    destruct (Slot.m_playing slot).
    + rewrite (retrigger_defined TL_SHIFT T loaded Hattack Hdecay), Hext.
      split; [intros Hn; right; auto|].
      intros [H|H]; [lia|tauto].
    + split; [discriminate|]. intros [H|(_ & H & _)]; [lia|discriminate].
  - unfold write_slot. rewrite upd_Some by (rewrite Hlen; lia).
    cbn [mbind option_bind].
    destruct (Hpitch (<[Z.to_nat 2 := data]> (Slot.m_regs slot)))
      as (p & step & Hp & Hstep); [apply Forall_insert_byte; assumption|].
    rewrite Hp. cbn [mbind option_bind]. rewrite Hstep.
    cbn [mbind option_bind].
    split; [discriminate|]. intros [H|H]; lia.
  - unfold write_slot. rewrite upd_Some by (rewrite Hlen; lia).
    cbn [mbind option_bind].
    destruct (Hpitch (<[Z.to_nat 3 := data]> (Slot.m_regs slot)))
      as (p & step & Hp & Hstep); [apply Forall_insert_byte; assumption|].
    rewrite Hp. cbn [mbind option_bind]. rewrite Hstep.
    cbn [mbind option_bind].
    split; [discriminate|]. intros [H|H]; lia.
  - unfold write_slot. rewrite upd_Some by (rewrite Hlen; lia).
    cbn [mbind option_bind].
    destruct (Z.eqb_spec (Z.land data 128) 0) as [Ek|Ek].
    + cbn [Slot.m_playing Slot.set_regs].
      split; [|intros [H|H]; lia].
      destruct (Slot.m_playing slot); [destruct (_ =? 15)|]; discriminate.
    + rewrite (retrigger_defined TL_SHIFT T _ Hattack Hdecay).
      rewrite (rates_in_table_ext _ slot);
        [|cbn [Slot.m_regs Slot.set_playing Slot.set_regs];
          apply reg_insert_ne; discriminate|reflexivity].
      split; [intros Hn; left; auto|]. intros [H|H]; [tauto|lia].
  - destruct (write_slot_total_level TL_SHIFT EG_SHIFT rom T down up
                TL_range EG_range steps_ok slot data
                (conj Hlen (conj Hpan (conj Htl (conj Henv (conj Hpl Hal)))))
                Hdata) as (slot1 & Hw1 & _).
    rewrite Hw1. split; [discriminate|]. intros [H|H]; lia.
  - unfold write_slot. rewrite write_slot_lfo_spec by (first [exact Hlen|lia]).
    split; [discriminate|]. intros [H|H]; lia.
  - unfold write_slot. rewrite write_slot_lfo_spec by (first [exact Hlen|lia]).
    split; [discriminate|]. intros [H|H]; lia.
Qed.

End DataWrite.

(** ** Stream updates *)

Section StreamUpdates.

Variables TL_SHIFT EG_SHIFT LFO_SHIFT : Z.
Variable rom : Z -> Z.
Variable T : tables.

Lemma ticks_stopped (n : nat) (slot : Slot.t) :
  Slot.m_playing slot = false ->
  ticks TL_SHIFT EG_SHIFT LFO_SHIFT rom T n slot = Some slot.
Proof.
  intros Hp. induction n as [|n IH]; [reflexivity|].
  simpl. unfold tick at 1. rewrite Hp. exact IH.
Qed.

(** X9 ([sound_stream_update]): rendering [n + m] samples is rendering [n]
    samples and then [m] from the state the first update left: the same
    final state, the outputs one after the other, and a failure exactly
    when one of the two updates fails. *)
Theorem sound_stream_update_split (n m : nat) (d : device) :
  sound_stream_update TL_SHIFT EG_SHIFT LFO_SHIFT rom T (n + m) d
  = '(d1, out1) ← sound_stream_update TL_SHIFT EG_SHIFT LFO_SHIFT rom T n d;
    '(d2, out2) ← sound_stream_update TL_SHIFT EG_SHIFT LFO_SHIFT rom T m d1;
    Some (d2, out1 ++ out2).
Proof.
  revert d. induction n as [|n IH]; intros d.
  - simpl.
    destruct (sound_stream_update _ _ _ _ _ m d) as [[d2 out2]|]; reflexivity.
  - simpl.
    destruct (update_slots _ _ _ _ _ (m_slots d) 0 0) as [[slots [l r]]|];
      [|reflexivity].
    simpl. rewrite IH.
    destruct (sound_stream_update _ _ _ _ _ n _) as [[d1 out1]|];
      [|reflexivity].
    simpl.
    destruct (sound_stream_update _ _ _ _ _ m d1) as [[d2 out2]|]; reflexivity.
Qed.

Lemma update_slots_stopped (slots : list Slot.t) :
  Forall (fun s => Slot.m_playing s = false) slots ->
  update_slots TL_SHIFT EG_SHIFT LFO_SHIFT rom T slots 0 0
  = Some (slots, (0, 0)).
Proof.
  induction 1 as [|s slots Hs _ IH]; [reflexivity|].
  simpl. rewrite Hs. simpl. change (s32 (0 + 0)) with 0.
  rewrite IH. reflexivity.
Qed.

(** X10 ([sound_stream_update]): when no voice is playing, rendering [n]
    samples leaves the device as it is and outputs [n] pairs (0, 0),
    whatever the tables and the ROM hold. *)
Theorem sound_stream_update_silence (n : nat) (d : device) :
  Forall (fun s => Slot.m_playing s = false) (m_slots d) ->
  sound_stream_update TL_SHIFT EG_SHIFT LFO_SHIFT rom T n d
  = Some (d, repeat (0, 0) n).
Proof.
  intros Hall. destruct d as [slots cur addr]. simpl in Hall.
  induction n as [|n IH]; [reflexivity|].
  simpl. rewrite (update_slots_stopped slots Hall). simpl.
  rewrite IH. reflexivity.
Qed.

(** X11 ([sound_stream_update]): a voice that is not playing is left
    exactly as it is by a stream update: it does not restart, and neither
    its position, its levels, its envelope nor its LFOs advance. *)
Theorem sound_stream_update_stopped_voice (n : nat) (d d' : device)
    (out : list (Z * Z)) (i : Z) (slot : Slot.t) :
  sound_stream_update TL_SHIFT EG_SHIFT LFO_SHIFT rom T n d = Some (d', out) ->
  idx (m_slots d) i = Some slot ->
  Slot.m_playing slot = false ->
  idx (m_slots d') i = Some slot.
Proof.
  intros Hs Hi Hp.
  destruct (sound_stream_update_ticks _ _ _ _ _ _ _ _ _ Hs) as (H2 & _).
  unfold idx in *. destruct (0 <=? i); [|discriminate].
  destruct (Forall2_lookup_l _ _ _ _ _ H2 Hi) as (s' & Hl' & Ht).
  rewrite (ticks_stopped n slot Hp) in Ht. injection Ht as <-. exact Hl'.
Qed.

Lemma Forall2_ticks_S (n : nat) (slots slots' : list Slot.t) :
  Forall2 (fun s s' =>
             ticks TL_SHIFT EG_SHIFT LFO_SHIFT rom T (S n) s = Some s')
    slots slots' ->
  exists mids,
    Forall2 (fun s s' => tick TL_SHIFT EG_SHIFT LFO_SHIFT rom T s = Some s')
      slots mids
    /\ Forall2 (fun s s' =>
                  ticks TL_SHIFT EG_SHIFT LFO_SHIFT rom T n s = Some s')
         mids slots'.
Proof.
  induction 1 as [|s s' slots slots' Hs _ (mids & H1 & H2)].
  - exists []. split; constructor.
  - simpl in Hs.
    destruct (tick TL_SHIFT EG_SHIFT LFO_SHIFT rom T s) as [m|] eqn:Hm;
      [|discriminate].
    simpl in Hs. exists (m :: mids). split; constructor; assumption.
Qed.

(** X12 ([sound_stream_update]): a stream update of [n] samples leads to
    the device [d'] exactly when every voice of [d'] is the voice of [d] at
    the same place stepped [n] times on its own, and the current slot and
    the address are those of [d].  The voices do not influence one another,
    and the sample loop around the voice loop gives what a voice loop around
    the sample loop would give. *)
Theorem sound_stream_update_voices (n : nat) (d d' : device) :
  (exists out,
     sound_stream_update TL_SHIFT EG_SHIFT LFO_SHIFT rom T n d
     = Some (d', out))
  <-> Forall2 (fun s s' =>
                 ticks TL_SHIFT EG_SHIFT LFO_SHIFT rom T n s = Some s')
        (m_slots d) (m_slots d')
      /\ m_cur_slot d' = m_cur_slot d
      /\ m_address d' = m_address d.
Proof.
  split.
  - intros (out & Hs).
    destruct (sound_stream_update_ticks _ _ _ _ _ _ _ _ _ Hs) as (H & ? & ? & _).
    auto.
  - revert d. induction n as [|n IH]; intros d (H2 & Hc & Ha).
    + exists []. simpl. f_equal. f_equal.
      destruct d as [slots cur addr], d' as [slots' cur' addr'].
      simpl in *. subst. f_equal.
      apply list_eq_Forall2.
      eapply Forall2_impl; [exact H2|]. simpl. congruence.
    + destruct (Forall2_ticks_S _ _ _ H2) as (mids & H1 & Hn).
      destruct (proj2 (update_slots_tick TL_SHIFT EG_SHIFT LFO_SHIFT rom T
                         (m_slots d) mids 0 0) H1) as ([l r] & Hu).
      destruct (IH {| m_slots := mids; m_cur_slot := m_cur_slot d;
                      m_address := m_address d |}) as (out & Hs).
      { simpl. auto. }
      exists ((put_int_clamp l, put_int_clamp r) :: out).
      simpl. rewrite Hu. simpl. rewrite Hs. reflexivity.
Qed.

End StreamUpdates.

(** ** The envelope through its states *)

Section EnvelopeStates.

Variables TL_SHIFT EG_SHIFT : Z.
Variable T : tables.
Hypothesis EG_range : 0 <= EG_SHIFT <= 20.
Hypothesis exp_table : length (m_linear_to_exp_volume T) = 0x400%nat.

Lemma envelope_generator_update_after (slot : Slot.t) :
  envelope_wf EG_SHIFT (Slot.m_envelope_gen slot) ->
  let g := Slot.m_envelope_gen slot in
  let '(vol', st', p') := envelope_after EG_SHIFT g (Slot.m_playing slot) in
  exists gain,
    envelope_generator_update TL_SHIFT EG_SHIFT T slot
    = Some (Slot.set_playing
              (Slot.set_envelope_gen slot (set_volume (set_state g st') vol'))
              p', gain).
Proof using EG_range exp_table.
  intros Hwf.
  destruct slot as [regs pl base off st pan tl dtl tls ps smp g pl1 al fmt].
  destruct g as [vol state stp ar d1 d2 rr dl].
  unfold envelope_wf in *. simpl in Hwf.
  destruct Hwf as (Hv & Har & Hd1 & Hd2 & Hrr).
  pose proof (pow2_le_20 EG_SHIFT EG_range) as Hp.
  assert (HM : 0 <= Z.shiftl 0x3ff EG_SHIFT < 2 ^ 30).
  { rewrite shiftl_mul by lia. change (2 ^ 30) with (1024 * 2 ^ 20). nia. }
  assert (Hgain : forall v, 0 <= v <= Z.shiftl 0x3ff EG_SHIFT ->
            exists gain, idx (m_linear_to_exp_volume T) (Z.shiftr v EG_SHIFT)
                         = Some gain).
  { intros v Hr. apply (volume_gain EG_SHIFT T v ltac:(lia) exp_table). lia. }
  unfold envelope_after, envelope_generator_update, store_volume, store_state,
    set_volume, set_state, Slot.set_envelope_gen, Slot.set_playing.
  simpl. destruct state; simpl.
  - rewrite s32_small by lia. rewrite Z.geb_leb.
    destruct (Z.leb_spec (Z.shiftl 0x3ff EG_SHIFT) (vol + ar)) as [E|E]; simpl.
    + rewrite Z.geb_leb.
      destruct (Hgain (Z.shiftl 0x3ff EG_SHIFT) ltac:(lia)) as [gain Hg].
      destruct (Z.shiftl 1024 EG_SHIFT <=? d1); simpl; rewrite Hg;
        exists gain; reflexivity.
    + destruct (Hgain (vol + ar) ltac:(lia)) as [gain Hg].
      rewrite Hg. exists gain. reflexivity.
  - rewrite s32_small by lia.
    destruct (Hgain (Z.max 0 (vol - d1)) ltac:(lia)) as [gain Hg].
    destruct (Z.leb_spec (vol - d1) 0) as [E|E]; simpl.
    + rewrite Z.max_l in * by lia.
      destruct (Z.shiftr 0 EG_SHIFT <=? Z.shiftl dl 6); simpl;
        rewrite Hg; exists gain; reflexivity.
    + rewrite Z.max_r in * by lia.
      destruct (Z.shiftr (vol - d1) EG_SHIFT <=? Z.shiftl dl 6); simpl;
        rewrite Hg; exists gain; reflexivity.
  - rewrite s32_small by lia.
    destruct (Hgain (Z.max 0 (vol - d2)) ltac:(lia)) as [gain Hg].
    destruct (Z.leb_spec (vol - d2) 0) as [E|E]; simpl.
    + rewrite Z.max_l in * by lia. rewrite Hg. exists gain. reflexivity.
    + rewrite Z.max_r in * by lia. rewrite Hg. exists gain. reflexivity.
  - rewrite s32_small by lia.
    destruct (Hgain (Z.max 0 (vol - rr)) ltac:(lia)) as [gain Hg].
    destruct (Z.leb_spec (vol - rr) 0) as [E|E]; simpl.
    + rewrite Z.max_l in * by lia. rewrite Hg. exists gain. reflexivity.
    + rewrite Z.max_r in * by lia. rewrite Hg. exists gain. reflexivity.
  - eexists. reflexivity.
Qed.

(** X13 ([envelope_generator_update]): on a well-formed envelope one step
    of the generator succeeds.  The state never goes back ([ATTACK], then
    [DECAY1], then [DECAY2]); [DECAY2], [RELEASE] and any other state are
    kept, and the generator never enters [RELEASE] by itself.  The volume
    does not fall in [ATTACK] and does not rise in any other state, and it
    stays between 0 and [0x3ff << EG_SHIFT]; the four rates and the decay
    level are not changed.  The playing flag is kept, except that a step in
    [RELEASE] that brings the volume to 0 clears it. *)
Theorem envelope_generator_update_states (slot : Slot.t) :
  envelope_wf EG_SHIFT (Slot.m_envelope_gen slot) ->
  exists slot' gain,
    envelope_generator_update TL_SHIFT EG_SHIFT T slot = Some (slot', gain)
    /\ let g := Slot.m_envelope_gen slot in
       let g' := Slot.m_envelope_gen slot' in
       let st := EnvGen.m_state g in
       let st' := EnvGen.m_state g' in
       state_rank st <= state_rank st'
       /\ (st = DECAY2 \/ st = RELEASE \/ st = OTHER -> st' = st)
       /\ (st' = RELEASE -> st = RELEASE)
       /\ (st = ATTACK -> EnvGen.m_volume g <= EnvGen.m_volume g')
       /\ (st <> ATTACK -> EnvGen.m_volume g' <= EnvGen.m_volume g)
       /\ 0 <= EnvGen.m_volume g' <= Z.shiftl 0x3ff EG_SHIFT
       /\ EnvGen.m_attack_rate g' = EnvGen.m_attack_rate g
       /\ EnvGen.m_decay1_rate g' = EnvGen.m_decay1_rate g
       /\ EnvGen.m_decay2_rate g' = EnvGen.m_decay2_rate g
       /\ EnvGen.m_release_rate g' = EnvGen.m_release_rate g
       /\ EnvGen.m_decay_level g' = EnvGen.m_decay_level g
       /\ (Slot.m_playing slot' = Slot.m_playing slot
           \/ (st = RELEASE /\ EnvGen.m_volume g' = 0
               /\ Slot.m_playing slot' = false)).
Proof using EG_range exp_table.
  intros Hwf.
  pose proof (envelope_generator_update_after slot Hwf) as Hstep.
  cbv zeta in Hstep.
  destruct Hwf as (Hv & Har & Hd1 & Hd2 & Hrr).
  pose proof (pow2_le_20 EG_SHIFT EG_range) as Hp.
  assert (HM : 0 <= Z.shiftl 0x3ff EG_SHIFT).
  { rewrite shiftl_mul by lia. lia. }
  unfold envelope_after in Hstep.
  destruct (EnvGen.m_state (Slot.m_envelope_gen slot)) eqn:Hst.
  - destruct (Z.leb_spec (Z.shiftl 0x3ff EG_SHIFT)
                (EnvGen.m_volume (Slot.m_envelope_gen slot)
                 + EnvGen.m_attack_rate (Slot.m_envelope_gen slot))) as [E|E];
      [destruct (Z.shiftl 1024 EG_SHIFT
                 <=? EnvGen.m_decay1_rate (Slot.m_envelope_gen slot))|];
      destruct Hstep as [gain ->]; do 2 eexists; (split; [reflexivity|]);
      simpl; rewrite Hst; simpl;
      repeat match goal with |- _ /\ _ => split end;
      try reflexivity; try lia; try (intros; discriminate);
      try (intros [?|[?|?]]; discriminate); try (left; reflexivity);
      try (intros; congruence).
  - destruct (Z.shiftr _ EG_SHIFT <=? _);
      destruct Hstep as [gain ->]; do 2 eexists; (split; [reflexivity|]);
      simpl; rewrite Hst; simpl;
      repeat match goal with |- _ /\ _ => split end;
      try reflexivity; try lia; try (intros; discriminate);
      try (intros [?|[?|?]]; discriminate); try (left; reflexivity);
      try (intros; congruence).
  - destruct Hstep as [gain ->]; do 2 eexists; (split; [reflexivity|]);
      simpl; rewrite Hst; simpl;
      repeat match goal with |- _ /\ _ => split end;
      try reflexivity; try lia; try (intros; discriminate);
      try (left; reflexivity); try (intros; congruence).
  - destruct (Z.leb_spec (EnvGen.m_volume (Slot.m_envelope_gen slot)
                          - EnvGen.m_release_rate (Slot.m_envelope_gen slot)) 0)
      as [E|E];
      destruct Hstep as [gain ->]; do 2 eexists; (split; [reflexivity|]);
      simpl; rewrite Hst; simpl;
      repeat match goal with |- _ /\ _ => split end;
      try reflexivity; try lia; try (intros; discriminate);
      try (intros; congruence);
      first [left; reflexivity|right; repeat split; lia].
  - destruct Hstep as [gain ->]; do 2 eexists; (split; [reflexivity|]);
      simpl; rewrite Hst; simpl;
      repeat match goal with |- _ /\ _ => split end;
      try reflexivity; try lia; try (intros; discriminate);
      try (left; reflexivity); try (intros; congruence).
Qed.

End EnvelopeStates.

(** ** The envelope of a rendered voice *)

Lemma update_slot_envelope (TL_SHIFT EG_SHIFT LFO_SHIFT : Z) (rom : Z -> Z)
    (T : tables) (slot slot' : Slot.t) (out : Z * Z) :
  update_slot TL_SHIFT EG_SHIFT LFO_SHIFT rom T slot = Some (slot', out) ->
  exists inter gain,
    envelope_generator_update TL_SHIFT EG_SHIFT T inter = Some (slot', gain)
    /\ Slot.m_envelope_gen inter = Slot.m_envelope_gen slot
    /\ Slot.m_playing inter = Slot.m_playing slot.
Proof.
  unfold update_slot. intros H.
  destruct (Z.land (reg (Slot.m_regs slot) 6) 7 =? 0).
  - cbn [mbind option_bind] in H.
    match type of H with
    | context [if ?c then Some (?s, _) else _] =>
        destruct c;
        [|destruct (amplitude_lfo_step TL_SHIFT LFO_SHIFT
                      (Slot.m_amplitude_lfo s)) as [[lfo v]|];
          [|discriminate]]
    end;
      cbn [mbind option_bind] in H;
      match type of H with
      | context [envelope_generator_update _ _ _ ?s] =>
          destruct (envelope_generator_update TL_SHIFT EG_SHIFT T s)
            as [[s6 gain]|] eqn:He; [|discriminate];
          cbn [mbind option_bind] in H;
          destruct (idx (m_left_pan_table T) _); [|discriminate];
          destruct (idx (m_right_pan_table T) _); [|discriminate];
          cbn [mbind option_bind] in H; injection H as <- _;
          exists s, gain; (split; [exact He|])
      end;
      rewrite ramp_total_level_eq, advance_offset_eq;
      match goal with
      | |- context [if ?c then _ else _] => destruct c
      end; split; reflexivity.
  - destruct (pitch_lfo_step TL_SHIFT LFO_SHIFT (Slot.m_pitch_lfo slot))
      as [[plfo pv]|]; [|discriminate].
    cbn [mbind option_bind] in H.
    match type of H with
    | context [if ?c then Some (?s, _) else _] =>
        destruct c;
        [|destruct (amplitude_lfo_step TL_SHIFT LFO_SHIFT
                      (Slot.m_amplitude_lfo s)) as [[lfo v]|];
          [|discriminate]]
    end;
      cbn [mbind option_bind] in H;
      match type of H with
      | context [envelope_generator_update _ _ _ ?s] =>
          destruct (envelope_generator_update TL_SHIFT EG_SHIFT T s)
            as [[s6 gain]|] eqn:He; [|discriminate];
          cbn [mbind option_bind] in H;
          destruct (idx (m_left_pan_table T) _); [|discriminate];
          destruct (idx (m_right_pan_table T) _); [|discriminate];
          cbn [mbind option_bind] in H; injection H as <- _;
          exists s, gain; (split; [exact He|])
      end;
      rewrite ramp_total_level_eq, advance_offset_eq;
      match goal with
      | |- context [if ?c then _ else _] => destruct c
      end; split; reflexivity.
Qed.

Section VoiceEnvelope.

Variables TL_SHIFT EG_SHIFT LFO_SHIFT : Z.
Variable rom : Z -> Z.
Variable T : tables.
Variables down up : Z.
Hypothesis TL_range : 0 <= TL_SHIFT <= 24.
Hypothesis EG_range : 0 <= EG_SHIFT <= 20.
Hypothesis tables_ok : tables_ready T.
Hypothesis steps_ok : total_level_steps_ok TL_SHIFT T down up.

Lemma tick_envelope (slot : Slot.t) :
  voice_ok TL_SHIFT EG_SHIFT down up slot ->
  Slot.m_playing slot = true ->
  exists slot',
    tick TL_SHIFT EG_SHIFT LFO_SHIFT rom T slot = Some slot'
    /\ voice_ok TL_SHIFT EG_SHIFT down up slot'
    /\ Slot.m_envelope_gen slot'
       = set_volume
           (set_state (Slot.m_envelope_gen slot)
              (snd (fst (envelope_after EG_SHIFT (Slot.m_envelope_gen slot)
                           true))))
           (fst (fst (envelope_after EG_SHIFT (Slot.m_envelope_gen slot) true)))
    /\ Slot.m_playing slot'
       = snd (envelope_after EG_SHIFT (Slot.m_envelope_gen slot) true).
Proof using TL_range EG_range tables_ok steps_ok.
  intros Hok Hp.
  destruct (tick_voice_ok TL_SHIFT EG_SHIFT LFO_SHIFT rom T down up TL_range
              EG_range tables_ok steps_ok slot Hok) as (slot' & Ht & Hok').
  exists slot'. split; [exact Ht|]. split; [exact Hok'|].
  unfold tick in Ht. rewrite Hp in Ht.
  destruct (update_slot TL_SHIFT EG_SHIFT LFO_SHIFT rom T slot)
    as [[s o]|] eqn:Hu; [|discriminate].
  simpl in Ht. injection Ht as ->.
  destruct (update_slot_envelope _ _ _ _ _ _ _ _ Hu)
    as (inter & gain & He & Henv & Hpl).
  destruct Hok as ((_ & _ & _ & Hwf & _) & _).
  destruct tables_ok as ((_ & _ & _ & _ & _ & Hexp & _) & _).
  pose proof (envelope_generator_update_after TL_SHIFT EG_SHIFT T EG_range
                Hexp inter) as Hafter.
  rewrite Henv, Hpl, Hp in Hafter. specialize (Hafter Hwf). cbv zeta in Hafter.
  destruct (envelope_after EG_SHIFT (Slot.m_envelope_gen slot) true)
    as [[vol' st'] p'].
  destruct Hafter as [gain' Heq]. rewrite Heq in He. injection He as <- _.
  split; reflexivity.
Qed.

Lemma release_run (k : nat) :
  forall slot,
    voice_ok TL_SHIFT EG_SHIFT down up slot ->
    Slot.m_playing slot = true ->
    EnvGen.m_state (Slot.m_envelope_gen slot) = RELEASE ->
    let vol := EnvGen.m_volume (Slot.m_envelope_gen slot) in
    let rr := EnvGen.m_release_rate (Slot.m_envelope_gen slot) in
    0 < rr ->
    vol <= Z.of_nat k * rr ->
    exists n slot',
      1 <= Z.of_nat n <= vol / rr + 1
      /\ ticks TL_SHIFT EG_SHIFT LFO_SHIFT rom T n slot = Some slot'
      /\ Slot.m_playing slot' = false
      /\ EnvGen.m_volume (Slot.m_envelope_gen slot') = 0
      /\ forall m, (m < n)%nat ->
           exists sm,
             ticks TL_SHIFT EG_SHIFT LFO_SHIFT rom T m slot = Some sm
             /\ Slot.m_playing sm = true.
Proof using TL_range EG_range tables_ok steps_ok.
  induction k as [|k IH]; intros slot Hok Hp Hst vol rr Hrr Hk.
  - (* unreachable unless the volume is 0 *) 
    destruct (tick_envelope slot Hok Hp) as (slot' & Ht & Hok' & Henv & Hpl).
    pose proof Hok as ((_ & _ & _ & (Hv & _) & _) & _).
    unfold envelope_after in Henv, Hpl. rewrite Hst in Henv, Hpl.
    fold vol rr in Henv, Hpl, Hv.
    destruct (Z.leb_spec (vol - rr) 0) as [E|E]; [|lia].
    simpl in Henv, Hpl.
    exists 1%nat, slot'. split.
    { pose proof (Z.div_pos vol rr ltac:(lia) ltac:(lia)). lia. }
    split; [simpl; rewrite Ht; reflexivity|].
    split; [exact Hpl|]. split; [rewrite Henv; simpl; lia|].
    intros m Hm. assert (m = 0%nat) as -> by lia.
    exists slot. split; [reflexivity|exact Hp].
  - destruct (tick_envelope slot Hok Hp) as (slot' & Ht & Hok' & Henv & Hpl).
    pose proof Hok as ((_ & _ & _ & (Hv & _) & _) & _).
    unfold envelope_after in Henv, Hpl. rewrite Hst in Henv, Hpl.
    fold vol rr in Henv, Hpl, Hv.
    pose proof (Z.div_pos vol rr ltac:(lia) ltac:(lia)) as Hq.
    destruct (Z.leb_spec (vol - rr) 0) as [E|E]; simpl in Henv, Hpl.
    + exists 1%nat, slot'. split; [lia|].
      split; [simpl; rewrite Ht; reflexivity|].
      split; [exact Hpl|]. split; [rewrite Henv; simpl; lia|].
      intros m Hm. assert (m = 0%nat) as -> by lia.
      exists slot. split; [reflexivity|exact Hp].
    + assert (Hvol' : EnvGen.m_volume (Slot.m_envelope_gen slot') = vol - rr)
        by (rewrite Henv; simpl; lia).
      assert (Hrr' : EnvGen.m_release_rate (Slot.m_envelope_gen slot') = rr)
        by (rewrite Henv; reflexivity).
      assert (Hst' : EnvGen.m_state (Slot.m_envelope_gen slot') = RELEASE)
        by (rewrite Henv; reflexivity).
      destruct (IH slot' Hok' Hpl Hst') as (n & s'' & Hn & Hts & Hp'' & Hv'' & Hbefore).
      { rewrite Hrr'. exact Hrr. }
      { rewrite Hvol', Hrr'. lia. }
      rewrite Hvol', Hrr' in Hn.
      assert (Hdiv : (vol - rr) / rr = vol / rr - 1).
      { replace (vol - rr) with (vol + (-1) * rr) by lia.
        rewrite Z.div_add by lia. lia. }
      exists (S n), s''. split; [lia|].
      split; [simpl; rewrite Ht; exact Hts|].
      split; [exact Hp''|]. split; [exact Hv''|].
      intros [|m] Hm.
      * exists slot. split; [reflexivity|exact Hp].
      * destruct (Hbefore m ltac:(lia)) as (sm & Hsm & Hpm).
        exists sm. split; [simpl; rewrite Ht; exact Hsm|exact Hpm].
Qed.

(** X14 ([sound_stream_update] with [envelope_generator_update]): a
    playing, well-formed voice in [RELEASE] with a positive release rate
    stops: there is a number of samples [n], at least 1 and at most
    [volume / rate + 1], after which it is not playing and its volume is 0,
    and it is playing after every smaller number of samples. *)
Theorem release_stops (slot : Slot.t) :
  voice_ok TL_SHIFT EG_SHIFT down up slot ->
  Slot.m_playing slot = true ->
  EnvGen.m_state (Slot.m_envelope_gen slot) = RELEASE ->
  let vol := EnvGen.m_volume (Slot.m_envelope_gen slot) in
  let rr := EnvGen.m_release_rate (Slot.m_envelope_gen slot) in
  0 < rr ->
  exists n slot',
    1 <= Z.of_nat n <= vol / rr + 1
    /\ ticks TL_SHIFT EG_SHIFT LFO_SHIFT rom T n slot = Some slot'
    /\ Slot.m_playing slot' = false
    /\ EnvGen.m_volume (Slot.m_envelope_gen slot') = 0
    /\ forall m, (m < n)%nat ->
         exists sm,
           ticks TL_SHIFT EG_SHIFT LFO_SHIFT rom T m slot = Some sm
           /\ Slot.m_playing sm = true.
Proof using TL_range EG_range tables_ok steps_ok.
  intros Hok Hp Hst vol rr Hrr.
  apply (release_run (Z.to_nat (vol / rr + 1)) slot Hok Hp Hst Hrr).
  fold vol rr.
  pose proof Hok as ((_ & _ & _ & (Hv & _) & _) & _). fold vol in Hv.
  pose proof (Z.div_pos vol rr ltac:(lia) ltac:(lia)).
  rewrite Z2Nat.id by lia.
  pose proof (Z.mod_pos_bound vol rr Hrr).
  pose proof (Z.div_mod vol rr ltac:(lia)). nia.
Qed.

(** X15 ([sound_stream_update] with [envelope_generator_update]): a
    playing, well-formed voice in [DECAY2] is still playing in [DECAY2]
    after any number [n] of samples, with volume
    [max 0 (volume - n * decay2 rate)]: without a key-off it never stops,
    not even at volume 0. *)
Theorem decay2_sustains (n : nat) (slot : Slot.t) :
  voice_ok TL_SHIFT EG_SHIFT down up slot ->
  Slot.m_playing slot = true ->
  EnvGen.m_state (Slot.m_envelope_gen slot) = DECAY2 ->
  exists sn,
    ticks TL_SHIFT EG_SHIFT LFO_SHIFT rom T n slot = Some sn
    /\ Slot.m_playing sn = true
    /\ EnvGen.m_state (Slot.m_envelope_gen sn) = DECAY2
    /\ EnvGen.m_volume (Slot.m_envelope_gen sn)
       = Z.max 0 (EnvGen.m_volume (Slot.m_envelope_gen slot)
                  - Z.of_nat n * EnvGen.m_decay2_rate (Slot.m_envelope_gen slot)).
Proof using TL_range EG_range tables_ok steps_ok.
  revert slot. induction n as [|n IH]; intros slot Hok Hp Hst.
  - exists slot. split; [reflexivity|]. split; [exact Hp|].
    split; [exact Hst|].
    pose proof Hok as ((_ & _ & _ & (Hv & _) & _) & _). simpl. lia.
  - destruct (tick_envelope slot Hok Hp) as (slot' & Ht & Hok' & Henv & Hpl).
    pose proof Hok as ((_ & _ & _ & (Hv & _ & _ & Hd2 & _) & _) & _).
    unfold envelope_after in Henv, Hpl. rewrite Hst in Henv, Hpl.
    simpl in Henv, Hpl.
    destruct (IH slot' Hok' Hpl) as (sn & Hts & Hpn & Hstn & Hvn).
    { rewrite Henv. reflexivity. }
    exists sn. split; [simpl; rewrite Ht; exact Hts|].
    split; [exact Hpn|]. split; [exact Hstn|].
    rewrite Hvn, Henv. simpl.
    rewrite Nat2Z.inj_succ, Z.mul_succ_l. nia.
Qed.

(** X16 ([sound_stream_update] with [envelope_generator_update]): a
    playing, well-formed voice in [RELEASE] with release rate 0 and a
    positive volume never stops: after any number of samples it is still
    playing and its envelope is the same. *)
Theorem release_rate_zero_sustains (n : nat) (slot : Slot.t) :
  voice_ok TL_SHIFT EG_SHIFT down up slot ->
  Slot.m_playing slot = true ->
  EnvGen.m_state (Slot.m_envelope_gen slot) = RELEASE ->
  EnvGen.m_release_rate (Slot.m_envelope_gen slot) = 0 ->
  0 < EnvGen.m_volume (Slot.m_envelope_gen slot) ->
  exists sn,
    ticks TL_SHIFT EG_SHIFT LFO_SHIFT rom T n slot = Some sn
    /\ Slot.m_playing sn = true
    /\ Slot.m_envelope_gen sn = Slot.m_envelope_gen slot.
Proof using TL_range EG_range tables_ok steps_ok.
  revert slot. induction n as [|n IH]; intros slot Hok Hp Hst Hrr Hvol.
  - exists slot. repeat split; [exact Hp].
  - destruct (tick_envelope slot Hok Hp) as (slot' & Ht & Hok' & Henv & Hpl).
    unfold envelope_after in Henv, Hpl. rewrite Hst, Hrr in Henv, Hpl.
    simpl in Henv, Hpl.
    destruct (Z.leb_spec (EnvGen.m_volume (Slot.m_envelope_gen slot) - 0) 0);
      [lia|].
    assert (Hsame : Slot.m_envelope_gen slot' = Slot.m_envelope_gen slot).
    { rewrite Henv. destruct (Slot.m_envelope_gen slot) as [v st s a d1 d2 r dl].
      simpl in *. subst st. unfold set_volume, set_state. simpl.
      f_equal. lia. }
    destruct (IH slot' Hok' Hpl) as (sn & Hts & Hpn & Hen);
      [rewrite Hsame; assumption..|].
    exists sn. split; [simpl; rewrite Ht; exact Hts|].
    split; [exact Hpn|]. congruence.
Qed.

End VoiceEnvelope.

(** ** Rate lookups *)

Lemma get_rate_index_signed (offset val : Z) :
  - 2 ^ 31 <= offset < 2 ^ 31 - 64 ->
  0 <= val < 16 ->
  get_rate_index (u32 offset) val
  = if val =? 0 then 0
    else if val =? 0xf then 0x3f
    else Z.min (4 * val + offset) 0x3f.
Proof.
  intros Ho Hv. unfold get_rate_index.
  rewrite s32_u32, s32_add_u32_r, s32_small by lia.
  destruct (val =? 0); [reflexivity|].
  destruct (val =? 15); [reflexivity|].
  destruct (Z.gtb_spec (4 * val + offset) 63); lia.
Qed.

(** X17 ([get_rate]): the rate lookup in a 64-entry table, for a register
    value from 0 to 15 and a signed offset passed as [uint32_t].  The value
    0 gives entry 0 and the value 15 entry 63, whatever the offset; any
    other value gives the entry at [4 * val + offset], clamped to 63 from
    above, and reads before the table when that index is negative. *)
Theorem get_rate_cases (steps : list Z) (offset val : Z) :
  length steps = 64%nat ->
  - 2 ^ 31 <= offset < 2 ^ 31 - 64 ->
  0 <= val < 16 ->
  get_rate steps (u32 offset) val
  = if val =? 0 then steps !! 0%nat
    else if val =? 0xf then steps !! 63%nat
    else if 4 * val + offset <? 0 then None
    else steps !! Z.to_nat (Z.min (4 * val + offset) 0x3f).
Proof.
  intros Hlen Ho Hv. unfold get_rate.
  rewrite (get_rate_index_signed offset val Ho Hv). unfold idx.
  destruct (val =? 0); [reflexivity|].
  destruct (val =? 15); [reflexivity|].
  destruct (Z.ltb_spec (4 * val + offset) 0) as [E|E].
  - destruct (Z.leb_spec 0 (Z.min (4 * val + offset) 63)); [lia|reflexivity].
  - destruct (Z.leb_spec 0 (Z.min (4 * val + offset) 63)); [reflexivity|lia].
Qed.

Lemma calc_rate_range (slot : Slot.t) :
  0 <= reg (Slot.m_regs slot) 3 < 256 ->
  0 <= Sample.m_key_rate_scale (Slot.m_sample slot) < 16 ->
  -16 <= calc_rate slot <= 45.
Proof.
  intros H3 Hk. unfold calc_rate.
  destruct (_ =? 15); [lia|].
  pose proof (calc_octave_range (reg (Slot.m_regs slot) 3) H3).
  pose proof (pitch_sub_bit (reg (Slot.m_regs slot) 3) (proj1 H3)) as Hb.
  assert (0 <= Z.land (Z.shiftr (reg (Slot.m_regs slot) 3) 3) 1 <= 1).
  { rewrite Hb. pose proof (Z.mod_pos_bound (reg (Slot.m_regs slot) 3 / 8) 2).
    lia. }
  lia.
Qed.

Lemma get_rate_None (steps : list Z) (offset val : Z) :
  length steps = 64%nat ->
  - 2 ^ 31 <= offset < 2 ^ 31 - 64 ->
  0 <= val < 16 ->
  get_rate steps (u32 offset) val = None
  <-> 0 < val < 15 /\ 4 * val + offset < 0.
Proof.
  intros Hlen Ho Hv. unfold get_rate.
  pose proof (get_rate_index_signed offset val Ho Hv) as Hi.
  split.
  - intros Hn.
    destruct (Z_lt_ge_dec (get_rate_index (u32 offset) val) 0) as [Hneg|Hpos].
    + rewrite Hi in Hneg.
      destruct (Z.eqb_spec val 0); [lia|].
      destruct (Z.eqb_spec val 15); lia.
    + exfalso.
      destruct (idx_Some steps (get_rate_index (u32 offset) val)) as [x Hx].
      { rewrite Hlen. pose proof (get_rate_index_le (u32 offset) val). lia. }
      congruence.
  - intros (Hval & Hneg). apply idx_negative. rewrite Hi.
    destruct (Z.eqb_spec val 0); [lia|].
    destruct (Z.eqb_spec val 15); lia.
Qed.

(** X18 ([envelope_generator_calc]): with a byte in register 3 and
    four-bit sample fields, the key-rate offset lies between -16 and 45 and
    is not negative when the octave is not negative or the key-rate scale
    is 15.  The calculation reads outside a step table exactly when one of
    the four rate registers holds a value [val] from 1 to 14 with
    [4 * val + offset < 0]. *)
Theorem envelope_generator_calc_defined (T : tables) (slot : Slot.t) :
  length (m_attack_step T) = 64%nat ->
  length (m_decay_release_step T) = 64%nat ->
  let regs3 := reg (Slot.m_regs slot) 3 in
  let smp := Slot.m_sample slot in
  0 <= regs3 < 256 ->
  0 <= Sample.m_key_rate_scale smp < 16 ->
  Forall (fun val => 0 <= val < 16)
    [Sample.m_attack_reg smp; Sample.m_decay1_reg smp;
     Sample.m_decay2_reg smp; Sample.m_release_reg smp] ->
  -16 <= calc_rate slot <= 45
  /\ (0 <= calc_octave regs3 \/ Sample.m_key_rate_scale smp = 0xf ->
      0 <= calc_rate slot)
  /\ (envelope_generator_calc T slot = None
      <-> exists val,
            In val [Sample.m_attack_reg smp; Sample.m_decay1_reg smp;
                    Sample.m_decay2_reg smp; Sample.m_release_reg smp]
            /\ 0 < val < 15 /\ 4 * val + calc_rate slot < 0).
Proof.
  intros Ha Hd regs3 smp H3 Hk Hregs.
  pose proof (calc_rate_range slot H3 Hk) as Hrate.
  split; [exact Hrate|]. split.
  { intros Hoct. unfold calc_rate. fold regs3 smp.
    destruct (Z.eqb_spec (Sample.m_key_rate_scale smp) 15) as [E|E]; [lia|].
    destruct Hoct as [Hoct|Hoct]; [|contradiction].
    pose proof (pitch_sub_bit regs3 (proj1 H3)) as Hb.
    pose proof (Z.mod_pos_bound (regs3 / 8) 2 ltac:(lia)). lia. }
  inversion Hregs as [|? ? H1 Hr1]; subst.
  inversion Hr1 as [|? ? H2 Hr2]; subst.
  inversion Hr2 as [|? ? H4 Hr3]; subst.
  inversion Hr3 as [|? ? H5 _]; subst.
  assert (Ho : - 2 ^ 31 <= calc_rate slot < 2 ^ 31 - 64) by lia.
  pose proof (get_rate_None (m_attack_step T) _ _ Ha Ho H1) as N1.
  pose proof (get_rate_None (m_decay_release_step T) _ _ Hd Ho H2) as N2.
  pose proof (get_rate_None (m_decay_release_step T) _ _ Hd Ho H4) as N3.
  pose proof (get_rate_None (m_decay_release_step T) _ _ Hd Ho H5) as N4.
  unfold envelope_generator_calc. fold smp.
  destruct (get_rate (m_attack_step T) _ (Sample.m_attack_reg smp)) as [ar|].
  2: { split; [intros _|reflexivity].
       exists (Sample.m_attack_reg smp). split; [left; reflexivity|].
       apply N1. reflexivity. }
  destruct (get_rate (m_decay_release_step T) _ (Sample.m_decay1_reg smp))
    as [d1r|].
  2: { split; [intros _|reflexivity].
       exists (Sample.m_decay1_reg smp).
       split; [right; left; reflexivity|]. apply N2. reflexivity. }
  destruct (get_rate (m_decay_release_step T) _ (Sample.m_decay2_reg smp))
    as [d2r|].
  2: { split; [intros _|reflexivity].
       exists (Sample.m_decay2_reg smp).
       split; [right; right; left; reflexivity|]. apply N3. reflexivity. }
  destruct (get_rate (m_decay_release_step T) _ (Sample.m_release_reg smp))
    as [rr|].
  2: { split; [intros _|reflexivity].
       exists (Sample.m_release_reg smp).
       split; [right; right; right; left; reflexivity|].
       apply N4. reflexivity. }
  cbn [mbind option_bind]. split; [discriminate|].
  intros (val & Hin & Hbad). exfalso.
  destruct Hin as [<-|[<-|[<-|[<-|[]]]]].
  - apply N1 in Hbad. discriminate.
  - apply N2 in Hbad. discriminate.
  - apply N3 in Hbad. discriminate.
  - apply N4 in Hbad. discriminate.
Qed.

(** ** Sample data and sample descriptors *)

Lemma lor_shiftl_small (a b n : Z) :
  0 <= n -> 0 <= b < 2 ^ n ->
  Z.lor (Z.shiftl a n) b = a * 2 ^ n + b.
Proof.
  intros Hn Hb.
  assert (Hland : Z.land (Z.shiftl a n) b = 0).
  { apply Z.bits_inj'. intros i Hi. rewrite Z.land_spec, Z.bits_0.
    destruct (Z_lt_ge_dec i n) as [Hlt|Hge].
    - rewrite Z.shiftl_spec_low by lia. reflexivity.
    - destruct (Z.eq_dec b 0) as [->|Hb0];
        [rewrite Z.bits_0; apply andb_false_r|].
      rewrite (Z.bits_above_log2 b i); [apply andb_false_r|lia|].
      apply Z.log2_lt_pow2; [lia|].
      apply Z.lt_le_trans with (2 ^ n); [lia|].
      apply Z.pow_le_mono_r; lia. }
  rewrite <- Z.lxor_lor by exact Hland.
  rewrite <- Z.add_nocarry_lxor by exact Hland.
  rewrite Z.shiftl_mul_pow2 by lia. reflexivity.
Qed.

Lemma byte_nibbles (b : Z) :
  0 <= b < 256 ->
  Z.land (Z.shiftr b 4) 0xf = b / 16 /\ Z.land b 0xf = b mod 16
  /\ Z.land b 0xf0 = 16 * (b / 16).
Proof.
  intros Hb.
  range_check (fun b => (Z.land (Z.shiftr b 4) 0xf =? b / 16)
                        && (Z.land b 0xf =? b mod 16)
                        && (Z.land b 0xf0 =? 16 * (b / 16))) 256%nat Hc.
  specialize (Hc b Hb). apply andb_prop in Hc as [Hc H3].
  apply andb_prop in Hc as [H1 H2].
  apply Z.eqb_eq in H1, H2, H3. auto.
Qed.

(** The value of a 16-bit word whose low four bits are clear, read as an
    [int16_t]. *)
Lemma s16_word12 (w : Z) :
  0 <= w < 4096 ->
  s16 (16 * w) = 16 * (if w <? 2048 then w else w - 4096).
Proof.
  intros Hw. unfold s16. change (2 ^ 15) with 32768. change (2 ^ 16) with 65536.
  destruct (Z.ltb_spec w 2048).
  - rewrite Z.mod_small by lia. lia.
  - replace (16 * w + 32768) with (16 * w - 32768 + 1 * 65536) by lia.
    rewrite Z.mod_add, Z.mod_small by lia. lia.
Qed.

Lemma s16_range (x : Z) : -32768 <= s16 x <= 32767.
Proof.
  unfold s16. change (2 ^ 15) with 32768. change (2 ^ 16) with 65536.
  pose proof (Z.mod_pos_bound (x + 32768) 65536 ltac:(lia)). lia.
Qed.

Lemma s16_low_nibble (hi b : Z) :
  0 <= hi < 256 -> 0 <= b < 256 ->
  s16 (Z.lor (Z.shiftl hi 8) (Z.shiftl (Z.land b 0xf) 4))
  = 16 * (let w := 16 * hi + b mod 16 in if w <? 2048 then w else w - 4096).
Proof.
  intros Hhi Hb.
  destruct (byte_nibbles b Hb) as (_ & -> & _).
  pose proof (Z.mod_pos_bound b 16 ltac:(lia)).
  rewrite (Z.shiftl_mul_pow2 (b mod 16)) by lia.
  rewrite lor_shiftl_small by (change (2 ^ 8) with 256; lia).
  replace (hi * 2 ^ 8 + b mod 16 * 2 ^ 4) with (16 * (16 * hi + b mod 16))
    by lia.
  apply s16_word12. lia.
Qed.

Lemma s16_high_nibble (hi b : Z) :
  0 <= hi < 256 -> 0 <= b < 256 ->
  s16 (Z.lor (Z.shiftl hi 8) (Z.land b 0xf0))
  = 16 * (let w := 16 * hi + b / 16 in if w <? 2048 then w else w - 4096).
Proof.
  intros Hhi Hb.
  destruct (byte_nibbles b Hb) as (_ & _ & ->).
  assert (0 <= b / 16 < 16).
  { split; [apply Z.div_pos; lia|apply Z.div_lt_upper_bound; lia]. }
  rewrite lor_shiftl_small by (change (2 ^ 8) with 256; lia).
  replace (hi * 2 ^ 8 + 16 * (b / 16)) with (16 * (16 * hi + b / 16)) by lia.
  apply s16_word12. lia.
Qed.

Lemma s16_byte (b : Z) :
  0 <= b < 256 ->
  s16 (Z.shiftl b 8) = 256 * (if b <? 128 then b else b - 256).
Proof.
  intros Hb. rewrite Z.shiftl_mul_pow2 by lia.
  replace (b * 2 ^ 8) with (16 * (16 * b)) by lia.
  rewrite s16_word12 by lia.
  destruct (Z.ltb_spec (16 * b) 2048), (Z.ltb_spec b 128); lia.
Qed.

Lemma word12_inj (hi lo hi' lo' : Z) :
  0 <= hi < 256 -> 0 <= lo < 16 -> 0 <= hi' < 256 -> 0 <= lo' < 16 ->
  16 * (let w := 16 * hi + lo in if w <? 2048 then w else w - 4096)
  = 16 * (let w := 16 * hi' + lo' in if w <? 2048 then w else w - 4096) ->
  hi = hi' /\ lo = lo'.
Proof.
  intros H1 H2 H3 H4. cbv zeta.
  destruct (Z.ltb_spec (16 * hi + lo) 2048),
           (Z.ltb_spec (16 * hi' + lo') 2048); lia.
Qed.

(** The 12-bit word behind sample [j] of the group of four at [adr]. *)
Lemma decode_sample_12 (rom : Z -> Z) (slot : Slot.t) (k j : Z) :
  Z.land (Slot.m_format slot) 8 <> 0 ->
  0 <= j < 4 ->
  let byte a := read_byte rom (u32 a) in
  let adr := u32 (Slot.m_base slot + k * 6) in
  decode_sample rom slot (4 * k + j)
  = 16 * (let w := if j =? 0 then 16 * byte adr + byte (adr + 1) mod 16
                   else if j =? 1 then 16 * byte (adr + 2) + byte (adr + 1) / 16
                   else if j =? 2 then 16 * byte (adr + 3) + byte (adr + 4) mod 16
                   else 16 * byte (adr + 5) + byte (adr + 4) / 16 in
          if w <? 2048 then w else w - 4096).
Proof.
  intros Hfmt Hj byte adr.
  assert (Hbyte : forall a, 0 <= byte a < 256)
    by (intros a; apply read_byte_range).
  assert (Hland : Z.land (4 * k + j) 3 = j).
  { change 3 with (Z.ones 2). rewrite Z.land_ones by lia.
    change (2 ^ 2) with 4.
    rewrite Z.add_comm, Z.mul_comm, Z.mod_add by lia.
    apply Z.mod_small. exact Hj. }
  assert (Hshr : Z.shiftr (4 * k + j) 2 = k).
  { rewrite Z.shiftr_div_pow2 by lia. change (2 ^ 2) with 4.
    symmetry. apply (Z.div_unique _ 4 k j); lia. }
  unfold decode_sample. fold byte.
  destruct (Z.eqb_spec (Z.land (Slot.m_format slot) 8) 0) as [E|_];
    [contradiction|].
  rewrite Hland, Hshr. fold adr.
  assert (Hc : j = 0 \/ j = 1 \/ j = 2 \/ j = 3) by lia.
  destruct Hc as [->|[->|[->| ->]]]; cbn [Z.eqb Pos.eqb];
    first [apply s16_low_nibble|apply s16_high_nibble]; apply Hbyte.
Qed.

Section Decode.

Variable rom : Z -> Z.

(** X19 ([sound_stream_update], the sample fetch): the sample at position
    [spos].  In an 8-bit format it is 256 times the signed byte at
    [base + spos].  In the 12-bit format it is 16 times the signed 12-bit
    word that position [spos mod 4] of the six-byte group at
    [base + spos / 4 * 6] holds: bytes 0 and 3 are the high eight bits of
    samples 0 and 2 with the low nibbles of bytes 1 and 4 below them, bytes
    2 and 5 the high eight bits of samples 1 and 3 with the high nibbles of
    bytes 1 and 4.  The result is a 16-bit signed value in either case. *)
Theorem decode_sample_value (slot : Slot.t) (spos : Z) :
  let byte a := read_byte rom (u32 a) in
  let s8 b := if b <? 128 then b else b - 256 in
  let s12 w := if w <? 2048 then w else w - 4096 in
  let v := decode_sample rom slot spos in
  (Z.land (Slot.m_format slot) 8 = 0 ->
   v = 256 * s8 (byte (Slot.m_base slot + spos)))
  /\ (Z.land (Slot.m_format slot) 8 <> 0 ->
      let adr := u32 (Slot.m_base slot + spos / 4 * 6) in
      v = 16 * s12 (if spos mod 4 =? 0
                    then 16 * byte adr + byte (adr + 1) mod 16
                    else if spos mod 4 =? 1
                    then 16 * byte (adr + 2) + byte (adr + 1) / 16
                    else if spos mod 4 =? 2
                    then 16 * byte (adr + 3) + byte (adr + 4) mod 16
                    else 16 * byte (adr + 5) + byte (adr + 4) / 16))
  /\ -32768 <= v <= 32767.
Proof.
  intros byte s8 s12 v.
  assert (Hbyte : forall a, 0 <= byte a < 256)
    by (intros a; apply read_byte_range).
  assert (Hlow := s16_low_nibble). assert (Hhigh := s16_high_nibble).
  assert (H8 := s16_byte). cbv zeta in Hlow, Hhigh.
  assert (Hmod : 0 <= spos mod 4 < 4) by (apply Z.mod_pos_bound; lia).
  assert (Hland : Z.land spos 3 = spos mod 4).
  { change 3 with (Z.ones 2). apply Z.land_ones. lia. }
  assert (Hshr : Z.shiftr spos 2 = spos / 4)
    by (apply Z.shiftr_div_pow2; lia).
  assert (Hv : (Z.land (Slot.m_format slot) 8 = 0 ->
                v = 256 * s8 (byte (Slot.m_base slot + spos)))
               /\ (Z.land (Slot.m_format slot) 8 <> 0 ->
                   let adr := u32 (Slot.m_base slot + spos / 4 * 6) in
                   v = 16 * s12 (if spos mod 4 =? 0
                                 then 16 * byte adr + byte (adr + 1) mod 16
                                 else if spos mod 4 =? 1
                                 then 16 * byte (adr + 2) + byte (adr + 1) / 16
                                 else if spos mod 4 =? 2
                                 then 16 * byte (adr + 3) + byte (adr + 4) mod 16
                                 else 16 * byte (adr + 5) + byte (adr + 4) / 16))).
  { subst v. unfold decode_sample. fold byte.
    destruct (Z.eqb_spec (Z.land (Slot.m_format slot) 8) 0) as [E|E].
    - split; [intros _; apply H8, Hbyte|contradiction].
    - split; [contradiction|]. intros _. cbv zeta.
      rewrite Hland, Hshr.
      set (adr := u32 (Slot.m_base slot + spos / 4 * 6)).
      assert (Hc : spos mod 4 = 0 \/ spos mod 4 = 1 \/ spos mod 4 = 2
                   \/ spos mod 4 = 3) by lia.
      destruct Hc as [->|[->|[->| ->]]]; cbn [Z.eqb Pos.eqb];
        first [apply Hlow|apply Hhigh]; apply Hbyte. }
  split; [exact (proj1 Hv)|]. split; [exact (proj2 Hv)|].
  unfold v, decode_sample.
  destruct (Z.land (Slot.m_format slot) 8 =? 0); [apply s16_range|].
  destruct (Z.land spos 3) as [|[[|q|]|[|q|]|]|]; cbv beta iota;
    first [apply s16_range|lia].
Qed.

(** X20 ([sound_stream_update], the sample fetch): in the 12-bit format the
    four samples of group [k] hold exactly the 48 bits of the six bytes at
    [base + 6 * k]: two ROMs give the same four samples exactly when they
    agree on these six bytes. *)
Theorem decode_sample_packing (rom2 : Z -> Z) (slot : Slot.t) (k : Z) :
  Z.land (Slot.m_format slot) 8 <> 0 ->
  let adr := u32 (Slot.m_base slot + k * 6) in
  (forall j, 0 <= j < 4 ->
     decode_sample rom slot (4 * k + j) = decode_sample rom2 slot (4 * k + j))
  <-> (forall i, 0 <= i < 6 ->
         read_byte rom (u32 (adr + i)) = read_byte rom2 (u32 (adr + i))).
Proof.
  intros Hfmt adr.
  pose proof (fun j Hj => decode_sample_12 rom slot k j Hfmt Hj) as D1.
  pose proof (fun j Hj => decode_sample_12 rom2 slot k j Hfmt Hj) as D2.
  cbv zeta in D1, D2. fold adr in D1, D2.
  assert (Hb1 : forall a, 0 <= read_byte rom a < 256)
    by (intros; apply read_byte_range).
  assert (Hb2 : forall a, 0 <= read_byte rom2 a < 256)
    by (intros; apply read_byte_range).
  split.
  - intros Heq.
    pose proof (Heq 0 ltac:(lia)) as E0. pose proof (Heq 1 ltac:(lia)) as E1.
    pose proof (Heq 2 ltac:(lia)) as E2. pose proof (Heq 3 ltac:(lia)) as E3.
    rewrite (D1 0), (D2 0) in E0 by lia. rewrite (D1 1), (D2 1) in E1 by lia.
    rewrite (D1 2), (D2 2) in E2 by lia. rewrite (D1 3), (D2 3) in E3 by lia.
    cbn [Z.eqb Pos.eqb] in E0, E1, E2, E3.
    assert (Hq : forall b, 0 <= b < 256 -> 0 <= b / 16 < 16).
    { intros b Hb.
      split; [apply Z.div_pos; lia|apply Z.div_lt_upper_bound; lia]. }
    assert (Hm : forall b, 0 <= b mod 16 < 16)
      by (intros b; apply Z.mod_pos_bound; lia).
    apply word12_inj in E0, E1, E2, E3; auto.
    destruct E0 as [A0 A1], E1 as [A2 A3], E2 as [A4 A5], E3 as [A6 A7].
    pose proof (Z.div_mod (read_byte rom (u32 (adr + 1))) 16 ltac:(lia)).
    pose proof (Z.div_mod (read_byte rom2 (u32 (adr + 1))) 16 ltac:(lia)).
    pose proof (Z.div_mod (read_byte rom (u32 (adr + 4))) 16 ltac:(lia)).
    pose proof (Z.div_mod (read_byte rom2 (u32 (adr + 4))) 16 ltac:(lia)).
    intros i Hi.
    assert (Hc : i = 0 \/ i = 1 \/ i = 2 \/ i = 3 \/ i = 4 \/ i = 5) by lia.
    destruct Hc as [->|[->|[->|[->|[->| ->]]]]];
      rewrite ?Z.add_0_r; lia.
  - intros Heq j Hj. rewrite (D1 j Hj), (D2 j Hj).
    pose proof (Heq 0 ltac:(lia)) as B0. rewrite Z.add_0_r in B0.
    rewrite B0, (Heq 1), (Heq 2), (Heq 3), (Heq 4), (Heq 5) by lia.
    reflexivity.
Qed.

End Decode.

(** X21 ([init_sample]): the twelve bytes [b 0 .. b 11] of a sample
    descriptor, field by field.  The start address is the low 22 bits of
    the first three bytes, the format twice the top three bits of byte 0
    (so the 12-bit format bit is bit 7 of byte 0); the loop point is bytes
    3 and 4, the end 0xffff minus bytes 5 and 6; bytes 8, 9 and 10 are split
    into two nibbles each, byte 7 is the vibrato byte and the low nibble of
    byte 11 the tremolo value.  All nibble fields are below 16, the start
    below 2^22, loop and end at most 0xffff. *)
Theorem init_sample_fields (rom : Z -> Z) (index : Z) :
  let b k := read_byte rom (u32 (u32 (index * 12) + k)) in
  let s := init_sample rom index in
  Sample.m_start s = (b 0 * 65536 + b 1 * 256 + b 2) mod 2 ^ 22
  /\ Sample.m_format s = 2 * (b 0 / 32)
  /\ (Z.land (Sample.m_format s) 8 <> 0 <-> 128 <= b 0)
  /\ Sample.m_loop s = 256 * b 3 + b 4
  /\ Sample.m_end s = 0xffff - (256 * b 5 + b 6)
  /\ Sample.m_lfo_vibrato_reg s = b 7
  /\ 16 * Sample.m_attack_reg s + Sample.m_decay1_reg s = b 8
  /\ 16 * Sample.m_decay_level s + Sample.m_decay2_reg s = b 9
  /\ 16 * Sample.m_key_rate_scale s + Sample.m_release_reg s = b 10
  /\ Sample.m_lfo_amplitude_reg s = b 11 mod 16
  /\ Forall (fun nibble => 0 <= nibble < 16)
       [Sample.m_attack_reg s; Sample.m_decay1_reg s; Sample.m_decay2_reg s;
        Sample.m_decay_level s; Sample.m_release_reg s;
        Sample.m_key_rate_scale s; Sample.m_lfo_amplitude_reg s]
  /\ 0 <= Sample.m_start s < 2 ^ 22
  /\ 0 <= Sample.m_loop s <= 0xffff
  /\ 0 <= Sample.m_end s <= 0xffff.
Proof.
  intros b s.
  assert (Hb : forall k, 0 <= b k < 256) by (intros k; apply read_byte_range).
  assert (Hq : forall k, 0 <= b k / 16 < 16).
  { intros k. pose proof (Hb k).
    split; [apply Z.div_pos; lia|apply Z.div_lt_upper_bound; lia]. }
  assert (Hm : forall k, 0 <= b k mod 16 < 16)
    by (intros k; apply Z.mod_pos_bound; lia).
  assert (Hdm : forall k, b k = 16 * (b k / 16) + b k mod 16)
    by (intros k; apply Z.div_mod; lia).
  assert (Hstart :
    Z.lor (Z.lor (Z.shiftl (b 0) 16) (Z.shiftl (b 1) 8)) (b 2)
    = b 0 * 65536 + b 1 * 256 + b 2).
  { pose proof (Hb 0). pose proof (Hb 1). pose proof (Hb 2).
    replace (Z.shiftl (b 0) 16) with (Z.shiftl (Z.shiftl (b 0) 8) 8)
      by (rewrite Z.shiftl_shiftl by lia; reflexivity).
    rewrite <- Z.shiftl_lor.
    rewrite (lor_shiftl_small (b 0) (b 1) 8) by (change (2 ^ 8) with 256; lia).
    rewrite lor_shiftl_small by (change (2 ^ 8) with 256; lia).
    change (2 ^ 8) with 256. lia. }
  assert (H16 : forall hi lo, 0 <= lo < 256 ->
            Z.lor (Z.shiftl hi 8) lo = 256 * hi + lo).
  { intros hi lo Hlo.
    rewrite lor_shiftl_small by (change (2 ^ 8) with 256; lia).
    change (2 ^ 8) with 256. lia. }
  assert (Hfmt : Z.land (Z.shiftr (b 0 * 65536 + b 1 * 256 + b 2) 20) 0xfe
                 = 2 * (b 0 / 32)).
  { pose proof (Hb 0). pose proof (Hb 1). pose proof (Hb 2).
    rewrite Z.shiftr_div_pow2 by lia. change (2 ^ 20) with 1048576.
    assert (Hd : (b 0 * 65536 + b 1 * 256 + b 2) / 1048576 = b 0 / 16).
    { pose proof (Hdm 0). pose proof (Hq 0). pose proof (Hm 0).
      symmetry.
      apply (Z.div_unique _ 1048576 (b 0 / 16)
               (b 0 mod 16 * 65536 + b 1 * 256 + b 2)); lia. }
    rewrite Hd.
    range_check (fun x => Z.land (x / 16) 0xfe =? 2 * (x / 32)) 256%nat Hc.
    apply Z.eqb_eq, Hc. exact H. }
  assert (Hbit : Z.land (2 * (b 0 / 32)) 8 <> 0 <-> 128 <= b 0).
  { range_check (fun x => Bool.eqb (negb (Z.land (2 * (x / 32)) 8 =? 0))
                                   (128 <=? x)) 256%nat Hc.
    specialize (Hc (b 0) (Hb 0)). apply Bool.eqb_prop in Hc.
    destruct (Z.eqb_spec (Z.land (2 * (b 0 / 32)) 8) 0) as [E|E],
             (Z.leb_spec 128 (b 0)); simpl in Hc; try discriminate;
      split; intros; try lia; try contradiction. }
  subst s. unfold init_sample. fold (b 0) (b 1) (b 2) (b 3) (b 4) (b 5) (b 6)
    (b 7) (b 8) (b 9) (b 10) (b 11).
  cbn [Sample.m_start Sample.m_format Sample.m_loop Sample.m_end
       Sample.m_attack_reg Sample.m_decay1_reg Sample.m_decay2_reg
       Sample.m_decay_level Sample.m_release_reg Sample.m_key_rate_scale
       Sample.m_lfo_vibrato_reg Sample.m_lfo_amplitude_reg].
  rewrite Hstart, Hfmt, !H16 by auto.
  destruct (byte_nibbles (b 8) (Hb 8)) as (-> & -> & _).
  destruct (byte_nibbles (b 9) (Hb 9)) as (-> & -> & _).
  destruct (byte_nibbles (b 10) (Hb 10)) as (-> & -> & _).
  destruct (byte_nibbles (b 11) (Hb 11)) as (_ & -> & _).
  change 4194303 with (Z.ones 22). rewrite Z.land_ones by lia.
  pose proof (Z.mod_pos_bound (b 0 * 65536 + b 1 * 256 + b 2) (2 ^ 22)
                ltac:(lia)).
  pose proof (Hb 3). pose proof (Hb 4). pose proof (Hb 5). pose proof (Hb 6).
  pose proof (Hdm 8). pose proof (Hdm 9). pose proof (Hdm 10).
  repeat match goal with |- _ /\ _ => split end;
    try reflexivity; try lia; try tauto.
  repeat constructor; first [apply Hq|apply Hm].
Qed.

(** ** Fixed-point conversion *)

Lemma valid_binary_mantissa (s : bool) (m : positive) (e : Z) :
  valid_binary 24 128 (S754_finite s m e) = true ->
  Zpos m < 2 ^ 24 /\ -149 <= e.
Proof.
  unfold valid_binary, bounded, canonical_mantissa. intros H.
  apply andb_prop in H as [H _]. apply Z.eqb_eq in H.
  rewrite fexp32, digits2_pos_log2 in H.
  pose proof (log2_bounds m) as [_ Hup].
  split; [|lia].
  apply Z.lt_le_trans with (2 ^ (Z.log2 (Zpos m) + 1)); [exact Hup|].
  apply Z.pow_le_mono_r; lia.
Qed.

(** Scaling by a power of two does not round. *)
Lemma round_units_scaled (m : positive) (s : Z) :
  Zpos m < 2 ^ 24 -> 149 <= s ->
  round_units (Zpos m * 2 ^ s) = Zpos m * 2 ^ (s - 149).
Proof.
  intros Hm Hs. unfold round_units.
  assert (Hlog : Z.log2 (Zpos m * 2 ^ s) = Z.log2 (Zpos m) + s)
    by (rewrite Z.log2_mul_pow2 by lia; lia).
  assert (Hl : 0 <= Z.log2 (Zpos m) < 24).
  { split; [apply Z.log2_nonneg|]. apply Z.log2_lt_pow2; lia. }
  rewrite Hlog.
  set (k := Z.max (Z.log2 (Zpos m) + s - 23) 149).
  assert (Hk : 149 <= k <= s) by lia.
  replace (Zpos m * 2 ^ s) with (Zpos m * 2 ^ (s - k) * 2 ^ k).
  2: { rewrite <- Z.mul_assoc, <- Z.pow_add_r by lia. f_equal. f_equal. lia. }
  rewrite rne_shr_exact by lia.
  rewrite <- Z.mul_assoc, <- Z.pow_add_r by lia. f_equal. f_equal. lia.
Qed.

(** X22 ([value_to_fixed]): for at most 24 fractional bits and a finite
    single-precision value [v] that is not negative and below
    [2^(32 - bits)], the result is the integer part of [2^bits * v],
    exactly: the product is not rounded.  1.0 gives [2^bits] and 0 gives 0;
    the conversion of a NaN or an infinity is not defined. *)
Theorem value_to_fixed_floor (bits : Z) (value : spec_float) :
  0 <= bits <= 24 ->
  (valid_binary 24 128 value = true ->
   f32_ok value = true ->
   f32_units value < 2 ^ (32 - bits + 149) ->
   value_to_fixed bits value = Some (2 ^ bits * f32_units value / 2 ^ 149))
  /\ value_to_fixed bits f32_one = Some (2 ^ bits)
  /\ value_to_fixed bits f32_zero = Some 0
  /\ value_to_fixed bits S754_nan = None
  /\ (forall s, value_to_fixed bits (S754_infinity s) = None).
Proof.
  intros Hbits.
  destruct (f32_pow2 bits Hbits) as [Hok2 Hu2].
  assert (Hmain : forall v,
            valid_binary 24 128 v = true -> f32_ok v = true ->
            f32_units v < 2 ^ (32 - bits + 149) ->
            value_to_fixed bits v = Some (2 ^ bits * f32_units v / 2 ^ 149)).
  { intros v Hvalid Hok Hlt. unfold value_to_fixed.
    pose proof (f32_units_nonneg v Hok) as Hnn.
    assert (Hprod : f32_units (f32_of_int (Z.shiftl 1 bits)) * f32_units v
                    = f32_units v * 2 ^ (bits + 149))
      by (rewrite Hu2; lia).
    assert (Hsmall : f32_units v * 2 ^ (bits + 149) < 2 ^ 330).
    { assert (E : 2 ^ 330 = 2 ^ (32 - bits + 149) * 2 ^ (bits + 149))
        by (rewrite <- Z.pow_add_r by lia; f_equal; lia).
      pose proof (Z.pow_pos_nonneg 2 (bits + 149) ltac:(lia) ltac:(lia)).
      rewrite E. nia. }
    destruct (f32_mul_units (f32_of_int (Z.shiftl 1 bits)) v Hok2 Hok)
      as [Hokp Hup].
    { rewrite Hprod.
      apply Z.le_trans with (2 ^ 330); [lia|]. apply Z.pow_le_mono_r; lia. }
    rewrite Hprod in Hup.
    assert (Hexact : round_units (f32_units v * 2 ^ (bits + 149))
                     = f32_units v * 2 ^ bits).
    { destruct v as [s| | |s m e]; try discriminate.
      - simpl. apply round_units_0.
      - destruct s; [discriminate|].
        destruct (valid_binary_mantissa _ _ _ Hvalid) as [Hm He].
        cbn [f32_units].
        rewrite <- Z.mul_assoc, <- Z.pow_add_r by lia.
        rewrite round_units_scaled by lia.
        rewrite <- Z.mul_assoc, <- Z.pow_add_r by lia.
        f_equal. f_equal. lia. }
    rewrite Hexact in Hup.
    rewrite f32_to_u32_units; [|exact Hokp|].
    - rewrite Hup. f_equal. f_equal. lia.
    - rewrite Hup.
      assert (E : 2 ^ (32 + 149) = 2 ^ (32 - bits + 149) * 2 ^ bits)
        by (rewrite <- Z.pow_add_r by lia; f_equal; lia).
      pose proof (Z.pow_pos_nonneg 2 bits ltac:(lia) ltac:(lia)).
      rewrite E. nia. }
  split; [exact (Hmain value)|].
  split.
  { destruct f32_one_gain as [[Hok1 _] Hu1].
    rewrite Hmain; [|reflexivity|exact Hok1|].
    - rewrite Hu1. f_equal. apply Z.div_mul. lia.
    - rewrite Hu1. apply Z.pow_lt_mono_r; lia. }
  split.
  { rewrite Hmain; [|reflexivity|reflexivity|].
    - simpl. rewrite Z.mul_0_r. reflexivity.
    - simpl. apply Z.pow_pos_nonneg; lia. }
  unfold value_to_fixed, f32_mul.
  split; [|intros s];
    destruct (f32_of_int (Z.shiftl 1 bits)) as [s0|s0| |s0 m0 e0];
    reflexivity.
Qed.

(** ** Start-up tables *)

(** X23 ([lfo_init]): the two LFO waveforms have 256 entries each; the
    pitch waveform lies between 1 and 255, the amplitude waveform between 0
    and 255, and the second half of each mirrors the first:
    [pitch[i + 128] = 256 - pitch[i]] and
    [amplitude[i + 128] = 255 - amplitude[i]]. *)
Theorem lfo_init_waveforms (i : Z) :
  0 <= i < 256 ->
  exists p a,
    idx pitch_table_init i = Some p
    /\ idx amplitude_table_init i = Some a
    /\ 1 <= p <= 255
    /\ 0 <= a <= 255
    /\ (i < 128 ->
        idx pitch_table_init (i + 128) = Some (256 - p)
        /\ idx amplitude_table_init (i + 128) = Some (255 - a)).
Proof.
  intros Hi.
  range_check
    (fun i =>
       match idx pitch_table_init i, idx amplitude_table_init i with
       | Some p, Some a =>
           (1 <=? p) && (p <=? 255) && (0 <=? a) && (a <=? 255)
           && (if i <? 128
               then match idx pitch_table_init (i + 128),
                          idx amplitude_table_init (i + 128) with
                    | Some p', Some a' => (p' =? 256 - p) && (a' =? 255 - a)
                    | _, _ => false
                    end
               else true)
       | _, _ => false
       end) 256%nat Hc.
  specialize (Hc i Hi).
  destruct (idx pitch_table_init i) as [p|]; [|discriminate].
  destruct (idx amplitude_table_init i) as [a|]; [|discriminate].
  exists p, a.
  repeat (apply andb_prop in Hc as [Hc ?]).
  split; [reflexivity|]. split; [reflexivity|].
  split; [lia|]. split; [lia|].
  intros Hlt. destruct (Z.ltb_spec i 128); [|lia].
  destruct (idx pitch_table_init (i + 128)) as [p'|]; [|discriminate].
  destruct (idx amplitude_table_init (i + 128)) as [a'|]; [|discriminate].
  match goal with H : _ && _ = true |- _ => apply andb_prop in H as [? ?] end.
  split; f_equal; lia.
Qed.

Lemma nondecreasing_lookup (l : list Z) (i : nat) (x y : Z) :
  nondecreasing l = true ->
  l !! i = Some x -> l !! S i = Some y -> x <= y.
Proof.
  revert i. induction l as [|a l IH]; intros i Hn Hx Hy; [discriminate|].
  destruct l as [|b rest]; [destruct i; discriminate|].
  cbn [nondecreasing] in Hn. apply andb_prop in Hn as [Hab Hrest].
  destruct i as [|i].
  - cbn in Hx, Hy. injection Hx as <-. injection Hy as <-. lia.
  - exact (IH i Hrest Hx Hy).
Qed.

(** X24 ([device_start], the envelope steps, with [BASE_TIMES]): for every
    [EG_SHIFT] up to 20 the start-up code computes two tables of 64 steps.
    The attack steps lie between 0 and [0x400 << EG_SHIFT] and the decay
    and release steps below it; the last attack step is
    [0x400 << EG_SHIFT], the first four entries of both tables are 0, and
    both tables are non-decreasing. *)
Theorem envelope_steps_init_ok (EG_SHIFT : Z) :
  0 <= EG_SHIFT <= 20 ->
  exists attack decay,
    envelope_steps_init EG_SHIFT = Some (attack, decay)
    /\ length attack = 0x40%nat /\ length decay = 0x40%nat
    /\ Forall (fun x => 0 <= x <= 0x400 * 2 ^ EG_SHIFT) attack
    /\ Forall (fun x => 0 <= x < 0x400 * 2 ^ EG_SHIFT) decay
    /\ attack !! 0x3f%nat = Some (0x400 * 2 ^ EG_SHIFT)
    /\ (forall i, (i < 4)%nat ->
          attack !! i = Some 0 /\ decay !! i = Some 0)
    /\ (forall i x y,
          attack !! i = Some x -> attack !! S i = Some y -> x <= y)
    /\ (forall i x y,
          decay !! i = Some x -> decay !! S i = Some y -> x <= y).
Proof.
  intros HEG.
  range_check
    (fun eg =>
       match envelope_steps_init eg with
       | Some (a, d) =>
           (length a =? 64)%nat && (length d =? 64)%nat
           && forallb (fun x => (0 <=? x) && (x <=? 0x400 * 2 ^ eg)) a
           && forallb (fun x => (0 <=? x) && (x <? 0x400 * 2 ^ eg)) d
           && (default 0 (a !! 63%nat) =? 0x400 * 2 ^ eg)
           && forallb (fun x => x =? 0) (take 4 a)
           && forallb (fun x => x =? 0) (take 4 d)
           && nondecreasing a && nondecreasing d
       | None => false
       end) 21%nat Hc.
  specialize (Hc EG_SHIFT ltac:(lia)).
  destruct (envelope_steps_init EG_SHIFT) as [[a d]|]; [|discriminate].
  repeat (apply andb_prop in Hc as [Hc ?]).
  apply Nat.eqb_eq in Hc.
  match goal with H : (length d =? _)%nat = true |- _ =>
    apply Nat.eqb_eq in H; rename H into Hd end.
  exists a, d. split; [reflexivity|].
  split; [exact Hc|]. split; [exact Hd|].
  assert (Hzero : forall l : list Z, forallb (fun x => x =? 0) (take 4 l) = true ->
            (4 <= length l)%nat ->
            forall i, (i < 4)%nat -> l !! i = Some 0).
  { intros l Hf Hl i Hi. rewrite forallb_forall in Hf.
    destruct (lookup_lt_is_Some_2 l i ltac:(lia)) as [x Hx].
    rewrite Hx. f_equal. apply Z.eqb_eq, Hf.
    apply list_elem_of_In. apply elem_of_take. exists i. auto. }
  repeat match goal with |- _ /\ _ => split end.
  - apply Forall_forall. intros x Hx.
    match goal with H : forallb _ a = true |- _ =>
      rewrite forallb_forall in H; specialize (H x) end.
    apply list_elem_of_In in Hx.
    match goal with H : In x a -> _ |- _ => specialize (H Hx) end. lia.
  - apply Forall_forall. intros x Hx.
    match goal with H : forallb _ d = true |- _ =>
      rewrite forallb_forall in H; specialize (H x) end.
    apply list_elem_of_In in Hx.
    match goal with H : In x d -> _ |- _ => specialize (H Hx) end. lia.
  - destruct (lookup_lt_is_Some_2 a 63 ltac:(lia)) as [x Hx].
    rewrite Hx in *. simpl in *. f_equal. lia.
  - intros i Hi. split; apply Hzero; auto; lia.
  - intros i x y. apply nondecreasing_lookup. assumption.
  - intros i x y. apply nondecreasing_lookup. assumption.
Qed.

(** ** The front-end utilities *)

Lemma ConvertToWindowsNewlines_from_spec (source buf : list Z) :
  ConvertToWindowsNewlines_from source buf
  = if Z.of_nat (length buf + length (windows_newlines source)) <? BUF_SIZE
    then Some (buf ++ windows_newlines source) else None.
Proof.
  revert buf. induction source as [|c source IH]; intros buf.
  - simpl. unfold store_char. rewrite Nat.add_0_r, app_nil_r.
    destruct (Z.of_nat (length buf) <? BUF_SIZE); reflexivity.
  - cbn [ConvertToWindowsNewlines_from windows_newlines flat_map].
    fold (windows_newlines source).
    destruct (c =? 10); unfold store_char; cbn [app length];
      destruct (Z.ltb_spec (Z.of_nat (length buf)) BUF_SIZE) as [H1|H1];
      cbn [mbind option_bind]; rewrite ?length_app; cbn [length].
    + destruct (Z.ltb_spec (Z.of_nat (length buf + 1)) BUF_SIZE) as [H2|H2];
        cbn [mbind option_bind].
      * rewrite IH, !length_app. cbn [length].
        replace (length buf + 1 + 1 + length (windows_newlines source))%nat
          with (length buf + S (S (length (windows_newlines source))))%nat
          by lia.
        rewrite <- !app_assoc. reflexivity.
      * destruct (Z.ltb_spec
                    (Z.of_nat (length buf
                               + S (S (length (windows_newlines source)))))
                    BUF_SIZE); [lia|reflexivity].
    + destruct (Z.ltb_spec
                  (Z.of_nat (length buf
                             + S (S (length (windows_newlines source)))))
                  BUF_SIZE); [lia|reflexivity].
    + rewrite IH, !length_app. cbn [length].
      replace (length buf + 1 + length (windows_newlines source))%nat
        with (length buf + S (length (windows_newlines source)))%nat by lia.
      rewrite <- !app_assoc. reflexivity.
    + destruct (Z.ltb_spec
                  (Z.of_nat (length buf
                             + S (length (windows_newlines source))))
                  BUF_SIZE); [lia|reflexivity].
Qed.

Lemma windows_newlines_length (source : list Z) :
  length (windows_newlines source)
  = (length source + count_occ Z.eq_dec source 10%Z)%nat.
Proof.
  induction source as [|c source IH]; [reflexivity|].
  cbn [windows_newlines flat_map count_occ]. fold (windows_newlines source).
  rewrite length_app, IH.
  destruct (Z.eqb_spec c 10) as [->|Hne].
  - destruct (Z.eq_dec 10 10); [|contradiction]. simpl. lia.
  - destruct (Z.eq_dec c 10); [contradiction|]. simpl. lia.
Qed.

Lemma windows_newlines_lf (source : list Z) (i : nat) :
  windows_newlines source !! i = Some 10 ->
  exists j, i = S j /\ windows_newlines source !! j = Some 13.
Proof.
  revert i. induction source as [|c source IH]; intros i; [discriminate|].
  cbn [windows_newlines flat_map]. fold (windows_newlines source).
  destruct (Z.eqb_spec c 10) as [->|Hne].
  - destruct i as [|[|i]]; cbn.
    + discriminate.
    + intros _. exists 0%nat. split; reflexivity.
    + intros H. destruct (IH i H) as (j & -> & Hj).
      exists (S (S j)). split; [reflexivity|exact Hj].
  - destruct i as [|i]; cbn.
    + intros [= ->]. contradiction.
    + intros H. destruct (IH i H) as (j & -> & Hj).
      exists (S j). split; [reflexivity|exact Hj].
Qed.

Lemma windows_newlines_no_cr (source : list Z) :
  List.filter (fun c => negb (c =? 13)) (windows_newlines source)
  = List.filter (fun c => negb (c =? 13)) source.
Proof.
  induction source as [|c source IH]; [reflexivity|].
  cbn [windows_newlines flat_map]. fold (windows_newlines source).
  rewrite List.filter_app, IH.
  destruct (Z.eqb_spec c 10) as [->|Hne]; [reflexivity|].
  cbn [List.filter]. destruct (negb (c =? 13)); reflexivity.
Qed.

(** X26 ([ConvertToWindowsNewlines]): the result is the source with every
    line feed replaced by carriage return and line feed, provided it fits
    the buffer of [2048 * 2048] characters with its terminator; a longer
    result is written past the end of the buffer.  Its length is that of
    the source plus the number of line feeds, every line feed in it follows
    a carriage return, and without the carriage returns it is the source
    without its carriage returns. *)
Theorem ConvertToWindowsNewlines_spec (source : list Z) :
  let out := flat_map (fun c => if c =? 10 then [13; 10] else [c]) source in
  ConvertToWindowsNewlines source
  = (if Z.of_nat (length out) <? 2048 * 2048 then Some out else None)
  /\ length out = (length source + count_occ Z.eq_dec source 10%Z)%nat
  /\ (forall i, out !! i = Some 10 ->
        exists j, i = S j /\ out !! j = Some 13)
  /\ List.filter (fun c => negb (c =? 13)) out
     = List.filter (fun c => negb (c =? 13)) source.
Proof.
  intros out. fold (windows_newlines source) in out. subst out.
  split; [apply (ConvertToWindowsNewlines_from_spec source [])|].
  split; [apply windows_newlines_length|].
  split; [apply windows_newlines_lf|apply windows_newlines_no_cr].
Qed.

Section StrStrFacts.

Variable same_char : Z -> Z -> bool.

Lemma match_here_spec (s1 s2 : list Z) :
  match_here same_char s1 s2 = true
  <-> Forall2 (fun a b => same_char a b = true) (take (length s2) s1) s2.
Proof.
  revert s1. induction s2 as [|c2 s2 IH]; intros s1.
  - simpl. rewrite take_0. split; [intros _; constructor|reflexivity].
  - destruct s1 as [|c1 s1]; simpl.
    + split; [discriminate|]. intros H. inversion H.
    + destruct (same_char c1 c2) eqn:E.
      * rewrite IH. split; [intros H; constructor; assumption|].
        intros H. inversion H; assumption.
      * split; [discriminate|]. intros H. inversion H; congruence.
Qed.

Lemma MyStrStrI_from_spec (cp pSrch : list Z) (pos : nat) :
  match MyStrStrI_from same_char cp pos pSrch with
  | Some r =>
      exists i, r = (pos + i)%nat /\ (i < length cp)%nat
                /\ match_here same_char (drop i cp) pSrch = true
                /\ forall j, (j < i)%nat ->
                     match_here same_char (drop j cp) pSrch = false
  | None =>
      forall j, (j < length cp)%nat ->
        match_here same_char (drop j cp) pSrch = false
  end.
Proof.
  revert pos. induction cp as [|c cp IH]; intros pos.
  - simpl. intros j Hj. lia.
  - cbn [MyStrStrI_from].
    destruct (match_here same_char (c :: cp) pSrch) eqn:Hm.
    + exists 0%nat. split; [lia|]. split; [simpl; lia|].
      split; [exact Hm|]. intros j Hj. lia.
    + specialize (IH (S pos)).
      destruct (MyStrStrI_from same_char cp (S pos) pSrch) as [r|].
      * destruct IH as (i & -> & Hi & Hmi & Hbefore).
        exists (S i). split; [lia|]. split; [simpl; lia|].
        split; [exact Hmi|]. intros [|j] Hj; [exact Hm|].
        apply Hbefore. lia.
      * intros [|j] Hj; [exact Hm|]. apply IH. simpl in Hj. lia.
Qed.

(** X27 ([MyStrStrI]): the result is the first position of [pFirst] at
    which [pSrch] occurs, characters compared by [core_strnicmp], and null
    exactly when [pSrch] occurs at no position of [pFirst].  In an empty
    [pFirst] nothing is found, not even the empty string; in any other
    [pFirst] the empty string is found at position 0. *)
Theorem MyStrStrI_first (pFirst pSrch : list Z) :
  let occurs i :=
    Forall2 (fun a b => same_char a b = true)
      (take (length pSrch) (drop i pFirst)) pSrch in
  (forall i,
     MyStrStrI same_char pFirst pSrch = Some i
     <-> (i < length pFirst)%nat /\ occurs i
         /\ forall j, (j < i)%nat -> ~ occurs j)
  /\ (MyStrStrI same_char pFirst pSrch = None
      <-> forall j, (j < length pFirst)%nat -> ~ occurs j)
  /\ MyStrStrI same_char [] pSrch = None
  /\ (pFirst <> [] -> MyStrStrI same_char pFirst [] = Some 0%nat).
Proof.
  intros occurs.
  assert (Hocc : forall i, occurs i
                           <-> match_here same_char (drop i pFirst) pSrch = true).
  { intros i. symmetry. apply match_here_spec. }
  assert (Hnocc : forall i, ~ occurs i
                            <-> match_here same_char (drop i pFirst) pSrch = false).
  { intros i. rewrite Hocc. apply not_true_iff_false. }
  pose proof (MyStrStrI_from_spec pFirst pSrch 0) as Hspec.
  fold (MyStrStrI same_char pFirst pSrch) in Hspec.
  split; [|split; [|split]].
  - intros i. destruct (MyStrStrI same_char pFirst pSrch) as [r|].
    + destruct Hspec as (k & -> & Hk & Hmk & Hbefore). simpl. split.
      * intros [= <-]. split; [exact Hk|]. split; [apply Hocc, Hmk|].
        intros j Hj. apply Hnocc, Hbefore, Hj.
      * intros (Hi & Hoi & Hbi). f_equal.
        destruct (Nat.lt_trichotomy k i) as [Hlt|[->|Hgt]]; [|reflexivity|].
        -- exfalso. apply (Hbi k Hlt). apply Hocc, Hmk.
        -- exfalso. apply Hocc in Hoi. rewrite (Hbefore i Hgt) in Hoi.
           discriminate.
    + split; [discriminate|]. intros (Hi & Hoi & _). exfalso.
      apply Hocc in Hoi. rewrite (Hspec i Hi) in Hoi. discriminate.
  - destruct (MyStrStrI same_char pFirst pSrch) as [r|].
    + destruct Hspec as (k & -> & Hk & Hmk & _).
      split; [discriminate|]. intros Hall. exfalso.
      apply (Hall k Hk). apply Hocc, Hmk.
    + split; [|reflexivity]. intros _ j Hj. apply Hnocc, Hspec, Hj.
  - reflexivity.
  - destruct pFirst as [|c rest]; [contradiction|]. reflexivity.
Qed.

End StrStrFacts.

Lemma both_spec (f : bool -> bool) (b : bool) : both f = true -> f b = true.
Proof.
  unfold both. intros H. apply andb_prop in H as [Ht Hf].
  destruct b; assumption.
Qed.

(** X28 ([SetDriversInfo], [InitDriversCache]): the cache word written for
    a driver is between 0 and 0xfff, so it is never the -1 that makes
    [InitDriversCache] rebuild everything, and reading it back restores the
    eight cached flags and the low four bits of the screen count: the flag
    bits do not overlap, and adding them never carries. *)
Theorem driver_cache_round_trip (gameinfo : DriversInfo.t) :
  let cache := SetDriversInfo_cache gameinfo in
  0 <= cache <= 0xfff
  /\ InitDriversCache_entry cache
       (DriversInfo.isBroken gameinfo) (DriversInfo.supportsSaveState gameinfo)
       (DriversInfo.isVertical gameinfo) (DriversInfo.isImperfect gameinfo)
       (DriversInfo.isMechanical gameinfo) (DriversInfo.isBIOS gameinfo)
     = Some (DriversInfo.mk
               (Z.land (DriversInfo.screenCount gameinfo) 0xf)
               (DriversInfo.isClone gameinfo) (DriversInfo.isBroken gameinfo)
               (DriversInfo.isHarddisk gameinfo)
               (DriversInfo.hasOptionalBIOS gameinfo)
               (DriversInfo.isVector gameinfo) (DriversInfo.usesRoms gameinfo)
               (DriversInfo.usesSamples gameinfo)
               (DriversInfo.usesTrackball gameinfo)
               (DriversInfo.usesLightGun gameinfo)
               (DriversInfo.supportsSaveState gameinfo)
               (DriversInfo.isVertical gameinfo)
               (DriversInfo.isImperfect gameinfo)
               (DriversInfo.isMechanical gameinfo)
               (DriversInfo.isBIOS gameinfo)).
Proof.
  destruct gameinfo as [sc c br h b v r s t l sv vt im me bi].
  unfold SetDriversInfo_cache.
  cbn [DriversInfo.screenCount DriversInfo.isClone DriversInfo.isBroken
       DriversInfo.isHarddisk DriversInfo.hasOptionalBIOS DriversInfo.isVector
       DriversInfo.usesRoms DriversInfo.usesSamples DriversInfo.usesTrackball
       DriversInfo.usesLightGun DriversInfo.supportsSaveState
       DriversInfo.isVertical DriversInfo.isImperfect DriversInfo.isMechanical
       DriversInfo.isBIOS].
  pose proof (land_15_range sc) as Hlow.
  change DRIVER_CACHE_SCREEN with 15.
  revert Hlow. generalize (Z.land sc 15). intros low Hlow.
  set (word := fun (low : Z) (c h b v r s t l : bool) =>
         let add (f : bool) (flag cache : Z) :=
           if f then s32 (cache + flag) else cache in
         add l DRIVER_CACHE_LIGHTGUN
           (add t DRIVER_CACHE_TRACKBALL
              (add s DRIVER_CACHE_SAMPLES
                 (add r DRIVER_CACHE_ROMS
                    (add v DRIVER_CACHE_VECTOR
                       (add b DRIVER_CACHE_BIOS
                          (add h DRIVER_CACHE_HARDDISK
                             (add c DRIVER_CACHE_CLONE low)))))))).
  set (ok := fun (low : Z) (c h b v r s t l : bool) =>
         let cache := word low c h b v r s t l in
         let bit flag := negb (Z.land cache flag =? 0) in
         (0 <=? cache) && (cache <=? 0xfff) && negb (cache =? -1)
         && (Z.land cache 15 =? low)
         && Bool.eqb (bit DRIVER_CACHE_CLONE) c
         && Bool.eqb (bit DRIVER_CACHE_HARDDISK) h
         && Bool.eqb (bit DRIVER_CACHE_BIOS) b
         && Bool.eqb (bit DRIVER_CACHE_VECTOR) v
         && Bool.eqb (bit DRIVER_CACHE_ROMS) r
         && Bool.eqb (bit DRIVER_CACHE_SAMPLES) s
         && Bool.eqb (bit DRIVER_CACHE_TRACKBALL) t
         && Bool.eqb (bit DRIVER_CACHE_LIGHTGUN) l).
  range_check
    (fun low =>
       both (fun c => both (fun h => both (fun b => both (fun v =>
       both (fun r => both (fun s => both (fun t => both (fun l =>
         ok low c h b v r s t l))))))))) 16%nat Hc.
  specialize (Hc low Hlow).
  apply (both_spec _ c) in Hc. apply (both_spec _ h) in Hc.
  apply (both_spec _ b) in Hc. apply (both_spec _ v) in Hc.
  apply (both_spec _ r) in Hc. apply (both_spec _ s) in Hc.
  apply (both_spec _ t) in Hc. apply (both_spec _ l) in Hc.
  unfold ok in Hc. cbv zeta in Hc.
  fold (word low c h b v r s t l).
  generalize dependent (word low c h b v r s t l). intros cache Hc.
  repeat (apply andb_prop in Hc as [Hc ?]).
  repeat match goal with
         | H : Bool.eqb _ _ = true |- _ => apply Bool.eqb_prop in H
         | H : (_ =? _) = true |- _ => apply Z.eqb_eq in H
         | H : (_ <=? _) = true |- _ => apply Z.leb_le in H
         | H : negb _ = true |- _ => apply negb_true_iff in H
         end.
  split; [lia|].
  unfold InitDriversCache_entry.
  match goal with H : (_ =? -1) = false |- _ => rewrite H end.
  change DRIVER_CACHE_SCREEN with 15. f_equal. f_equal; assumption.
Qed.

(** X29 ([CenterWindow]): for rectangles with coordinates within 2^28, a
    window narrower than the rectangle it is centred in lies inside it
    horizontally, the margin on the right being the margin on the left or
    one more; a window that is not narrower is put at the left edge.  The
    same holds vertically. *)
Theorem CenterWindow_centered (rcWnd : RECT.t) (parent : option RECT.t)
    (cxfull cyfull : Z) :
  let rc := match parent with
            | Some rc => rc
            | None => RECT.mk 0 0 cxfull cyfull
            end in
  Forall (fun v => - 2 ^ 28 <= v <= 2 ^ 28)
    [RECT.left rcWnd; RECT.top rcWnd; RECT.right rcWnd; RECT.bottom rcWnd;
     RECT.left rc; RECT.top rc; RECT.right rc; RECT.bottom rc] ->
  let x := fst (CenterWindow rcWnd parent cxfull cyfull) in
  let y := snd (CenterWindow rcWnd parent cxfull cyfull) in
  let w := RECT.right rcWnd - RECT.left rcWnd in
  let h := RECT.bottom rcWnd - RECT.top rcWnd in
  let sw := RECT.right rc - RECT.left rc in
  let sh := RECT.bottom rc - RECT.top rc in
  (w < sw ->
   RECT.left rc <= x /\ x + w <= RECT.right rc
   /\ 0 <= (RECT.right rc - (x + w)) - (x - RECT.left rc) <= 1)
  /\ (sw <= w -> x = RECT.left rc)
  /\ (h < sh ->
      RECT.top rc <= y /\ y + h <= RECT.bottom rc
      /\ 0 <= (RECT.bottom rc - (y + h)) - (y - RECT.top rc) <= 1)
  /\ (sh <= h -> y = RECT.top rc).
Proof.
  intros rc Hall x y w h sw sh.
  inversion Hall as [|? ? H1 Hall1]; subst. clear Hall.
  inversion Hall1 as [|? ? H2 Hall2]; subst. clear Hall1.
  inversion Hall2 as [|? ? H3 Hall3]; subst. clear Hall2.
  inversion Hall3 as [|? ? H4 Hall4]; subst. clear Hall3.
  inversion Hall4 as [|? ? H5 Hall5]; subst. clear Hall4.
  inversion Hall5 as [|? ? H6 Hall6]; subst. clear Hall5.
  inversion Hall6 as [|? ? H7 Hall7]; subst. clear Hall6.
  inversion Hall7 as [|? ? H8 _]; subst. clear Hall7.
  change (2 ^ 28) with 268435456 in *.
  assert (Hhalf : forall a, 0 < a ->
            0 <= Z.quot a 2 /\ 0 <= a - 2 * Z.quot a 2 <= 1).
  { intros a Ha. rewrite Z.quot_div_nonneg by lia.
    pose proof (Z.div_mod a 2 ltac:(lia)).
    pose proof (Z.mod_pos_bound a 2 ltac:(lia)). lia. }
  subst x y. unfold CenterWindow. fold rc. cbn [fst snd].
  fold w h sw sh.
  assert (Hw : s32 w = w) by (apply s32_small; subst w; lia).
  assert (Hh : s32 h = h) by (apply s32_small; subst h; lia).
  assert (Hsw : s32 sw = sw) by (apply s32_small; subst sw; lia).
  assert (Hsh : s32 sh = sh) by (apply s32_small; subst sh; lia).
  rewrite Hw, Hh, Hsw, Hsh.
  assert (Hdw : s32 (sw - w) = sw - w) by (apply s32_small; subst sw w; lia).
  assert (Hdh : s32 (sh - h) = sh - h) by (apply s32_small; subst sh h; lia).
  rewrite Hdw, Hdh.
  split; [|split; [|split]].
  - intros Hlt. destruct (Z.gtb_spec sw w); [|lia].
    destruct (Hhalf (sw - w) ltac:(lia)) as [Hq Hr].
    rewrite s32_small by (subst sw w; lia). subst sw w. lia.
  - intros Hge. destruct (Z.gtb_spec sw w); [lia|reflexivity].
  - intros Hlt. destruct (Z.gtb_spec sh h); [|lia].
    destruct (Hhalf (sh - h) ltac:(lia)) as [Hq Hr].
    rewrite s32_small by (subst sh h; lia). subst sh h. lia.
  - intros Hge. destruct (Z.gtb_spec sh h); [lia|reflexivity].
Qed.

Lemma load_all_spec (loads : list (Z * list Z)) (acc : list Z) :
  Z.of_nat (length acc) < BUF_SIZE ->
  let texts := concat (map snd (List.filter (fun p => fst p =? 0) loads)) in
  load_all acc loads
  = if Z.of_nat (length (acc ++ texts)) <? BUF_SIZE
    then Some (acc ++ texts) else None.
Proof.
  cbv zeta. revert acc. induction loads as [|[status text] loads IH];
    intros acc Hacc.
  - simpl. rewrite app_nil_r.
    destruct (Z.ltb_spec (Z.of_nat (length acc)) BUF_SIZE); [reflexivity|lia].
  - cbn [load_all List.filter fst]. unfold load_into. cbn [fst snd].
    destruct (Z.eqb_spec status 0) as [E|E].
    + cbn [map snd concat]. unfold strcat_buf.
      destruct (Z.ltb_spec (Z.of_nat (length acc + length text)) BUF_SIZE)
        as [Hlt|Hge]; cbn [mbind option_bind].
      * rewrite IH by (rewrite length_app; exact Hlt).
        rewrite <- !app_assoc. reflexivity.
      * destruct (Z.ltb_spec
                    (Z.of_nat
                       (length
                          (acc ++ text
                             ++ concat
                                  (map snd
                                     (List.filter (fun p => fst p =? 0)
                                        loads)))))
                    BUF_SIZE) as [Hlt|]; [|reflexivity].
        rewrite !length_app in Hlt. lia.
    + cbn [mbind option_bind]. apply IH, Hacc.
Qed.

(** X30 ([GetGameHistory]): the result is the concatenation, in the order
    of the calls, of the texts of the loaders that returned 0, with every
    line feed replaced by carriage return and line feed, provided that fits
    a buffer of [2048 * 2048] characters; otherwise a buffer is written
    past its end. *)
Theorem GetGameHistory_spec
    (history initinfo mameinfo driverinfo scoreinfo : Z * list Z) :
  let loads := [history; initinfo; mameinfo; driverinfo; scoreinfo] in
  let texts := concat (map snd (List.filter (fun p => fst p =? 0) loads)) in
  let out := flat_map (fun c => if c =? 10 then [13; 10] else [c]) texts in
  GetGameHistory history initinfo mameinfo driverinfo scoreinfo
  = if Z.of_nat (length out) <? 2048 * 2048 then Some out else None.
Proof.
  intros loads texts out. fold (windows_newlines texts) in out. subst out.
  assert (Hall : GetGameHistory history initinfo mameinfo driverinfo scoreinfo
                 = load_all [] loads ≫= ConvertToWindowsNewlines).
  { unfold GetGameHistory, loads. cbn [load_all].
    repeat (match goal with
            | |- context [load_into ?b ?l] =>
                destruct (load_into b l); cbn [mbind option_bind];
                [|reflexivity]
            end).
    reflexivity. }
  rewrite Hall, (load_all_spec loads []) by (unfold BUF_SIZE; simpl; lia).
  fold texts. cbn [app].
  destruct (Z.ltb_spec (Z.of_nat (length texts)) BUF_SIZE) as [Hlt|Hge];
    cbn [mbind option_bind].
  - apply (ConvertToWindowsNewlines_from_spec texts []).
  - destruct (Z.ltb_spec (Z.of_nat (length (windows_newlines texts)))
                (2048 * 2048)) as [Hlt|]; [|reflexivity].
    exfalso. rewrite windows_newlines_length in Hlt.
    unfold BUF_SIZE in Hge. lia.
Qed.

(** ** The properties on the concrete device *)

Lemma Forall_forallb {A : Type} (P : A -> Prop) (p : A -> bool) (l : list A) :
  (forall x, p x = true -> P x) -> forallb p l = true -> Forall P l.
Proof.
  intros Hp H. apply List.Forall_forall. intros x Hx.
  apply Hp. rewrite forallb_forall in H. apply H, Hx.
Qed.

Lemma example_tables_ready : tables_ready example_tables.
Proof.
  unfold tables_ready.
  refine (conj example_tables_wf (conj _ (conj _ (conj _ (conj _ (conj _
            (conj _ (conj _ (conj _ (conj _ (conj _ (conj _ _)))))))))))).
  1, 2: apply (Forall_forallb _ (fun x => (0 <=? x) && (x <=? 2 ^ 30)));
        [intros x Hx; apply andb_true_iff in Hx as [H1 H2];
         apply Z.leb_le in H1; apply Z.leb_le in H2; lia
        |vm_compute; reflexivity].
  1, 3, 5, 7: vm_compute; reflexivity.
  1, 2: apply (Forall_forallb _ (fun x => (0 <=? x) && (x <? 256)));
        [intros x Hx; apply andb_true_iff in Hx as [H1 H2];
         apply Z.leb_le in H1; apply Z.ltb_lt in H2; lia
        |vm_compute; reflexivity].
  1, 2: apply (Forall_forallb _ (fun t => Nat.eqb (length t) 256));
        [intros x Hx; apply Nat.eqb_eq, Hx|vm_compute; reflexivity].
  - exact example_rate_ok.
  - apply (Forall_forallb _ (fun x => (0 <=? x) && (x <? 2 ^ 32)));
      [|vm_compute; reflexivity].
    intros x Hx. apply andb_true_iff in Hx as [H1 H2].
    apply Z.leb_le in H1. apply Z.ltb_lt in H2. lia.
Qed.

Lemma voice_ok_example (slot : Slot.t) :
  length (Slot.m_regs slot) = 8%nat ->
  forallb (fun b => (0 <=? b) && (b <? 256)) (Slot.m_regs slot) = true ->
  reg (Slot.m_regs slot) 6 = 0 ->
  reg (Slot.m_regs slot) 7 = 0 ->
  Slot.m_pan slot = 0 ->
  Slot.m_total_level slot = 0 ->
  Slot.m_dest_total_level slot = 0 ->
  envelope_wf 16 (Slot.m_envelope_gen slot) ->
  voice_ok 12 16 (-152) 76 slot.
Proof.
  intros Hlen Hbytes H6 H7 Hpan Htl Hdest Henv.
  unfold voice_ok, slot_wf, ramp_wf. rewrite H6, H7, Hpan, Htl, Hdest.
  cbv zeta. change (Z.shiftr 0 12) with 0.
  split; [|split].
  - split; [exact Hlen|]. split; [lia|]. split; [lia|]. split; [exact Henv|].
    split; intros H; exfalso; apply H; reflexivity.
  - split; [lia|]. split; [lia|]. left. reflexivity.
  - apply (Forall_forallb _ (fun b => (0 <=? b) && (b <? 256)));
      [|exact Hbytes].
    intros x Hx. apply andb_true_iff in Hx as [H1 H2].
    apply Z.leb_le in H1. apply Z.ltb_lt in H2. lia.
Qed.

Ltac example_voice :=
  apply voice_ok_example; try reflexivity;
  unfold envelope_wf; cbn; change (Z.shiftl 1023 16) with 67043328; lia.

Lemma slot_init_ok : voice_ok 12 16 (-152) 76 slot_init.
Proof. example_voice. Qed.

Lemma slot_playing_ok : voice_ok 12 16 (-152) 76 slot_playing.
Proof. example_voice. Qed.

Lemma slot_decaying_ok : voice_ok 12 16 (-152) 76 slot_decaying.
Proof. example_voice. Qed.

Lemma slot_released_ok : voice_ok 12 16 (-152) 76 slot_released.
Proof. example_voice. Qed.

Lemma slot_held_ok : voice_ok 12 16 (-152) 76 slot_held.
Proof. example_voice. Qed.

Lemma slot_low_octave_ok : voice_ok 12 16 (-152) 76 slot_low_octave.
Proof. example_voice. Qed.

Lemma device_init_ok : device_ok 12 16 (-152) 76 device_init.
Proof.
  unfold device_ok. split; [reflexivity|]. split.
  - apply Forall_forall. intros s Hs.
    apply list_elem_of_In, repeat_spec in Hs. subst s. exact slot_init_ok.
  - simpl. lia.
Qed.

Lemma device_low_octave_ok : device_ok 12 16 (-152) 76 device_low_octave.
Proof.
  unfold device_ok. split; [reflexivity|]. split.
  - apply Forall_cons. split; [exact slot_low_octave_ok|].
    apply Forall_forall. intros s Hs.
    apply list_elem_of_In, repeat_spec in Hs. subst s. exact slot_init_ok.
  - simpl. lia.
Qed.

Lemma write_voice_select_witness :
  0 <= 9 < 256
  /\ write 12 rom_zero example_tables device_init 1 9
     = Some {| m_slots := m_slots device_init; m_cur_slot := 8;
               m_address := m_address device_init |}.
Proof.
  split; [lia|].
  exact (proj1 (write_voice_select 12 rom_zero example_tables device_init 9
                  ltac:(lia))).
Defined.

Lemma write_data_frame_witness :
  exists d',
    write 12 rom_zero example_tables device_init 0 0x50 = Some d'
    /\ length (m_slots d') = 28%nat
    /\ idx (m_slots d') 5 = Some slot_init
    /\ m_cur_slot d' = 0.
Proof.
  assert (Hw : exists d',
             write 12 rom_zero example_tables device_init 0 0x50 = Some d')
    by (eexists; vm_compute; reflexivity).
  destruct Hw as [d' Hw]. exists d'. split; [exact Hw|].
  destruct (write_data_frame 12 rom_zero example_tables device_init d' 0x50 Hw)
    as (slot & slot' & _ & _ & _ & Hother & Hlen & Hcur & _).
  split; [rewrite Hlen; reflexivity|]. split; [|exact Hcur].
  rewrite (Hother 5); [reflexivity|]. simpl. lia.
Defined.

Lemma write_slot_register_image_witness :
  exists slot',
    write_slot 12 rom_zero example_tables slot_init 5 0x50 = Some slot'
    /\ Slot.m_regs slot' = [0; 0; 0; 0; 0; 0x50; 0; 0].
Proof.
  assert (Hw : exists slot',
             write_slot 12 rom_zero example_tables slot_init 5 0x50
             = Some slot')
    by (eexists; vm_compute; reflexivity).
  destruct Hw as [slot' Hw]. exists slot'. split; [exact Hw|].
  exact (proj2 (write_slot_register_image 12 rom_zero example_tables
                  slot_init slot' 5 0x50 eq_refl Hw)).
Defined.

Lemma write_slot_sample_select_witness :
  exists slot',
    write_slot 12 rom_attack_1 example_tables slot_near_end 1 0 = Some slot'
    /\ Sample.m_attack_reg (Slot.m_sample slot') = 1
    /\ Slot.m_offset slot' = 0
    /\ EnvGen.m_volume (Slot.m_envelope_gen slot') = 0.
Proof.
  assert (Hw : exists slot',
             write_slot 12 rom_attack_1 example_tables slot_near_end 1 0
             = Some slot')
    by (eexists; vm_compute; reflexivity).
  destruct Hw as [slot' Hw]. exists slot'. split; [exact Hw|].
  destruct (write_slot_sample_select 12 rom_attack_1 example_tables
              slot_near_end slot' 0 eq_refl Hw)
    as (Hsmp & _ & _ & _ & _ & _ & _ & _ & Hplay).
  destruct (Hplay eq_refl) as (Hoff & _ & _ & _ & Hvol).
  split; [rewrite Hsmp; vm_compute; reflexivity|].
  split; [exact Hoff|exact Hvol].
Defined.

Lemma write_slot_frame_witness :
  exists slot',
    write_slot 12 rom_zero example_tables slot_near_end 5 0x50 = Some slot'
    /\ Slot.m_offset slot' = 99 * 4096
    /\ Slot.m_playing slot' = true
    /\ Slot.m_sample slot' = Slot.m_sample slot_near_end.
Proof.
  assert (Hw : exists slot',
             write_slot 12 rom_zero example_tables slot_near_end 5 0x50
             = Some slot')
    by (eexists; vm_compute; reflexivity).
  destruct Hw as [slot' Hw]. exists slot'. split; [exact Hw|].
  destruct (write_slot_frame 12 rom_zero example_tables slot_near_end slot'
              5 0x50 eq_refl Hw)
    as (_ & Hsmp & _ & Hplay & _ & Hoff & _).
  split; [apply Hoff; lia|]. split; [apply Hplay; lia|].
  apply Hsmp. lia.
Defined.

Lemma write_keeps_device_ok_witness :
  exists d',
    write 12 rom_zero example_tables device_init 0 0x50 = Some d'
    /\ device_ok 12 16 (-152) 76 d'.
Proof.
  assert (Hw : exists d',
             write 12 rom_zero example_tables device_init 0 0x50 = Some d')
    by (eexists; vm_compute; reflexivity).
  destruct Hw as [d' Hw]. exists d'. split; [exact Hw|].
  apply (write_keeps_device_ok 12 16 rom_zero example_tables (-152) 76
           ltac:(lia) ltac:(lia) example_tables_ready example_steps_ok
           device_init d' 0 0x50 device_init_ok ltac:(lia) Hw).
Defined.

Lemma write_data_defined_witness :
  write 12 rom_zero example_tables device_low_octave 0 0x80 = None.
Proof.
  apply (write_data_defined 12 16 rom_zero example_tables (-152) 76
           ltac:(lia) ltac:(lia) example_tables_ready example_steps_ok
           device_low_octave 0x80 slot_low_octave device_low_octave_ok
           ltac:(lia) eq_refl).
  left. split; [reflexivity|]. split; [discriminate|].
  unfold rates_in_table. vm_compute. intros (H & _). apply H. reflexivity.
Defined.

Lemma sound_stream_update_total_witness :
  exists d' out,
    sound_stream_update 12 16 8 rom_zero example_tables 2 device_init
    = Some (d', out)
    /\ device_ok 12 16 (-152) 76 d'
    /\ length out = 2%nat.
Proof.
  exact (sound_stream_update_total 12 16 8 rom_zero example_tables (-152) 76
           ltac:(lia) ltac:(lia) example_tables_ready example_steps_ok
           2 device_init device_init_ok).
Defined.

Lemma sound_stream_update_silence_witness :
  sound_stream_update 12 16 8 rom_zero example_tables 3 device_init
  = Some (device_init, [(0, 0); (0, 0); (0, 0)]).
Proof.
  apply (sound_stream_update_silence 12 16 8 rom_zero example_tables 3
           device_init).
  apply Forall_forall. intros s Hs.
  apply list_elem_of_In, repeat_spec in Hs. subst s. reflexivity.
Defined.

Lemma sound_stream_update_stopped_voice_witness :
  exists d' out,
    sound_stream_update 12 16 8 rom_zero example_tables 2 device_playing
    = Some (d', out)
    /\ idx (m_slots d') 5 = Some slot_init.
Proof.
  assert (Hu : exists d' out,
             sound_stream_update 12 16 8 rom_zero example_tables 2
               device_playing = Some (d', out))
    by (do 2 eexists; vm_compute; reflexivity).
  destruct Hu as (d' & out & Hu). exists d', out. split; [exact Hu|].
  apply (sound_stream_update_stopped_voice 12 16 8 rom_zero example_tables 2
           device_playing d' out 5 slot_init Hu eq_refl eq_refl).
Defined.

Lemma envelope_generator_update_states_witness :
  exists slot' gain,
    envelope_generator_update 12 16 example_tables slot_near_end
    = Some (slot', gain)
    /\ 0x3fe0000 <= EnvGen.m_volume (Slot.m_envelope_gen slot')
    /\ EnvGen.m_attack_rate (Slot.m_envelope_gen slot') = 3381651.
Proof.
  destruct (envelope_generator_update_states 12 16 example_tables
              ltac:(lia) eq_refl slot_near_end)
    as (slot' & gain & Hu & _ & _ & _ & Hup & _ & _ & Har & _).
  - unfold envelope_wf. vm_compute. intuition congruence.
  - exists slot', gain. split; [exact Hu|]. split; [|exact Har].
    apply Hup. reflexivity.
Defined.

Lemma release_stops_witness :
  exists n slot',
    1 <= Z.of_nat n <= 6
    /\ ticks 12 16 8 rom_zero example_tables n slot_released = Some slot'
    /\ Slot.m_playing slot' = false.
Proof.
  destruct (release_stops 12 16 8 rom_zero example_tables (-152) 76
              ltac:(lia) ltac:(lia) example_tables_ready example_steps_ok
              slot_released slot_released_ok eq_refl eq_refl ltac:(simpl; lia))
    as (n & slot' & Hn & Ht & Hplay & _).
  exists n, slot'. split; [exact Hn|]. split; [exact Ht|exact Hplay].
Defined.

Lemma decay2_sustains_witness :
  exists sn,
    ticks 12 16 8 rom_zero example_tables 3 slot_decaying = Some sn
    /\ Slot.m_playing sn = true
    /\ EnvGen.m_volume (Slot.m_envelope_gen sn) = 49.
Proof.
  destruct (decay2_sustains 12 16 8 rom_zero example_tables (-152) 76
              ltac:(lia) ltac:(lia) example_tables_ready example_steps_ok
              3 slot_decaying slot_decaying_ok eq_refl eq_refl)
    as (sn & Ht & Hplay & _ & Hvol).
  exists sn. split; [exact Ht|]. split; [exact Hplay|exact Hvol].
Defined.

Lemma release_rate_zero_sustains_witness :
  exists sn,
    ticks 12 16 8 rom_zero example_tables 1000 slot_held = Some sn
    /\ Slot.m_playing sn = true
    /\ Slot.m_envelope_gen sn = Slot.m_envelope_gen slot_held.
Proof.
  exact (release_rate_zero_sustains 12 16 8 rom_zero example_tables (-152) 76
           ltac:(lia) ltac:(lia) example_tables_ready example_steps_ok
           1000 slot_held slot_held_ok eq_refl eq_refl eq_refl
           ltac:(simpl; lia)).
Defined.

Lemma get_rate_cases_witness :
  length example_attack_step = 64%nat
  /\ get_rate example_attack_step (u32 (-16)) 1 = None
  /\ get_rate example_attack_step (u32 (-2)) 1 = Some 0
  /\ get_rate example_attack_step (u32 45) 14 = Some 67108864.
Proof.
  split; [reflexivity|]. split; [|split].
  - exact (get_rate_cases example_attack_step (-16) 1 eq_refl
             ltac:(lia) ltac:(lia)).
  - exact (get_rate_cases example_attack_step (-2) 1 eq_refl
             ltac:(lia) ltac:(lia)).
  - exact (get_rate_cases example_attack_step 45 14 eq_refl
             ltac:(lia) ltac:(lia)).
Defined.

Lemma envelope_generator_calc_defined_witness :
  calc_rate slot_low_octave = -16
  /\ envelope_generator_calc example_tables slot_low_octave = None.
Proof.
  split; [reflexivity|].
  apply (envelope_generator_calc_defined example_tables slot_low_octave
           eq_refl eq_refl).
  - vm_compute. intuition congruence.
  - vm_compute. intuition congruence.
  - repeat constructor; vm_compute; congruence.
  - exists 1. split; [left; reflexivity|]. vm_compute. intuition congruence.
Defined.

Lemma decode_sample_packing_witness :
  decode_sample rom_zero slot_12bit 2 = decode_sample rom_attack_1 slot_12bit 2.
Proof.
  apply (proj2 (decode_sample_packing rom_zero rom_attack_1 slot_12bit 0
                  ltac:(discriminate))); [|lia].
  intros i Hi.
  change (u32 (Slot.m_base slot_12bit + 0 * 6)) with 0.
  rewrite u32_small by lia.
  unfold read_byte, rom_zero, rom_attack_1.
  replace (0 + i =? 8) with false by (symmetry; apply Z.eqb_neq; lia).
  reflexivity.
Defined.

Lemma value_to_fixed_floor_witness :
  value_to_fixed 12 f32_one = Some 4096
  /\ value_to_fixed 12 (S754_finite false 12582912 (-23)) = Some 6144.
Proof.
  destruct (value_to_fixed_floor 12 (S754_finite false 12582912 (-23))
              ltac:(lia))
    as (Hv & Hone & _).
  split; [exact Hone|].
  rewrite Hv; vm_compute; reflexivity.
Defined.

Lemma lfo_init_waveforms_witness :
  exists p a,
    idx pitch_table_init 10 = Some p
    /\ idx amplitude_table_init 10 = Some a
    /\ idx pitch_table_init 138 = Some (256 - p)
    /\ idx amplitude_table_init 138 = Some (255 - a).
Proof.
  destruct (lfo_init_waveforms 10 ltac:(lia)) as (p & a & Hp & Ha & _ & _ & Hh).
  exists p, a. split; [exact Hp|]. split; [exact Ha|].
  apply Hh. lia.
Defined.

Lemma envelope_steps_init_ok_witness :
  exists attack decay,
    envelope_steps_init 16 = Some (attack, decay)
    /\ length attack = 64%nat /\ length decay = 64%nat
    /\ attack !! 63%nat = Some 67108864.
Proof.
  destruct (envelope_steps_init_ok 16 ltac:(lia))
    as (attack & decay & Hi & Ha & Hd & _ & _ & Hlast & _).
  exists attack, decay. split; [exact Hi|]. split; [exact Ha|].
  split; [exact Hd|exact Hlast].
Defined.

Lemma total_level_steps_init_ok_witness :
  exists down up,
    total_level_steps_init 12 = Some [down; up]
    /\ -4096 <= down < 0 /\ 0 < up <= 4096.
Proof.
  exact (total_level_steps_init_ok 12 ltac:(lia)).
Defined.

Lemma CenterWindow_centered_witness :
  CenterWindow (RECT.mk 0 0 100 50) None 640 480 = (270, 215)
  /\ 0 <= 270 /\ 270 + 100 <= 640.
Proof.
  split; [reflexivity|].
  destruct (CenterWindow_centered (RECT.mk 0 0 100 50) None 640 480)
    as (Hx & _).
  - repeat constructor; simpl; lia.
  - destruct Hx as (Hl & Hr & _); [simpl; lia|].
    simpl in Hl, Hr. split; [exact Hl|exact Hr].
Defined.
